(** * After-read field promise of the payload repository

    A shallow embedding of
    [packages/payload/src/fields/hooks/afterRead/promise.ts] and the
    properties of its steps: hidden-field removal, locale hoisting,
    sanitization, hook execution, read access control, default values,
    population scheduling and the type-directed recursion.

    Conventions of the embedding.
    - Documents are JSON-like trees ([JsValue]).  The source mutates the
      sibling container in place and hands nested containers to the
      recursion by reference; here the sibling container is a component of
      the state, and a nested container that the recursion mutated is stored
      back into the slot it came from.  A container created on the spot
      ([{}]) has no slot and is dropped after the recursion.
    - Property reads see own properties only.  Arrays hold their elements;
      a named (non-index) property on an array is not represented.
    - [await] is treated as running the awaited call to completion.  Hooks,
      the access predicate and the default resolver are total functions of
      the arguments they are called with and do not mutate them, but for the
      two queues, onto which the hooks of a rich-text editor may push; the
      root document is passed on to them as [promise] received it.
    - An exception leaves the state reached so far and a rejected completion.
    - The state carries a log of the calls made to hooks, access predicate,
      default resolver, [relationshipPopulationPromise] and [traverseFields];
      the log is not part of the program, the claims about order and about
      what is or is not called are stated on it. *)

From Stdlib Require Import List String Ascii ZArith Bool Lia DecimalString.
Import ListNotations.
Set Warnings "-register-all".
Local Open Scope string_scope.
Local Open Scope list_scope.

(** ** JavaScript values *)

Inductive JsValue : Type :=
| VUndefined
| VNull
| VBool (b : bool)
| VNum (n : Z)
| VStr (s : string)
| VArr (elems : list JsValue)
| VObj (props : list (string * JsValue)).

(** An object: its own properties in the order [Object.entries] lists them. *)
Definition Obj := list (string * JsValue).

Inductive TypeTag := TyUndefined | TyObject | TyBoolean | TyNumber | TyString.

Definition typeof (v : JsValue) : TypeTag :=
  match v with
  | VUndefined => TyUndefined
  | VNull | VArr _ | VObj _ => TyObject
  | VBool _ => TyBoolean
  | VNum _ => TyNumber
  | VStr _ => TyString
  end.

Definition isUndefined (v : JsValue) : bool :=
  match v with VUndefined => true | _ => false end.

Definition isNull (v : JsValue) : bool :=
  match v with VNull => true | _ => false end.

Definition isObjectType (v : JsValue) : bool :=
  match typeof v with TyObject => true | _ => false end.

Definition isEmptyString (v : JsValue) : bool :=
  match v with VStr "" => true | _ => false end.

(** [ToBoolean]. *)
Definition truthy (v : JsValue) : bool :=
  match v with
  | VUndefined | VNull => false
  | VBool b => b
  | VNum n => negb (Z.eqb n 0)
  | VStr s => negb (String.eqb s "")
  | VArr _ | VObj _ => true
  end.

(** [a || b] on values. *)
Definition orElse (a b : JsValue) : JsValue := if truthy a then a else b.

(** [slug === v] for a string [slug]. *)
Definition strictEqStr (slug : string) (v : JsValue) : bool :=
  match v with VStr s => String.eqb slug s | _ => false end.

(** Values that are handed over by reference. *)
Definition isRef (v : JsValue) : bool :=
  match v with VArr _ | VObj _ => true | _ => false end.

Inductive Err := MissingEditorProp | UnsanitizedEditor | TypeError.

Definition isConfigError (e : Err) : bool :=
  match e with MissingEditorProp | UnsanitizedEditor => true | TypeError => false end.

(** *** Own properties *)

Fixpoint lookup (k : string) (o : Obj) : option JsValue :=
  match o with
  | [] => None
  | (k', v) :: rest => if String.eqb k k' then Some v else lookup k rest
  end.

(** Assignment keeps the position of an existing key and appends a new one. *)
Fixpoint assign (k : string) (v : JsValue) (o : Obj) : Obj :=
  match o with
  | [] => [(k, v)]
  | (k', v') :: rest =>
      if String.eqb k k' then (k', v) :: rest else (k', v') :: assign k v rest
  end.

Fixpoint remove (k : string) (o : Obj) : Obj :=
  match o with
  | [] => []
  | (k', v') :: rest =>
      if String.eqb k k' then remove k rest else (k', v') :: remove k rest
  end.

Definition hasOwn (k : string) (o : Obj) : bool :=
  match lookup k o with Some _ => true | None => false end.

(** The property key of an array index. *)
Definition indexKey (i : nat) : string := NilEmpty.string_of_uint (Nat.to_uint i).

Fixpoint lookupIndex (k : string) (i : nat) (l : list JsValue) : option JsValue :=
  match l with
  | [] => None
  | x :: rest => if String.eqb k (indexKey i) then Some x else lookupIndex k (S i) rest
  end.

Fixpoint assignIndex (k : string) (v : JsValue) (i : nat) (l : list JsValue)
  : list JsValue :=
  match l with
  | [] => []
  | x :: rest =>
      if String.eqb k (indexKey i) then v :: rest else x :: assignIndex k v (S i) rest
  end.

(** [o[k]]: a [TypeError] on [null] and [undefined]. *)
Definition getProp (o : JsValue) (k : string) : Err + JsValue :=
  match o with
  | VUndefined | VNull => inl TypeError
  | VObj kvs => inr (match lookup k kvs with Some v => v | None => VUndefined end)
  | VArr l =>
      if String.eqb k "length" then inr (VNum (Z.of_nat (List.length l)))
      else inr (match lookupIndex k 0 l with Some v => v | None => VUndefined end)
  | VBool _ | VNum _ | VStr _ => inr VUndefined
  end.

(** [o[k] = v] in strict mode: a [TypeError] on anything that is not an
    object. *)
Definition setProp (o : JsValue) (k : string) (v : JsValue) : Err + JsValue :=
  match o with
  | VObj kvs => inr (VObj (assign k v kvs))
  | VArr l => inr (VArr (assignIndex k v 0 l))
  | _ => inl TypeError
  end.

(** [delete o[k]]. *)
Definition deleteProp (o : JsValue) (k : string) : Err + JsValue :=
  match o with
  | VUndefined | VNull => inl TypeError
  | VObj kvs => inr (VObj (remove k kvs))
  | VArr l => inr (VArr (assignIndex k VUndefined 0 l))
  | _ => inr o
  end.

(** [o?.k]. *)
Definition getPropOpt (o : JsValue) (k : string) : JsValue :=
  match getProp o k with inr v => v | inl _ => VUndefined end.

Fixpoint indexed (i : nat) (l : list JsValue) : Obj :=
  match l with
  | [] => []
  | x :: rest => (indexKey i, x) :: indexed (S i) rest
  end.

(** [Object.entries(o)]: a [TypeError] on [null] and [undefined]. *)
Definition entries (o : JsValue) : Err + Obj :=
  match o with
  | VUndefined | VNull => inl TypeError
  | VObj kvs => inr kvs
  | VArr l => inr (indexed 0 l)
  | _ => inr []
  end.

(** ** Field configuration *)

Inductive FieldType :=
| Text | Textarea | Number | Email | Code | Json | Date | Checkbox | Select
| Radio | Point | Relationship | Upload | Join | RichText | Group | Array
| Blocks | Row | Collapsible | Tab | Tabs | UI.

Inductive Segment := SegIndex (i : nat) | SegName (s : string).
Definition Path := list Segment.
Definition SchemaPath := list string.

Inductive Operation := OpRead.

Record Request := mkRequest {
  user : JsValue;
  (** [req.payload.config.localization] is truthy *)
  localization : bool }.

(** The arguments a field's after-read hook receives.  Four arguments of
    the source are left out: [collection], [context] and [global], which
    [promise] hands on as it got them and never reads, and [field], the
    configuration that holds the hook itself. *)
Record HookArgs := mkHookArgs {
  h_currentDepth : nat;
  h_data : JsValue;
  h_depth : nat;
  h_draft : bool;
  h_findMany : bool;
  h_operation : Operation;
  h_originalDoc : JsValue;
  h_overrideAccess : bool;
  h_path : Path;
  h_req : Request;
  h_schemaPath : SchemaPath;
  h_showHiddenFields : bool;
  h_siblingData : JsValue;
  h_value : JsValue }.

Definition Hook := HookArgs -> JsValue.

(** How a promise settles. *)
Inductive Settled := Fulfilled | Rejected (e : Err).

(** The arguments a rich-text editor's after-read hook receives.  The two
    queues are handed over by reference, for the hook to push onto.  Of what
    is queued when the hook is called it is given the field promises and the
    length of the population queue: the promises of that queue are opaque to
    a hook, and the tasks they stand for hold field configurations, which in
    turn hold the hooks. *)
Record EditorHookArgs := mkEditorHookArgs {
  e_base : HookArgs;
  e_fallbackLocale : option string;
  e_fieldPromises : list Settled;
  e_flattenLocales : bool;
  e_locale : option string;
  e_populationPromises : nat;
  e_triggerAccessControl : bool;
  e_triggerHooks : bool }.

(** What a call of an editor's hook does: the value it answers with and the
    promises it pushed onto the field-promise and the population queue. *)
Record EditorHookResult := mkEditorHookResult {
  eh_value : JsValue;
  eh_fieldPromises : list Settled;
  eh_populationPromises : list Settled }.

Definition EditorHook := EditorHookArgs -> EditorHookResult.

Record AccessArgs := mkAccessArgs {
  acc_id : JsValue;
  acc_data : JsValue;
  acc_doc : JsValue;
  acc_req : Request;
  acc_siblingData : JsValue }.

Definition AccessRead := AccessArgs -> bool.

(** [field.defaultValue]: a literal or a function of the user and locale. *)
Inductive DefaultValue :=
| DefaultLiteral (v : JsValue)
| DefaultFunction (f : JsValue -> option string -> JsValue).

(** [field.editor]. *)
Inductive Editor :=
| EditorAbsent
| EditorFactory
| EditorAdapter (afterRead : option (list EditorHook)).

Inductive Field : Type := mkField {
  type : FieldType;
  name : option string;
  localized : bool;
  hidden : bool;
  hooks_afterRead : option (list Hook);
  access_read : option AccessRead;
  defaultValue : option DefaultValue;
  editor : Editor;
  fields : list Field;
  blocks : list Block;
  tabs : list Field }
with Block : Type := mkBlock {
  slug : string;
  block_fields : list Field }.

(** [{ ...tab, type: 'tab' }]. *)
Definition asTab (tab : Field) : Field :=
  mkField Tab (name tab) (localized tab) (hidden tab) (hooks_afterRead tab)
    (access_read tab) (defaultValue tab) (editor tab) (fields tab) (blocks tab)
    (tabs tab).

(** [typeof field.defaultValue !== 'undefined']. *)
Definition defaultConfigured (f : Field) : bool :=
  match defaultValue f with
  | None | Some (DefaultLiteral VUndefined) => false
  | Some _ => true
  end.

(** The key [field.name] denotes in [siblingDoc[field.name]]. *)
Definition slotKey (f : Field) : string :=
  match name f with Some n => n | None => "undefined" end.

(** The key a locale denotes in [value[locale]]. *)
Definition localeKey (l : option string) : string :=
  match l with Some s => s | None => "null" end.

Definition isAll (l : option string) : bool :=
  match l with Some s => String.eqb s "all" | None => false end.

Definition sameLocale (a b : option string) : bool :=
  match a, b with
  | Some x, Some y => String.eqb x y
  | None, None => true
  | _, _ => false
  end.

(** [fallbackLocale && fallbackLocale !== locale]. *)
Definition fallbackApplies (fallback locale : option string) : bool :=
  match fallback with
  | Some s => negb (String.eqb s "") && negb (sameLocale fallback locale)
  | None => false
  end.

(** ** Arguments, queues and state *)

(** The immutable arguments of [promise]; the field is passed next to them,
    the sibling container and the two queues are in the [State]. *)
Record Args := mkArgs {
  currentDepth : nat;
  depth : nat;
  doc : Obj;
  draft : bool;
  fallbackLocale : option string;
  fieldIndex : nat;
  findMany : bool;
  flattenLocales : bool;
  locale : option string;
  overrideAccess : bool;
  parentPath : Path;
  parentSchemaPath : SchemaPath;
  req : Request;
  showHiddenFields : bool;
  triggerAccessControl : bool;
  triggerHooks : bool }.

(** What [relationshipPopulationPromise] is called with. *)
Record PopulationTask := mkPopulationTask {
  p_currentDepth : nat;
  p_depth : nat;
  p_draft : bool;
  p_fallbackLocale : option string;
  p_field : Field;
  p_locale : option string;
  p_overrideAccess : bool;
  p_req : Request;
  p_showHiddenFields : bool;
  p_siblingDoc : JsValue }.

(** A promise on the population queue: a call of
    [relationshipPopulationPromise], or a promise the hook of a rich-text
    editor put there. *)
Inductive Population :=
| RelationshipPopulation (task : PopulationTask)
| EditorPopulation (settles : Settled).

(** What [traverseFields] is called with, the sibling container and the
    queues apart. *)
Record TraverseArgs := mkTraverseArgs {
  t_currentDepth : nat;
  t_depth : nat;
  t_doc : Obj;
  t_draft : bool;
  t_fallbackLocale : option string;
  t_fields : list Field;
  t_findMany : bool;
  t_flattenLocales : bool;
  t_locale : option string;
  t_overrideAccess : bool;
  t_path : Path;
  t_req : Request;
  t_schemaPath : SchemaPath;
  t_showHiddenFields : bool;
  t_triggerAccessControl : bool;
  t_triggerHooks : bool }.

Record TraverseResult := mkTraverseResult {
  r_siblingDoc : JsValue;
  r_fieldPromises : list Settled;
  r_populationPromises : list Population }.

Record DefaultArgs := mkDefaultArgs {
  d_defaultValue : option DefaultValue;
  d_locale : option string;
  d_user : JsValue;
  d_value : JsValue }.

(** The calls [promise] makes to its collaborators, in the order it makes
    them. *)
Inductive Event :=
| EHook (index : nat) (args : HookArgs) (result : JsValue)
| EEditorHook (index : nat) (args : EditorHookArgs) (result : EditorHookResult)
| EAccessRead (args : AccessArgs) (result : bool)
| EDefault (args : DefaultArgs) (result : JsValue)
| EPopulate (task : PopulationTask)
| ETraverse (args : TraverseArgs) (sibling : JsValue).

Record State := mkState {
  siblingDoc : JsValue;
  fieldPromises : list Settled;
  populationPromises : list Population;
  log : list Event }.

Definition withDoc (d : JsValue) (s : State) : State :=
  mkState d (fieldPromises s) (populationPromises s) (log s).

(** ** Computations that mutate the state and may throw *)

Definition M (A : Type) : Type := State -> State * (Err + A).

Definition ret {A} (a : A) : M A := fun s => (s, inr a).

Definition throw {A} (e : Err) : M A := fun s => (s, inl e).

Definition bind {A B} (m : M A) (k : A -> M B) : M B :=
  fun s =>
    match m s with
    | (s', inr a) => k a s'
    | (s', inl e) => (s', inl e)
    end.

Declare Scope m_scope.
Delimit Scope m_scope with M.
Notation "x <- m ;; k" := (bind m (fun x => k))
  (at level 61, m at next level, right associativity) : m_scope.
Notation "m ;; k" := (bind m (fun _ => k))
  (at level 61, right associativity) : m_scope.
Local Open Scope m_scope.

Definition liftE {A} (r : Err + A) : M A := fun s => (s, r).

Definition getDoc : M JsValue := fun s => (s, inr (siblingDoc s)).

Definition putDoc (d : JsValue) : M unit := fun s => (withDoc d s, inr tt).

(** [siblingDoc[k]]. *)
Definition readSlot (k : string) : M JsValue :=
  d <- getDoc ;; liftE (getProp d k).

(** [siblingDoc[k] = v]. *)
Definition writeSlot (k : string) (v : JsValue) : M unit :=
  d <- getDoc ;; d' <- liftE (setProp d k v) ;; putDoc d'.

(** [delete siblingDoc[k]]. *)
Definition deleteSlot (k : string) : M unit :=
  d <- getDoc ;; d' <- liftE (deleteProp d k) ;; putDoc d'.

Definition emit (e : Event) : M unit :=
  fun s =>
    (mkState (siblingDoc s) (fieldPromises s) (populationPromises s) (log s ++ [e]),
     inr tt).

(** [populationPromises.push(relationshipPopulationPromise(t))]. *)
Definition pushPopulation (t : PopulationTask) : M unit :=
  fun s =>
    (mkState (siblingDoc s) (fieldPromises s)
       (populationPromises s ++ [RelationshipPopulation t])
       (log s ++ [EPopulate t]),
     inr tt).

(** [xs.forEach(body)], and [reduce] over a chain of promises each awaiting
    the one before: the first exception ends the loop. *)
Fixpoint forEachFrom {A} (i : nat) (xs : list A) (body : nat -> A -> M unit)
  : M unit :=
  match xs with
  | [] => ret tt
  | x :: rest => body i x ;; forEachFrom (S i) rest body
  end.

Definition forEach {A} (xs : list A) (body : nat -> A -> M unit) : M unit :=
  forEachFrom 0 xs body.

(** ** Collaborators *)

(** Modelled from the spec: the helpers [promise.ts] imports from files that
    are not among the sources ([fieldAffectsData], [tabHasName],
    [getFieldPaths], [getDefaultValue], [traverseFields]).  They are
    parameters of the development.  [traverseFields] gets the container it
    recurses into and answers with that container after the recursion and
    with what it appended to the field-promise and population queues. *)
Class Collaborators := {
  fieldAffectsData : Field -> bool;
  tabHasName : Field -> bool;
  getFieldPaths : Field -> Path -> SchemaPath -> nat -> Path * SchemaPath;
  getDefaultValue : DefaultArgs -> JsValue;
  traverseFields : TraverseArgs -> JsValue -> TraverseResult }.

(** ** The promise *)

Section Promise.

Context `{Collaborators}.

Definition hookArgs (a : Args) (paths : Path * SchemaPath) (sd value : JsValue)
  : HookArgs :=
  mkHookArgs (currentDepth a) (VObj (doc a)) (depth a) (draft a) (findMany a)
    OpRead (VObj (doc a)) (overrideAccess a) (fst paths) (req a) (snd paths)
    (showHiddenFields a) sd value.

(** [l] is the locale the hook is told: the requested one, or, in a call
    for one entry of a locale map, that entry's key (lines 613 and 628). *)
Definition editorHookArgs (a : Args) (paths : Path * SchemaPath)
  (l : option string) (sd value : JsValue) (queued : list Settled)
  (populating : nat) : EditorHookArgs :=
  mkEditorHookArgs (hookArgs a paths sd value) (fallbackLocale a) queued
    (flattenLocales a) l populating (triggerAccessControl a) (triggerHooks a).

Definition traverseArgs (a : Args) (fs : list Field) (p : Path) (sp : SchemaPath)
  : TraverseArgs :=
  mkTraverseArgs (currentDepth a) (depth a) (doc a) (draft a) (fallbackLocale a)
    fs (findMany a) (flattenLocales a) (locale a) (overrideAccess a) p (req a)
    sp (showHiddenFields a) (triggerAccessControl a) (triggerHooks a).

(** Lines 89-96: remove hidden fields from the response. *)
Definition removeHiddenField (a : Args) (f : Field) : M unit :=
  if fieldAffectsData f && hidden f then
    v <- readSlot (slotKey f) ;;
    if negb (isUndefined v) && negb (showHiddenFields a)
    then deleteSlot (slotKey f)
    else ret tt
  else ret tt.

(** Lines 98-105. *)
Definition shouldHoistLocalizedValue (a : Args) (f : Field) : M bool :=
  if flattenLocales a && fieldAffectsData f then
    v <- readSlot (slotKey f) ;;
    ret (isObjectType v && negb (isNull v) && localized f
         && negb (isAll (locale a)) && localization (req a))
  else ret false.

(** Lines 112-136: the value that replaces a locale map. *)
Definition hoistedValue (a : Args) (f : Field) (slot : JsValue) : Err + JsValue :=
  match getProp slot (localeKey (locale a)) with
  | inl e => inl e
  | inr value =>
      if fallbackApplies (fallbackLocale a) (locale a) then
        match getProp slot (localeKey (fallbackLocale a)) with
        | inl e => inl e
        | inr fallbackValue =>
            let isNullOrUndefined := isUndefined value || isNull value in
            if truthy fallbackValue then
              match type f with
              | Text | Textarea =>
                  if isEmptyString value || isNullOrUndefined
                  then inr fallbackValue else inr value
              | _ =>
                  if isNullOrUndefined then inr fallbackValue else inr value
              end
            else inr value
        end
      else inr value
  end.

(** Lines 107-139: flatten locales into the requested locale.  Answers
    [shouldHoistLocalizedValue]. *)
Definition hoistLocalizedValue (a : Args) (f : Field) : M bool :=
  should <- shouldHoistLocalizedValue a f ;;
  if should then
    slot <- readSlot (slotKey f) ;;
    hoisted <- liftE (hoistedValue a f slot) ;;
    writeSlot (slotKey f) hoisted ;;
    ret true
  else ret false.

(** Lines 177-186. *)
Definition sanitizePoint (f : Field) : M unit :=
  pointDoc <- readSlot (slotKey f) ;;
  match getPropOpt pointDoc "coordinates" with
  | VArr [x; y] => writeSlot (slotKey f) (VArr [x; y])
  | _ => writeSlot (slotKey f) VUndefined
  end.

(** Lines 165-172 and 594-599. *)
Definition checkEditor (f : Field) : M unit :=
  match editor f with
  | EditorAbsent => throw MissingEditorProp
  | EditorFactory => throw UnsanitizedEditor
  | EditorAdapter _ => ret tt
  end.

(** Lines 141-191: sanitize the outgoing field value. *)
Definition sanitizeField (f : Field) : M unit :=
  match type f with
  | Group =>
      v <- readSlot (slotKey f) ;;
      if isUndefined v then writeSlot (slotKey f) (VObj []) else ret tt
  | Tabs =>
      forEach (tabs f) (fun _ tab =>
        if tabHasName tab then
          v <- readSlot (slotKey tab) ;;
          if isUndefined v || isNull v
          then writeSlot (slotKey tab) (VObj [])
          else ret tt
        else ret tt)
  | RichText => checkEditor f
  | Point => sanitizePoint f
  | _ => ret tt
  end.

(** Lines 199-202 and 607-610. *)
Definition shouldRunHookOnAllLocales (a : Args) (f : Field) : M bool :=
  if localized f && (isAll (locale a) || negb (flattenLocales a)) then
    slot <- readSlot (slotKey f) ;;
    ret (isObjectType slot)
  else ret false.

(** [siblingDoc[k][l] = v]. *)
Definition writeEntry (k l : string) (v : JsValue) : M unit :=
  slot <- readSlot k ;;
  slot' <- liftE (setProp slot l v) ;;
  writeSlot k slot'.

(** Lines 197-260: one link of the field's hook chain.  [mk] builds the
    hook's arguments from the sibling container and the value, [ev] is the
    event that records the call.  With one call per locale the calls are
    issued in the order of the entries, all on the container as it is then;
    each defined result is stored under its locale. *)
Definition runHook {A} (mk : JsValue -> JsValue -> A)
  (ev : nat -> A -> JsValue -> Event) (a : Args) (f : Field)
  (i : nat) (currentHook : A -> JsValue) : M unit :=
  all <- shouldRunHookOnAllLocales a f ;;
  if all then
    slot <- readSlot (slotKey f) ;;
    es <- liftE (entries slot) ;;
    sd <- getDoc ;;
    forEach es (fun _ e => emit (ev i (mk sd (snd e)) (currentHook (mk sd (snd e))))) ;;
    forEach es (fun _ e =>
      let hookedValue := currentHook (mk sd (snd e)) in
      if isUndefined hookedValue then ret tt
      else writeEntry (slotKey f) (fst e) hookedValue)
  else
    value <- readSlot (slotKey f) ;;
    sd <- getDoc ;;
    let hookedValue := currentHook (mk sd value) in
    emit (ev i (mk sd value) hookedValue) ;;
    if isUndefined hookedValue then ret tt
    else writeSlot (slotKey f) hookedValue.

(** Lines 195-262: execute the field's hooks. *)
Definition executeHooks (a : Args) (f : Field) (paths : Path * SchemaPath)
  : M unit :=
  if triggerHooks a then
    match hooks_afterRead f with
    | Some hs => forEach hs (runHook (hookArgs a paths) EHook a f)
    | None => ret tt
    end
  else ret tt.

Definition accessArgs (a : Args) (sd : JsValue) : AccessArgs :=
  mkAccessArgs (getPropOpt (VObj (doc a)) "id") (VObj (doc a)) (VObj (doc a))
    (req a) sd.

(** Lines 264-281: execute read access control.  Answers
    [allowDefaultValue]. *)
Definition executeAccessControl (a : Args) (f : Field) : M bool :=
  if triggerAccessControl a then
    match access_read f with
    | Some read =>
        result <- (if overrideAccess a then ret true
                   else
                     sd <- getDoc ;;
                     emit (EAccessRead (accessArgs a sd) (read (accessArgs a sd))) ;;
                     ret (read (accessArgs a sd))) ;;
        if result then ret true
        else deleteSlot (slotKey f) ;; ret false
    | None => ret true
    end
  else ret true.

(** Lines 283-296: set the default value. *)
Definition setDefaultValue (a : Args) (f : Field) (allowDefaultValue : bool)
  : M unit :=
  if allowDefaultValue then
    v <- readSlot (slotKey f) ;;
    if isUndefined v && defaultConfigured f then
      let args := mkDefaultArgs (defaultValue f) (locale a) (user (req a)) v in
      emit (EDefault args (getDefaultValue args)) ;;
      writeSlot (slotKey f) (getDefaultValue args)
    else ret tt
  else ret tt.

Definition populationTask (a : Args) (f : Field) (sd : JsValue) : PopulationTask :=
  mkPopulationTask (currentDepth a) (depth a) (draft a) (fallbackLocale a) f
    (locale a) (overrideAccess a) (req a) (showHiddenFields a) sd.

Definition isReferenceType (t : FieldType) : bool :=
  match t with Relationship | Upload | Join => true | _ => false end.

(** Lines 298-313: the population task is created and pushed, not awaited. *)
Definition schedulePopulation (a : Args) (f : Field) : M unit :=
  if isReferenceType (type f) then
    sd <- getDoc ;;
    pushPopulation (populationTask a f sd)
  else ret tt.

(** Lines 193-314. *)
Definition dataPhases (a : Args) (f : Field) (paths : Path * SchemaPath) : M unit :=
  if fieldAffectsData f then
    executeHooks a f paths ;;
    allowDefaultValue <- executeAccessControl a f ;;
    setDefaultValue a f allowDefaultValue ;;
    schedulePopulation a f
  else ret tt.

(** [traverseFields({ ..., siblingDoc: sib })].  The callee mutates [sib] in
    place and pushes onto the two queues; the answer is [sib] after the call
    (a primitive cannot have changed). *)
Definition callTraverse (t : TraverseArgs) (sib : JsValue) : M JsValue :=
  fun s =>
    let r := traverseFields t sib in
    (mkState (siblingDoc s) (fieldPromises s ++ r_fieldPromises r)
       (populationPromises s ++ r_populationPromises r)
       (log s ++ [ETraverse t sib]),
     inr (if isRef sib then r_siblingDoc r else sib)).

(** [traverseFields({ ..., siblingDoc })] on the sibling container itself. *)
Definition traverseSiblings (t : TraverseArgs) : M unit :=
  d <- getDoc ;; d' <- callTraverse t d ;; putDoc d'.

(** Lines 318-346 and 531-560: recurse into the container in slot [k], or
    into a new object when the slot holds no object; the new object is not
    stored anywhere. *)
Definition traverseSlot (t : TraverseArgs) (k : string) : M unit :=
  slot <- readSlot k ;;
  if isObjectType slot then
    slot' <- callTraverse t slot ;;
    writeSlot k slot'
  else
    callTraverse t (VObj []) ;;
    ret tt.

(** [traverseFields({ ..., siblingDoc: row || {} })]: the row after the
    call. *)
Definition traverseRow (t : TraverseArgs) (row : JsValue) : M JsValue :=
  row' <- callTraverse t (orElse row (VObj [])) ;;
  ret (if truthy row then row' else row).

(** [rows.forEach((row, i) => body)] for a body that mutates the row in
    place: the rows after the loop, and the exception that ended it. *)
Fixpoint mapRows (body : nat -> JsValue -> M JsValue) (i : nat)
  (rows : list JsValue) : M (list JsValue * option Err) :=
  match rows with
  | [] => ret ([], None)
  | row :: rest =>
      fun s =>
        match body i row s with
        | (s', inl e) => (s', inr (row :: rest, Some e))
        | (s', inr row') =>
            match mapRows body (S i) rest s' with
            | (s'', inr (rest', e)) => (s'', inr (row' :: rest', e))
            | (s'', inl e) => (s'', inl e)
            end
        end
  end.

(** [Object.values(rows).forEach((localeRows) => { if
    (Array.isArray(localeRows)) localeRows.forEach(body) })]. *)
Fixpoint mapLocales (body : nat -> JsValue -> M JsValue) (kvs : Obj)
  : M (Obj * option Err) :=
  match kvs with
  | [] => ret ([], None)
  | (l, VArr localeRows) :: rest =>
      r <- mapRows body 0 localeRows ;;
      match snd r with
      | Some e => ret ((l, VArr (fst r)) :: rest, Some e)
      | None =>
          r' <- mapLocales body rest ;;
          ret ((l, VArr (fst r)) :: fst r', snd r')
      end
  | kv :: rest =>
      r' <- mapLocales body rest ;;
      ret (kv :: fst r', snd r')
  end.

Definition rethrow (e : option Err) : M unit :=
  match e with Some e => throw e | None => ret tt end.

(** Lines 352-414 and 419-493: the rows of an array or blocks field. *)
Definition traverseRows (f : Field) (shouldHoist : bool)
  (body : nat -> JsValue -> M JsValue) : M unit :=
  rows <- readSlot (slotKey f) ;;
  match rows with
  | VArr l =>
      r <- mapRows body 0 l ;;
      writeSlot (slotKey f) (VArr (fst r)) ;;
      rethrow (snd r)
  | VObj kvs =>
      if negb shouldHoist then
        r <- mapLocales body kvs ;;
        writeSlot (slotKey f) (VObj (fst r)) ;;
        rethrow (snd r)
      else writeSlot (slotKey f) (VArr [])
  | _ => writeSlot (slotKey f) (VArr [])
  end.

(** Lines 356-379 and 385-408. *)
Definition arrayRow (a : Args) (f : Field) (paths : Path * SchemaPath)
  (i : nat) (row : JsValue) : M JsValue :=
  traverseRow (traverseArgs a (fields f) (fst paths ++ [SegIndex i]) (snd paths)) row.

(** [bs.find((blockType) => blockType.slug === row.blockType)], lines
    423-425 and 458-460: the callback reads [row.blockType] for every block it
    is asked about, and is not called at all when no block is configured. *)
Fixpoint findBlock (row : JsValue) (bs : list Block) : Err + option Block :=
  match bs with
  | [] => inr None
  | b :: rest =>
      match getProp row "blockType" with
      | inl e => inl e
      | inr blockType =>
          if strictEqStr (slug b) blockType then inr (Some b)
          else findBlock row rest
      end
  end.

(** Lines 423-452 and 458-487. *)
Definition blocksRow (a : Args) (f : Field) (paths : Path * SchemaPath)
  (i : nat) (row : JsValue) : M JsValue :=
  block <- liftE (findBlock row (blocks f)) ;;
  match block with
  | Some block =>
      traverseRow
        (traverseArgs a (block_fields block) (fst paths ++ [SegIndex i]) (snd paths))
        row
  | None => ret row
  end.

(** [currentHook({ ..., fieldPromises, populationPromises, ... })]: the hook
    is called on the queues as they are and pushes onto them; the answer is
    its value. *)
Definition callEditorHook (i : nat) (currentHook : EditorHook)
  (mk : list Settled -> nat -> EditorHookArgs) : M JsValue :=
  fun s =>
    let x := mk (fieldPromises s) (List.length (populationPromises s)) in
    let r := currentHook x in
    (mkState (siblingDoc s) (fieldPromises s ++ eh_fieldPromises r)
       (populationPromises s ++ map EditorPopulation (eh_populationPromises r))
       (log s ++ [EEditorHook i x r]),
     inr (eh_value r)).

(** [Object.entries(slot).map(([locale, value]) => call(locale, value))]:
    the calls in the order of the entries, and the answer for each locale. *)
Fixpoint callEach (call : string -> JsValue -> M JsValue) (es : Obj) : M Obj :=
  match es with
  | [] => ret []
  | e :: rest =>
      hookedValue <- call (fst e) (snd e) ;;
      others <- callEach call rest ;;
      ret ((fst e, hookedValue) :: others)
  end.

(** Lines 605-682: one link of the editor's hook chain.  With one call per
    locale the calls are issued in the order of the entries, all on the
    container as it is then and each with its entry's key as locale; each
    defined result is stored under its locale. *)
Definition runEditorHook (a : Args) (f : Field) (paths : Path * SchemaPath)
  (i : nat) (currentHook : EditorHook) : M unit :=
  all <- shouldRunHookOnAllLocales a f ;;
  if all then
    slot <- readSlot (slotKey f) ;;
    es <- liftE (entries slot) ;;
    sd <- getDoc ;;
    hooked <- callEach (fun l value =>
                callEditorHook i currentHook
                  (editorHookArgs a paths (Some l) sd value)) es ;;
    forEach hooked (fun _ e =>
      if isUndefined (snd e) then ret tt
      else writeEntry (slotKey f) (fst e) (snd e))
  else
    value <- readSlot (slotKey f) ;;
    sd <- getDoc ;;
    hookedValue <- callEditorHook i currentHook
                     (editorHookArgs a paths (locale a) sd value) ;;
    if isUndefined hookedValue then ret tt
    else writeSlot (slotKey f) hookedValue.

(** Lines 601-684: the editor's after-read hooks. *)
Definition executeEditorHooks (a : Args) (f : Field) (paths : Path * SchemaPath)
  : M unit :=
  match editor f with
  | EditorAdapter (Some (h :: hs)) => forEach (h :: hs) (runEditorHook a f paths)
  | _ => ret tt
  end.

(** Lines 316-691: recurse by field type. *)
Definition traverseNested (a : Args) (f : Field) (paths : Path * SchemaPath)
  (shouldHoist : bool) : M unit :=
  match type f with
  | Group =>
      traverseSlot (traverseArgs a (fields f) (fst paths) (snd paths)) (slotKey f)
  | Array => traverseRows f shouldHoist (arrayRow a f paths)
  | Blocks => traverseRows f shouldHoist (blocksRow a f paths)
  | Row | Collapsible =>
      traverseSiblings (traverseArgs a (fields f) (fst paths) (snd paths))
  | Tab =>
      if tabHasName f
      then traverseSlot (traverseArgs a (fields f) (fst paths) (snd paths)) (slotKey f)
      else traverseSiblings (traverseArgs a (fields f) (fst paths) (snd paths))
  | Tabs =>
      traverseSiblings
        (traverseArgs a (map asTab (tabs f)) (fst paths) (snd paths))
  | RichText => checkEditor f ;; executeEditorHooks a f paths
  | _ => ret tt
  end.

(** Lines 82-314: everything [promise] does to the field before it recurses.
    Answers [shouldHoistLocalizedValue]. *)
Definition fieldPhases (a : Args) (f : Field) : M bool :=
  let paths := getFieldPaths f (parentPath a) (parentSchemaPath a) (fieldIndex a) in
  removeHiddenField a f ;;
  shouldHoist <- hoistLocalizedValue a f ;;
  sanitizeField f ;;
  dataPhases a f paths ;;
  ret shouldHoist.

(** [promise], lines 57-692. *)
Definition promise (a : Args) (f : Field) : M unit :=
  let paths := getFieldPaths f (parentPath a) (parentSchemaPath a) (fieldIndex a) in
  shouldHoist <- fieldPhases a f ;;
  traverseNested a f paths shouldHoist.

(** How a call settles. *)
Definition settle {A} (r : State * (Err + A)) : Settled :=
  match snd r with inr _ => Fulfilled | inl e => Rejected e end.

(** ** The claims' vocabulary *)

(** *** Locale hoisting (4.2) *)

(** The conditions under which 4.2 applies. *)
Definition hoistingApplies (a : Args) (f : Field) (slot : JsValue) : bool :=
  flattenLocales a && fieldAffectsData f && localized f
  && (isObjectType slot && negb (isNull slot))
  && negb (isAll (locale a)) && localization (req a).

Definition isTextLike (t : FieldType) : bool :=
  match t with Text | Textarea => true | _ => false end.

(** When 4.2 substitutes the fallback locale's entry. *)
Definition fallbackSubstituted (a : Args) (f : Field) (primary fallback : JsValue)
  : bool :=
  fallbackApplies (fallbackLocale a) (locale a) && truthy fallback
  && (isUndefined primary || isNull primary
      || (isTextLike (type f) && isEmptyString primary)).

(** When lines 89-96 delete the slot. *)
Definition hiddenRemoved (a : Args) (f : Field) (o : Obj) : bool :=
  fieldAffectsData f && hidden f
  && negb (isUndefined (getPropOpt (VObj o) (slotKey f)))
  && negb (showHiddenFields a).

(** The types lines 141-191 sanitize. *)
Definition hasSanitizer (t : FieldType) : bool :=
  match t with Group | Tabs | RichText | Point => true | _ => false end.

(** The types lines 316-691 do something for. *)
Definition isTraversedType (t : FieldType) : bool :=
  match t with
  | Group | Array | Blocks | Row | Collapsible | Tab | Tabs | RichText => true
  | _ => false
  end.

(** The field's hook chain runs. *)
Definition hooksRun (a : Args) (f : Field) : bool :=
  fieldAffectsData f && triggerHooks a
  && match hooks_afterRead f with Some _ => true | None => false end.

(** The read-access predicate is consulted and denies access. *)
Definition accessDenied (a : Args) (f : Field) (sd : JsValue) : bool :=
  fieldAffectsData f && triggerAccessControl a && negb (overrideAccess a)
  && match access_read f with
     | Some read => negb (read (accessArgs a sd))
     | None => false
     end.

(** A default is substituted for the slot. *)
Definition defaultSubstituted (f : Field) (o : Obj) : bool :=
  fieldAffectsData f && isUndefined (getPropOpt (VObj o) (slotKey f))
  && defaultConfigured f.

(** What lines 177-186 store for a point. *)
Definition pointCoordinates (stored : JsValue) : JsValue :=
  match getPropOpt stored "coordinates" with
  | VArr [x; y] => VArr [x; y]
  | _ => VUndefined
  end.

(** The recursive calls 4.8 prescribes for a sequence of rows: one for each
    element, in order, with the element's index appended to the path and the
    schema path as it is. *)
Fixpoint rowCalls (a : Args) (fs : list Field) (paths : Path * SchemaPath)
  (i : nat) (rows : list JsValue) : list Event :=
  match rows with
  | [] => []
  | row :: rest =>
      ETraverse (traverseArgs a fs (fst paths ++ [SegIndex i]) (snd paths))
        (orElse row (VObj []))
      :: rowCalls a fs paths (S i) rest
  end.

(** The recursive calls 4.8 prescribes for a mapping from locales to
    sequences: those of each locale's sequence, one locale after the other. *)
Definition localeCalls (a : Args) (fs : list Field) (paths : Path * SchemaPath)
  (kvs : Obj) : list Event :=
  flat_map (fun kv =>
              match snd kv with
              | VArr rows => rowCalls a fs paths 0 rows
              | _ => []
              end) kvs.

(** The configured block a row's discriminator selects. *)
Definition matchingBlock (f : Field) (row : JsValue) : option Block :=
  find (fun b => strictEqStr (slug b) (getPropOpt row "blockType")) (blocks f).

(** What the recursion of a blocks field keeps of a stored value: a
    sequence keeps its length, and every row that selects no configured block
    is at its index, unchanged; a value that is no sequence is unchanged. *)
Definition rowsKept (f : Field) (v v' : JsValue) : Prop :=
  match v with
  | VArr rows =>
      exists rows', v' = VArr rows' /\ List.length rows' = List.length rows /\
        forall i row, nth_error rows i = Some row -> matchingBlock f row = None ->
                      nth_error rows' i = Some row
  | _ => v' = v
  end.

Definition localeRowsKept (f : Field) (kv kv' : string * JsValue) : Prop :=
  fst kv' = fst kv /\ rowsKept f (snd kv) (snd kv').

(** The recursive call for row [i] of a blocks field, with the sub-schema
    of block [b]. *)
Definition blockCall (a : Args) (paths : Path * SchemaPath) (b : Block) (i : nat)
  (row : JsValue) : Event :=
  ETraverse (traverseArgs a (block_fields b) (fst paths ++ [SegIndex i]) (snd paths))
    (orElse row (VObj [])).

(** One link of a hook chain on a value that is not fanned out per locale:
    the hook sees the container and the value as they are, and its result
    replaces the value unless it is undefined. *)
Definition hookStep (a : Args) (f : Field) (paths : Path * SchemaPath) (o : Obj)
  (h : Hook) : Obj :=
  let result := h (hookArgs a paths (VObj o) (getPropOpt (VObj o) (slotKey f))) in
  if isUndefined result then o else assign (slotKey f) result o.

(** The field's value is handed to its hooks once per locale. *)
Definition fansOut (a : Args) (f : Field) (slot : JsValue) : bool :=
  localized f && (isAll (locale a) || negb (flattenLocales a)) && isObjectType slot.

(** One call of a fanned-out hook: the result of the call on a locale's
    value is stored under that locale unless it is undefined.  [sd] is the
    sibling container the calls were issued on. *)
Definition entryStep {A} (mk : JsValue -> JsValue -> A) (h : A -> JsValue)
  (sd : JsValue) (acc : Obj) (e : string * JsValue) : Obj :=
  let result := h (mk sd (snd e)) in
  if isUndefined result then acc else assign (fst e) result acc.

(** One link of a hook chain on a locale map: one call per locale. *)
Definition fanOutStep (a : Args) (f : Field) (paths : Path * SchemaPath) (o : Obj)
  (h : Hook) : Obj :=
  match getPropOpt (VObj o) (slotKey f) with
  | VObj kvs =>
      assign (slotKey f)
        (VObj (fold_left (entryStep (hookArgs a paths) h (VObj o)) kvs kvs)) o
  | _ => o
  end.

(** The log is made of one block of calls per hook, in the order of the
    chain; block [k] holds calls of hook [k] only. *)
Definition inDeclaredOrder (hs : list Hook) (evs : list Event) : Prop :=
  exists blocks : list (list Event),
    evs = List.concat blocks /\ List.length blocks <= List.length hs /\
    forall k block, nth_error blocks k = Some block ->
      exists h, nth_error hs k = Some h /\
                Forall (fun e => exists x, e = EHook k x (h x)) block.

Definition upperAscii (c : ascii) : ascii :=
  let n := nat_of_ascii c in
  if (97 <=? n)%nat && (n <=? 122)%nat then ascii_of_nat (n - 32) else c.

(** [s.toUpperCase()] on ASCII letters. *)
Fixpoint toUpperCase (s : string) : string :=
  match s with
  | EmptyString => EmptyString
  | String c rest => String (upperAscii c) (toUpperCase rest)
  end.

(** ** What a computation may do *)

(** What a logged call pushed onto the population queue. *)
Definition tasksOf (e : Event) : list Population :=
  match e with
  | EPopulate t => [RelationshipPopulation t]
  | ETraverse t sib => r_populationPromises (traverseFields t sib)
  | EEditorHook _ _ r => map EditorPopulation (eh_populationPromises r)
  | _ => []
  end.

(** What a logged call pushed onto the field-promise queue. *)
Definition promisesOf (e : Event) : list Settled :=
  match e with
  | ETraverse t sib => r_fieldPromises (traverseFields t sib)
  | EEditorHook _ _ r => eh_fieldPromises r
  | _ => []
  end.

(** [m] only appends to the log, its calls are all of kind [P], and the two
    queues grow by exactly what the logged calls pushed. *)
Definition Tracks {A} (P : Event -> Prop) (m : M A) : Prop :=
  forall s, exists evs,
    log (fst (m s)) = log s ++ evs /\
    populationPromises (fst (m s)) = populationPromises s ++ flat_map tasksOf evs /\
    fieldPromises (fst (m s)) = fieldPromises s ++ flat_map promisesOf evs /\
    Forall P evs.

(** Every exception of [m] satisfies [Q]. *)
Definition Throws {A} (Q : Err -> Prop) (m : M A) : Prop :=
  forall s e, snd (m s) = inl e -> Q e.

Definition isObject (v : JsValue) : Prop := exists o, v = VObj o.

(** [m] leaves an object where the sibling container was an object. *)
Definition KeepsObject {A} (m : M A) : Prop :=
  forall s, isObject (siblingDoc s) -> isObject (siblingDoc (fst (m s))).

(** [m] leaves the sibling container as it is. *)
Definition KeepsDoc {A} (m : M A) : Prop :=
  forall s, siblingDoc (fst (m s)) = siblingDoc s.

Definition isHookEvent (e : Event) : Prop :=
  match e with EHook _ _ _ => True | _ => False end.

Definition isEditorHookEvent (e : Event) : Prop :=
  match e with EEditorHook _ _ _ => True | _ => False end.

Definition isTraverseEvent (e : Event) : Prop :=
  match e with ETraverse _ _ => True | _ => False end.

Definition isPopulateEvent (e : Event) : Prop :=
  match e with EPopulate _ => True | _ => False end.

(** The calls of lines 193-296: hooks, access predicate, default resolver. *)
Definition isFieldCall (e : Event) : Prop :=
  match e with
  | EHook _ _ _ | EAccessRead _ _ | EDefault _ _ => True
  | _ => False
  end.

(** The configuration error a rich-text field without a resolved editor
    raises. *)
Definition editorError (f : Field) : option Err :=
  match editor f with
  | EditorAbsent => Some MissingEditorProp
  | EditorFactory => Some UnsanitizedEditor
  | EditorAdapter _ => None
  end.

Definition configErrorOf (f : Field) (e : Err) : Prop :=
  type f = RichText /\ editorError f = Some e.

Definition noEvent (e : Event) : Prop := False.

End Promise.

(** ** Reference collaborators *)

(** Modelled from the spec: [fieldAffectsData] ("the field carries data"); a
    field carries data when it is named and is not presentational. *)
Definition namedField (f : Field) : bool :=
  match name f, type f with
  | Some _, UI => false
  | Some _, _ => true
  | None, _ => false
  end.

(** Modelled from the spec: [tabHasName] ("each tab optionally named"). *)
Definition namedTab (tab : Field) : bool :=
  match name tab with Some _ => true | None => false end.

(** Modelled from the spec: [getFieldPaths] (4.1).  The instance path gains the
    field's name, nothing for an unnamed field; the schema path gains the name
    or a synthetic segment made of the field's index. *)
Definition fieldPaths (f : Field) (p : Path) (sp : SchemaPath) (i : nat)
  : Path * SchemaPath :=
  match name f with
  | Some n => (p ++ [SegName n], sp ++ [n])
  | None => (p, sp ++ [String.append "_index-" (indexKey i)])
  end.

(** Modelled from the spec: [getDefaultValue] (4.6), the configured default, a
    literal or computed from the requesting user and the locale. *)
Definition defaultOf (d : DefaultArgs) : JsValue :=
  match d_defaultValue d with
  | Some (DefaultLiteral v) => v
  | Some (DefaultFunction g) => g (d_user d) (d_locale d)
  | None => d_value d
  end.

Definition childArgs (t : TraverseArgs) (i : nat) : Args :=
  mkArgs (t_currentDepth t) (t_depth t) (t_doc t) (t_draft t) (t_fallbackLocale t)
    i (t_findMany t) (t_flattenLocales t) (t_locale t) (t_overrideAccess t)
    (t_path t) (t_schemaPath t) (t_req t) (t_showHiddenFields t)
    (t_triggerAccessControl t) (t_triggerHooks t).

(** Modelled from the spec: [traverseFields] (4.8, 5).  Every field of the
    sub-schema goes through [promise] in declaration order, on the same
    sibling container and queues; the promise of each field is pushed onto the
    field-promise queue.  [n] bounds the nesting depth of the schema that is
    followed. *)
Fixpoint traverseFieldsTo (n : nat) (t : TraverseArgs) (sib : JsValue)
  : TraverseResult :=
  match n with
  | 0 => mkTraverseResult sib [] []
  | S n' =>
      let C := Build_Collaborators namedField namedTab fieldPaths defaultOf
                 (traverseFieldsTo n') in
      let step (acc : nat * State) (f : Field) :=
        let r := @promise C (childArgs t (fst acc)) f (snd acc) in
        (S (fst acc),
         mkState (siblingDoc (fst r)) (fieldPromises (fst r) ++ [settle r])
           (populationPromises (fst r)) (log (fst r))) in
      let final := snd (fold_left step (t_fields t) (0, mkState sib [] [] [])) in
      mkTraverseResult (siblingDoc final) (fieldPromises final)
        (populationPromises final)
  end.

Definition reference (n : nat) : Collaborators :=
  Build_Collaborators namedField namedTab fieldPaths defaultOf (traverseFieldsTo n).


(** ** Sample configurations and documents *)

Definition sampleRequest : Request := mkRequest VNull true.

(** A read of locale 'en' with flattening requested. *)
Definition sampleArgs : Args :=
  mkArgs 0 1 [] false None 0 false true (Some "en") false [] [] sampleRequest
    false true true.

(** A read of all locales. *)
Definition allLocalesArgs : Args :=
  mkArgs 0 1 [] false None 0 false true (Some "all") false [] [] sampleRequest
    false true true.

Definition plainField (t : FieldType) (n : string) : Field :=
  mkField t (Some n) false false None None None EditorAbsent [] [] [].

Definition sampleState (o : Obj) : State := mkState (VObj o) [] [] [].

(** [() => 'a']. *)
Definition hookA : Hook := fun _ => VStr "a".

(** [({ value }) => value.toUpperCase()]. *)
Definition hookUpper : Hook :=
  fun x => match h_value x with VStr s => VStr (toUpperCase s) | _ => VUndefined end.

Definition titleField (isLocalized : bool) : Field :=
  mkField Text (Some "title") isLocalized false (Some [hookA; hookUpper]) None None
    EditorAbsent [] [] [].

(** A hidden text field with nothing else configured. *)
Definition secretField : Field :=
  mkField Text (Some "secret") false true None None None EditorAbsent [] [] [].

(** A hidden rich-text field without an editor. *)
Definition contentField : Field :=
  mkField RichText (Some "content") false true None None None EditorAbsent [] [] [].

Definition denyAll : AccessRead := fun _ => false.

(** A text field with a default that nobody may read. *)
Definition guardedField (t : FieldType) : Field :=
  mkField t (Some "guarded") false false None (Some denyAll)
    (Some (DefaultLiteral (VStr "dflt"))) EditorAbsent [] [] [].

Definition authorField : Field := plainField Relationship "author".

Definition locationField : Field := plainField Point "location".

Definition captionField : Field :=
  mkField Text (Some "caption") false false None None
    (Some (DefaultLiteral (VStr "none"))) EditorAbsent [] [] [].

Definition rowsField : Field :=
  mkField Array (Some "rows") false false None None None EditorAbsent
    [captionField] [] [].

Definition metaField : Field :=
  mkField Group (Some "meta") false false None None None EditorAbsent
    [captionField] [] [].

Definition layoutField : Field :=
  mkField Blocks (Some "layout") false false None None None EditorAbsent []
    [mkBlock "hero" [captionField]] [].

Definition heroRow : JsValue := VObj [("blockType", VStr "hero")].

Definition strayRow : JsValue := VObj [("blockType", VStr "gone"); ("x", VNum 1)].


Definition fallbackArgs : Args :=
  mkArgs 0 1 [] false (Some "de") 0 false true (Some "en") false [] []
    sampleRequest false true true.

(** ** Vocabulary of the further properties *)

Section Coverage.

Context `{Collaborators}.

(** What lines 152-163 do for one tab of a tabs field. *)
Definition fillTab (o : Obj) (tab : Field) : Obj :=
  let v := getPropOpt (VObj o) (slotKey tab) in
  if tabHasName tab && (isUndefined v || isNull v)
  then assign (slotKey tab) (VObj []) o
  else o.

(** Row [i] of an array field after the recursion into it: the recursion can
    only have changed a row that is handed over by reference. *)
Definition rowAfter (a : Args) (fs : list Field) (paths : Path * SchemaPath)
  (i : nat) (row : JsValue) : JsValue :=
  if isRef row
  then r_siblingDoc
         (traverseFields
            (traverseArgs a fs (fst paths ++ [SegIndex i]) (snd paths)) row)
  else row.

(** The rows of an array field after the recursion, from index [i] on. *)
Fixpoint rowsAfter (a : Args) (fs : list Field) (paths : Path * SchemaPath)
  (i : nat) (rows : list JsValue) : list JsValue :=
  match rows with
  | [] => []
  | row :: rest => rowAfter a fs paths i row :: rowsAfter a fs paths (S i) rest
  end.

(** A mapping from locales to rows after the recursion: every entry that is
    a sequence holds its rows after the recursion, any other entry is as it
    was. *)
Definition localesAfter (a : Args) (fs : list Field) (paths : Path * SchemaPath)
  (kvs : Obj) : Obj :=
  map (fun kv =>
         match snd kv with
         | VArr rows => (fst kv, VArr (rowsAfter a fs paths 0 rows))
         | _ => kv
         end) kvs.

(** Row [i] of a blocks field after the recursion: a row that selects a
    configured block is what the recursion into it, with that block's
    fields, left; any other row is as it was. *)
Definition blockRowAfter (a : Args) (f : Field) (paths : Path * SchemaPath)
  (i : nat) (row : JsValue) : JsValue :=
  match matchingBlock f row with
  | Some b => rowAfter a (block_fields b) paths i row
  | None => row
  end.

Fixpoint blockRowsAfter (a : Args) (f : Field) (paths : Path * SchemaPath)
  (i : nat) (rows : list JsValue) : list JsValue :=
  match rows with
  | [] => []
  | row :: rest => blockRowAfter a f paths i row :: blockRowsAfter a f paths (S i) rest
  end.

(** Asking the configured blocks about a row throws: the row is [null] or
    undefined, and there is a block for [find] to call its callback on. *)
Definition rowThrows (f : Field) (row : JsValue) : bool :=
  match blocks f with
  | [] => false
  | _ :: _ => isUndefined row || isNull row
  end.

(** The rows the loop over the rows of a blocks field gets through: those
    before the first row that throws. *)
Fixpoint rowsBefore (f : Field) (rows : list JsValue) : list JsValue :=
  match rows with
  | [] => []
  | row :: rest => if rowThrows f row then [] else row :: rowsBefore f rest
  end.

(** The rows the loop does not get through: the first row that throws and
    the rows after it. *)
Fixpoint rowsFrom (f : Field) (rows : list JsValue) : list JsValue :=
  match rows with
  | [] => []
  | row :: rest => if rowThrows f row then row :: rest else rowsFrom f rest
  end.

(** How the loop over the rows of a blocks field ends. *)
Definition rowsOutcome (f : Field) (rows : list JsValue) : option Err :=
  match rowsFrom f rows with [] => None | _ :: _ => Some TypeError end.

(** The recursive calls for rows of a blocks field, the first of which has
    index [i]: one for each row that selects a configured block, with that
    block's fields. *)
Fixpoint blockCalls (a : Args) (f : Field) (paths : Path * SchemaPath) (i : nat)
  (rows : list JsValue) : list Event :=
  match rows with
  | [] => []
  | row :: rest =>
      match matchingBlock f row with
      | Some b => blockCall a paths b i row :: blockCalls a f paths (S i) rest
      | None => blockCalls a f paths (S i) rest
      end
  end.

(** The rows of a blocks field after the loop: the rows it got through, after
    the recursion, and then the others, as they were. *)
Definition blockRowsLeft (a : Args) (f : Field) (paths : Path * SchemaPath)
  (rows : list JsValue) : list JsValue :=
  blockRowsAfter a f paths 0 (rowsBefore f rows) ++ rowsFrom f rows.

(** A mapping from locales to rows of a blocks field after the loop over
    its values: the loop ends with the first sequence that has a row that
    throws. *)
Fixpoint blockLocalesLeft (a : Args) (f : Field) (paths : Path * SchemaPath)
  (kvs : Obj) : Obj :=
  match kvs with
  | [] => []
  | kv :: rest =>
      match snd kv with
      | VArr rows =>
          (fst kv, VArr (blockRowsLeft a f paths rows))
          :: match rowsFrom f rows with
             | [] => blockLocalesLeft a f paths rest
             | _ :: _ => rest
             end
      | _ => kv :: blockLocalesLeft a f paths rest
      end
  end.

(** The recursive calls of that loop. *)
Fixpoint blockLocaleCalls (a : Args) (f : Field) (paths : Path * SchemaPath)
  (kvs : Obj) : list Event :=
  match kvs with
  | [] => []
  | kv :: rest =>
      match snd kv with
      | VArr rows =>
          blockCalls a f paths 0 (rowsBefore f rows)
          ++ match rowsFrom f rows with
             | [] => blockLocaleCalls a f paths rest
             | _ :: _ => []
             end
      | _ => blockLocaleCalls a f paths rest
      end
  end.

(** How that loop ends. *)
Fixpoint localesOutcome (f : Field) (kvs : Obj) : option Err :=
  match kvs with
  | [] => None
  | kv :: rest =>
      match snd kv with
      | VArr rows =>
          match rowsFrom f rows with
          | [] => localesOutcome f rest
          | _ :: _ => Some TypeError
          end
      | _ => localesOutcome f rest
      end
  end.

(** The state after the calls [evs] on the sibling container [d]: the log
    and the two queues have grown by the calls and by what they pushed. *)
Definition afterCalls (d : JsValue) (evs : list Event) (s : State) : State :=
  mkState d (fieldPromises s ++ flat_map promisesOf evs)
    (populationPromises s ++ flat_map tasksOf evs) (log s ++ evs).

(** What an editor's hook chain works on: an object sibling container and
    the two queues. *)
Record Chain := mkChain {
  c_doc : Obj;
  c_fieldPromises : list Settled;
  c_populationPromises : list Population }.

(** The state an editor's hook chain has reached, with log [lg]. *)
Definition chainState (c : Chain) (lg : list Event) : State :=
  mkState (VObj (c_doc c)) (c_fieldPromises c) (c_populationPromises c) lg.

(** What a hook of the editor is called with on a value that is not fanned
    out per locale: the container, the value and the queues as they are, and
    the requested locale. *)
Definition editorCallArgs (a : Args) (f : Field) (paths : Path * SchemaPath)
  (c : Chain) : EditorHookArgs :=
  editorHookArgs a paths (locale a) (VObj (c_doc c))
    (getPropOpt (VObj (c_doc c)) (slotKey f)) (c_fieldPromises c)
    (List.length (c_populationPromises c)).

(** One link of an editor's hook chain on a value that is not fanned out
    per locale: a defined answer replaces the value, and what the hook
    pushed is at the end of the queues. *)
Definition editorHookStep (a : Args) (f : Field) (paths : Path * SchemaPath)
  (c : Chain) (h : EditorHook) : Chain :=
  let result := h (editorCallArgs a f paths c) in
  mkChain
    (if isUndefined (eh_value result) then c_doc c
     else assign (slotKey f) (eh_value result) (c_doc c))
    (c_fieldPromises c ++ eh_fieldPromises result)
    (c_populationPromises c ++ map EditorPopulation (eh_populationPromises result)).

(** The calls of an editor's hook chain on a value that is not fanned out:
    hook [i] is called on the container, the value and the queues the hooks
    before it left. *)
Fixpoint editorCalls (a : Args) (f : Field) (paths : Path * SchemaPath) (i : nat)
  (hs : list EditorHook) (c : Chain) : list Event :=
  match hs with
  | [] => []
  | h :: rest =>
      let x := editorCallArgs a f paths c in
      EEditorHook i x (h x) :: editorCalls a f paths (S i) rest (editorHookStep a f paths c h)
  end.

(** [editor.hooks.afterRead] of a resolved adapter, empty when there is
    none. *)
Definition editorHooksOf (afterRead : option (list EditorHook)) : list EditorHook :=
  match afterRead with Some hs => hs | None => [] end.

(** The calls of a field's hook chain on a value that is not fanned out:
    hook [i] is called on the container and the value the hooks before it
    left. *)
Fixpoint hookCalls (a : Args) (f : Field) (paths : Path * SchemaPath) (i : nat)
  (hs : list Hook) (o : Obj) : list Event :=
  match hs with
  | [] => []
  | h :: rest =>
      let x := hookArgs a paths (VObj o) (getPropOpt (VObj o) (slotKey f)) in
      EHook i x (h x) :: hookCalls a f paths (S i) rest (hookStep a f paths o h)
  end.

(** The calls of one hook that is fanned out over the locale map [kvs]: one
    per entry, in the order of the entries, all on the sibling container
    [o] as it is when the hook starts. *)
Definition localeHookCalls (a : Args) (paths : Path * SchemaPath) (i : nat)
  (h : Hook) (o kvs : Obj) : list Event :=
  map (fun e => EHook i (hookArgs a paths (VObj o) (snd e))
                  (h (hookArgs a paths (VObj o) (snd e)))) kvs.

(** The calls of a hook chain that is fanned out over a locale map. *)
Fixpoint fanOutCalls (a : Args) (f : Field) (paths : Path * SchemaPath) (i : nat)
  (hs : list Hook) (o : Obj) : list Event :=
  match hs with
  | [] => []
  | h :: rest =>
      match getPropOpt (VObj o) (slotKey f) with
      | VObj kvs => localeHookCalls a paths i h o kvs
      | _ => []
      end ++ fanOutCalls a f paths (S i) rest (fanOutStep a f paths o h)
  end.

(** The calls of one hook of the editor that is fanned out over the
    entries [es] of a locale map: one per entry, in the order of the entries,
    each told its entry's key as locale, all on the sibling container [sd] as
    it is when the hook starts, and each on the queues as the call before it
    left them. *)
Fixpoint editorLocaleCalls (a : Args) (paths : Path * SchemaPath) (h : EditorHook)
  (sd : JsValue) (es : Obj) (fp : list Settled) (pp : list Population)
  : list (EditorHookArgs * EditorHookResult) :=
  match es with
  | [] => []
  | e :: rest =>
      let x := editorHookArgs a paths (Some (fst e)) sd (snd e) fp (List.length pp) in
      (x, h x)
      :: editorLocaleCalls a paths h sd rest (fp ++ eh_fieldPromises (h x))
           (pp ++ map EditorPopulation (eh_populationPromises (h x)))
  end.

(** A defined answer is stored under the locale its call was told. *)
Definition storeAnswer (acc : Obj) (call : EditorHookArgs * EditorHookResult) : Obj :=
  if isUndefined (eh_value (snd call)) then acc
  else assign (localeKey (e_locale (fst call))) (eh_value (snd call)) acc.

(** One link of an editor's hook chain on a locale map: one call per
    locale, then each defined answer stored under its locale. *)
Definition editorFanOutStep (a : Args) (f : Field) (paths : Path * SchemaPath)
  (c : Chain) (h : EditorHook) : Chain :=
  match getPropOpt (VObj (c_doc c)) (slotKey f) with
  | VObj kvs =>
      let calls :=
        editorLocaleCalls a paths h (VObj (c_doc c)) kvs (c_fieldPromises c)
          (c_populationPromises c) in
      mkChain
        (assign (slotKey f) (VObj (fold_left storeAnswer calls kvs)) (c_doc c))
        (c_fieldPromises c ++ flat_map (fun call => eh_fieldPromises (snd call)) calls)
        (c_populationPromises c
         ++ flat_map (fun call => map EditorPopulation (eh_populationPromises (snd call)))
              calls)
  | _ => c
  end.

(** The calls of an editor's hook chain that is fanned out over a locale
    map. *)
Fixpoint editorFanOutCalls (a : Args) (f : Field) (paths : Path * SchemaPath)
  (i : nat) (hs : list EditorHook) (c : Chain) : list Event :=
  match hs with
  | [] => []
  | h :: rest =>
      match getPropOpt (VObj (c_doc c)) (slotKey f) with
      | VObj kvs =>
          map (fun call => EEditorHook i (fst call) (snd call))
            (editorLocaleCalls a paths h (VObj (c_doc c)) kvs (c_fieldPromises c)
               (c_populationPromises c))
      | _ => []
      end ++ editorFanOutCalls a f paths (S i) rest (editorFanOutStep a f paths c h)
  end.

(** The two objects agree on every key but [k]. *)
Definition sameElsewhere (k : string) (o o' : Obj) : Prop :=
  forall k', k' <> k -> lookup k' o' = lookup k' o.

(** On an object sibling container [m] leaves an object that differs from it
    at key [k] at most. *)
Definition WritesOnly {A} (k : string) (m : M A) : Prop :=
  forall s o, siblingDoc s = VObj o ->
    exists o', siblingDoc (fst (m s)) = VObj o' /\ sameElsewhere k o o'.

(** [m] appends to the log a sequence of calls that satisfies [P]. *)
Definition Logs {A} (P : list Event -> Prop) (m : M A) : Prop :=
  forall s, exists evs, log (fst (m s)) = log s ++ evs /\ P evs.

(** The access predicate is consulted (lines 266-275). *)
Definition accessConsulted (a : Args) (f : Field) : bool :=
  fieldAffectsData f && triggerAccessControl a && negb (overrideAccess a)
  && match access_read f with Some _ => true | None => false end.

(** The calls of lines 195-262: hook calls only, none when the chain does
    not run. *)
Definition hookPhase (a : Args) (f : Field) (evs : list Event) : Prop :=
  Forall isHookEvent evs /\ (hooksRun a f = false -> evs = []).

(** The calls of lines 264-281: at most one, to the access predicate. *)
Definition accessPhase (a : Args) (f : Field) (evs : list Event) : Prop :=
  (evs = [] \/ exists x b, evs = [EAccessRead x b])
  /\ (accessConsulted a f = false -> evs = []).

(** The calls of lines 283-296: at most one, to the default resolver, for
    an undefined value. *)
Definition defaultPhase (a : Args) (f : Field) (evs : list Event) : Prop :=
  let args := mkDefaultArgs (defaultValue f) (locale a) (user (req a)) VUndefined in
  (evs = [] \/ evs = [EDefault args (getDefaultValue args)])
  /\ (fieldAffectsData f && defaultConfigured f = false -> evs = []).

(** The calls of lines 298-313: at most one population task. *)
Definition populatePhase (a : Args) (f : Field) (evs : list Event) : Prop :=
  (evs = [] \/ exists sd, evs = [EPopulate (populationTask a f sd)])
  /\ (fieldAffectsData f && isReferenceType (type f) = false -> evs = []).

(** The calls of lines 316-691: recursive calls and editor hooks. *)
Definition recursionPhase (f : Field) (evs : list Event) : Prop :=
  Forall (fun e => isTraverseEvent e \/ isEditorHookEvent e) evs
  /\ (isTraversedType (type f) = false -> evs = []).

(** The sub-schema and the path a recursive call of a field of this type
    may have (lines 316-591). *)
Definition recursionTarget (f : Field) (paths : Path * SchemaPath)
  (fs : list Field) (p : Path) : Prop :=
  match type f with
  | Array => fs = fields f /\ exists i, p = fst paths ++ [SegIndex i]
  | Blocks =>
      (exists b, In b (blocks f) /\ fs = block_fields b)
      /\ exists i, p = fst paths ++ [SegIndex i]
  | Tabs => fs = map asTab (tabs f) /\ p = fst paths
  | _ => fs = fields f /\ p = fst paths
  end.

(** A recursive call that passes on the arguments of [promise] as they are,
    with the field's schema path. *)
Definition inheritsArguments (a : Args) (f : Field) (paths : Path * SchemaPath)
  (e : Event) : Prop :=
  match e with
  | ETraverse t _ =>
      exists fs p, t = traverseArgs a fs p (snd paths) /\ recursionTarget f paths fs p
  | _ => True
  end.

(** The sibling container is [null] or [undefined]. *)
Definition isNullish (v : JsValue) : Prop := v = VNull \/ v = VUndefined.

(** [m] calls hooks, the access predicate and the default resolver only,
    pushes nothing onto the queues and throws nothing but a [TypeError]. *)
Definition FieldCalls {A} (m : M A) : Prop :=
  forall s, exists evs,
    Forall isFieldCall evs
    /\ log (fst (m s)) = log s ++ evs
    /\ populationPromises (fst (m s)) = populationPromises s
    /\ fieldPromises (fst (m s)) = fieldPromises s
    /\ forall e, snd (m s) = inl e -> e = TypeError.

(** [m] ends in one of two ways.  It completes, and then the last thing it
    did was to push the population task of field [f], on the sibling container
    as [m] leaves it, after calls to hooks, the access predicate and the
    default resolver only.  Or it throws a [TypeError] after such calls, and
    has pushed nothing. *)
Definition PushesTaskLast {A} (a : Args) (f : Field) (m : M A) : Prop :=
  forall s, exists evs,
    Forall isFieldCall evs
    /\ fieldPromises (fst (m s)) = fieldPromises s
    /\ (((exists x, snd (m s) = inr x)
         /\ populationPromises (fst (m s)) =
            populationPromises s
            ++ [RelationshipPopulation (populationTask a f (siblingDoc (fst (m s))))]
         /\ log (fst (m s)) =
            log s ++ evs ++ [EPopulate (populationTask a f (siblingDoc (fst (m s))))])
        \/ (snd (m s) = inl TypeError
            /\ populationPromises (fst (m s)) = populationPromises s
            /\ log (fst (m s)) = log s ++ evs)).

End Coverage.

(** ** Further sample configurations *)

(** A row that lays out one field. *)
Definition spacerField : Field :=
  mkField Row None false false None None None EditorAbsent [captionField] [] [].

(** A presentational field. *)
Definition noteField : Field :=
  mkField UI None false false None None None EditorAbsent [] [] [].

Definition seoTab : Field :=
  mkField Tab (Some "seo") false false None None None EditorAbsent
    [captionField] [] [].

Definition contentTab : Field :=
  mkField Tab None false false None None None EditorAbsent [captionField] [] [].

Definition tabsField : Field :=
  mkField Tabs None false false None None None EditorAbsent [] []
    [seoTab; contentTab].

(** A hidden text field with a default. *)
Definition pinField : Field :=
  mkField Text (Some "pin") false true None None
    (Some (DefaultLiteral (VStr "n/a"))) EditorAbsent [] [] [].

(** A hidden group. *)
Definition vaultField : Field :=
  mkField Group (Some "vault") false true None None None EditorAbsent
    [captionField] [] [].

(** [({ value }) => typeof value === 'string' ? value.toUpperCase() : 'empty']. *)
Definition editorUpper : EditorHook :=
  fun x =>
    mkEditorHookResult
      match h_value (e_base x) with
      | VStr s => VStr (toUpperCase s)
      | _ => VStr "empty"
      end [] [].

(** [({ locale, value, populationPromises }) => {
      populationPromises.push(Promise.resolve()); return locale + ':' + value }]
    on strings. *)
Definition editorTag : EditorHook :=
  fun x =>
    mkEditorHookResult
      match h_value (e_base x) with
      | VStr s => VStr (String.append (localeKey (e_locale x)) (String.append ":" s))
      | _ => VUndefined
      end [] [Fulfilled].

(** A rich-text field with a resolved editor that has one hook. *)
Definition bodyField : Field :=
  mkField RichText (Some "body") false false None None None
    (EditorAdapter (Some [editorUpper])) [] [] [].

(** The same field, readable by nobody. *)
Definition sealedBodyField : Field :=
  mkField RichText (Some "body") false false None (Some denyAll) None
    (EditorAdapter (Some [editorUpper])) [] [] [].

(** A read of locale 'en' with hooks switched off. *)
Definition quietArgs : Args :=
  mkArgs 0 1 [] false None 0 false true (Some "en") false [] [] sampleRequest
    false true false.

(** A text field with two hooks that nobody may read. *)
Definition sealedTitleField : Field :=
  mkField Text (Some "title") false false (Some [hookA; hookUpper]) (Some denyAll)
    None EditorAbsent [] [] [].

(** A localized text field with a default. *)
Definition sloganField : Field :=
  mkField Text (Some "slogan") true false None None
    (Some (DefaultLiteral (VStr "none"))) EditorAbsent [] [] [].

(** A localized rich-text field with a resolved editor whose hook reads the
    locale it is told and pushes a promise onto the population queue. *)
Definition taggedStoryField : Field :=
  mkField RichText (Some "story") true false None None None
    (EditorAdapter (Some [editorTag])) [] [] [].

(** A localized array field with a hook. *)
Definition localizedRowsField : Field :=
  mkField Array (Some "rows") true false (Some [hookA]) None None EditorAbsent
    [captionField] [] [].

(** A localized relationship field with a hook. *)
Definition localizedAuthorField : Field :=
  mkField Relationship (Some "author") true false (Some [hookA]) None None
    EditorAbsent [] [] [].
(** ** Own properties: assignment and deletion *)

Lemma lookup_assign_same (k : string) (v : JsValue) (o : Obj) :
  lookup k (assign k v o) = Some v.
Proof.
  induction o as [|[k' v'] o IH]; simpl.
  - now rewrite String.eqb_refl.
  - destruct (String.eqb k k') eqn:E; simpl; rewrite E; auto.
Qed.

Lemma lookup_assign_other (k k' : string) (v : JsValue) (o : Obj) :
  k <> k' -> lookup k' (assign k v o) = lookup k' o.
Proof.
  intros Hne. induction o as [|[k0 v0] o IH]; simpl.
  - destruct (String.eqb k' k) eqn:E; auto.
    apply String.eqb_eq in E. congruence.
  - destruct (String.eqb k k0) eqn:E; simpl.
    + apply String.eqb_eq in E. subst k0.
      destruct (String.eqb k' k) eqn:E'; auto.
      apply String.eqb_eq in E'. congruence.
    + now rewrite IH.
Qed.

Lemma lookup_remove_same (k : string) (o : Obj) : lookup k (remove k o) = None.
Proof.
  induction o as [|[k' v'] o IH]; simpl; auto.
  destruct (String.eqb k k') eqn:E; simpl; auto. now rewrite E.
Qed.

Lemma lookup_remove_other (k k' : string) (o : Obj) :
  k <> k' -> lookup k' (remove k o) = lookup k' o.
Proof.
  intros Hne. induction o as [|[k0 v0] o IH]; simpl; auto.
  destruct (String.eqb k k0) eqn:E; simpl.
  - apply String.eqb_eq in E. subst k0.
    destruct (String.eqb k' k) eqn:E'; auto.
    apply String.eqb_eq in E'. congruence.
  - now rewrite IH.
Qed.

Lemma hasOwn_remove (k : string) (o : Obj) : hasOwn k (remove k o) = false.
Proof. unfold hasOwn. now rewrite lookup_remove_same. Qed.

(** ** The steps on an object *)

Section Steps.

Context `{Collaborators}.

Lemma readSlot_object (k : string) (o : Obj) fp pp lg :
  readSlot k (mkState (VObj o) fp pp lg) =
  (mkState (VObj o) fp pp lg, inr (getPropOpt (VObj o) k)).
Proof. reflexivity. Qed.

Lemma writeSlot_object (k : string) (v : JsValue) (o : Obj) fp pp lg :
  writeSlot k v (mkState (VObj o) fp pp lg) =
  (mkState (VObj (assign k v o)) fp pp lg, inr tt).
Proof. reflexivity. Qed.

Lemma deleteSlot_object (k : string) (o : Obj) fp pp lg :
  deleteSlot k (mkState (VObj o) fp pp lg) =
  (mkState (VObj (remove k o)) fp pp lg, inr tt).
Proof. reflexivity. Qed.

Lemma hoistedValue_spec (a : Args) (f : Field) (slot : JsValue) :
  isObjectType slot && negb (isNull slot) = true ->
  let primary := getPropOpt slot (localeKey (locale a)) in
  let fallback := getPropOpt slot (localeKey (fallbackLocale a)) in
  hoistedValue a f slot =
  inr (if fallbackSubstituted a f primary fallback then fallback else primary).
Proof.
  intros Hobj primary fallback.
  unfold hoistedValue, fallbackSubstituted.
  assert (Hget : forall k, getProp slot k = inr (getPropOpt slot k)).
  { intros k. unfold getPropOpt. destruct slot; try discriminate; simpl;
      try reflexivity. destruct (String.eqb k "length"); reflexivity. }
  rewrite !Hget. fold primary fallback.
  destruct (fallbackApplies _ _); simpl; [|reflexivity].
  destruct (truthy fallback); simpl; [|reflexivity].
  destruct (type f); simpl;
    destruct (isUndefined primary), (isNull primary), (isEmptyString primary);
    reflexivity.
Qed.


(** *** Composition of what a computation may do *)

Lemma bind_run {A B} (m : M A) (k : A -> M B) (s : State) :
  bind m k s =
  match m s with
  | (s', inr x) => k x s'
  | (s', inl e) => (s', inl e)
  end.
Proof. reflexivity. Qed.

Lemma Tracks_ret {A} (P : Event -> Prop) (x : A) : Tracks P (ret x).
Proof.
  intros s. exists []. simpl. rewrite !app_nil_r. auto.
Qed.

Lemma Tracks_throw {A} (P : Event -> Prop) (e : Err) : Tracks P (@throw A e).
Proof.
  intros s. exists []. simpl. rewrite !app_nil_r. auto.
Qed.

Lemma Tracks_liftE {A} (P : Event -> Prop) (r : Err + A) : Tracks P (liftE r).
Proof.
  intros s. exists []. simpl. rewrite !app_nil_r. auto.
Qed.

Lemma Tracks_getDoc (P : Event -> Prop) : Tracks P getDoc.
Proof.
  intros s. exists []. simpl. rewrite !app_nil_r. auto.
Qed.

Lemma Tracks_putDoc (P : Event -> Prop) (d : JsValue) : Tracks P (putDoc d).
Proof.
  intros s. exists []. simpl. rewrite !app_nil_r. auto.
Qed.

Lemma Tracks_emit (P : Event -> Prop) (e : Event) :
  P e -> tasksOf e = [] -> promisesOf e = [] -> Tracks P (emit e).
Proof.
  intros HP Ht Hp s. exists [e]. simpl. rewrite Ht, Hp, !app_nil_r. auto.
Qed.

Lemma Tracks_pushPopulation (P : Event -> Prop) (t : PopulationTask) :
  P (EPopulate t) -> Tracks P (pushPopulation t).
Proof.
  intros HP s. exists [EPopulate t]. simpl. rewrite !app_nil_r. auto.
Qed.

Lemma Tracks_callTraverse (P : Event -> Prop) (t : TraverseArgs) (sib : JsValue) :
  P (ETraverse t sib) -> Tracks P (callTraverse t sib).
Proof.
  intros HP s. exists [ETraverse t sib]. simpl. rewrite !app_nil_r. auto.
Qed.

Lemma Tracks_bind {A B} (P : Event -> Prop) (m : M A) (k : A -> M B) :
  Tracks P m -> (forall x, Tracks P (k x)) -> Tracks P (bind m k).
Proof.
  intros Hm Hk s. rewrite bind_run.
  destruct (Hm s) as (evs & Hl & Hp & Hf & HP).
  destruct (m s) as [s' [e|x]]; simpl in *.
  - exists evs. auto.
  - destruct (Hk x s') as (evs' & Hl' & Hp' & Hf' & HP').
    exists (evs ++ evs').
    rewrite Hl', Hp', Hf', Hl, Hp, Hf, !flat_map_app, !app_assoc.
    repeat split; auto. apply Forall_app; auto.
Qed.

Lemma Tracks_weaken {A} (P P' : Event -> Prop) (m : M A) :
  (forall e, P e -> P' e) -> Tracks P m -> Tracks P' m.
Proof.
  intros Himp Hm s. destruct (Hm s) as (evs & Hl & Hp & Hf & HP).
  exists evs. repeat split; auto. eapply Forall_impl; eauto.
Qed.

Lemma Tracks_forEachFrom {A} (P : Event -> Prop) (body : nat -> A -> M unit)
  (xs : list A) :
  (forall i x, Tracks P (body i x)) -> forall i, Tracks P (forEachFrom i xs body).
Proof.
  intros Hb. induction xs as [|x xs IH]; intros i; simpl.
  - apply Tracks_ret.
  - apply Tracks_bind; auto.
Qed.

Lemma Throws_ret {A} (Q : Err -> Prop) (x : A) : Throws Q (ret x).
Proof. intros s e; discriminate. Qed.

Lemma Throws_throw {A} (Q : Err -> Prop) (e : Err) : Q e -> Throws Q (@throw A e).
Proof. intros HQ s e' [= <-]; auto. Qed.

Lemma Throws_getDoc (Q : Err -> Prop) : Throws Q getDoc.
Proof. intros s e; discriminate. Qed.

Lemma Throws_putDoc (Q : Err -> Prop) (d : JsValue) : Throws Q (putDoc d).
Proof. intros s e; discriminate. Qed.

Lemma Throws_emit (Q : Err -> Prop) (ev : Event) : Throws Q (emit ev).
Proof. intros s e; discriminate. Qed.

Lemma Throws_pushPopulation (Q : Err -> Prop) (t : PopulationTask) :
  Throws Q (pushPopulation t).
Proof. intros s e; discriminate. Qed.

Lemma Throws_callTraverse (Q : Err -> Prop) (t : TraverseArgs) (sib : JsValue) :
  Throws Q (callTraverse t sib).
Proof. intros s e; discriminate. Qed.

Lemma Throws_liftE {A} (Q : Err -> Prop) (r : Err + A) :
  (forall e, r = inl e -> Q e) -> Throws Q (liftE r).
Proof. intros Hr s e He. apply Hr. exact He. Qed.

Lemma Throws_bind {A B} (Q : Err -> Prop) (m : M A) (k : A -> M B) :
  Throws Q m -> (forall x, Throws Q (k x)) -> Throws Q (bind m k).
Proof.
  intros Hm Hk s e. rewrite bind_run.
  specialize (Hm s). destruct (m s) as [s' [e'|x]]; simpl in *.
  - intros [= <-]. auto.
  - apply Hk.
Qed.

Lemma Throws_forEachFrom {A} (Q : Err -> Prop) (body : nat -> A -> M unit)
  (xs : list A) :
  (forall i x, Throws Q (body i x)) -> forall i, Throws Q (forEachFrom i xs body).
Proof.
  intros Hb. induction xs as [|x xs IH]; intros i; simpl.
  - apply Throws_ret.
  - apply Throws_bind; auto.
Qed.

Lemma getProp_TypeError (o : JsValue) (k : string) (e : Err) :
  getProp o k = inl e -> e = TypeError.
Proof.
  destruct o; simpl; try discriminate; try (intros [= <-]; reflexivity).
  destruct (String.eqb k "length"); discriminate.
Qed.

Lemma setProp_TypeError (o : JsValue) (k : string) (v : JsValue) (e : Err) :
  setProp o k v = inl e -> e = TypeError.
Proof.
  destruct o; simpl; try discriminate; intros [= <-]; reflexivity.
Qed.

Lemma deleteProp_TypeError (o : JsValue) (k : string) (e : Err) :
  deleteProp o k = inl e -> e = TypeError.
Proof.
  destruct o; simpl; try discriminate; intros [= <-]; reflexivity.
Qed.

Lemma entries_TypeError (o : JsValue) (e : Err) :
  entries o = inl e -> e = TypeError.
Proof.
  destruct o; simpl; try discriminate; intros [= <-]; reflexivity.
Qed.

Lemma KeepsObject_ret {A} (x : A) : KeepsObject (ret x).
Proof. intros s Hs; exact Hs. Qed.

Lemma KeepsObject_throw {A} (e : Err) : KeepsObject (@throw A e).
Proof. intros s Hs; exact Hs. Qed.

Lemma KeepsObject_liftE {A} (r : Err + A) : KeepsObject (liftE r).
Proof. intros s Hs; exact Hs. Qed.

Lemma KeepsObject_getDoc : KeepsObject getDoc.
Proof. intros s Hs; exact Hs. Qed.

Lemma KeepsObject_emit (e : Event) : KeepsObject (emit e).
Proof. intros s Hs; exact Hs. Qed.

Lemma KeepsObject_pushPopulation (t : PopulationTask) :
  KeepsObject (pushPopulation t).
Proof. intros s Hs; exact Hs. Qed.

Lemma KeepsObject_callTraverse (t : TraverseArgs) (sib : JsValue) :
  KeepsObject (callTraverse t sib).
Proof. intros s Hs; exact Hs. Qed.

Lemma KeepsObject_writeSlot (k : string) (v : JsValue) : KeepsObject (writeSlot k v).
Proof.
  intros [d fp pp lg] [o Ho]. simpl in Ho. subst d. simpl. exists (assign k v o). reflexivity.
Qed.

Lemma KeepsObject_deleteSlot (k : string) : KeepsObject (deleteSlot k).
Proof.
  intros [d fp pp lg] [o Ho]. simpl in Ho. subst d. simpl. exists (remove k o). reflexivity.
Qed.

Lemma KeepsObject_bind {A B} (m : M A) (k : A -> M B) :
  KeepsObject m -> (forall x, KeepsObject (k x)) -> KeepsObject (bind m k).
Proof.
  intros Hm Hk s Hs. rewrite bind_run.
  specialize (Hm s Hs). destruct (m s) as [s' [e|x]]; simpl in *; auto.
  apply Hk. exact Hm.
Qed.

Lemma KeepsObject_forEachFrom {A} (body : nat -> A -> M unit) (xs : list A) :
  (forall i x, KeepsObject (body i x)) ->
  forall i, KeepsObject (forEachFrom i xs body).
Proof.
  intros Hb. induction xs as [|x xs IH]; intros i; simpl.
  - apply KeepsObject_ret.
  - apply KeepsObject_bind; auto.
Qed.

Ltac inv_step :=
  match goal with
  | |- Tracks _ (bind _ _) => apply Tracks_bind; [|intros ?]
  | |- Throws _ (bind _ _) => apply Throws_bind; [|intros ?]
  | |- KeepsObject (bind _ _) => apply KeepsObject_bind; [|intros ?]
  | |- Tracks _ (forEach _ _) => apply Tracks_forEachFrom; intros ? ?
  | |- Throws _ (forEach _ _) => apply Throws_forEachFrom; intros ? ?
  | |- KeepsObject (forEach _ _) => apply KeepsObject_forEachFrom; intros ? ?
  | |- Tracks _ (if ?b then _ else _) => destruct b
  | |- Throws _ (if ?b then _ else _) => destruct b
  | |- KeepsObject (if ?b then _ else _) => destruct b
  | |- Tracks _ (match ?x with _ => _ end) => destruct x
  | |- Throws _ (match ?x with _ => _ end) => destruct x
  | |- KeepsObject (match ?x with _ => _ end) => destruct x
  | |- Tracks _ (ret _) => apply Tracks_ret
  | |- Tracks _ (throw _) => apply Tracks_throw
  | |- Tracks _ (liftE _) => apply Tracks_liftE
  | |- Tracks _ getDoc => apply Tracks_getDoc
  | |- Tracks _ (putDoc _) => apply Tracks_putDoc
  | |- Throws _ (ret _) => apply Throws_ret
  | |- Throws _ getDoc => apply Throws_getDoc
  | |- Throws _ (putDoc _) => apply Throws_putDoc
  | |- Throws _ (emit _) => apply Throws_emit
  | |- Throws _ (pushPopulation _) => apply Throws_pushPopulation
  | |- Throws _ (callTraverse _ _) => apply Throws_callTraverse
  | |- KeepsObject (ret _) => apply KeepsObject_ret
  | |- KeepsObject (throw _) => apply KeepsObject_throw
  | |- KeepsObject (liftE _) => apply KeepsObject_liftE
  | |- KeepsObject getDoc => apply KeepsObject_getDoc
  | |- KeepsObject (emit _) => apply KeepsObject_emit
  | |- KeepsObject (pushPopulation _) => apply KeepsObject_pushPopulation
  | |- KeepsObject (callTraverse _ _) => apply KeepsObject_callTraverse
  | |- KeepsObject (writeSlot _ _) => apply KeepsObject_writeSlot
  | |- KeepsObject (deleteSlot _) => apply KeepsObject_deleteSlot
  end.

Ltac inv_steps := repeat inv_step.

Lemma Tracks_readSlot (P : Event -> Prop) (k : string) : Tracks P (readSlot k).
Proof. unfold readSlot. inv_steps. Qed.

Lemma Tracks_writeSlot (P : Event -> Prop) (k : string) (v : JsValue) :
  Tracks P (writeSlot k v).
Proof. unfold writeSlot. inv_steps. Qed.

Lemma Tracks_deleteSlot (P : Event -> Prop) (k : string) : Tracks P (deleteSlot k).
Proof. unfold deleteSlot. inv_steps. Qed.

Lemma Throws_readSlot (k : string) : Throws (fun e => e = TypeError) (readSlot k).
Proof.
  unfold readSlot. inv_steps. apply Throws_liftE. apply getProp_TypeError.
Qed.

Lemma Throws_writeSlot (k : string) (v : JsValue) :
  Throws (fun e => e = TypeError) (writeSlot k v).
Proof.
  unfold writeSlot. inv_steps. apply Throws_liftE. apply setProp_TypeError.
Qed.

Lemma Throws_deleteSlot (k : string) :
  Throws (fun e => e = TypeError) (deleteSlot k).
Proof.
  unfold deleteSlot. inv_steps. apply Throws_liftE. apply deleteProp_TypeError.
Qed.

Lemma Throws_weaken {A} (Q Q' : Err -> Prop) (m : M A) :
  (forall e, Q e -> Q' e) -> Throws Q m -> Throws Q' m.
Proof. intros Himp Hm s e He. apply Himp. eapply Hm. exact He. Qed.

Lemma KeepsObject_readSlot (k : string) : KeepsObject (readSlot k).
Proof. unfold readSlot. inv_steps. Qed.

Create HintDb steps.

#[local] Hint Resolve Tracks_readSlot Tracks_writeSlot Tracks_deleteSlot
  Throws_readSlot Throws_writeSlot Throws_deleteSlot KeepsObject_readSlot
  KeepsObject_writeSlot KeepsObject_deleteSlot getProp_TypeError
  setProp_TypeError entries_TypeError Throws_liftE : steps.

(** *** The steps before the recursion *)

Lemma Tracks_removeHiddenField (P : Event -> Prop) (a : Args) (f : Field) :
  Tracks P (removeHiddenField a f).
Proof. unfold removeHiddenField. inv_steps; auto with steps. Qed.

Lemma Throws_removeHiddenField (a : Args) (f : Field) :
  Throws (fun e => e = TypeError) (removeHiddenField a f).
Proof. unfold removeHiddenField. inv_steps; auto with steps. Qed.

Lemma KeepsObject_removeHiddenField (a : Args) (f : Field) :
  KeepsObject (removeHiddenField a f).
Proof. unfold removeHiddenField. inv_steps; auto with steps. Qed.

Lemma hoistedValue_TypeError (a : Args) (f : Field) (slot : JsValue) (e : Err) :
  hoistedValue a f slot = inl e -> e = TypeError.
Proof.
  unfold hoistedValue.
  destruct (getProp slot (localeKey (locale a))) as [e1|v] eqn:E1.
  - intros [= <-]. eapply getProp_TypeError; eauto.
  - destruct (fallbackApplies _ _); [|discriminate].
    destruct (getProp slot (localeKey (fallbackLocale a))) as [e2|w] eqn:E2.
    + intros [= <-]. eapply getProp_TypeError; eauto.
    + destruct (truthy w); [|discriminate].
      destruct (type f);
        repeat match goal with |- context [if ?b then _ else _] => destruct b end;
        discriminate.
Qed.

Lemma Tracks_hoistLocalizedValue (P : Event -> Prop) (a : Args) (f : Field) :
  Tracks P (hoistLocalizedValue a f).
Proof.
  unfold hoistLocalizedValue, shouldHoistLocalizedValue.
  inv_steps; auto with steps.
Qed.

Lemma Throws_hoistLocalizedValue (a : Args) (f : Field) :
  Throws (fun e => e = TypeError) (hoistLocalizedValue a f).
Proof.
  unfold hoistLocalizedValue, shouldHoistLocalizedValue.
  inv_steps; auto with steps.
  apply Throws_liftE. apply hoistedValue_TypeError.
Qed.

Lemma KeepsObject_hoistLocalizedValue (a : Args) (f : Field) :
  KeepsObject (hoistLocalizedValue a f).
Proof.
  unfold hoistLocalizedValue, shouldHoistLocalizedValue.
  inv_steps; auto with steps.
Qed.

Lemma Throws_checkEditor (f : Field) :
  Throws (fun e => editorError f = Some e) (checkEditor f).
Proof.
  unfold checkEditor, editorError. intros s e.
  destruct (editor f); simpl; intros [= <-]; reflexivity.
Qed.

Lemma Tracks_checkEditor (P : Event -> Prop) (f : Field) : Tracks P (checkEditor f).
Proof. unfold checkEditor. inv_steps. Qed.

Lemma KeepsObject_checkEditor (f : Field) : KeepsObject (checkEditor f).
Proof. unfold checkEditor. inv_steps. Qed.

Lemma Tracks_sanitizeField (P : Event -> Prop) (f : Field) :
  Tracks P (sanitizeField f).
Proof.
  unfold sanitizeField, sanitizePoint.
  destruct (type f); inv_steps; auto using Tracks_checkEditor with steps.
Qed.

Lemma KeepsObject_sanitizeField (f : Field) : KeepsObject (sanitizeField f).
Proof.
  unfold sanitizeField, sanitizePoint.
  destruct (type f); inv_steps; auto using KeepsObject_checkEditor with steps.
Qed.

Lemma Throws_sanitizeField (f : Field) :
  Throws (fun e => e = TypeError \/ configErrorOf f e) (sanitizeField f).
Proof.
  unfold sanitizeField, sanitizePoint, configErrorOf.
  destruct (type f) eqn:Ht;
    try solve [apply Throws_weaken with (Q := fun e => e = TypeError);
               [intros e He; left; exact He|]; inv_steps; auto with steps].
  apply Throws_weaken with (Q := fun e => editorError f = Some e);
    [intros e He; cbv beta; right; auto|apply Throws_checkEditor].
Qed.

(** *** Hook chains *)

Lemma Tracks_shouldRunHookOnAllLocales (P : Event -> Prop) (a : Args) (f : Field) :
  Tracks P (shouldRunHookOnAllLocales a f).
Proof. unfold shouldRunHookOnAllLocales. inv_steps; auto with steps. Qed.

Lemma Throws_shouldRunHookOnAllLocales (a : Args) (f : Field) :
  Throws (fun e => e = TypeError) (shouldRunHookOnAllLocales a f).
Proof. unfold shouldRunHookOnAllLocales. inv_steps; auto with steps. Qed.

Lemma KeepsObject_shouldRunHookOnAllLocales (a : Args) (f : Field) :
  KeepsObject (shouldRunHookOnAllLocales a f).
Proof. unfold shouldRunHookOnAllLocales. inv_steps; auto with steps. Qed.

Lemma Tracks_writeEntry (P : Event -> Prop) (k l : string) (v : JsValue) :
  Tracks P (writeEntry k l v).
Proof. unfold writeEntry. inv_steps; auto with steps. Qed.

Lemma Throws_writeEntry (k l : string) (v : JsValue) :
  Throws (fun e => e = TypeError) (writeEntry k l v).
Proof. unfold writeEntry. inv_steps; eauto with steps. Qed.

Lemma KeepsObject_writeEntry (k l : string) (v : JsValue) :
  KeepsObject (writeEntry k l v).
Proof. unfold writeEntry. inv_steps; auto with steps. Qed.

Section HookChain.

Context {A : Type} (mk : JsValue -> JsValue -> A)
  (ev : nat -> A -> JsValue -> Event).
Hypothesis ev_tasks : forall i x r, tasksOf (ev i x r) = [].
Hypothesis ev_promises : forall i x r, promisesOf (ev i x r) = [].

Lemma Tracks_runHook (P : Event -> Prop) (a : Args) (f : Field) (i : nat)
  (h : A -> JsValue) :
  (forall x, P (ev i x (h x))) -> Tracks P (runHook mk ev a f i h).
Proof.
  intros HP. unfold runHook.
  inv_steps;
    auto using Tracks_shouldRunHookOnAllLocales, Tracks_writeEntry, Tracks_emit
      with steps.
Qed.

Lemma Throws_runHook (a : Args) (f : Field) (i : nat) (h : A -> JsValue) :
  Throws (fun e => e = TypeError) (runHook mk ev a f i h).
Proof.
  unfold runHook.
  inv_steps;
    eauto using Throws_shouldRunHookOnAllLocales, Throws_writeEntry with steps.
Qed.

Lemma KeepsObject_runHook (a : Args) (f : Field) (i : nat) (h : A -> JsValue) :
  KeepsObject (runHook mk ev a f i h).
Proof.
  unfold runHook.
  inv_steps;
    auto using KeepsObject_shouldRunHookOnAllLocales, KeepsObject_writeEntry
      with steps.
Qed.

End HookChain.

Lemma Tracks_executeHooks (a : Args) (f : Field) (paths : Path * SchemaPath) :
  Tracks isHookEvent (executeHooks a f paths).
Proof.
  unfold executeHooks. inv_steps.
  apply Tracks_runHook; simpl; auto.
Qed.

Lemma Throws_executeHooks (a : Args) (f : Field) (paths : Path * SchemaPath) :
  Throws (fun e => e = TypeError) (executeHooks a f paths).
Proof. unfold executeHooks. inv_steps. apply Throws_runHook. Qed.

Lemma KeepsObject_executeHooks (a : Args) (f : Field) (paths : Path * SchemaPath) :
  KeepsObject (executeHooks a f paths).
Proof. unfold executeHooks. inv_steps. apply KeepsObject_runHook. Qed.

(** *** Access control, default value, population *)

Lemma Tracks_executeAccessControl (a : Args) (f : Field) :
  Tracks isFieldCall (executeAccessControl a f).
Proof.
  unfold executeAccessControl.
  inv_steps; auto using Tracks_emit with steps; apply Tracks_emit; simpl; auto.
Qed.

Lemma Throws_executeAccessControl (a : Args) (f : Field) :
  Throws (fun e => e = TypeError) (executeAccessControl a f).
Proof. unfold executeAccessControl. inv_steps; auto with steps. Qed.

Lemma KeepsObject_executeAccessControl (a : Args) (f : Field) :
  KeepsObject (executeAccessControl a f).
Proof. unfold executeAccessControl. inv_steps; auto with steps. Qed.

Lemma Tracks_setDefaultValue (a : Args) (f : Field) (allow : bool) :
  Tracks isFieldCall (setDefaultValue a f allow).
Proof.
  unfold setDefaultValue.
  inv_steps; auto with steps; apply Tracks_emit; simpl; auto.
Qed.

Lemma Throws_setDefaultValue (a : Args) (f : Field) (allow : bool) :
  Throws (fun e => e = TypeError) (setDefaultValue a f allow).
Proof. unfold setDefaultValue. inv_steps; auto with steps. Qed.

Lemma KeepsObject_setDefaultValue (a : Args) (f : Field) (allow : bool) :
  KeepsObject (setDefaultValue a f allow).
Proof. unfold setDefaultValue. inv_steps; auto with steps. Qed.

Lemma Tracks_schedulePopulation (a : Args) (f : Field) :
  Tracks isPopulateEvent (schedulePopulation a f).
Proof.
  unfold schedulePopulation.
  inv_steps; auto with steps; apply Tracks_pushPopulation; simpl; auto.
Qed.

Lemma Throws_schedulePopulation (a : Args) (f : Field) :
  Throws (fun e => e = TypeError) (schedulePopulation a f).
Proof. unfold schedulePopulation. inv_steps. Qed.

Lemma KeepsObject_schedulePopulation (a : Args) (f : Field) :
  KeepsObject (schedulePopulation a f).
Proof. unfold schedulePopulation. inv_steps. Qed.

Lemma Tracks_dataPhases (a : Args) (f : Field) (paths : Path * SchemaPath) :
  Tracks (fun e => isFieldCall e \/ isPopulateEvent e) (dataPhases a f paths).
Proof.
  unfold dataPhases. inv_steps.
  - eapply Tracks_weaken; [|apply Tracks_executeHooks].
    intros []; simpl; auto.
  - eapply Tracks_weaken; [|apply Tracks_executeAccessControl]. auto.
  - eapply Tracks_weaken; [|apply Tracks_setDefaultValue]. auto.
  - eapply Tracks_weaken; [|apply Tracks_schedulePopulation]. auto.
Qed.

Lemma Throws_dataPhases (a : Args) (f : Field) (paths : Path * SchemaPath) :
  Throws (fun e => e = TypeError) (dataPhases a f paths).
Proof.
  unfold dataPhases.
  inv_steps;
    auto using Throws_executeHooks, Throws_executeAccessControl,
      Throws_setDefaultValue, Throws_schedulePopulation.
Qed.

Lemma KeepsObject_dataPhases (a : Args) (f : Field) (paths : Path * SchemaPath) :
  KeepsObject (dataPhases a f paths).
Proof.
  unfold dataPhases.
  inv_steps;
    auto using KeepsObject_executeHooks, KeepsObject_executeAccessControl,
      KeepsObject_setDefaultValue, KeepsObject_schedulePopulation.
Qed.

Lemma Tracks_fieldPhases (a : Args) (f : Field) :
  Tracks (fun e => isFieldCall e \/ isPopulateEvent e) (fieldPhases a f).
Proof.
  unfold fieldPhases. cbv zeta.
  inv_steps;
    auto using Tracks_removeHiddenField, Tracks_hoistLocalizedValue,
      Tracks_sanitizeField, Tracks_dataPhases.
Qed.

Lemma Throws_fieldPhases (a : Args) (f : Field) :
  Throws (fun e => e = TypeError \/ configErrorOf f e) (fieldPhases a f).
Proof.
  unfold fieldPhases. cbv zeta.
  inv_steps; auto using Throws_sanitizeField;
    (eapply Throws_weaken; [intros e He; left; exact He|]);
    auto using Throws_removeHiddenField, Throws_hoistLocalizedValue,
      Throws_dataPhases.
Qed.

Lemma KeepsObject_fieldPhases (a : Args) (f : Field) :
  KeepsObject (fieldPhases a f).
Proof.
  unfold fieldPhases. cbv zeta.
  inv_steps;
    auto using KeepsObject_removeHiddenField, KeepsObject_hoistLocalizedValue,
      KeepsObject_sanitizeField, KeepsObject_dataPhases.
Qed.

(** *** The recursion *)

Lemma Throws_bind_result {A B} (Q : Err -> Prop) (R : A -> Prop) (m : M A)
  (k : A -> M B) :
  Throws Q m -> (forall s x, snd (m s) = inr x -> R x) ->
  (forall x, R x -> Throws Q (k x)) -> Throws Q (bind m k).
Proof.
  intros Hm HR Hk s e. rewrite bind_run.
  specialize (Hm s). specialize (HR s).
  destruct (m s) as [s' [e'|x]]; simpl in *.
  - intros [= <-]. auto.
  - apply Hk. auto.
Qed.

Lemma Tracks_mapRows (P : Event -> Prop) (body : nat -> JsValue -> M JsValue)
  (rows : list JsValue) :
  (forall i row, Tracks P (body i row)) -> forall i, Tracks P (mapRows body i rows).
Proof.
  intros Hb. induction rows as [|row rest IH]; intros i; simpl.
  - apply Tracks_ret.
  - intros s.
    destruct (Hb i row s) as (evs & Hl & Hp & Hf & HP).
    destruct (body i row s) as [s' [e|row']]; simpl in *.
    + exists evs. auto.
    + destruct (IH (S i) s') as (evs' & Hl' & Hp' & Hf' & HP').
      destruct (mapRows body (S i) rest s') as [s'' [e|[rest' e]]]; simpl in *;
        exists (evs ++ evs');
        rewrite Hl', Hp', Hf', Hl, Hp, Hf, !flat_map_app, !app_assoc;
        repeat split; auto; apply Forall_app; auto.
Qed.

Lemma mapRows_result (Q : Err -> Prop) (body : nat -> JsValue -> M JsValue)
  (rows : list JsValue) :
  (forall i row, Throws Q (body i row)) ->
  forall i s,
    exists rows' e, snd (mapRows body i rows s) = inr (rows', e) /\
                    (forall x, e = Some x -> Q x).
Proof.
  intros Hb. induction rows as [|row rest IH]; intros i s; simpl.
  - exists [], None. split; [reflexivity|discriminate].
  - specialize (Hb i row s).
    destruct (body i row s) as [s' [e|row']]; simpl in *.
    + exists (row :: rest), (Some e). split; [reflexivity|].
      intros x [= <-]. auto.
    + destruct (IH (S i) s') as (rest' & e & He & HQ).
      destruct (mapRows body (S i) rest s') as [s'' [e'|[rest'' e'']]];
        simpl in *; [discriminate|].
      injection He as -> ->. exists (row' :: rest'), e. auto.
Qed.

Lemma Throws_mapRows (Q : Err -> Prop) (body : nat -> JsValue -> M JsValue)
  (rows : list JsValue) (i : nat) :
  (forall i row, Throws (fun _ => True) (body i row)) ->
  Throws Q (mapRows body i rows).
Proof.
  intros Hb s e He.
  destruct (mapRows_result (fun _ => True) body rows Hb i s) as (r & x & Hr & _).
  congruence.
Qed.

Lemma Tracks_mapLocales (P : Event -> Prop) (body : nat -> JsValue -> M JsValue)
  (kvs : Obj) :
  (forall i row, Tracks P (body i row)) -> Tracks P (mapLocales body kvs).
Proof.
  intros Hb. induction kvs as [|[l v] rest IH]; simpl.
  - apply Tracks_ret.
  - destruct v; inv_steps; auto using Tracks_mapRows.
Qed.

Lemma mapLocales_result (Q : Err -> Prop) (body : nat -> JsValue -> M JsValue)
  (kvs : Obj) :
  (forall i row, Throws Q (body i row)) ->
  forall s,
    exists kvs' e, snd (mapLocales body kvs s) = inr (kvs', e) /\
                   (forall x, e = Some x -> Q x).
Proof.
  intros Hb. induction kvs as [|[l v] rest IH]; intros s; simpl.
  - exists [], None. split; [reflexivity|discriminate].
  - assert (Hrest : forall s0,
      exists kvs' e,
        snd ((r' <- mapLocales body rest ;;
              ret ((l, v) :: fst r', snd r'))%M s0) = inr (kvs', e) /\
        (forall x, e = Some x -> Q x)).
    { intros s0. rewrite bind_run.
      destruct (IH s0) as (kvs' & e & He & HQ).
      destruct (mapLocales body rest s0) as [s1 [e1|r1]]; simpl in *;
        [discriminate|].
      injection He as ->. exists ((l, v) :: kvs'), e. simpl. auto. }
    destruct v; try apply Hrest.
    rewrite bind_run.
    destruct (mapRows_result Q body elems Hb 0 s) as (rows' & e & He & HQ).
    destruct (mapRows body 0 elems s) as [s1 [e1|r1]]; simpl in *;
      [discriminate|].
    injection He as ->. simpl.
    destruct e as [x|]; simpl.
    + exists ((l, VArr rows') :: rest), (Some x). auto.
    + rewrite bind_run.
      destruct (IH s1) as (kvs' & e & He & HQ').
      destruct (mapLocales body rest s1) as [s2 [e2|r2]]; simpl in *;
        [discriminate|].
      injection He as ->. exists ((l, VArr rows') :: kvs'), e. simpl. auto.
Qed.

Lemma Throws_rethrow (Q : Err -> Prop) (e : option Err) :
  (forall x, e = Some x -> Q x) -> Throws Q (rethrow e).
Proof.
  intros HQ s x. destruct e as [y|]; simpl; [|discriminate].
  intros [= <-]. auto.
Qed.

Lemma Tracks_rethrow (P : Event -> Prop) (e : option Err) : Tracks P (rethrow e).
Proof. unfold rethrow. inv_steps. Qed.

Lemma Tracks_traverseRows (P : Event -> Prop) (f : Field) (sh : bool)
  (body : nat -> JsValue -> M JsValue) :
  (forall i row, Tracks P (body i row)) -> Tracks P (traverseRows f sh body).
Proof.
  intros Hb. unfold traverseRows.
  inv_steps;
    auto using Tracks_mapRows, Tracks_mapLocales, Tracks_rethrow with steps.
Qed.

Lemma Throws_traverseRows (f : Field) (sh : bool)
  (body : nat -> JsValue -> M JsValue) :
  (forall i row, Throws (fun e => e = TypeError) (body i row)) ->
  Throws (fun e => e = TypeError) (traverseRows f sh body).
Proof.
  intros Hb. unfold traverseRows.
  apply Throws_bind; [auto with steps|]. intros rows.
  assert (Hw : forall k v, Throws (fun e => e = TypeError) (writeSlot k v))
    by auto with steps.
  destruct rows; auto.
  - eapply Throws_bind_result with (R := fun r => forall x, snd r = Some x -> x = TypeError).
    + apply Throws_mapRows. intros i row s e _. exact I.
    + intros s r Hr.
      destruct (mapRows_result _ _ elems Hb 0 s) as (rows' & e & He & HQ).
      rewrite Hr in He. injection He as ->. exact HQ.
    + intros r HR. apply Throws_bind; auto. intros _.
      apply Throws_rethrow. exact HR.
  - destruct (negb sh); auto.
    eapply Throws_bind_result with (R := fun r => forall x, snd r = Some x -> x = TypeError).
    + intros s e He.
      destruct (mapLocales_result _ _ props Hb s) as (kvs' & x & Hx & _).
      congruence.
    + intros s r Hr.
      destruct (mapLocales_result _ _ props Hb s) as (kvs' & e & He & HQ).
      rewrite Hr in He. injection He as ->. exact HQ.
    + intros r HR. apply Throws_bind; auto. intros _.
      apply Throws_rethrow. exact HR.
Qed.

Lemma Tracks_traverseRow (P : Event -> Prop) (t : TraverseArgs) (row : JsValue) :
  (forall sib, P (ETraverse t sib)) -> Tracks P (traverseRow t row).
Proof.
  intros HP. unfold traverseRow. inv_steps. apply Tracks_callTraverse. auto.
Qed.

Lemma Throws_traverseRow (Q : Err -> Prop) (t : TraverseArgs) (row : JsValue) :
  Throws Q (traverseRow t row).
Proof. unfold traverseRow. inv_steps. Qed.

Lemma Tracks_traverseSlot (t : TraverseArgs) (k : string) :
  Tracks isTraverseEvent (traverseSlot t k).
Proof.
  unfold traverseSlot.
  inv_steps; auto with steps; apply Tracks_callTraverse; simpl; auto.
Qed.

Lemma Throws_traverseSlot (t : TraverseArgs) (k : string) :
  Throws (fun e => e = TypeError) (traverseSlot t k).
Proof. unfold traverseSlot. inv_steps; auto with steps. Qed.

Lemma Tracks_traverseSiblings (t : TraverseArgs) :
  Tracks isTraverseEvent (traverseSiblings t).
Proof.
  unfold traverseSiblings.
  inv_steps; apply Tracks_callTraverse; simpl; auto.
Qed.

Lemma Throws_traverseSiblings (Q : Err -> Prop) (t : TraverseArgs) :
  Throws Q (traverseSiblings t).
Proof. unfold traverseSiblings. inv_steps. Qed.

Lemma Tracks_callEditorHook (P : Event -> Prop) (i : nat) (h : EditorHook)
  (mk : list Settled -> nat -> EditorHookArgs) :
  (forall x, P (EEditorHook i x (h x))) -> Tracks P (callEditorHook i h mk).
Proof.
  intros HP s. eexists [_]. cbn [callEditorHook fst log populationPromises
    fieldPromises flat_map tasksOf promisesOf].
  rewrite !app_nil_r. repeat split. constructor; [apply HP|constructor].
Qed.

Lemma Throws_callEditorHook (Q : Err -> Prop) (i : nat) (h : EditorHook)
  (mk : list Settled -> nat -> EditorHookArgs) :
  Throws Q (callEditorHook i h mk).
Proof. intros s e; discriminate. Qed.

Lemma Tracks_callEach (P : Event -> Prop) (call : string -> JsValue -> M JsValue)
  (es : Obj) :
  (forall l v, Tracks P (call l v)) -> Tracks P (callEach call es).
Proof.
  intros Hc. induction es as [|e es IH]; cbn [callEach]; inv_steps; auto.
Qed.

Lemma Throws_callEach (Q : Err -> Prop) (call : string -> JsValue -> M JsValue)
  (es : Obj) :
  (forall l v, Throws Q (call l v)) -> Throws Q (callEach call es).
Proof.
  intros Hc. induction es as [|e es IH]; cbn [callEach]; inv_steps; auto.
Qed.

Lemma Tracks_runEditorHook (P : Event -> Prop) (a : Args) (f : Field)
  (paths : Path * SchemaPath) (i : nat) (h : EditorHook) :
  (forall x, P (EEditorHook i x (h x))) -> Tracks P (runEditorHook a f paths i h).
Proof.
  intros HP. unfold runEditorHook.
  inv_steps;
    auto using Tracks_shouldRunHookOnAllLocales, Tracks_writeEntry,
      Tracks_callEditorHook with steps.
  apply Tracks_callEach. intros l v. apply Tracks_callEditorHook. exact HP.
Qed.

Lemma Throws_runEditorHook (a : Args) (f : Field) (paths : Path * SchemaPath)
  (i : nat) (h : EditorHook) :
  Throws (fun e => e = TypeError) (runEditorHook a f paths i h).
Proof.
  unfold runEditorHook.
  inv_steps;
    eauto using Throws_shouldRunHookOnAllLocales, Throws_writeEntry,
      Throws_callEditorHook with steps.
  apply Throws_callEach. intros l v. apply Throws_callEditorHook.
Qed.

Lemma Tracks_executeEditorHooks (a : Args) (f : Field) (paths : Path * SchemaPath) :
  Tracks isEditorHookEvent (executeEditorHooks a f paths).
Proof.
  unfold executeEditorHooks. inv_steps.
  apply Tracks_runEditorHook; simpl; auto.
Qed.

Lemma Throws_executeEditorHooks (a : Args) (f : Field) (paths : Path * SchemaPath) :
  Throws (fun e => e = TypeError) (executeEditorHooks a f paths).
Proof.
  unfold executeEditorHooks. inv_steps. apply Throws_runEditorHook.
Qed.

Lemma findBlock_TypeError (row : JsValue) (bs : list Block) (e : Err) :
  findBlock row bs = inl e -> e = TypeError.
Proof.
  induction bs as [|b bs IH]; cbn [findBlock]; [discriminate|].
  destruct (getProp row "blockType") as [e'|v] eqn:E.
  - intros [= <-]. exact (getProp_TypeError _ _ _ E).
  - destruct (strictEqStr (slug b) v); [discriminate|exact IH].
Qed.

Lemma Tracks_blocksRow (a : Args) (f : Field) (paths : Path * SchemaPath)
  (i : nat) (row : JsValue) :
  Tracks isTraverseEvent (blocksRow a f paths i row).
Proof.
  unfold blocksRow. inv_steps. apply Tracks_traverseRow. simpl. auto.
Qed.

Lemma Throws_blocksRow (a : Args) (f : Field) (paths : Path * SchemaPath)
  (i : nat) (row : JsValue) :
  Throws (fun e => e = TypeError) (blocksRow a f paths i row).
Proof.
  unfold blocksRow. inv_steps; auto using Throws_traverseRow.
  apply Throws_liftE. apply findBlock_TypeError.
Qed.

Lemma Tracks_traverseNested (a : Args) (f : Field) (paths : Path * SchemaPath)
  (sh : bool) :
  Tracks (fun e => isTraverseEvent e \/ isEditorHookEvent e)
    (traverseNested a f paths sh).
Proof.
  unfold traverseNested.
  destruct (type f); try apply Tracks_ret;
    try (eapply Tracks_weaken;
         [|first [apply Tracks_traverseSlot | apply Tracks_traverseSiblings]];
         auto).
  - inv_steps; [apply Tracks_checkEditor|].
    eapply Tracks_weaken; [|apply Tracks_executeEditorHooks]. auto.
  - apply Tracks_traverseRows. intros i row. unfold arrayRow.
    apply Tracks_traverseRow. simpl. auto.
  - apply Tracks_traverseRows. intros i row.
    eapply Tracks_weaken; [|apply Tracks_blocksRow]. auto.
  - destruct (tabHasName f);
      (eapply Tracks_weaken;
       [|first [apply Tracks_traverseSlot | apply Tracks_traverseSiblings]];
       auto).
Qed.

Lemma Throws_traverseNested (a : Args) (f : Field) (paths : Path * SchemaPath)
  (sh : bool) :
  Throws (fun e => e = TypeError \/ configErrorOf f e) (traverseNested a f paths sh).
Proof.
  unfold traverseNested, configErrorOf.
  destruct (type f) eqn:Ht;
    try solve [apply Throws_weaken with (Q := fun e => e = TypeError);
               [intros e He; left; exact He|];
               auto using Throws_ret, Throws_traverseSlot, Throws_traverseSiblings].
  - inv_steps.
    + apply Throws_weaken with (Q := fun e => editorError f = Some e);
        [intros e He; right; auto|apply Throws_checkEditor].
    + apply Throws_weaken with (Q := fun e => e = TypeError);
        [intros e He; left; exact He|apply Throws_executeEditorHooks].
  - apply Throws_weaken with (Q := fun e => e = TypeError);
      [intros e He; left; exact He|].
    apply Throws_traverseRows. intros i row. apply Throws_traverseRow.
  - apply Throws_weaken with (Q := fun e => e = TypeError);
      [intros e He; left; exact He|].
    apply Throws_traverseRows. intros i row. apply Throws_blocksRow.
  - apply Throws_weaken with (Q := fun e => e = TypeError);
      [intros e He; left; exact He|].
    destruct (tabHasName f);
      auto using Throws_traverseSlot, Throws_traverseSiblings.
Qed.

Lemma Tracks_promise (a : Args) (f : Field) :
  Tracks (fun _ => True) (promise a f).
Proof.
  unfold promise. cbv zeta. inv_steps.
  - eapply Tracks_weaken; [|apply Tracks_fieldPhases]. auto.
  - eapply Tracks_weaken; [|apply Tracks_traverseNested]. auto.
Qed.

Lemma Throws_promise (a : Args) (f : Field) :
  Throws (fun e => e = TypeError \/ configErrorOf f e) (promise a f).
Proof.
  unfold promise. cbv zeta. inv_steps.
  - apply Throws_fieldPhases.
  - apply Throws_traverseNested.
Qed.

(** *** The steps on an object, explicitly *)

Lemma removeHiddenField_object (a : Args) (f : Field) (o : Obj) fp pp lg :
  removeHiddenField a f (mkState (VObj o) fp pp lg) =
  (mkState (VObj (if hiddenRemoved a f o then remove (slotKey f) o else o)) fp pp lg,
   inr tt).
Proof.
  unfold removeHiddenField, hiddenRemoved.
  destruct (fieldAffectsData f), (hidden f); simpl; try reflexivity.
  rewrite bind_run, readSlot_object.
  destruct (isUndefined _), (showHiddenFields a); reflexivity.
Qed.

Lemma hoistLocalizedValue_object (a : Args) (f : Field) (o : Obj) fp pp lg :
  let slot := getPropOpt (VObj o) (slotKey f) in
  let primary := getPropOpt slot (localeKey (locale a)) in
  let fallback := getPropOpt slot (localeKey (fallbackLocale a)) in
  hoistLocalizedValue a f (mkState (VObj o) fp pp lg) =
  if hoistingApplies a f slot
  then (mkState
          (VObj (assign (slotKey f)
                   (if fallbackSubstituted a f primary fallback
                    then fallback else primary) o)) fp pp lg,
        inr true)
  else (mkState (VObj o) fp pp lg, inr false).
Proof.
  intros slot primary fallback.
  unfold hoistLocalizedValue, shouldHoistLocalizedValue, hoistingApplies, bind.
  destruct (flattenLocales a); simpl; [|reflexivity].
  destruct (fieldAffectsData f); simpl; [|reflexivity].
  change (match lookup (slotKey f) o with Some v => v | None => VUndefined end)
    with slot.
  destruct (isObjectType slot && negb (isNull slot)) eqn:Hobj; simpl;
    [|destruct (localized f); reflexivity].
  destruct (localized f); simpl; [|reflexivity].
  destruct (isAll (locale a)); simpl; [reflexivity|].
  destruct (localization (req a)); simpl; [|reflexivity].
  change (match lookup (slotKey f) o with Some v => v | None => VUndefined end)
    with slot.
  rewrite (hoistedValue_spec a f slot Hobj). reflexivity.
Qed.

Lemma hoistLocalizedValue_nonlocalized (a : Args) (f : Field) (o : Obj) fp pp lg :
  localized f = false ->
  hoistLocalizedValue a f (mkState (VObj o) fp pp lg) =
  (mkState (VObj o) fp pp lg, inr false).
Proof.
  intros Hl. rewrite hoistLocalizedValue_object. unfold hoistingApplies.
  rewrite Hl, andb_false_r. reflexivity.
Qed.

Lemma sanitizePoint_object (f : Field) (o : Obj) fp pp lg :
  sanitizePoint f (mkState (VObj o) fp pp lg) =
  (mkState
     (VObj (assign (slotKey f)
              (pointCoordinates (getPropOpt (VObj o) (slotKey f))) o)) fp pp lg,
   inr tt).
Proof.
  unfold sanitizePoint, pointCoordinates. rewrite bind_run, readSlot_object.
  destruct (getPropOpt (getPropOpt (VObj o) (slotKey f)) "coordinates")
    as [| | | | |[|x [|y [|z l]]]|]; reflexivity.
Qed.

Lemma sanitizeField_none (f : Field) (s : State) :
  hasSanitizer (type f) = false -> sanitizeField f s = (s, inr tt).
Proof.
  unfold sanitizeField. destruct (type f); simpl; try discriminate; reflexivity.
Qed.

Lemma executeHooks_none (a : Args) (f : Field) (paths : Path * SchemaPath)
  (s : State) :
  triggerHooks a && match hooks_afterRead f with Some _ => true | None => false end
  = false ->
  executeHooks a f paths s = (s, inr tt).
Proof.
  unfold executeHooks.
  destruct (triggerHooks a), (hooks_afterRead f); simpl; try discriminate;
    reflexivity.
Qed.

Lemma schedulePopulation_other (a : Args) (f : Field) (s : State) :
  isReferenceType (type f) = false -> schedulePopulation a f s = (s, inr tt).
Proof. unfold schedulePopulation. intros ->. reflexivity. Qed.

Lemma schedulePopulation_reference (a : Args) (f : Field) (s : State) :
  isReferenceType (type f) = true ->
  schedulePopulation a f s =
  (mkState (siblingDoc s) (fieldPromises s)
     (populationPromises s ++ [RelationshipPopulation (populationTask a f (siblingDoc s))])
     (log s ++ [EPopulate (populationTask a f (siblingDoc s))]), inr tt).
Proof. unfold schedulePopulation. intros ->. reflexivity. Qed.

Lemma traverseNested_leaf (a : Args) (f : Field) (paths : Path * SchemaPath)
  (sh : bool) (s : State) :
  isTraversedType (type f) = false -> traverseNested a f paths sh s = (s, inr tt).
Proof.
  unfold traverseNested. destruct (type f); simpl; try discriminate; reflexivity.
Qed.

Lemma executeAccessControl_object (a : Args) (f : Field) (o : Obj) fp pp lg :
  executeAccessControl a f (mkState (VObj o) fp pp lg) =
  match (if triggerAccessControl a then access_read f else None) with
  | Some read =>
      if overrideAccess a then (mkState (VObj o) fp pp lg, inr true)
      else
        let result := read (accessArgs a (VObj o)) in
        (mkState (VObj (if result then o else remove (slotKey f) o)) fp pp
           (lg ++ [EAccessRead (accessArgs a (VObj o)) result]),
         inr result)
  | None => (mkState (VObj o) fp pp lg, inr true)
  end.
Proof.
  unfold executeAccessControl.
  destruct (triggerAccessControl a); [|reflexivity].
  destruct (access_read f) as [read|]; [|reflexivity].
  destruct (overrideAccess a); [reflexivity|].
  cbn. destruct (read (accessArgs a (VObj o))); reflexivity.
Qed.

Lemma setDefaultValue_object (a : Args) (f : Field) (allow : bool) (o : Obj)
  fp pp lg :
  setDefaultValue a f allow (mkState (VObj o) fp pp lg) =
  if allow && (isUndefined (getPropOpt (VObj o) (slotKey f)) && defaultConfigured f)
  then
    let args := mkDefaultArgs (defaultValue f) (locale a) (user (req a))
                  (getPropOpt (VObj o) (slotKey f)) in
    (mkState (VObj (assign (slotKey f) (getDefaultValue args) o)) fp pp
       (lg ++ [EDefault args (getDefaultValue args)]), inr tt)
  else (mkState (VObj o) fp pp lg, inr tt).
Proof.
  unfold setDefaultValue. destruct allow; [|reflexivity].
  rewrite bind_run, readSlot_object. simpl.
  destruct (isUndefined _ && defaultConfigured f); reflexivity.
Qed.

(** Lines 193-314 when no hook runs, access is not denied and no default is
    substituted: the sibling container stays as it is. *)
Lemma dataPhases_quiet (a : Args) (f : Field) (paths : Path * SchemaPath)
  (o : Obj) fp pp lg :
  hooksRun a f = false -> accessDenied a f (VObj o) = false ->
  defaultSubstituted f o = false ->
  exists pp' lg',
    dataPhases a f paths (mkState (VObj o) fp pp lg) =
    (mkState (VObj o) fp pp' lg', inr tt).
Proof.
  unfold hooksRun, accessDenied, defaultSubstituted, dataPhases.
  destruct (fieldAffectsData f); simpl; [|intros _ _ _; unfold ret; eauto].
  intros Hh Ha Hd.
  rewrite bind_run, executeHooks_none by exact Hh.
  rewrite bind_run, executeAccessControl_object.
  assert (Hsched : forall s, exists pp' lg',
    schedulePopulation a f s = (mkState (siblingDoc s) (fieldPromises s) pp' lg', inr tt)).
  { intros [d fp0 pp0 lg0].
    destruct (isReferenceType (type f)) eqn:Hr.
    - rewrite schedulePopulation_reference by exact Hr. simpl. eauto.
    - rewrite schedulePopulation_other by exact Hr. simpl. eauto. }
  assert (Hrest : forall lg0, exists pp' lg',
    (setDefaultValue a f true ;; schedulePopulation a f)%M
      (mkState (VObj o) fp pp lg0) = (mkState (VObj o) fp pp' lg', inr tt)).
  { intros lg0. rewrite bind_run, setDefaultValue_object, Hd. apply Hsched. }
  destruct (triggerAccessControl a);
    [destruct (access_read f) as [read|]; [destruct (overrideAccess a)|]|];
    cbv beta iota zeta; try apply Hrest.
  simpl in Ha. apply negb_false_iff in Ha. rewrite Ha. apply Hrest.
Qed.

(** A field with no hook, access predicate or default, and of a type that
    is neither populated nor traversed: lines 193-691 do nothing. *)
Lemma dataPhases_plain (a : Args) (f : Field) (paths : Path * SchemaPath)
  (o : Obj) fp pp lg :
  hooks_afterRead f = None -> access_read f = None -> defaultValue f = None ->
  isReferenceType (type f) = false ->
  dataPhases a f paths (mkState (VObj o) fp pp lg) =
  (mkState (VObj o) fp pp lg, inr tt).
Proof.
  intros Hk Ha Hd Hr. unfold dataPhases.
  destruct (fieldAffectsData f); [|reflexivity].
  rewrite bind_run, executeHooks_none
    by (rewrite Hk; apply andb_false_r).
  rewrite bind_run, executeAccessControl_object, Ha.
  replace (if triggerAccessControl a then None else None)
    with (@None AccessRead) by (destruct (triggerAccessControl a); reflexivity).
  rewrite bind_run, setDefaultValue_object.
  unfold defaultConfigured. rewrite Hd, andb_false_r. simpl.
  apply schedulePopulation_other. exact Hr.
Qed.

Lemma hiddenRemoved_visible (a : Args) (f : Field) (o : Obj) :
  hidden f = false -> hiddenRemoved a f o = false.
Proof.
  intros Hh. unfold hiddenRemoved. rewrite Hh, andb_false_r. reflexivity.
Qed.

Lemma promise_run (a : Args) (f : Field) (s : State) :
  promise a f s =
  match fieldPhases a f s with
  | (s1, inr shouldHoist) =>
      traverseNested a f
        (getFieldPaths f (parentPath a) (parentSchemaPath a) (fieldIndex a))
        shouldHoist s1
  | (s1, inl e) => (s1, inl e)
  end.
Proof. reflexivity. Qed.

Lemma fieldPhases_run (a : Args) (f : Field) (s : State) :
  fieldPhases a f s =
  match removeHiddenField a f s with
  | (s1, inr _) =>
      match hoistLocalizedValue a f s1 with
      | (s2, inr shouldHoist) =>
          match sanitizeField f s2 with
          | (s3, inr _) =>
              match dataPhases a f
                      (getFieldPaths f (parentPath a) (parentSchemaPath a)
                         (fieldIndex a)) s3 with
              | (s4, inr _) => (s4, inr shouldHoist)
              | (s4, inl e) => (s4, inl e)
              end
          | (s3, inl e) => (s3, inl e)
          end
      | (s2, inl e) => (s2, inl e)
      end
  | (s1, inl e) => (s1, inl e)
  end.
Proof.
  unfold fieldPhases. cbv zeta. rewrite bind_run.
  destruct (removeHiddenField a f s) as [s1 [e|[]]]; [reflexivity|].
  rewrite bind_run.
  destruct (hoistLocalizedValue a f s1) as [s2 [e|sh]]; [reflexivity|].
  rewrite bind_run.
  destruct (sanitizeField f s2) as [s3 [e|[]]]; [reflexivity|].
  rewrite bind_run.
  destruct (dataPhases a f _ s3) as [s4 [e|[]]]; reflexivity.
Qed.

(** *** Rows *)

Lemma rowCalls_nth (a : Args) (fs : list Field) (paths : Path * SchemaPath)
  (rows : list JsValue) :
  forall i j row,
    nth_error rows j = Some row ->
    nth_error (rowCalls a fs paths i rows) j =
    Some (ETraverse (traverseArgs a fs (fst paths ++ [SegIndex (i + j)]) (snd paths))
            (orElse row (VObj []))).
Proof.
  induction rows as [|r rest IH]; intros i j row Hn.
  - destruct j; discriminate.
  - destruct j as [|j]; simpl in *.
    + injection Hn as ->. rewrite Nat.add_0_r. reflexivity.
    + rewrite (IH (S i) j row Hn). rewrite Nat.add_succ_r. reflexivity.
Qed.

Lemma rowCalls_length (a : Args) (fs : list Field) (paths : Path * SchemaPath)
  (rows : list JsValue) (i : nat) :
  List.length (rowCalls a fs paths i rows) = List.length rows.
Proof.
  revert i. induction rows as [|r rest IH]; intros i; simpl; auto.
Qed.

Lemma mapRows_arrayRow (a : Args) (f : Field) (paths : Path * SchemaPath)
  (rows : list JsValue) :
  forall i s, exists rows' fp' pp',
    mapRows (arrayRow a f paths) i rows s =
    (mkState (siblingDoc s) fp' pp' (log s ++ rowCalls a (fields f) paths i rows),
     inr (rows', None))
    /\ List.length rows' = List.length rows.
Proof.
  induction rows as [|row rest IH]; intros i [d fp pp lg].
  - simpl. exists [], fp, pp. rewrite app_nil_r. auto.
  - cbn [mapRows rowCalls]. unfold arrayRow at 1, traverseRow.
    rewrite bind_run. unfold callTraverse at 1, ret at 1.
    cbn [siblingDoc fieldPromises populationPromises log].
    match goal with
    | |- context [mapRows _ _ _ ?s1] =>
        destruct (IH (S i) s1) as (rest' & fp' & pp' & Hrun & Hlen)
    end.
    rewrite Hrun. simpl. rewrite <- app_assoc. simpl.
    eexists _, fp', pp'. split; [reflexivity|]. simpl. congruence.
Qed.

Lemma mapLocales_arrayRow (a : Args) (f : Field) (paths : Path * SchemaPath)
  (kvs : Obj) :
  forall s, exists kvs' fp' pp',
    mapLocales (arrayRow a f paths) kvs s =
    (mkState (siblingDoc s) fp' pp' (log s ++ localeCalls a (fields f) paths kvs),
     inr (kvs', None)).
Proof.
  induction kvs as [|[l v] rest IH]; intros [d fp pp lg].
  - simpl. exists [], fp, pp. rewrite app_nil_r. auto.
  - assert (Hskip : forall v0, (forall rows, v0 <> VArr rows) ->
      exists kvs' fp' pp',
        (r' <- mapLocales (arrayRow a f paths) rest ;;
         ret ((l, v0) :: fst r', snd r'))%M (mkState d fp pp lg) =
        (mkState d fp' pp'
           (lg ++ localeCalls a (fields f) paths ((l, v0) :: rest)),
         inr (kvs', None))).
    { intros v0 Hv0. rewrite bind_run.
      destruct (IH (mkState d fp pp lg)) as (kvs' & fp' & pp' & Hrun).
      rewrite Hrun. simpl. exists ((l, v0) :: kvs'), fp', pp'.
      unfold localeCalls. simpl. destruct v0; try reflexivity.
      destruct (Hv0 elems). reflexivity. }
    destruct v; try (apply Hskip; intros rows; discriminate).
    cbn [mapLocales]. rewrite bind_run.
    destruct (mapRows_arrayRow a f paths elems 0 (mkState d fp pp lg))
      as (rows' & fp1 & pp1 & Hrun & _).
    rewrite Hrun. simpl. rewrite bind_run.
    match goal with
    | |- context [mapLocales _ _ ?s1] =>
        destruct (IH s1) as (kvs' & fp' & pp' & Hrun')
    end.
    rewrite Hrun'. simpl.
    exists ((l, VArr rows') :: kvs'), fp', pp'.
    unfold localeCalls. simpl. rewrite <- app_assoc. reflexivity.
Qed.

Lemma afterCalls_nil (s : State) : afterCalls (siblingDoc s) [] s = s.
Proof. destruct s. unfold afterCalls. simpl. now rewrite !app_nil_r. Qed.

Lemma afterCalls_app (d d' : JsValue) (evs evs' : list Event) (s : State) :
  afterCalls d' evs' (afterCalls d evs s) = afterCalls d' (evs ++ evs') s.
Proof.
  unfold afterCalls. simpl. now rewrite !flat_map_app, !app_assoc.
Qed.

Lemma getProp_defined (row : JsValue) (k : string) :
  isUndefined row || isNull row = false ->
  getProp row k = inr (getPropOpt row k).
Proof.
  intros Hrow. unfold getPropOpt.
  destruct row; try discriminate; try reflexivity.
  simpl. destruct (String.eqb k "length"); reflexivity.
Qed.

Lemma findBlock_spec (f : Field) (row : JsValue) :
  findBlock row (blocks f) =
  if rowThrows f row then inl TypeError else inr (matchingBlock f row).
Proof.
  unfold rowThrows, matchingBlock.
  destruct (blocks f) as [|b bs]; [reflexivity|].
  destruct (isUndefined row || isNull row) eqn:Hrow.
  - destruct row; try discriminate; reflexivity.
  - generalize (b :: bs). intros l.
    induction l as [|b' l IH]; cbn [findBlock find]; [reflexivity|].
    rewrite (getProp_defined _ _ Hrow).
    destruct (strictEqStr (slug b') (getPropOpt row "blockType")); auto.
Qed.

Lemma matchingBlock_object (f : Field) (row : JsValue) (b : Block) :
  matchingBlock f row = Some b -> isRef row = true.
Proof.
  unfold matchingBlock. intros Hm. apply find_some in Hm. destruct Hm as [_ Hm].
  destruct row as [| | | | |l|props]; try discriminate; reflexivity.
Qed.

Lemma blocksRow_run (a : Args) (f : Field) (paths : Path * SchemaPath)
  (i : nat) (row : JsValue) (s : State) :
  blocksRow a f paths i row s =
  if rowThrows f row then (s, inl TypeError)
  else (afterCalls (siblingDoc s) (blockCalls a f paths i [row]) s,
        inr (blockRowAfter a f paths i row)).
Proof.
  unfold blocksRow. rewrite bind_run. unfold liftE at 1.
  rewrite findBlock_spec.
  destruct (rowThrows f row); [reflexivity|].
  unfold blockRowAfter. cbn [blockCalls].
  destruct (matchingBlock f row) as [b|] eqn:Hm.
  - pose proof (matchingBlock_object f row b Hm) as Href.
    destruct row; try discriminate; destruct s;
      unfold traverseRow, afterCalls, blockCall, rowAfter;
      rewrite bind_run; unfold callTraverse at 1, ret;
      cbn [flat_map tasksOf promisesOf orElse truthy isRef siblingDoc
           fieldPromises populationPromises log];
      rewrite !app_nil_r; reflexivity.
  - unfold ret. now rewrite afterCalls_nil.
Qed.

Lemma blockCalls_cons (a : Args) (f : Field) (paths : Path * SchemaPath)
  (i : nat) (row : JsValue) (rest : list JsValue) :
  blockCalls a f paths i (row :: rest) =
  blockCalls a f paths i [row] ++ blockCalls a f paths (S i) rest.
Proof. cbn [blockCalls]. destruct (matchingBlock f row); reflexivity. Qed.

Lemma mapRows_blocksRow (a : Args) (f : Field) (paths : Path * SchemaPath)
  (rows : list JsValue) :
  forall i s,
    mapRows (blocksRow a f paths) i rows s =
    (afterCalls (siblingDoc s) (blockCalls a f paths i (rowsBefore f rows)) s,
     inr (blockRowsAfter a f paths i (rowsBefore f rows) ++ rowsFrom f rows,
          rowsOutcome f rows)).
Proof.
  induction rows as [|row rest IH]; intros i s.
  - cbn [mapRows rowsBefore rowsFrom blockCalls blockRowsAfter app].
    unfold ret, rowsOutcome. cbn [rowsFrom]. now rewrite afterCalls_nil.
  - cbn [mapRows]. rewrite blocksRow_run.
    unfold rowsOutcome. cbn [rowsBefore rowsFrom].
    destruct (rowThrows f row) eqn:Hrow.
    + cbn [blockCalls blockRowsAfter app]. now rewrite afterCalls_nil.
    + rewrite IH. cbn [siblingDoc afterCalls].
      fold (afterCalls (siblingDoc s) (blockCalls a f paths i [row]) s).
      rewrite afterCalls_app, <- blockCalls_cons. reflexivity.
Qed.

Lemma rowsOutcome_none (f : Field) (rows : list JsValue) :
  rowsOutcome f rows = None -> rowsFrom f rows = [] /\ rowsBefore f rows = rows.
Proof.
  unfold rowsOutcome. intros Hout.
  destruct (rowsFrom f rows) eqn:Hfrom; [|discriminate]. split; [reflexivity|].
  clear Hout. induction rows as [|row rest IH]; [reflexivity|].
  cbn [rowsFrom rowsBefore] in *.
  destruct (rowThrows f row); [discriminate|]. now rewrite IH.
Qed.

Lemma mapLocales_blocksRow (a : Args) (f : Field) (paths : Path * SchemaPath)
  (kvs : Obj) :
  forall s,
    mapLocales (blocksRow a f paths) kvs s =
    (afterCalls (siblingDoc s) (blockLocaleCalls a f paths kvs) s,
     inr (blockLocalesLeft a f paths kvs, localesOutcome f kvs)).
Proof.
  induction kvs as [|[l v] rest IH]; intros s.
  - cbn. unfold ret. now rewrite afterCalls_nil.
  - assert (Hskip : forall v', (forall rows, v' <> VArr rows) -> v = v' ->
      (r' <- mapLocales (blocksRow a f paths) rest ;;
       ret ((l, v) :: fst r', snd r'))%M s =
      (afterCalls (siblingDoc s) (blockLocaleCalls a f paths rest) s,
       inr ((l, v) :: blockLocalesLeft a f paths rest, localesOutcome f rest))).
    { intros v' _ _. rewrite bind_run, IH. reflexivity. }
    destruct v as [| | | | |rows|o];
      try (cbn [mapLocales blockLocalesLeft blockLocaleCalls localesOutcome snd fst];
           eapply Hskip; [|reflexivity]; discriminate).
    clear Hskip.
    cbn [mapLocales blockLocalesLeft blockLocaleCalls localesOutcome snd fst].
    rewrite bind_run, mapRows_blocksRow. cbn [fst snd].
    unfold blockRowsLeft.
    destruct (rowsOutcome f rows) eqn:Hout.
    + unfold rowsOutcome in Hout.
      destruct (rowsFrom f rows) eqn:Hfrom; [discriminate|].
      injection Hout as <-. unfold ret. now rewrite app_nil_r.
    + destruct (rowsOutcome_none f rows Hout) as [Hfrom Hbefore].
      rewrite Hfrom. rewrite bind_run, IH. cbn [siblingDoc afterCalls fst snd].
      unfold ret.
      fold (afterCalls (siblingDoc s) (blockCalls a f paths 0 (rowsBefore f rows)) s).
      rewrite afterCalls_app. reflexivity.
Qed.

(** *** Computations that leave the sibling container alone *)

Lemma KeepsDoc_ret {A} (x : A) : KeepsDoc (ret x).
Proof. intros s; reflexivity. Qed.

Lemma KeepsDoc_throw {A} (e : Err) : KeepsDoc (@throw A e).
Proof. intros s; reflexivity. Qed.

Lemma KeepsDoc_liftE {A} (r : Err + A) : KeepsDoc (liftE r).
Proof. intros s; reflexivity. Qed.

Lemma KeepsDoc_getDoc : KeepsDoc getDoc.
Proof. intros s; reflexivity. Qed.

Lemma KeepsDoc_emit (e : Event) : KeepsDoc (emit e).
Proof. intros s; reflexivity. Qed.

Lemma KeepsDoc_pushPopulation (t : PopulationTask) : KeepsDoc (pushPopulation t).
Proof. intros s; reflexivity. Qed.

Lemma KeepsDoc_bind {A B} (m : M A) (k : A -> M B) :
  KeepsDoc m -> (forall x, KeepsDoc (k x)) -> KeepsDoc (bind m k).
Proof.
  intros Hm Hk s. rewrite bind_run. specialize (Hm s).
  destruct (m s) as [s' [e|x]]; simpl in *; auto.
  rewrite Hk. exact Hm.
Qed.

Lemma KeepsDoc_forEachFrom {A} (body : nat -> A -> M unit) (xs : list A) :
  (forall i x, KeepsDoc (body i x)) -> forall i, KeepsDoc (forEachFrom i xs body).
Proof.
  intros Hb. induction xs as [|x xs IH]; intros i; simpl.
  - apply KeepsDoc_ret.
  - apply KeepsDoc_bind; auto.
Qed.

Ltac keeps_doc_step :=
  match goal with
  | |- KeepsDoc (bind _ _) => apply KeepsDoc_bind; [|intros ?]
  | |- KeepsDoc (forEach _ _) => apply KeepsDoc_forEachFrom; intros ? ?
  | |- KeepsDoc (if ?b then _ else _) => destruct b
  | |- KeepsDoc (match ?x with _ => _ end) => destruct x
  | |- KeepsDoc (ret _) => apply KeepsDoc_ret
  | |- KeepsDoc (throw _) => apply KeepsDoc_throw
  | |- KeepsDoc (liftE _) => apply KeepsDoc_liftE
  | |- KeepsDoc getDoc => apply KeepsDoc_getDoc
  | |- KeepsDoc (emit _) => apply KeepsDoc_emit
  | |- KeepsDoc (pushPopulation _) => apply KeepsDoc_pushPopulation
  end.

Ltac keeps_doc := repeat keeps_doc_step.

Lemma KeepsDoc_readSlot (k : string) : KeepsDoc (readSlot k).
Proof. unfold readSlot. keeps_doc. Qed.

Lemma KeepsDoc_shouldRunHookOnAllLocales (a : Args) (f : Field) :
  KeepsDoc (shouldRunHookOnAllLocales a f).
Proof.
  unfold shouldRunHookOnAllLocales. keeps_doc; apply KeepsDoc_readSlot.
Qed.

Lemma KeepsDoc_schedulePopulation (a : Args) (f : Field) :
  KeepsDoc (schedulePopulation a f).
Proof. unfold schedulePopulation. keeps_doc. Qed.

(** A hook that answers undefined changes nothing. *)
Lemma KeepsDoc_runHook {A} (mk : JsValue -> JsValue -> A)
  (ev : nat -> A -> JsValue -> Event) (a : Args) (f : Field) (i : nat)
  (h : A -> JsValue) :
  (forall x, h x = VUndefined) -> KeepsDoc (runHook mk ev a f i h).
Proof.
  intros Hh. unfold runHook. cbv zeta.
  repeat first
    [ match goal with
      | |- KeepsDoc (if isUndefined (h ?x) then _ else _) =>
          rewrite (Hh x); cbn [isUndefined]
      | |- KeepsDoc (shouldRunHookOnAllLocales _ _) =>
          apply KeepsDoc_shouldRunHookOnAllLocales
      | |- KeepsDoc (readSlot _) => apply KeepsDoc_readSlot
      end
    | keeps_doc_step ].
Qed.

Lemma KeepsDoc_executeHooks (a : Args) (f : Field) (paths : Path * SchemaPath) :
  (forall hs h x, hooks_afterRead f = Some hs -> In h hs -> h x = VUndefined) ->
  KeepsDoc (executeHooks a f paths).
Proof.
  intros Hh. unfold executeHooks.
  destruct (triggerHooks a); [|apply KeepsDoc_ret].
  destruct (hooks_afterRead f) as [hs|]; [|apply KeepsDoc_ret].
  specialize (Hh hs). unfold forEach. generalize 0.
  induction hs as [|h hs IH]; intros i; simpl.
  - apply KeepsDoc_ret.
  - apply KeepsDoc_bind.
    + apply KeepsDoc_runHook. intros x. apply Hh; simpl; auto.
    + intros _. apply IH. intros h' x _ Hin. apply Hh; simpl; auto.
Qed.

(** One link of a chain on a value that is not fanned out. *)
Lemma runHook_single {A} (mk : JsValue -> JsValue -> A)
  (ev : nat -> A -> JsValue -> Event) (a : Args) (f : Field) (i : nat)
  (h : A -> JsValue) (o : Obj) fp pp lg :
  fansOut a f (getPropOpt (VObj o) (slotKey f)) = false ->
  let x := mk (VObj o) (getPropOpt (VObj o) (slotKey f)) in
  runHook mk ev a f i h (mkState (VObj o) fp pp lg) =
  (mkState (VObj (if isUndefined (h x) then o else assign (slotKey f) (h x) o))
     fp pp (lg ++ [ev i x (h x)]), inr tt).
Proof.
  intros Hfan x.
  assert (Hx : x = mk (VObj o) (getPropOpt (VObj o) (slotKey f))) by reflexivity.
  clearbody x.
  unfold runHook, shouldRunHookOnAllLocales, fansOut in *.
  rewrite bind_run.
  destruct (localized f && (isAll (locale a) || negb (flattenLocales a))).
  - rewrite bind_run, readSlot_object. simpl in Hfan. unfold ret at 1.
    rewrite Hfan. rewrite bind_run, readSlot_object.
    cbn -[getPropOpt assign]. rewrite <- Hx.
    destruct (isUndefined (h x)); reflexivity.
  - unfold ret at 1. rewrite bind_run, readSlot_object.
    cbn -[getPropOpt assign]. rewrite <- Hx.
    destruct (isUndefined (h x)); reflexivity.
Qed.

(** The log of a chain is in declared order. *)
Lemma chain_inDeclaredOrder (a : Args) (f : Field) (paths : Path * SchemaPath)
  (hs : list Hook) :
  forall i s,
    exists evs,
      log (fst (forEachFrom i hs (runHook (hookArgs a paths) EHook a f) s))
      = log s ++ evs /\
      exists blocks : list (list Event),
        evs = List.concat blocks /\ List.length blocks <= List.length hs /\
        forall k block, nth_error blocks k = Some block ->
          exists h, nth_error hs k = Some h /\
            Forall (fun e => exists x, e = EHook (i + k) x (h x)) block.
Proof.
  induction hs as [|h hs IH]; intros i s.
  - simpl. exists []. rewrite app_nil_r. split; [reflexivity|].
    exists []. repeat split; auto. intros [|k] block; discriminate.
  - cbn [forEachFrom]. rewrite bind_run.
    destruct (Tracks_runHook (hookArgs a paths) EHook
                (fun _ _ _ => eq_refl) (fun _ _ _ => eq_refl)
                (fun e => exists x, e = EHook i x (h x))
                a f i h (fun x => ex_intro _ x eq_refl) s)
      as (evs1 & Hl1 & _ & _ & HP1).
    destruct (runHook (hookArgs a paths) EHook a f i h s)
      as [s1 [e|[]]]; simpl in Hl1.
    + exists evs1. split; [exact Hl1|].
      exists [evs1]. simpl. rewrite app_nil_r. repeat split; [lia|].
      intros [|[|k]] block; try discriminate.
      intros [= <-]. exists h. rewrite Nat.add_0_r. auto.
    + destruct (IH (S i) s1) as (evs2 & Hl2 & blocks & Hc & Hlen & Hb).
      exists (evs1 ++ evs2). rewrite Hl2, Hl1, app_assoc. split; [reflexivity|].
      exists (evs1 :: blocks). simpl. rewrite Hc. repeat split; [lia|].
      intros [|k] block Hn; simpl in Hn.
      * injection Hn as <-. exists h. rewrite Nat.add_0_r. auto.
      * destruct (Hb k block Hn) as (h' & Hh' & HF).
        exists h'. split; [exact Hh'|].
        rewrite Nat.add_succ_r. exact HF.
Qed.

Lemma getPropOpt_assign_same (k : string) (v : JsValue) (o : Obj) :
  getPropOpt (VObj (assign k v o)) k = v.
Proof. unfold getPropOpt. simpl. now rewrite lookup_assign_same. Qed.

Lemma fansOut_static (a : Args) (f : Field) (slot : JsValue) :
  localized f && (isAll (locale a) || negb (flattenLocales a)) = false ->
  fansOut a f slot = false.
Proof. unfold fansOut. intros ->. reflexivity. Qed.

(** A chain on a field whose value is never fanned out. *)
Lemma chain_fold (a : Args) (f : Field) (paths : Path * SchemaPath)
  (hs : list Hook) :
  localized f && (isAll (locale a) || negb (flattenLocales a)) = false ->
  forall i o fp pp lg, exists lg',
    forEachFrom i hs (runHook (hookArgs a paths) EHook a f)
      (mkState (VObj o) fp pp lg) =
    (mkState (VObj (fold_left (hookStep a f paths) hs o)) fp pp lg', inr tt).
Proof.
  intros Hstatic. induction hs as [|h hs IH]; intros i o fp pp lg.
  - simpl. exists lg. reflexivity.
  - cbn [forEachFrom fold_left]. rewrite bind_run.
    rewrite runHook_single by (apply fansOut_static; exact Hstatic).
    cbv zeta. apply IH.
Qed.

(** *** The shape of a run on an object *)

Lemma run_shape {A} (P : Event -> Prop) (m : M A) :
  Tracks P m -> KeepsObject m ->
  forall o fp pp lg, exists o' evs r,
    m (mkState (VObj o) fp pp lg) =
    (mkState (VObj o') (fp ++ flat_map promisesOf evs)
       (pp ++ flat_map tasksOf evs) (lg ++ evs), r)
    /\ Forall P evs.
Proof.
  intros Ht Hk o fp pp lg.
  destruct (Ht (mkState (VObj o) fp pp lg)) as (evs & Hl & Hp & Hf & HP).
  destruct (Hk (mkState (VObj o) fp pp lg)) as [o' Ho']; [exists o; reflexivity|].
  destruct (m (mkState (VObj o) fp pp lg)) as [[d fp' pp' lg'] r].
  simpl in *. subst. exists o', evs, r. auto.
Qed.

Lemma quiet_shape {A} (m : M A) :
  Tracks noEvent m -> KeepsObject m ->
  forall o fp pp lg, exists o' r,
    m (mkState (VObj o) fp pp lg) = (mkState (VObj o') fp pp lg, r).
Proof.
  intros Ht Hk o fp pp lg.
  destruct (run_shape noEvent m Ht Hk o fp pp lg) as (o' & evs & r & Hrun & HP).
  destruct evs as [|e evs].
  - simpl in Hrun. rewrite !app_nil_r in Hrun. eauto.
  - inversion HP as [|? ? He _]. destruct He.
Qed.

Lemma hook_events_push_nothing (evs : list Event) :
  Forall isHookEvent evs ->
  flat_map tasksOf evs = [] /\ flat_map promisesOf evs = [].
Proof.
  induction 1 as [|e evs He _ [IH1 IH2]]; simpl; auto.
  destruct e; try destruct He. simpl. auto.
Qed.

Lemma executeHooks_shape (a : Args) (f : Field) (paths : Path * SchemaPath)
  (o : Obj) fp pp lg :
  exists o' evs r,
    executeHooks a f paths (mkState (VObj o) fp pp lg) =
    (mkState (VObj o') fp pp (lg ++ evs), r)
    /\ Forall isHookEvent evs.
Proof.
  destruct (run_shape isHookEvent (executeHooks a f paths)
              (Tracks_executeHooks a f paths) (KeepsObject_executeHooks a f paths)
              o fp pp lg) as (o' & evs & r & Hrun & HP).
  destruct (hook_events_push_nothing evs HP) as [Ht Hp].
  rewrite Ht, Hp, !app_nil_r in Hrun. eauto.
Qed.

(** Lines 264-313 on an object. *)
Lemma accessDefaultPopulate_object (a : Args) (f : Field) (o : Obj) fp pp lg :
  exists o' pp' evs,
    (allowDefaultValue <- executeAccessControl a f ;;
     setDefaultValue a f allowDefaultValue ;;
     schedulePopulation a f)%M (mkState (VObj o) fp pp lg) =
    (mkState (VObj o') fp pp' (lg ++ evs), inr tt)
    /\ ((exists x, In (EAccessRead x false) evs) ->
        hasOwn (slotKey f) o' = false
        /\ (forall x v, ~ In (EDefault x v) evs)
        /\ overrideAccess a = false)
    /\ (overrideAccess a = true -> forall x b, ~ In (EAccessRead x b) evs).
Proof.
  pose (later := fun e : Event =>
                   match e with EDefault _ _ | EPopulate _ => True | _ => False end).
  assert (Hsched : forall o1 lg1,
    exists pp' evs2,
      schedulePopulation a f (mkState (VObj o1) fp pp lg1) =
      (mkState (VObj o1) fp pp' (lg1 ++ evs2), inr tt)
      /\ Forall isPopulateEvent evs2).
  { intros o1 lg1. destruct (isReferenceType (type f)) eqn:Hr.
    - rewrite schedulePopulation_reference by exact Hr. simpl.
      eexists _, [_]. split; [reflexivity|]. repeat constructor.
    - rewrite schedulePopulation_other by exact Hr.
      exists pp, []. rewrite app_nil_r. split; [reflexivity|constructor]. }
  assert (Hallowed : forall lg1,
    exists o' pp' evs,
      (setDefaultValue a f true ;; schedulePopulation a f)%M
        (mkState (VObj o) fp pp lg1) =
      (mkState (VObj o') fp pp' (lg1 ++ evs), inr tt)
      /\ Forall later evs).
  { intros lg1. rewrite bind_run, setDefaultValue_object.
    destruct (true && _); cbv beta iota zeta.
    - match goal with
      | |- context [schedulePopulation a f (mkState (VObj ?o1) _ _ ?l1)] =>
          destruct (Hsched o1 l1) as (pp' & evs2 & Hrun & HF)
      end.
      rewrite Hrun. eexists _, pp', (_ :: evs2).
      rewrite <- !app_assoc. split; [reflexivity|].
      constructor; [exact I|].
      eapply Forall_impl; [|exact HF]. intros []; simpl; auto.
    - destruct (Hsched o lg1) as (pp' & evs2 & Hrun & HF).
      rewrite Hrun. exists o, pp', evs2. split; [reflexivity|].
      eapply Forall_impl; [|exact HF]. intros []; simpl; auto. }
  assert (Hlater : forall evs x b, Forall later evs -> ~ In (EAccessRead x b) evs).
  { intros evs x b HF Hin. rewrite Forall_forall in HF. apply (HF _ Hin). }
  rewrite bind_run, executeAccessControl_object.
  assert (Hquiet : exists o' pp' evs,
    (setDefaultValue a f true ;; schedulePopulation a f)%M
      (mkState (VObj o) fp pp lg) =
    (mkState (VObj o') fp pp' (lg ++ evs), inr tt)
    /\ ((exists x, In (EAccessRead x false) evs) ->
        hasOwn (slotKey f) o' = false
        /\ (forall x v, ~ In (EDefault x v) evs)
        /\ overrideAccess a = false)
    /\ (overrideAccess a = true -> forall x b, ~ In (EAccessRead x b) evs)).
  { destruct (Hallowed lg) as (o' & pp' & evs & Hrun & HF).
    exists o', pp', evs. split; [exact Hrun|]. split.
    - intros [x Hin]. destruct (Hlater _ _ _ HF Hin).
    - intros _ x b. apply Hlater. exact HF. }
  destruct (triggerAccessControl a);
    [destruct (access_read f) as [read|]; [destruct (overrideAccess a) eqn:Hov|]|];
    cbv beta iota zeta; try exact Hquiet.
  destruct (read (accessArgs a (VObj o))) eqn:Hread.
  - destruct (Hallowed (lg ++ [EAccessRead (accessArgs a (VObj o)) true]))
      as (o' & pp' & evs & Hrun & HF).
    rewrite Hrun. eexists o', pp', (_ :: evs).
    rewrite <- app_assoc. split; [reflexivity|]. split; [|discriminate].
    intros [x [Hin|Hin]]; [discriminate|]. destruct (Hlater _ _ _ HF Hin).
  - rewrite bind_run. unfold setDefaultValue at 1, ret at 1.
    cbv beta iota zeta.
    match goal with
    | |- context [schedulePopulation a f (mkState (VObj ?o1) _ _ ?l1)] =>
        destruct (Hsched o1 l1) as (pp' & evs2 & Hrun & HF)
    end.
    rewrite Hrun. eexists _, pp', (_ :: evs2).
    rewrite <- app_assoc. split; [reflexivity|]. split; [|discriminate].
    intros _. split; [apply hasOwn_remove|]. split; [|reflexivity].
    intros x v [Hin|Hin]; [discriminate|].
    rewrite Forall_forall in HF. apply (HF _ Hin).
Qed.

Lemma dataPhases_object (a : Args) (f : Field) (paths : Path * SchemaPath)
  (o : Obj) fp pp lg :
  exists o' pp' evs r,
    dataPhases a f paths (mkState (VObj o) fp pp lg) =
    (mkState (VObj o') fp pp' (lg ++ evs), r)
    /\ ((exists x, In (EAccessRead x false) evs) ->
        hasOwn (slotKey f) o' = false
        /\ (forall x v, ~ In (EDefault x v) evs)
        /\ overrideAccess a = false
        /\ fieldAffectsData f = true
        /\ r = inr tt)
    /\ (overrideAccess a = true -> forall x b, ~ In (EAccessRead x b) evs).
Proof.
  unfold dataPhases. destruct (fieldAffectsData f).
  - rewrite bind_run.
    destruct (executeHooks_shape a f paths o fp pp lg)
      as (o1 & evs1 & r1 & Hrun1 & HF1).
    rewrite Hrun1.
    assert (Hhook : forall x b, ~ In (EAccessRead x b) evs1).
    { intros x b Hin. rewrite Forall_forall in HF1. apply (HF1 _ Hin). }
    assert (Hhook' : forall x v, ~ In (EDefault x v) evs1).
    { intros x v Hin. rewrite Forall_forall in HF1. apply (HF1 _ Hin). }
    destruct r1 as [e|[]].
    + exists o1, pp, evs1, (inl e). split; [reflexivity|]. split.
      * intros [x Hin]. destruct (Hhook _ _ Hin).
      * intros _. exact Hhook.
    + destruct (accessDefaultPopulate_object a f o1 fp pp (lg ++ evs1))
        as (o2 & pp2 & evs2 & Hrun2 & Hden & Hov).
      rewrite Hrun2. exists o2, pp2, (evs1 ++ evs2), (inr tt).
      rewrite app_assoc. split; [reflexivity|]. split.
      * intros [x Hin]. apply in_app_or in Hin. destruct Hin as [Hin|Hin].
        -- destruct (Hhook _ _ Hin).
        -- destruct (Hden (ex_intro _ x Hin)) as (Hown & Hdef & Hno).
           repeat split; auto.
           intros y v Hin'. apply in_app_or in Hin'. destruct Hin' as [Hin'|Hin'].
           ++ apply (Hhook' _ _ Hin').
           ++ apply (Hdef _ _ Hin').
      * intros Hover x b Hin. apply in_app_or in Hin. destruct Hin as [Hin|Hin].
        -- apply (Hhook _ _ Hin).
        -- apply (Hov Hover _ _ Hin).
  - exists o, pp, [], (inr tt). rewrite app_nil_r. split; [reflexivity|]. split.
    + intros [x []].
    + intros _ x b [].
Qed.

Lemma fieldPhases_object (a : Args) (f : Field) (o : Obj) fp pp lg :
  exists o1,
    (exists e, fieldPhases a f (mkState (VObj o) fp pp lg) =
               (mkState (VObj o1) fp pp lg, inl e))
    \/ (exists sh,
          fieldPhases a f (mkState (VObj o) fp pp lg) =
          match dataPhases a f
                  (getFieldPaths f (parentPath a) (parentSchemaPath a) (fieldIndex a))
                  (mkState (VObj o1) fp pp lg) with
          | (s4, inr _) => (s4, inr sh)
          | (s4, inl e) => (s4, inl e)
          end).
Proof.
  rewrite fieldPhases_run, removeHiddenField_object.
  match goal with
  | |- context [hoistLocalizedValue a f (mkState (VObj ?x) _ _ _)] =>
      destruct (quiet_shape (hoistLocalizedValue a f)
                  (Tracks_hoistLocalizedValue noEvent a f)
                  (KeepsObject_hoistLocalizedValue a f) x fp pp lg)
        as (o2 & r2 & Hrun2)
  end.
  rewrite Hrun2. destruct r2 as [e|sh]; [exists o2; left; eauto|].
  destruct (quiet_shape (sanitizeField f) (Tracks_sanitizeField noEvent f)
              (KeepsObject_sanitizeField f) o2 fp pp lg) as (o3 & r3 & Hrun3).
  rewrite Hrun3. destruct r3 as [e|[]]; [exists o3; left; eauto|].
  exists o3. right. exists sh. reflexivity.
Qed.

(** Lines 264-296 on an object: they never throw, and what follows them
    starts from an object again. *)
Lemma accessDefault_object (a : Args) (f : Field) (o : Obj) fp pp lg :
  exists o' evs,
    Forall isFieldCall evs /\
    forall (B : Type) (k : M B),
      (allowDefaultValue <- executeAccessControl a f ;;
       setDefaultValue a f allowDefaultValue ;; k)%M (mkState (VObj o) fp pp lg) =
      k (mkState (VObj o') fp pp (lg ++ evs)).
Proof.
  assert (Hdef : forall allow o1 lg1, exists o' evs,
    Forall isFieldCall evs /\
    forall (B : Type) (k : M B),
      (setDefaultValue a f allow ;; k)%M (mkState (VObj o1) fp pp lg1) =
      k (mkState (VObj o') fp pp (lg1 ++ evs))).
  { intros allow o1 lg1.
    destruct (allow && (isUndefined (getPropOpt (VObj o1) (slotKey f))
                        && defaultConfigured f)) eqn:Hc.
    - eexists _, [_]. split; cycle 1.
      + intros B k. rewrite bind_run, setDefaultValue_object, Hc. reflexivity.
      + repeat constructor.
    - exists o1, []. split; [constructor|].
      intros B k. rewrite bind_run, setDefaultValue_object, Hc, app_nil_r.
      reflexivity. }
  assert (Hgrant : exists o' evs,
    Forall isFieldCall evs /\
    forall (B : Type) (k : M B),
      (setDefaultValue a f true ;; k)%M (mkState (VObj o) fp pp lg) =
      k (mkState (VObj o') fp pp (lg ++ evs))) by apply Hdef.
  destruct (triggerAccessControl a) eqn:Htrig;
    [destruct (access_read f) as [read|] eqn:Hread;
     [destruct (overrideAccess a) eqn:Hover|]|];
    try (destruct Hgrant as (o' & evs & HF & Hk); exists o', evs;
         split; [exact HF|]; intros B k;
         rewrite bind_run, executeAccessControl_object, Htrig, ?Hread, ?Hover;
         apply Hk).
  destruct (Hdef (read (accessArgs a (VObj o)))
              (if read (accessArgs a (VObj o)) then o else remove (slotKey f) o)
              (lg ++ [EAccessRead (accessArgs a (VObj o)) (read (accessArgs a (VObj o)))]))
    as (o' & evs & HF & Hk).
  exists o', (EAccessRead (accessArgs a (VObj o)) (read (accessArgs a (VObj o))) :: evs).
  split; [constructor; [exact I|exact HF]|].
  intros B k.
  rewrite bind_run, executeAccessControl_object, Htrig, Hread, Hover.
  cbv beta iota zeta. rewrite Hk, <- app_assoc. reflexivity.
Qed.

(** Without a population task of its own, a call logs no population. *)
Lemma Tracks_promise_unpopulated (a : Args) (f : Field) :
  fieldAffectsData f = false \/ isReferenceType (type f) = false ->
  Tracks (fun e => ~ isPopulateEvent e) (promise a f).
Proof.
  intros Hcond. unfold promise, fieldPhases. cbv zeta.
  assert (Hno : forall e, noEvent e -> ~ isPopulateEvent e) by (intros e []).
  inv_steps.
  - apply Tracks_removeHiddenField.
  - apply Tracks_hoistLocalizedValue.
  - apply Tracks_sanitizeField.
  - unfold dataPhases. destruct (fieldAffectsData f) eqn:Haff; [|apply Tracks_ret].
    destruct Hcond as [Hcond|Hcond]; [discriminate|].
    inv_steps.
    + eapply Tracks_weaken; [|apply Tracks_executeHooks].
      intros []; simpl; auto.
    + eapply Tracks_weaken; [|apply Tracks_executeAccessControl].
      intros []; simpl; auto.
    + eapply Tracks_weaken; [|apply Tracks_setDefaultValue].
      intros []; simpl; auto.
    + unfold schedulePopulation. rewrite Hcond. apply Tracks_ret.
  - eapply Tracks_weaken; [|apply Tracks_traverseNested].
    intros [] [[]|[]]; simpl; auto.
Qed.

Lemma assign_assign (k : string) (v w : JsValue) (o : Obj) :
  assign k v (assign k w o) = assign k v o.
Proof.
  induction o as [|[k' v'] o IH]; simpl.
  - now rewrite String.eqb_refl.
  - destruct (String.eqb k k') eqn:E; simpl; rewrite E; [reflexivity|].
    now rewrite IH.
Qed.

Lemma assign_lookup (k : string) (v : JsValue) (o : Obj) :
  lookup k o = Some v -> assign k v o = o.
Proof.
  induction o as [|[k' v'] o IH]; simpl; [discriminate|].
  destruct (String.eqb k k') eqn:E; intros Hl.
  - congruence.
  - now rewrite IH.
Qed.

Lemma emit_each {B} (ev : B -> Event) (es : list B) :
  forall i d fp pp lg,
    forEachFrom i es (fun (_ : nat) e => emit (ev e)) (mkState d fp pp lg) =
    (mkState d fp pp (lg ++ map ev es), inr tt).
Proof.
  induction es as [|e es IH]; intros i d fp pp lg; simpl.
  - now rewrite app_nil_r.
  - rewrite bind_run. unfold emit at 1. simpl. rewrite IH, <- app_assoc. reflexivity.
Qed.

(** The write-backs of a fanned-out hook on a locale map. *)
Lemma store_each {A} (mk : JsValue -> JsValue -> A) (h : A -> JsValue)
  (k : string) (sd : JsValue) (o : Obj) (es : Obj) :
  forall i acc fp pp lg,
    forEachFrom i es
      (fun (_ : nat) e =>
         if isUndefined (h (mk sd (snd e))) then ret tt
         else writeEntry k (fst e) (h (mk sd (snd e))))
      (mkState (VObj (assign k (VObj acc) o)) fp pp lg) =
    (mkState (VObj (assign k (VObj (fold_left (entryStep mk h sd) es acc)) o))
       fp pp lg, inr tt).
Proof.
  induction es as [|e es IH]; intros i acc fp pp lg; simpl.
  - reflexivity.
  - rewrite bind_run. unfold entryStep at 2. cbv zeta.
    destruct (isUndefined (h (mk sd (snd e)))).
    + unfold ret at 1. apply IH.
    + unfold writeEntry.
      rewrite bind_run, readSlot_object, getPropOpt_assign_same.
      cbn [liftE setProp]. rewrite bind_run. unfold liftE at 1.
      rewrite writeSlot_object, assign_assign. apply IH.
Qed.

(** One link of a chain on a locale map that is fanned out. *)
Lemma runHook_fanOut {A} (mk : JsValue -> JsValue -> A)
  (ev : nat -> A -> JsValue -> Event) (a : Args) (f : Field) (i : nat)
  (h : A -> JsValue) (o kvs : Obj) fp pp lg :
  localized f && (isAll (locale a) || negb (flattenLocales a)) = true ->
  lookup (slotKey f) o = Some (VObj kvs) ->
  exists lg',
    runHook mk ev a f i h (mkState (VObj o) fp pp lg) =
    (mkState
       (VObj (assign (slotKey f)
                (VObj (fold_left (entryStep mk h (VObj o)) kvs kvs)) o))
       fp pp lg', inr tt).
Proof.
  intros Hstatic Hslot.
  assert (Hget : getPropOpt (VObj o) (slotKey f) = VObj kvs).
  { unfold getPropOpt. simpl. now rewrite Hslot. }
  unfold runHook, shouldRunHookOnAllLocales. rewrite Hstatic.
  rewrite !bind_run, readSlot_object, Hget. unfold ret at 1. cbn [isObjectType typeof].
  rewrite bind_run, readSlot_object, Hget.
  rewrite bind_run. unfold liftE at 1. cbn [entries].
  rewrite bind_run. unfold getDoc at 1. cbn [siblingDoc].
  rewrite bind_run. unfold forEach.
  rewrite (emit_each (fun e => ev i (mk (VObj o) (snd e)) (h (mk (VObj o) (snd e))))
             kvs).
  match goal with
  | |- context [mkState (VObj o) fp pp ?l] =>
      pose proof (store_each mk h (slotKey f) (VObj o) o kvs 0 kvs fp pp l) as Hstore
  end.
  rewrite (assign_lookup _ _ _ Hslot) in Hstore at 1.
  rewrite Hstore. eexists. reflexivity.
Qed.

(** A chain on a locale map that is fanned out. *)
Lemma chain_fanOut (a : Args) (f : Field) (paths : Path * SchemaPath)
  (hs : list Hook) :
  localized f && (isAll (locale a) || negb (flattenLocales a)) = true ->
  forall i o kvs fp pp lg,
    lookup (slotKey f) o = Some (VObj kvs) ->
    exists lg',
      forEachFrom i hs (runHook (hookArgs a paths) EHook a f)
        (mkState (VObj o) fp pp lg) =
      (mkState (VObj (fold_left (fanOutStep a f paths) hs o)) fp pp lg', inr tt).
Proof.
  intros Hstatic. induction hs as [|h hs IH]; intros i o kvs fp pp lg Hslot.
  - simpl. exists lg. reflexivity.
  - cbn [forEachFrom fold_left]. rewrite bind_run.
    destruct (runHook_fanOut (hookArgs a paths) EHook a f i h o kvs fp pp lg
                Hstatic Hslot) as (lg1 & Hrun).
    rewrite Hrun.
    assert (Hstep : fanOutStep a f paths o h =
                    assign (slotKey f)
                      (VObj (fold_left (entryStep (hookArgs a paths) h (VObj o)) kvs kvs)) o).
    { unfold fanOutStep, getPropOpt. simpl. now rewrite Hslot. }
    rewrite Hstep. eapply IH. apply lookup_assign_same.
Qed.

Lemma hoistLocalizedValue_succeeds (a : Args) (f : Field) (o : Obj) fp pp lg :
  exists o' sh,
    hoistLocalizedValue a f (mkState (VObj o) fp pp lg) =
    (mkState (VObj o') fp pp lg, inr sh).
Proof.
  pose proof (hoistLocalizedValue_object a f o fp pp lg) as Hrun.
  cbv zeta in Hrun. rewrite Hrun.
  destruct (hoistingApplies a f _); eauto.
Qed.
(** *** Fields that do not affect data *)

Lemma fieldPhases_presentational (a : Args) (f : Field) (s : State) :
  fieldAffectsData f = false ->
  fieldPhases a f s =
  match sanitizeField f s with
  | (s', inr _) => (s', inr false)
  | (s', inl e) => (s', inl e)
  end.
Proof.
  intros Haff. rewrite fieldPhases_run.
  unfold removeHiddenField, hoistLocalizedValue, shouldHoistLocalizedValue,
    dataPhases.
  rewrite Haff, andb_false_r. cbn [andb]. unfold bind, ret. cbv iota beta.
  destruct (sanitizeField f s) as [s' [e|[]]]; reflexivity.
Qed.

(** *** The tabs of a tabs field *)

Lemma getPropOpt_lookup (k : string) (o o' : Obj) :
  lookup k o' = lookup k o -> getPropOpt (VObj o') k = getPropOpt (VObj o) k.
Proof. unfold getPropOpt. simpl. intros ->. reflexivity. Qed.

Lemma sanitizeTabs_fold (ts : list Field) :
  forall i o fp pp lg,
    forEachFrom i ts
      (fun (_ : nat) (tab : Field) =>
         if tabHasName tab then
           v <- readSlot (slotKey tab) ;;
           if isUndefined v || isNull v
           then writeSlot (slotKey tab) (VObj [])
           else ret tt
         else ret tt)
      (mkState (VObj o) fp pp lg) =
    (mkState (VObj (fold_left fillTab ts o)) fp pp lg, inr tt).
Proof.
  induction ts as [|tab ts IH]; intros i o fp pp lg; [reflexivity|].
  cbn [forEachFrom fold_left]. rewrite bind_run.
  assert (Hstep :
    (if tabHasName tab then
       v <- readSlot (slotKey tab) ;;
       if isUndefined v || isNull v
       then writeSlot (slotKey tab) (VObj [])
       else ret tt
     else ret tt)%M (mkState (VObj o) fp pp lg) =
    (mkState (VObj (fillTab o tab)) fp pp lg, inr tt)).
  { unfold fillTab. destruct (tabHasName tab); [|reflexivity].
    rewrite bind_run, readSlot_object. cbn [andb].
    destruct (isUndefined _ || isNull _); reflexivity. }
  rewrite Hstep. apply IH.
Qed.

Lemma sanitizeField_tabs (f : Field) (o : Obj) fp pp lg :
  type f = Tabs ->
  sanitizeField f (mkState (VObj o) fp pp lg) =
  (mkState (VObj (fold_left fillTab (tabs f) o)) fp pp lg, inr tt).
Proof.
  intros Ht. unfold sanitizeField. rewrite Ht. apply sanitizeTabs_fold.
Qed.

Lemma fillTab_keeps (tab : Field) (k : string) (o : Obj) :
  isUndefined (getPropOpt (VObj o) k) || isNull (getPropOpt (VObj o) k) = false ->
  lookup k (fillTab o tab) = lookup k o.
Proof.
  intros Hk. unfold fillTab.
  destruct (tabHasName tab); [|reflexivity]. cbn [andb].
  destruct (isUndefined (getPropOpt (VObj o) (slotKey tab))
            || isNull (getPropOpt (VObj o) (slotKey tab))) eqn:Ht; [|reflexivity].
  apply lookup_assign_other. intros E. subst k. congruence.
Qed.

Lemma fillTab_fills (tab : Field) (o : Obj) :
  tabHasName tab = true ->
  isUndefined (getPropOpt (VObj (fillTab o tab)) (slotKey tab))
  || isNull (getPropOpt (VObj (fillTab o tab)) (slotKey tab)) = false.
Proof.
  intros Hn. unfold fillTab. rewrite Hn. cbn [andb].
  destruct (isUndefined (getPropOpt (VObj o) (slotKey tab))
            || isNull (getPropOpt (VObj o) (slotKey tab))) eqn:Ht; [|exact Ht].
  rewrite getPropOpt_assign_same. reflexivity.
Qed.

Lemma fillTabs_keep (ts : list Field) (k : string) :
  forall o,
    isUndefined (getPropOpt (VObj o) k) || isNull (getPropOpt (VObj o) k) = false ->
    lookup k (fold_left fillTab ts o) = lookup k o.
Proof.
  induction ts as [|tab ts IH]; intros o Hk; [reflexivity|].
  cbn [fold_left].
  pose proof (fillTab_keeps tab k o Hk) as Hstep.
  rewrite IH; [exact Hstep|].
  rewrite (getPropOpt_lookup k o _ Hstep). exact Hk.
Qed.

Lemma fillTabs_fill (ts : list Field) (tab : Field) :
  In tab ts -> tabHasName tab = true ->
  forall o,
    isUndefined (getPropOpt (VObj (fold_left fillTab ts o)) (slotKey tab))
    || isNull (getPropOpt (VObj (fold_left fillTab ts o)) (slotKey tab)) = false.
Proof.
  intros Hin Hn. induction ts as [|tab' ts IH]; [destruct Hin|].
  intros o. cbn [fold_left].
  destruct Hin as [->|Hin]; [|apply IH; exact Hin].
  pose proof (fillTab_fills tab o Hn) as Hfilled.
  rewrite (getPropOpt_lookup _ _ _
             (fillTabs_keep ts (slotKey tab) (fillTab o tab) Hfilled)).
  exact Hfilled.
Qed.

Lemma fillTabs_other (ts : list Field) (k : string) :
  (forall tab, In tab ts -> tabHasName tab = true -> slotKey tab <> k) ->
  forall o, lookup k (fold_left fillTab ts o) = lookup k o.
Proof.
  induction ts as [|tab ts IH]; intros Hk o; [reflexivity|].
  cbn [fold_left]. rewrite IH by (intros t Hin; apply Hk; right; exact Hin).
  unfold fillTab. destruct (tabHasName tab) eqn:Hn; [|reflexivity].
  cbn [andb]. destruct (isUndefined _ || isNull _); [|reflexivity].
  apply lookup_assign_other. apply Hk; [left; reflexivity|exact Hn].
Qed.

Lemma fillTabs_either (ts : list Field) (k : string) :
  forall o,
    lookup k (fold_left fillTab ts o) = lookup k o
    \/ lookup k (fold_left fillTab ts o) = Some (VObj []).
Proof.
  induction ts as [|tab ts IH]; intros o; [left; reflexivity|].
  cbn [fold_left].
  destruct (IH (fillTab o tab)) as [Hsame|Hfilled]; [|right; exact Hfilled].
  rewrite Hsame. unfold fillTab.
  destruct (tabHasName tab && _); [|left; reflexivity].
  destruct (String.eqb (slotKey tab) k) eqn:E.
  - apply String.eqb_eq in E. subst k. right. apply lookup_assign_same.
  - left. apply lookup_assign_other. intros E'. subst k.
    rewrite String.eqb_refl in E. discriminate.
Qed.

(** *** Lines 193-314 without hooks and without a denial *)

Lemma dataPhases_unhooked (a : Args) (f : Field) (paths : Path * SchemaPath)
  (o : Obj) fp pp lg :
  hooksRun a f = false -> accessDenied a f (VObj o) = false ->
  let args := mkDefaultArgs (defaultValue f) (locale a) (user (req a))
                (getPropOpt (VObj o) (slotKey f)) in
  let o1 := if defaultSubstituted f o
            then assign (slotKey f) (getDefaultValue args) o else o in
  exists pp' lg',
    dataPhases a f paths (mkState (VObj o) fp pp lg) =
    (mkState (VObj o1) fp pp' (lg ++ lg'), inr tt)
    /\ (defaultSubstituted f o = true -> In (EDefault args (getDefaultValue args)) lg').
Proof.
  intros Hh Ha args o1. unfold o1, hooksRun, accessDenied, defaultSubstituted in *.
  unfold dataPhases.
  destruct (fieldAffectsData f); cbn [andb] in *;
    [|exists pp, []; rewrite app_nil_r; split; [reflexivity|discriminate]].
  rewrite bind_run, executeHooks_none by exact Hh.
  rewrite bind_run, executeAccessControl_object.
  assert (Hsched : forall d pp0 lg0, exists pp',
    schedulePopulation a f (mkState d fp pp0 lg0) =
    (mkState d fp pp' (lg0 ++ flat_map (fun t => [EPopulate t])
                                (if isReferenceType (type f)
                                 then [populationTask a f d] else [])), inr tt)).
  { intros d pp0 lg0.
    destruct (isReferenceType (type f)) eqn:Hr.
    - rewrite schedulePopulation_reference by exact Hr. simpl. eauto.
    - rewrite schedulePopulation_other by exact Hr. simpl.
      rewrite app_nil_r. eauto. }
  assert (Hrest : forall lg0, exists pp' lg',
    (setDefaultValue a f true ;; schedulePopulation a f)%M
      (mkState (VObj o) fp pp lg0) =
    (mkState
       (VObj (if isUndefined (getPropOpt (VObj o) (slotKey f)) && defaultConfigured f
              then assign (slotKey f) (getDefaultValue args) o else o))
       fp pp' (lg0 ++ lg'), inr tt)
    /\ (isUndefined (getPropOpt (VObj o) (slotKey f)) && defaultConfigured f = true ->
        In (EDefault args (getDefaultValue args)) lg')).
  { intros lg0. rewrite bind_run, setDefaultValue_object. cbn [andb].
    destruct (isUndefined (getPropOpt (VObj o) (slotKey f)) && defaultConfigured f).
    - cbv zeta. fold args.
      match goal with
      | |- context [schedulePopulation a f (mkState ?d _ ?pp0 ?lg1)] =>
          destruct (Hsched d pp0 lg1) as (pp' & Hrun)
      end.
      rewrite Hrun. rewrite <- app_assoc. eexists pp', _.
      split; [reflexivity|]. intros _. left. reflexivity.
    - destruct (Hsched (VObj o) pp lg0) as (pp' & Hrun).
      rewrite Hrun. eexists pp', _. split; [reflexivity|discriminate]. }
  destruct (triggerAccessControl a);
    [destruct (access_read f) as [read|]; [destruct (overrideAccess a)|]|];
    cbv beta iota zeta; try apply Hrest.
  cbn [andb negb] in Ha. apply negb_false_iff in Ha. rewrite Ha.
  destruct (Hrest (lg ++ [EAccessRead (accessArgs a (VObj o)) true]))
    as (pp' & lg' & Hrun & Hin).
  rewrite Hrun, <- app_assoc. eexists pp', _. split; [reflexivity|].
  intros Hd. right. apply Hin. exact Hd.
Qed.

Lemma hoistingApplies_undefined (a : Args) (f : Field) :
  hoistingApplies a f VUndefined = false.
Proof.
  unfold hoistingApplies.
  destruct (flattenLocales a), (fieldAffectsData f), (localized f); reflexivity.
Qed.

Lemma getPropOpt_remove_same (k : string) (o : Obj) :
  getPropOpt (VObj (remove k o)) k = VUndefined.
Proof. unfold getPropOpt. simpl. now rewrite lookup_remove_same. Qed.

(** Lines 89-139 on a hidden field whose value is not shown. *)
Lemma hiddenField_removed (a : Args) (f : Field) (o : Obj) fp pp lg :
  fieldAffectsData f = true -> hidden f = true -> showHiddenFields a = false ->
  isUndefined (getPropOpt (VObj o) (slotKey f)) = false ->
  (removeHiddenField a f ;; hoistLocalizedValue a f)%M (mkState (VObj o) fp pp lg) =
  (mkState (VObj (remove (slotKey f) o)) fp pp lg, inr false).
Proof.
  intros Haff Hhid Hshow Hdef.
  rewrite bind_run, removeHiddenField_object.
  unfold hiddenRemoved. rewrite Haff, Hhid, Hshow, Hdef. cbn [andb negb].
  rewrite hoistLocalizedValue_object. cbv zeta.
  rewrite getPropOpt_remove_same, hoistingApplies_undefined. reflexivity.
Qed.

(** *** The editor's hook chain *)

Lemma runEditorHook_single (a : Args) (f : Field) (paths : Path * SchemaPath)
  (i : nat) (h : EditorHook) (c : Chain) (lg : list Event) :
  fansOut a f (getPropOpt (VObj (c_doc c)) (slotKey f)) = false ->
  let x := editorCallArgs a f paths c in
  runEditorHook a f paths i h (chainState c lg) =
  (chainState (editorHookStep a f paths c h) (lg ++ [EEditorHook i x (h x)]), inr tt).
Proof.
  intros Hfan x. destruct c as [o fp pp].
  assert (Hx : x = editorCallArgs a f paths (mkChain o fp pp)) by reflexivity.
  unfold editorHookStep. rewrite <- Hx.
  unfold editorCallArgs in Hx. cbn [c_doc c_fieldPromises c_populationPromises] in *.
  clearbody x.
  unfold chainState, runEditorHook, shouldRunHookOnAllLocales, fansOut in *.
  cbn [c_doc c_fieldPromises c_populationPromises].
  rewrite bind_run.
  destruct (localized f && (isAll (locale a) || negb (flattenLocales a))).
  - rewrite bind_run, readSlot_object. simpl in Hfan. unfold ret at 1.
    rewrite Hfan. rewrite bind_run, readSlot_object.
    rewrite bind_run. unfold getDoc at 1. cbn [siblingDoc].
    rewrite bind_run. unfold callEditorHook at 1.
    cbn [siblingDoc fieldPromises populationPromises log]. rewrite <- Hx.
    destruct (isUndefined (eh_value (h x))); reflexivity.
  - unfold ret at 1. rewrite bind_run, readSlot_object.
    rewrite bind_run. unfold getDoc at 1. cbn [siblingDoc].
    rewrite bind_run. unfold callEditorHook at 1.
    cbn [siblingDoc fieldPromises populationPromises log]. rewrite <- Hx.
    destruct (isUndefined (eh_value (h x))); reflexivity.
Qed.

Lemma editorChain_fold (a : Args) (f : Field) (paths : Path * SchemaPath)
  (hs : list EditorHook) :
  localized f && (isAll (locale a) || negb (flattenLocales a)) = false ->
  forall i c lg,
    forEachFrom i hs (runEditorHook a f paths) (chainState c lg) =
    (chainState (fold_left (editorHookStep a f paths) hs c)
       (lg ++ editorCalls a f paths i hs c), inr tt).
Proof.
  intros Hstatic. induction hs as [|h hs IH]; intros i c lg.
  - simpl. rewrite app_nil_r. reflexivity.
  - cbn [forEachFrom fold_left editorCalls]. rewrite bind_run.
    rewrite runEditorHook_single by (apply fansOut_static; exact Hstatic).
    cbv zeta. rewrite IH, <- app_assoc. reflexivity.
Qed.

Lemma executeEditorHooks_static (a : Args) (f : Field) (paths : Path * SchemaPath)
  (afterRead : option (list EditorHook)) (c : Chain) (lg : list Event) :
  editor f = EditorAdapter afterRead ->
  localized f && (isAll (locale a) || negb (flattenLocales a)) = false ->
  executeEditorHooks a f paths (chainState c lg) =
  (chainState (fold_left (editorHookStep a f paths) (editorHooksOf afterRead) c)
     (lg ++ editorCalls a f paths 0 (editorHooksOf afterRead) c), inr tt).
Proof.
  intros Hed Hstatic. unfold executeEditorHooks. rewrite Hed.
  destruct afterRead as [[|h hs]|]; cbn [editorHooksOf];
    try (simpl; rewrite app_nil_r; reflexivity).
  apply editorChain_fold. exact Hstatic.
Qed.

Lemma editorChain_fieldPromises (a : Args) (f : Field) (paths : Path * SchemaPath)
  (hs : list EditorHook) :
  forall i c,
    c_fieldPromises (fold_left (editorHookStep a f paths) hs c)
    = c_fieldPromises c ++ flat_map promisesOf (editorCalls a f paths i hs c).
Proof.
  induction hs as [|h hs IH]; intros i c; cbn [fold_left editorCalls flat_map].
  - now rewrite app_nil_r.
  - rewrite (IH (S i)). cbn [editorHookStep c_fieldPromises promisesOf].
    now rewrite <- app_assoc.
Qed.

Lemma editorChain_populationPromises (a : Args) (f : Field)
  (paths : Path * SchemaPath) (hs : list EditorHook) :
  forall i c,
    c_populationPromises (fold_left (editorHookStep a f paths) hs c)
    = c_populationPromises c ++ flat_map tasksOf (editorCalls a f paths i hs c).
Proof.
  induction hs as [|h hs IH]; intros i c; cbn [fold_left editorCalls flat_map].
  - now rewrite app_nil_r.
  - rewrite (IH (S i)). cbn [editorHookStep c_populationPromises tasksOf].
    now rewrite <- app_assoc.
Qed.

(** *** Runs that fulfil *)

Lemma sanitizeField_fulfils (f : Field) (o : Obj) fp pp lg :
  editorError f = None \/ type f <> RichText ->
  exists o', sanitizeField f (mkState (VObj o) fp pp lg) =
             (mkState (VObj o') fp pp lg, inr tt).
Proof.
  intros Hed.
  destruct (hasSanitizer (type f)) eqn:Hsan;
    [|exists o; apply sanitizeField_none; exact Hsan].
  destruct (type f) eqn:Ht; try discriminate.
  - exists (assign (slotKey f) (pointCoordinates (getPropOpt (VObj o) (slotKey f))) o).
    unfold sanitizeField. rewrite Ht. apply sanitizePoint_object.
  - destruct Hed as [Hed|Hed]; [|congruence].
    exists o. unfold sanitizeField, checkEditor, editorError in *. rewrite Ht.
    destruct (editor f); try discriminate. reflexivity.
  - unfold sanitizeField. rewrite Ht, bind_run, readSlot_object.
    destruct (isUndefined _); eexists; reflexivity.
  - eexists. apply sanitizeField_tabs. exact Ht.
Qed.

Lemma executeHooks_static (a : Args) (f : Field) (paths : Path * SchemaPath)
  (o : Obj) fp pp lg :
  localized f && (isAll (locale a) || negb (flattenLocales a)) = false ->
  exists o' lg',
    executeHooks a f paths (mkState (VObj o) fp pp lg) =
    (mkState (VObj o') fp pp lg', inr tt).
Proof.
  intros Hstatic. unfold executeHooks.
  destruct (triggerHooks a); [|exists o, lg; reflexivity].
  destruct (hooks_afterRead f) as [hs|]; [|exists o, lg; reflexivity].
  destruct (chain_fold a f paths hs Hstatic 0 o fp pp lg) as (lg' & Hrun).
  eauto.
Qed.

Lemma dataPhases_fulfils (a : Args) (f : Field) (paths : Path * SchemaPath)
  (o : Obj) fp pp lg :
  localized f && (isAll (locale a) || negb (flattenLocales a)) = false ->
  exists o' pp' lg',
    dataPhases a f paths (mkState (VObj o) fp pp lg) =
    (mkState (VObj o') fp pp' lg', inr tt).
Proof.
  intros Hstatic. unfold dataPhases.
  destruct (fieldAffectsData f); [|exists o, pp, lg; reflexivity].
  rewrite bind_run.
  destruct (executeHooks_static a f paths o fp pp lg Hstatic) as (o1 & lg1 & Hrun).
  rewrite Hrun.
  destruct (accessDefault_object a f o1 fp pp lg1) as (o2 & evs & _ & Hk).
  rewrite Hk.
  destruct (isReferenceType (type f)) eqn:Hr.
  - rewrite schedulePopulation_reference by exact Hr. simpl. eauto.
  - rewrite schedulePopulation_other by exact Hr. eauto.
Qed.

Lemma fieldPhases_fulfils (a : Args) (f : Field) (o : Obj) fp pp lg :
  localized f && (isAll (locale a) || negb (flattenLocales a)) = false ->
  editorError f = None \/ type f <> RichText ->
  exists o' pp' lg' sh,
    fieldPhases a f (mkState (VObj o) fp pp lg) =
    (mkState (VObj o') fp pp' lg', inr sh).
Proof.
  intros Hstatic Hed.
  rewrite fieldPhases_run, removeHiddenField_object, hoistLocalizedValue_object.
  cbv zeta.
  match goal with
  | |- context [if ?c then (mkState (VObj ?x) _ _ _, inr true)
                else (mkState (VObj ?y) _ _ _, inr false)] =>
      assert (Hh : exists o1 sh,
                (if c then (mkState (VObj x) fp pp lg, inr true)
                 else (mkState (VObj y) fp pp lg, @inr Err bool false))
                = (mkState (VObj o1) fp pp lg, inr sh))
        by (destruct c; eauto)
  end.
  destruct Hh as (o1 & sh & ->).
  destruct (sanitizeField_fulfils f o1 fp pp lg Hed) as (o2 & ->).
  destruct (dataPhases_fulfils a f
              (getFieldPaths f (parentPath a) (parentSchemaPath a) (fieldIndex a))
              o2 fp pp lg Hstatic) as (o3 & pp' & lg' & ->).
  eauto.
Qed.

Lemma traverseRows_array_fulfils (a : Args) (f : Field) (paths : Path * SchemaPath)
  (sh : bool) (o : Obj) fp pp lg :
  snd (traverseRows f sh (arrayRow a f paths) (mkState (VObj o) fp pp lg)) = inr tt.
Proof.
  unfold traverseRows. rewrite bind_run, readSlot_object.
  destruct (getPropOpt (VObj o) (slotKey f)) as [| | | | |rows|kvs];
    try reflexivity.
  - rewrite bind_run.
    destruct (mapRows_arrayRow a f paths rows 0 (mkState (VObj o) fp pp lg))
      as (rows' & fp' & pp' & Hrun & _).
    rewrite Hrun. reflexivity.
  - destruct sh; [reflexivity|]. cbn [negb]. rewrite bind_run.
    destruct (mapLocales_arrayRow a f paths kvs (mkState (VObj o) fp pp lg))
      as (kvs' & fp' & pp' & Hrun).
    rewrite Hrun. reflexivity.
Qed.

Lemma traverseSlot_fulfils (t : TraverseArgs) (k : string) (o : Obj) fp pp lg :
  snd (traverseSlot t k (mkState (VObj o) fp pp lg)) = inr tt.
Proof.
  unfold traverseSlot. rewrite bind_run, readSlot_object.
  destruct (isObjectType _); reflexivity.
Qed.

(** *** A sibling container that is [null] or [undefined] *)

Lemma readSlot_nullish (k : string) (s : State) :
  isNullish (siblingDoc s) -> readSlot k s = (s, inl TypeError).
Proof.
  destruct s as [d fp pp lg]. simpl. intros [-> | ->]; reflexivity.
Qed.

Lemma deleteSlot_nullish (k : string) (s : State) :
  isNullish (siblingDoc s) -> deleteSlot k s = (s, inl TypeError).
Proof.
  destruct s as [d fp pp lg]. simpl. intros [-> | ->]; reflexivity.
Qed.

Lemma removeHiddenField_nullish (a : Args) (f : Field) (s : State) :
  isNullish (siblingDoc s) ->
  removeHiddenField a f s = (s, inr tt)
  \/ removeHiddenField a f s = (s, inl TypeError).
Proof.
  intros Hs. unfold removeHiddenField.
  destruct (fieldAffectsData f && hidden f); [right|left; reflexivity].
  rewrite bind_run, readSlot_nullish by exact Hs. reflexivity.
Qed.

Lemma hoistLocalizedValue_nullish (a : Args) (f : Field) (s : State) :
  isNullish (siblingDoc s) ->
  hoistLocalizedValue a f s = (s, inr false)
  \/ hoistLocalizedValue a f s = (s, inl TypeError).
Proof.
  intros Hs. unfold hoistLocalizedValue, shouldHoistLocalizedValue.
  rewrite bind_run.
  destruct (flattenLocales a && fieldAffectsData f); [right|left; reflexivity].
  rewrite bind_run, readSlot_nullish by exact Hs. reflexivity.
Qed.

Lemma sanitizeField_nullish (f : Field) (s : State) :
  isNullish (siblingDoc s) ->
  sanitizeField f s = (s, inr tt)
  \/ exists e, sanitizeField f s = (s, inl e) /\ (e = TypeError \/ configErrorOf f e).
Proof.
  intros Hs. unfold sanitizeField, configErrorOf.
  destruct (type f) eqn:Ht; auto.
  - right. exists TypeError. unfold sanitizePoint.
    rewrite bind_run, readSlot_nullish by exact Hs. auto.
  - unfold checkEditor, editorError.
    destruct (editor f);
      [right; exists MissingEditorProp|right; exists UnsanitizedEditor
      |left; reflexivity];
      (split; [reflexivity|right; split; reflexivity]).
  - right. exists TypeError. rewrite bind_run, readSlot_nullish by exact Hs. auto.
  - unfold forEach. generalize 0.
    induction (tabs f) as [|tab ts IH]; intros i; [left; reflexivity|].
    cbn [forEachFrom]. rewrite bind_run.
    destruct (tabHasName tab).
    + right. exists TypeError. rewrite bind_run, readSlot_nullish by exact Hs. auto.
    + unfold ret at 1. apply IH.
Qed.

Lemma executeHooks_nullish (a : Args) (f : Field) (paths : Path * SchemaPath)
  (s : State) :
  isNullish (siblingDoc s) ->
  executeHooks a f paths s = (s, inr tt)
  \/ executeHooks a f paths s = (s, inl TypeError).
Proof.
  intros Hs. unfold executeHooks.
  destruct (triggerHooks a); [|left; reflexivity].
  destruct (hooks_afterRead f) as [[|h hs]|]; try (left; reflexivity).
  right. unfold forEach. cbn [forEachFrom]. rewrite bind_run.
  unfold runHook, shouldRunHookOnAllLocales. rewrite bind_run.
  destruct (localized f && (isAll (locale a) || negb (flattenLocales a))).
  - rewrite bind_run, readSlot_nullish by exact Hs. reflexivity.
  - unfold ret at 1. rewrite bind_run, readSlot_nullish by exact Hs. reflexivity.
Qed.

Lemma dataPhases_nullish (a : Args) (f : Field) (paths : Path * SchemaPath)
  (s : State) :
  isNullish (siblingDoc s) -> fieldAffectsData f = true ->
  exists lg',
    dataPhases a f paths s =
    (mkState (siblingDoc s) (fieldPromises s) (populationPromises s) lg',
     inl TypeError)
    /\ (lg' = log s \/ exists x b, lg' = log s ++ [EAccessRead x b]).
Proof.
  intros Hs Haff. unfold dataPhases. rewrite Haff, bind_run.
  destruct (executeHooks_nullish a f paths s Hs) as [-> | ->];
    [|exists (log s); destruct s; auto].
  assert (Hdefault : forall s', isNullish (siblingDoc s') ->
    (setDefaultValue a f true ;; schedulePopulation a f)%M s' = (s', inl TypeError)).
  { intros s' Hs'. rewrite bind_run. unfold setDefaultValue.
    rewrite bind_run, readSlot_nullish by exact Hs'. reflexivity. }
  rewrite bind_run. unfold executeAccessControl.
  destruct (triggerAccessControl a);
    [|unfold ret at 1; rewrite Hdefault by exact Hs;
      exists (log s); destruct s; auto].
  destruct (access_read f) as [read|];
    [|unfold ret at 1; rewrite Hdefault by exact Hs;
      exists (log s); destruct s; auto].
  rewrite bind_run.
  destruct (overrideAccess a).
  - unfold ret at 1 2. rewrite Hdefault by exact Hs.
    exists (log s); destruct s; auto.
  - destruct s as [d fp pp lg]. simpl in Hs.
    exists (lg ++ [EAccessRead (accessArgs a d) (read (accessArgs a d))]).
    split; [|right; eauto].
    cbn -[setDefaultValue schedulePopulation deleteSlot].
    destruct (read (accessArgs a d)).
    + apply Hdefault. exact Hs.
    + rewrite bind_run, deleteSlot_nullish by exact Hs. reflexivity.
Qed.

(** *** Computations that write the field's own key only *)

Lemma sameElsewhere_refl (k : string) (o : Obj) : sameElsewhere k o o.
Proof. intros k' _. reflexivity. Qed.

Lemma sameElsewhere_trans (k : string) (o1 o2 o3 : Obj) :
  sameElsewhere k o1 o2 -> sameElsewhere k o2 o3 -> sameElsewhere k o1 o3.
Proof. intros H12 H23 k' Hk. rewrite (H23 k' Hk). apply H12. exact Hk. Qed.

Lemma WritesOnly_keeps {A} (k : string) (m : M A) : KeepsDoc m -> WritesOnly k m.
Proof.
  intros Hm s o Hs. exists o. rewrite Hm. split; [exact Hs|apply sameElsewhere_refl].
Qed.

Lemma WritesOnly_bind {A B} (k : string) (m : M A) (c : A -> M B) :
  WritesOnly k m -> (forall x, WritesOnly k (c x)) -> WritesOnly k (bind m c).
Proof.
  intros Hm Hc s o Hs. rewrite bind_run.
  destruct (Hm s o Hs) as (o1 & Hdoc1 & Hsame1).
  destruct (m s) as [s1 [e|x]]; simpl in Hdoc1.
  - exists o1. auto.
  - destruct (Hc x s1 o1 Hdoc1) as (o2 & Hdoc2 & Hsame2).
    exists o2. split; [exact Hdoc2|].
    apply sameElsewhere_trans with o1; assumption.
Qed.

Lemma WritesOnly_forEachFrom {A} (k : string) (body : nat -> A -> M unit)
  (xs : list A) :
  (forall i x, WritesOnly k (body i x)) ->
  forall i, WritesOnly k (forEachFrom i xs body).
Proof.
  intros Hb. induction xs as [|x xs IH]; intros i; simpl.
  - apply WritesOnly_keeps, KeepsDoc_ret.
  - apply WritesOnly_bind; auto.
Qed.

Lemma WritesOnly_writeSlot (k : string) (v : JsValue) : WritesOnly k (writeSlot k v).
Proof.
  intros [d fp pp lg] o Hs. simpl in Hs. subst d.
  rewrite writeSlot_object. eexists. split; [reflexivity|].
  intros k' Hk. apply lookup_assign_other. congruence.
Qed.

Lemma WritesOnly_deleteSlot (k : string) : WritesOnly k (deleteSlot k).
Proof.
  intros [d fp pp lg] o Hs. simpl in Hs. subst d.
  rewrite deleteSlot_object. eexists. split; [reflexivity|].
  intros k' Hk. apply lookup_remove_other. congruence.
Qed.

Lemma KeepsDoc_callTraverse (t : TraverseArgs) (sib : JsValue) :
  KeepsDoc (callTraverse t sib).
Proof. intros s. reflexivity. Qed.

Ltac writes_step :=
  match goal with
  | |- WritesOnly _ (bind _ _) => apply WritesOnly_bind; [|intros ?]
  | |- WritesOnly _ (forEach _ _) => apply WritesOnly_forEachFrom; intros ? ?
  | |- WritesOnly _ (if ?b then _ else _) => destruct b
  | |- WritesOnly _ (match ?x with _ => _ end) => destruct x
  | |- WritesOnly _ (ret _) => apply WritesOnly_keeps, KeepsDoc_ret
  | |- WritesOnly _ (throw _) => apply WritesOnly_keeps, KeepsDoc_throw
  | |- WritesOnly _ (liftE _) => apply WritesOnly_keeps, KeepsDoc_liftE
  | |- WritesOnly _ getDoc => apply WritesOnly_keeps, KeepsDoc_getDoc
  | |- WritesOnly _ (emit _) => apply WritesOnly_keeps, KeepsDoc_emit
  | |- WritesOnly _ (pushPopulation _) =>
      apply WritesOnly_keeps, KeepsDoc_pushPopulation
  | |- WritesOnly _ (callTraverse _ _) =>
      apply WritesOnly_keeps, KeepsDoc_callTraverse
  | |- WritesOnly _ (readSlot _) => apply WritesOnly_keeps, KeepsDoc_readSlot
  | |- WritesOnly ?k (writeSlot ?k _) => apply WritesOnly_writeSlot
  | |- WritesOnly ?k (deleteSlot ?k) => apply WritesOnly_deleteSlot
  end.

Ltac writes_steps := repeat writes_step.

Lemma WritesOnly_removeHiddenField (a : Args) (f : Field) :
  WritesOnly (slotKey f) (removeHiddenField a f).
Proof. unfold removeHiddenField. writes_steps. Qed.

Lemma WritesOnly_hoistLocalizedValue (a : Args) (f : Field) :
  WritesOnly (slotKey f) (hoistLocalizedValue a f).
Proof.
  unfold hoistLocalizedValue, shouldHoistLocalizedValue. writes_steps.
Qed.

Lemma WritesOnly_sanitizeField (f : Field) :
  type f <> Tabs -> WritesOnly (slotKey f) (sanitizeField f).
Proof.
  intros Ht. unfold sanitizeField, sanitizePoint, checkEditor.
  destruct (type f); try congruence; writes_steps.
Qed.

Lemma WritesOnly_runHook {A} (mk : JsValue -> JsValue -> A)
  (ev : nat -> A -> JsValue -> Event) (a : Args) (f : Field) (i : nat)
  (h : A -> JsValue) :
  WritesOnly (slotKey f) (runHook mk ev a f i h).
Proof.
  unfold runHook, shouldRunHookOnAllLocales, writeEntry. writes_steps.
Qed.

Lemma WritesOnly_dataPhases (a : Args) (f : Field) (paths : Path * SchemaPath) :
  WritesOnly (slotKey f) (dataPhases a f paths).
Proof.
  unfold dataPhases, executeHooks, executeAccessControl, setDefaultValue,
    schedulePopulation.
  writes_steps; apply WritesOnly_runHook.
Qed.

Lemma WritesOnly_fieldPhases (a : Args) (f : Field) :
  type f <> Tabs -> WritesOnly (slotKey f) (fieldPhases a f).
Proof.
  intros Ht. unfold fieldPhases. cbv zeta. writes_steps;
    auto using WritesOnly_removeHiddenField, WritesOnly_hoistLocalizedValue,
      WritesOnly_sanitizeField, WritesOnly_dataPhases.
Qed.

Lemma KeepsDoc_mapRows (body : nat -> JsValue -> M JsValue) (rows : list JsValue) :
  (forall i row, KeepsDoc (body i row)) -> forall i, KeepsDoc (mapRows body i rows).
Proof.
  intros Hb. induction rows as [|row rest IH]; intros i s; [reflexivity|].
  cbn [mapRows]. specialize (Hb i row s).
  destruct (body i row s) as [s1 [e|row']]; simpl in Hb; [exact Hb|].
  specialize (IH (S i) s1).
  destruct (mapRows body (S i) rest s1) as [s2 [e|[rest' e]]]; simpl in *;
    congruence.
Qed.

Lemma KeepsDoc_mapLocales (body : nat -> JsValue -> M JsValue) (kvs : Obj) :
  (forall i row, KeepsDoc (body i row)) -> KeepsDoc (mapLocales body kvs).
Proof.
  intros Hb. induction kvs as [|[l v] rest IH]; [apply KeepsDoc_ret|].
  assert (Hskip : KeepsDoc (r' <- mapLocales body rest ;;
                            ret ((l, v) :: fst r', snd r'))%M).
  { apply KeepsDoc_bind; [exact IH|]. intros r'. apply KeepsDoc_ret. }
  destruct v; try exact Hskip.
  cbn [mapLocales]. apply KeepsDoc_bind; [apply KeepsDoc_mapRows; exact Hb|].
  intros r. destruct (snd r); [apply KeepsDoc_ret|].
  apply KeepsDoc_bind; [exact IH|]. intros r'. apply KeepsDoc_ret.
Qed.

Lemma KeepsDoc_traverseRow (t : TraverseArgs) (row : JsValue) :
  KeepsDoc (traverseRow t row).
Proof.
  unfold traverseRow. apply KeepsDoc_bind; [apply KeepsDoc_callTraverse|].
  intros row'. apply KeepsDoc_ret.
Qed.

Lemma KeepsDoc_blocksRow (a : Args) (f : Field) (paths : Path * SchemaPath)
  (i : nat) (row : JsValue) :
  KeepsDoc (blocksRow a f paths i row).
Proof.
  intros s. rewrite blocksRow_run. destruct (rowThrows f row); reflexivity.
Qed.

Lemma WritesOnly_traverseRows (f : Field) (sh : bool)
  (body : nat -> JsValue -> M JsValue) :
  (forall i row, KeepsDoc (body i row)) ->
  WritesOnly (slotKey f) (traverseRows f sh body).
Proof.
  intros Hb. unfold traverseRows, rethrow.
  writes_steps;
    try (apply WritesOnly_keeps;
         first [apply KeepsDoc_mapRows|apply KeepsDoc_mapLocales]; exact Hb).
Qed.

Lemma WritesOnly_traverseSlot (t : TraverseArgs) (k : string) :
  WritesOnly k (traverseSlot t k).
Proof. unfold traverseSlot. writes_steps. Qed.

Lemma KeepsDoc_callEditorHook (i : nat) (h : EditorHook)
  (mk : list Settled -> nat -> EditorHookArgs) :
  KeepsDoc (callEditorHook i h mk).
Proof. intros s. reflexivity. Qed.

Lemma KeepsDoc_callEach (call : string -> JsValue -> M JsValue) (es : Obj) :
  (forall l v, KeepsDoc (call l v)) -> KeepsDoc (callEach call es).
Proof.
  intros Hc. induction es as [|e es IH]; cbn [callEach]; keeps_doc; auto.
Qed.

Lemma WritesOnly_runEditorHook (a : Args) (f : Field) (paths : Path * SchemaPath)
  (i : nat) (h : EditorHook) :
  WritesOnly (slotKey f) (runEditorHook a f paths i h).
Proof.
  unfold runEditorHook, shouldRunHookOnAllLocales, writeEntry.
  writes_steps;
    try (apply WritesOnly_keeps;
         first [apply KeepsDoc_callEditorHook
               |apply KeepsDoc_callEach; intros; apply KeepsDoc_callEditorHook]).
Qed.

Lemma WritesOnly_executeEditorHooks (a : Args) (f : Field)
  (paths : Path * SchemaPath) :
  WritesOnly (slotKey f) (executeEditorHooks a f paths).
Proof.
  unfold executeEditorHooks. writes_steps; apply WritesOnly_runEditorHook.
Qed.

(** *** The rows of an array field after the recursion *)

Lemma traverseRow_after (t : TraverseArgs) (row : JsValue) (s : State) :
  snd (traverseRow t row s) =
  inr (if isRef row then r_siblingDoc (traverseFields t row) else row).
Proof.
  unfold traverseRow. rewrite bind_run. unfold callTraverse, ret, orElse.
  cbn [snd]. destruct row as [| |[|]|n|str| |]; cbn [truthy isRef]; try reflexivity.
  - destruct (negb (Z.eqb n 0)); reflexivity.
  - destruct (negb (String.eqb str EmptyString)); reflexivity.
Qed.

Lemma mapRows_arrayRow_after (a : Args) (f : Field) (paths : Path * SchemaPath)
  (rows : list JsValue) :
  forall i s, exists fp' pp',
    mapRows (arrayRow a f paths) i rows s =
    (mkState (siblingDoc s) fp' pp' (log s ++ rowCalls a (fields f) paths i rows),
     inr (rowsAfter a (fields f) paths i rows, None)).
Proof.
  induction rows as [|row rest IH]; intros i s.
  - simpl. exists (fieldPromises s), (populationPromises s).
    rewrite app_nil_r. destruct s; reflexivity.
  - cbn [mapRows rowCalls rowsAfter].
    pose proof (traverseRow_after
                  (traverseArgs a (fields f) (fst paths ++ [SegIndex i]) (snd paths))
                  row s) as Hrow.
    pose proof (KeepsDoc_traverseRow
                  (traverseArgs a (fields f) (fst paths ++ [SegIndex i]) (snd paths))
                  row s) as Hdoc.
    assert (Hlog : log (fst (arrayRow a f paths i row s)) =
                   log s ++ [ETraverse
                               (traverseArgs a (fields f) (fst paths ++ [SegIndex i])
                                  (snd paths)) (orElse row (VObj []))])
      by reflexivity.
    unfold arrayRow in *.
    destruct (traverseRow _ row s) as [s1 [e|row']]; cbn [fst snd] in *;
      [discriminate|].
    injection Hrow as ->.
    destruct (IH (S i) s1) as (fp' & pp' & Hrun).
    rewrite Hrun, Hdoc, Hlog, <- app_assoc. exists fp', pp'. reflexivity.
Qed.

Lemma mapLocales_arrayRow_after (a : Args) (f : Field) (paths : Path * SchemaPath)
  (kvs : Obj) :
  forall s, exists fp' pp',
    mapLocales (arrayRow a f paths) kvs s =
    (mkState (siblingDoc s) fp' pp' (log s ++ localeCalls a (fields f) paths kvs),
     inr (localesAfter a (fields f) paths kvs, None)).
Proof.
  induction kvs as [|[l v] rest IH]; intros s.
  - simpl. exists (fieldPromises s), (populationPromises s).
    rewrite app_nil_r. destruct s; reflexivity.
  - assert (Hskip : forall v0, (forall rows, v0 <> VArr rows) ->
      exists fp' pp',
        (r' <- mapLocales (arrayRow a f paths) rest ;;
         ret ((l, v0) :: fst r', snd r'))%M s =
        (mkState (siblingDoc s) fp' pp'
           (log s ++ localeCalls a (fields f) paths ((l, v0) :: rest)),
         inr (localesAfter a (fields f) paths ((l, v0) :: rest), None))).
    { intros v0 Hv0. rewrite bind_run.
      destruct (IH s) as (fp' & pp' & Hrun). rewrite Hrun.
      exists fp', pp'. unfold localeCalls, localesAfter, ret. simpl.
      destruct v0; try reflexivity. destruct (Hv0 elems). reflexivity. }
    destruct v; try (apply Hskip; intros rows; discriminate).
    cbn [mapLocales]. rewrite bind_run.
    destruct (mapRows_arrayRow_after a f paths elems 0 s) as (fp1 & pp1 & Hrun).
    rewrite Hrun. cbn [snd fst]. rewrite bind_run.
    match goal with
    | |- context [mapLocales _ _ ?s1] => destruct (IH s1) as (fp' & pp' & Hrun')
    end.
    rewrite Hrun'. exists fp', pp'.
    unfold localeCalls, localesAfter, ret. simpl. rewrite <- app_assoc. reflexivity.
Qed.

Lemma rowsAfter_nth (a : Args) (fs : list Field) (paths : Path * SchemaPath)
  (rows : list JsValue) :
  forall i j row,
    nth_error rows j = Some row ->
    nth_error (rowsAfter a fs paths i rows) j = Some (rowAfter a fs paths (i + j) row).
Proof.
  induction rows as [|r rest IH]; intros i j row Hn.
  - destruct j; discriminate.
  - destruct j as [|j]; simpl in *.
    + injection Hn as ->. rewrite Nat.add_0_r. reflexivity.
    + rewrite (IH (S i) j row Hn), Nat.add_succ_r. reflexivity.
Qed.

Lemma rowsAfter_length (a : Args) (fs : list Field) (paths : Path * SchemaPath)
  (rows : list JsValue) (i : nat) :
  List.length (rowsAfter a fs paths i rows) = List.length rows.
Proof. revert i. induction rows as [|r rest IH]; intros i; simpl; auto. Qed.

(** *** The calls of a run, phase by phase *)

Lemma Logs_bind {A B} (P Q : list Event -> Prop) (m : M A) (k : A -> M B) :
  Logs P m -> (forall x, Logs Q (k x)) -> Q [] ->
  Logs (fun evs => exists e1 e2, evs = e1 ++ e2 /\ P e1 /\ Q e2) (bind m k).
Proof.
  intros Hm Hk Hnil s. rewrite bind_run.
  destruct (Hm s) as (e1 & Hl1 & HP).
  destruct (m s) as [s1 [e|x]]; simpl in Hl1.
  - exists e1. split; [exact Hl1|]. exists e1, []. rewrite app_nil_r. auto.
  - destruct (Hk x s1) as (e2 & Hl2 & HQ).
    exists (e1 ++ e2). rewrite Hl2, Hl1, app_assoc. split; [reflexivity|].
    exists e1, e2. auto.
Qed.

Lemma Logs_weaken {A} (P P' : list Event -> Prop) (m : M A) :
  (forall evs, P evs -> P' evs) -> Logs P m -> Logs P' m.
Proof.
  intros HPP Hm s. destruct (Hm s) as (evs & Hl & HP). exists evs. auto.
Qed.

Lemma Logs_Tracks {A} (P : Event -> Prop) (m : M A) :
  Tracks P m -> Logs (Forall P) m.
Proof.
  intros Hm s. destruct (Hm s) as (evs & Hl & _ & _ & HP). exists evs. auto.
Qed.

Lemma Logs_quiet {A} (m : M A) : Tracks noEvent m -> Logs (fun evs => evs = []) m.
Proof.
  intros Hm. eapply Logs_weaken; [|apply Logs_Tracks; exact Hm].
  intros [|e evs] HF; [reflexivity|]. inversion HF as [|? ? He _]. destruct He.
Qed.

Lemma Logs_ret {A} (P : list Event -> Prop) (x : A) : P [] -> Logs P (ret x).
Proof. intros HP s. exists []. rewrite app_nil_r. auto. Qed.

Lemma Logs_executeHooks (a : Args) (f : Field) (paths : Path * SchemaPath) :
  fieldAffectsData f = true -> Logs (hookPhase a f) (executeHooks a f paths).
Proof.
  intros Haff s.
  destruct (Tracks_executeHooks a f paths s) as (evs & Hl & _ & _ & HP).
  exists evs. split; [exact Hl|]. split; [exact HP|].
  unfold hooksRun. rewrite Haff. cbn [andb]. intros Hoff.
  rewrite executeHooks_none in Hl by exact Hoff. simpl in Hl.
  rewrite <- (app_nil_r (log s)) in Hl at 1.
  apply app_inv_head in Hl. auto.
Qed.

Lemma Logs_executeAccessControl (a : Args) (f : Field) :
  fieldAffectsData f = true -> Logs (accessPhase a f) (executeAccessControl a f).
Proof.
  intros Haff s. unfold accessPhase, accessConsulted, executeAccessControl.
  rewrite Haff. cbn [andb].
  assert (Hnone : exists evs : list Event,
    log (fst (ret true s)) = log s ++ evs
    /\ (evs = [] \/ (exists x b, evs = [EAccessRead x b]))
    /\ (true = false -> evs = []))
    by (exists []; rewrite app_nil_r; auto).
  destruct (triggerAccessControl a); cbn [andb];
    [|exists []; rewrite app_nil_r; auto].
  destruct (access_read f) as [read|];
    [|exists []; rewrite app_nil_r; rewrite andb_false_r; auto].
  destruct (overrideAccess a); cbn [negb andb];
    [exists []; rewrite app_nil_r; auto|].
  exists [EAccessRead (accessArgs a (siblingDoc s))
            (read (accessArgs a (siblingDoc s)))].
  split; [|split; [right; eauto|discriminate]].
  rewrite bind_run. cbn -[deleteSlot].
  destruct (read (accessArgs a (siblingDoc s))); [reflexivity|].
  rewrite bind_run.
  match goal with
  | |- context [deleteSlot ?k ?s1] =>
      destruct (Tracks_deleteSlot noEvent k s1) as (evs & Hl & _ & _ & HP);
      destruct (deleteSlot k s1) as [s2 [e|[]]]
  end; simpl in *; rewrite Hl;
    (destruct evs as [|e0 evs]; [apply app_nil_r|];
     inversion HP as [|? ? He _]; destruct He).
Qed.

Lemma isUndefined_eq (v : JsValue) : isUndefined v = true -> v = VUndefined.
Proof. destruct v; try discriminate. reflexivity. Qed.

Lemma Logs_setDefaultValue (a : Args) (f : Field) (allow : bool) :
  fieldAffectsData f = true -> Logs (defaultPhase a f) (setDefaultValue a f allow).
Proof.
  intros Haff s. unfold defaultPhase, setDefaultValue. rewrite Haff. cbn [andb].
  destruct allow; [|exists []; rewrite app_nil_r; auto].
  rewrite bind_run.
  destruct (Tracks_readSlot noEvent (slotKey f) s) as (evs0 & Hl0 & _ & _ & HP0).
  assert (Hlog0 : log (fst (readSlot (slotKey f) s)) = log s).
  { rewrite Hl0. destruct evs0 as [|e0 evs0]; [apply app_nil_r|].
    inversion HP0 as [|? ? He _]. destruct He. }
  destruct (readSlot (slotKey f) s) as [s1 [e|v]]; simpl in Hlog0.
  - exists []. rewrite app_nil_r. auto.
  - destruct (isUndefined v) eqn:Hv; cbn [andb];
      [|exists []; simpl; rewrite app_nil_r; auto].
    apply isUndefined_eq in Hv. subst v.
    destruct (defaultConfigured f);
      [|exists []; simpl; rewrite app_nil_r; auto].
    eexists [_]. split; [|split; [right; reflexivity|discriminate]].
    rewrite bind_run. cbn -[writeSlot].
    match goal with
    | |- context [writeSlot ?k ?v ?s2] =>
        destruct (Tracks_writeSlot noEvent k v s2) as (evs & Hl & _ & _ & HP);
        destruct (writeSlot k v s2) as [s3 r3]
    end. simpl in *. rewrite Hl, Hlog0.
    destruct evs as [|e0 evs]; [apply app_nil_r|].
    inversion HP as [|? ? He _]. destruct He.
Qed.

Lemma Logs_schedulePopulation (a : Args) (f : Field) :
  fieldAffectsData f = true -> Logs (populatePhase a f) (schedulePopulation a f).
Proof.
  intros Haff s. unfold populatePhase, schedulePopulation. rewrite Haff.
  cbn [andb]. destruct (isReferenceType (type f)).
  - eexists [_]. split; [reflexivity|]. split; [right; eauto|discriminate].
  - exists []. simpl. rewrite app_nil_r. auto.
Qed.

Lemma Logs_traverseNested (a : Args) (f : Field) (paths : Path * SchemaPath)
  (sh : bool) :
  Logs (recursionPhase f) (traverseNested a f paths sh).
Proof.
  intros s.
  destruct (Tracks_traverseNested a f paths sh s) as (evs & Hl & _ & _ & HP).
  exists evs. split; [exact Hl|]. split; [exact HP|].
  intros Hleaf. rewrite traverseNested_leaf in Hl by exact Hleaf. simpl in Hl.
  rewrite <- (app_nil_r (log s)) in Hl at 1.
  apply app_inv_head in Hl. auto.
Qed.

Lemma hookPhase_nil (a : Args) (f : Field) : hookPhase a f [].
Proof. split; auto. Qed.

Lemma accessPhase_nil (a : Args) (f : Field) : accessPhase a f [].
Proof. split; auto. Qed.

Lemma defaultPhase_nil (a : Args) (f : Field) : defaultPhase a f [].
Proof. split; auto. Qed.

Lemma populatePhase_nil (a : Args) (f : Field) : populatePhase a f [].
Proof. split; auto. Qed.

Lemma recursionPhase_nil (f : Field) : recursionPhase f [].
Proof. split; auto. Qed.

Lemma Logs_dataPhases (a : Args) (f : Field) (paths : Path * SchemaPath) :
  Logs (fun evs => exists eH eA eD eP,
          evs = eH ++ eA ++ eD ++ eP /\ hookPhase a f eH /\ accessPhase a f eA
          /\ defaultPhase a f eD /\ populatePhase a f eP)
    (dataPhases a f paths).
Proof.
  unfold dataPhases. destruct (fieldAffectsData f) eqn:Haff.
  - eapply Logs_weaken;
      [|apply Logs_bind;
        [apply Logs_executeHooks; exact Haff
        |intros _; apply Logs_bind;
         [apply Logs_executeAccessControl; exact Haff
         |intros allow; apply Logs_bind;
          [apply Logs_setDefaultValue; exact Haff
          |intros _; apply Logs_schedulePopulation; exact Haff
          |apply populatePhase_nil]
         |exists [], []; auto using defaultPhase_nil, populatePhase_nil]
        |exists [], [];
         split; [reflexivity|]; split; [apply accessPhase_nil|];
         exists [], []; auto using defaultPhase_nil, populatePhase_nil]].
    intros evs (eH & r1 & -> & HH & eA & r2 & -> & HA & eD & eP & -> & HD & HP).
    exists eH, eA, eD, eP. auto.
  - apply Logs_ret. exists [], [], [], [].
    auto using hookPhase_nil, accessPhase_nil, defaultPhase_nil, populatePhase_nil.
Qed.

Lemma Logs_fieldPhases (a : Args) (f : Field) :
  Logs (fun evs => exists eH eA eD eP,
          evs = eH ++ eA ++ eD ++ eP /\ hookPhase a f eH /\ accessPhase a f eA
          /\ defaultPhase a f eD /\ populatePhase a f eP)
    (fieldPhases a f).
Proof.
  assert (Hnil : exists eH eA eD eP : list Event,
    [] = eH ++ eA ++ eD ++ eP /\ hookPhase a f eH /\ accessPhase a f eA
    /\ defaultPhase a f eD /\ populatePhase a f eP).
  { exists [], [], [], [].
    auto using hookPhase_nil, accessPhase_nil, defaultPhase_nil, populatePhase_nil. }
  unfold fieldPhases. cbv zeta.
  eapply Logs_weaken;
    [|apply Logs_bind;
      [apply Logs_quiet, Tracks_removeHiddenField
      |intros _; apply Logs_bind;
       [apply Logs_quiet, Tracks_hoistLocalizedValue
       |intros sh; apply Logs_bind;
        [apply Logs_quiet, Tracks_sanitizeField
        |intros _; apply Logs_bind;
         [apply Logs_dataPhases
         |intros _; apply (Logs_ret (fun evs => evs = [])); reflexivity
         |reflexivity]
        |exists [], []; auto]
       |exists [], []; split; [reflexivity|]; split; [reflexivity|];
        exists [], []; auto]
      |exists [], []; split; [reflexivity|]; split; [reflexivity|];
       exists [], []; split; [reflexivity|]; split; [reflexivity|];
       exists [], []; auto]].
  intros evs (e1 & r1 & -> & -> & e2 & r2 & -> & -> & e3 & r3 & -> & ->
              & e4 & e5 & -> & Hdata & ->).
  rewrite app_nil_r. exact Hdata.
Qed.

(** *** The arguments of the recursive calls *)

Lemma Tracks_traverseSlot_calls (P : Event -> Prop) (t : TraverseArgs) (k : string) :
  (forall sib, P (ETraverse t sib)) -> Tracks P (traverseSlot t k).
Proof.
  intros HP. unfold traverseSlot.
  inv_steps; auto with steps; apply Tracks_callTraverse; auto.
Qed.

Lemma Tracks_traverseSiblings_calls (P : Event -> Prop) (t : TraverseArgs) :
  (forall sib, P (ETraverse t sib)) -> Tracks P (traverseSiblings t).
Proof.
  intros HP. unfold traverseSiblings. inv_steps; apply Tracks_callTraverse; auto.
Qed.

Lemma Tracks_blocksRow_calls (P : Event -> Prop) (a : Args) (f : Field)
  (paths : Path * SchemaPath) (i : nat) (row : JsValue) :
  (forall b sib, In b (blocks f) ->
     P (ETraverse (traverseArgs a (block_fields b) (fst paths ++ [SegIndex i])
                     (snd paths)) sib)) ->
  Tracks P (blocksRow a f paths i row).
Proof.
  intros HP s. rewrite blocksRow_run.
  destruct (rowThrows f row).
  - exists []. simpl. rewrite !app_nil_r. auto.
  - exists (blockCalls a f paths i [row]). cbn [fst afterCalls log
      populationPromises fieldPromises]. repeat split.
    cbn [blockCalls]. destruct (matchingBlock f row) as [b|] eqn:Hm; [|constructor].
    constructor; [|constructor].
    apply find_some in Hm. apply HP, Hm.
Qed.

(** *** Hoisting and the per-locale fan-out *)

Lemma hoisted_static (a : Args) (f : Field) (s s1 : State) :
  hoistLocalizedValue a f s = (s1, inr true) ->
  flattenLocales a = true /\ isAll (locale a) = false.
Proof.
  unfold hoistLocalizedValue, shouldHoistLocalizedValue. rewrite bind_run.
  destruct (flattenLocales a); cbn [andb]; [|discriminate].
  destruct (fieldAffectsData f); [|discriminate].
  rewrite bind_run.
  destruct (readSlot (slotKey f) s) as [s' [e|v]]; [discriminate|].
  unfold ret at 1.
  destruct (isAll (locale a)); [|auto].
  rewrite andb_false_r. cbn [andb]. discriminate.
Qed.

Lemma assign_keys (k : string) (v : JsValue) (o : Obj) :
  In k (map fst o) -> map fst (assign k v o) = map fst o.
Proof.
  induction o as [|[k' v'] o IH]; simpl; [intros []|].
  destruct (String.eqb k k') eqn:E; [reflexivity|].
  intros [Heq|Hin].
  - subst k'. rewrite String.eqb_refl in E. discriminate.
  - simpl. now rewrite IH.
Qed.

Lemma entryStep_keys {A} (mk : JsValue -> JsValue -> A) (h : A -> JsValue)
  (sd : JsValue) (es : Obj) :
  forall acc,
    (forall e, In e es -> In (fst e) (map fst acc)) ->
    map fst (fold_left (entryStep mk h sd) es acc) = map fst acc.
Proof.
  induction es as [|e es IH]; intros acc Hin; [reflexivity|].
  cbn [fold_left].
  assert (Hstep : map fst (entryStep mk h sd acc e) = map fst acc).
  { unfold entryStep. destruct (isUndefined _); [reflexivity|].
    apply assign_keys. apply Hin. left. reflexivity. }
  rewrite IH; [exact Hstep|].
  intros e' He'. rewrite Hstep. apply Hin. right. exact He'.
Qed.

Lemma fanOutStep_keys (a : Args) (f : Field) (paths : Path * SchemaPath)
  (o kvs : Obj) (h : Hook) :
  lookup (slotKey f) o = Some (VObj kvs) ->
  exists kvs1,
    fanOutStep a f paths o h = assign (slotKey f) (VObj kvs1) o
    /\ map fst kvs1 = map fst kvs.
Proof.
  intros Hslot. unfold fanOutStep, getPropOpt. simpl. rewrite Hslot.
  eexists. split; [reflexivity|].
  apply entryStep_keys. intros e He. apply in_map. exact He.
Qed.

Lemma fanOutChain_keys (a : Args) (f : Field) (paths : Path * SchemaPath)
  (hs : list Hook) :
  forall o kvs,
    lookup (slotKey f) o = Some (VObj kvs) ->
    exists kvs',
      fold_left (fanOutStep a f paths) hs o = assign (slotKey f) (VObj kvs') o
      /\ map fst kvs' = map fst kvs.
Proof.
  induction hs as [|h hs IH]; intros o kvs Hslot.
  - exists kvs. split; [|reflexivity]. simpl. symmetry. apply assign_lookup, Hslot.
  - cbn [fold_left].
    destruct (fanOutStep_keys a f paths o kvs h Hslot) as (kvs1 & Hstep & Hkeys1).
    destruct (IH (fanOutStep a f paths o h) kvs1) as (kvs' & Hfold & Hkeys').
    { rewrite Hstep. apply lookup_assign_same. }
    exists kvs'. rewrite Hfold, Hstep, assign_assign.
    split; [reflexivity|congruence].
Qed.

(** One link of a chain on a locale map, with its calls. *)
Lemma runHook_fanOut_calls (a : Args) (f : Field) (paths : Path * SchemaPath)
  (i : nat) (h : Hook) (o kvs : Obj) fp pp lg :
  localized f && (isAll (locale a) || negb (flattenLocales a)) = true ->
  lookup (slotKey f) o = Some (VObj kvs) ->
  runHook (hookArgs a paths) EHook a f i h (mkState (VObj o) fp pp lg) =
  (mkState (VObj (fanOutStep a f paths o h)) fp pp
     (lg ++ localeHookCalls a paths i h o kvs), inr tt).
Proof.
  intros Hstatic Hslot.
  assert (Hget : getPropOpt (VObj o) (slotKey f) = VObj kvs).
  { unfold getPropOpt. simpl. now rewrite Hslot. }
  unfold fanOutStep. rewrite Hget.
  unfold runHook, shouldRunHookOnAllLocales. rewrite Hstatic.
  rewrite !bind_run, readSlot_object, Hget. unfold ret at 1. cbn [isObjectType typeof].
  rewrite bind_run, readSlot_object, Hget.
  rewrite bind_run. unfold liftE at 1. cbn [entries].
  rewrite bind_run. unfold getDoc at 1. cbn [siblingDoc].
  rewrite bind_run. unfold forEach.
  rewrite (emit_each (fun e => EHook i (hookArgs a paths (VObj o) (snd e))
                                 (h (hookArgs a paths (VObj o) (snd e)))) kvs).
  match goal with
  | |- context [mkState (VObj o) fp pp ?l] =>
      pose proof (store_each (hookArgs a paths) h (slotKey f) (VObj o) o kvs 0 kvs
                    fp pp l) as Hstore
  end.
  rewrite (assign_lookup _ _ _ Hslot) in Hstore at 1.
  rewrite Hstore. reflexivity.
Qed.

Lemma chain_fanOut_calls (a : Args) (f : Field) (paths : Path * SchemaPath)
  (hs : list Hook) :
  localized f && (isAll (locale a) || negb (flattenLocales a)) = true ->
  forall i o kvs fp pp lg,
    lookup (slotKey f) o = Some (VObj kvs) ->
    forEachFrom i hs (runHook (hookArgs a paths) EHook a f)
      (mkState (VObj o) fp pp lg) =
    (mkState (VObj (fold_left (fanOutStep a f paths) hs o)) fp pp
       (lg ++ fanOutCalls a f paths i hs o), inr tt)
    /\ List.length (fanOutCalls a f paths i hs o)
       = List.length hs * List.length kvs.
Proof.
  intros Hstatic. induction hs as [|h hs IH]; intros i o kvs fp pp lg Hslot.
  - simpl. rewrite app_nil_r. auto.
  - cbn [forEachFrom fold_left fanOutCalls]. rewrite bind_run.
    rewrite (runHook_fanOut_calls a f paths i h o kvs fp pp lg Hstatic Hslot).
    assert (Hget : getPropOpt (VObj o) (slotKey f) = VObj kvs).
    { unfold getPropOpt. simpl. now rewrite Hslot. }
    rewrite Hget.
    destruct (fanOutStep_keys a f paths o kvs h Hslot) as (kvs1 & Hstep & Hkeys1).
    destruct (IH (S i) (fanOutStep a f paths o h) kvs1 fp pp
                (lg ++ localeHookCalls a paths i h o kvs)) as [Hrun Hlen].
    { rewrite Hstep. apply lookup_assign_same. }
    rewrite Hrun, <- app_assoc. split; [reflexivity|].
    rewrite length_app, Hlen. unfold localeHookCalls. rewrite length_map.
    assert (Hk : List.length kvs1 = List.length kvs).
    { rewrite <- (length_map fst kvs1), Hkeys1. apply length_map. }
    rewrite Hk. simpl. reflexivity.
Qed.

(** *** The queues *)

Lemma promise_leaf (a : Args) (f : Field) (s : State) :
  isTraversedType (type f) = false ->
  fst (promise a f s) = fst (fieldPhases a f s).
Proof.
  intros Hleaf. rewrite promise_run.
  destruct (fieldPhases a f s) as [s1 [e|sh]]; [reflexivity|].
  rewrite traverseNested_leaf by exact Hleaf. reflexivity.
Qed.

Lemma field_calls_push_nothing (evs : list Event) :
  Forall (fun e => isFieldCall e \/ isPopulateEvent e) evs ->
  flat_map promisesOf evs = []
  /\ (Forall (fun e => ~ isPopulateEvent e) evs -> flat_map tasksOf evs = []).
Proof.
  induction 1 as [|e evs He _ [IH1 IH2]]; simpl; [auto|].
  split.
  - rewrite IH1. destruct e; simpl in *; try reflexivity;
      destruct He as [[]|[]].
  - intros Hno. inversion Hno as [|? ? Hn Hrest]; subst.
    rewrite (IH2 Hrest).
    destruct e; simpl in *; try reflexivity;
      try (destruct He as [[]|[]]).
    destruct (Hn I).
Qed.

(** *** Hooks, then access control *)

Lemma chain_fold_calls (a : Args) (f : Field) (paths : Path * SchemaPath)
  (hs : list Hook) :
  localized f && (isAll (locale a) || negb (flattenLocales a)) = false ->
  forall i o fp pp lg,
    forEachFrom i hs (runHook (hookArgs a paths) EHook a f)
      (mkState (VObj o) fp pp lg) =
    (mkState (VObj (fold_left (hookStep a f paths) hs o)) fp pp
       (lg ++ hookCalls a f paths i hs o), inr tt).
Proof.
  intros Hstatic. induction hs as [|h hs IH]; intros i o fp pp lg.
  - simpl. rewrite app_nil_r. reflexivity.
  - cbn [forEachFrom fold_left hookCalls]. rewrite bind_run.
    rewrite runHook_single by (apply fansOut_static; exact Hstatic).
    cbv zeta. fold (hookStep a f paths o h). rewrite IH.
    rewrite <- app_assoc. reflexivity.
Qed.

Lemma hookCalls_length (a : Args) (f : Field) (paths : Path * SchemaPath)
  (hs : list Hook) :
  forall i o, List.length (hookCalls a f paths i hs o) = List.length hs.
Proof. induction hs as [|h hs IH]; intros i o; simpl; auto. Qed.

(** *** The rows of a blocks field after the recursion *)

Lemma rowsBefore_defined (f : Field) (rows : list JsValue) :
  Forall (fun row => isUndefined row || isNull row = false) rows ->
  rowsBefore f rows = rows /\ rowsFrom f rows = [].
Proof.
  induction 1 as [|row rest Hrow _ [IH1 IH2]]; [auto|].
  cbn [rowsBefore rowsFrom]. unfold rowThrows. rewrite Hrow, IH1, IH2.
  destruct (blocks f); auto.
Qed.

Lemma mapRows_blocksRow_after (a : Args) (f : Field) (paths : Path * SchemaPath)
  (rows : list JsValue) :
  Forall (fun row => isUndefined row || isNull row = false) rows ->
  forall i s, exists fp' pp' lg',
    mapRows (blocksRow a f paths) i rows s =
    (mkState (siblingDoc s) fp' pp' lg',
     inr (blockRowsAfter a f paths i rows, None)).
Proof.
  intros Hrows i s. rewrite mapRows_blocksRow. unfold rowsOutcome.
  destruct (rowsBefore_defined f rows Hrows) as [-> ->].
  rewrite app_nil_r. unfold afterCalls. eauto.
Qed.

Lemma blockRowsAfter_nth (a : Args) (f : Field) (paths : Path * SchemaPath)
  (rows : list JsValue) :
  forall i j row,
    nth_error rows j = Some row ->
    nth_error (blockRowsAfter a f paths i rows) j
    = Some (blockRowAfter a f paths (i + j) row).
Proof.
  induction rows as [|r rest IH]; intros i j row Hn.
  - destruct j; discriminate.
  - destruct j as [|j]; simpl in *.
    + injection Hn as ->. rewrite Nat.add_0_r. reflexivity.
    + rewrite (IH (S i) j row Hn), Nat.add_succ_r. reflexivity.
Qed.


(** *** The editor's hooks on a locale map *)

Lemma storeAnswer_keys (calls : list (EditorHookArgs * EditorHookResult)) :
  forall acc,
    (forall call, In call calls -> In (localeKey (e_locale (fst call))) (map fst acc)) ->
    map fst (fold_left storeAnswer calls acc) = map fst acc.
Proof.
  induction calls as [|call calls IH]; intros acc Hin; [reflexivity|].
  cbn [fold_left].
  assert (Hstep : map fst (storeAnswer acc call) = map fst acc).
  { unfold storeAnswer. destruct (isUndefined _); [reflexivity|].
    apply assign_keys. apply Hin. left. reflexivity. }
  rewrite IH, Hstep; [reflexivity|].
  intros call' Hc. rewrite Hstep. apply Hin. right. exact Hc.
Qed.

Lemma editorLocaleCalls_locales (a : Args) (paths : Path * SchemaPath)
  (h : EditorHook) (sd : JsValue) (es : Obj) :
  forall fp pp,
    map (fun call => e_locale (fst call)) (editorLocaleCalls a paths h sd es fp pp)
    = map (fun e => Some (fst e)) es.
Proof.
  induction es as [|e es IH]; intros fp pp; [reflexivity|].
  cbn [editorLocaleCalls map fst]. rewrite IH. reflexivity.
Qed.

Lemma editorLocaleCalls_values (a : Args) (paths : Path * SchemaPath)
  (h : EditorHook) (sd : JsValue) (es : Obj) :
  forall fp pp,
    map (fun call => h_value (e_base (fst call)))
      (editorLocaleCalls a paths h sd es fp pp)
    = map snd es.
Proof.
  induction es as [|e es IH]; intros fp pp; [reflexivity|].
  cbn [editorLocaleCalls map fst]. rewrite IH. reflexivity.
Qed.

Lemma editorFanOutStep_keys (a : Args) (f : Field) (paths : Path * SchemaPath)
  (c : Chain) (kvs : Obj) (h : EditorHook) :
  lookup (slotKey f) (c_doc c) = Some (VObj kvs) ->
  exists kvs1,
    c_doc (editorFanOutStep a f paths c h) = assign (slotKey f) (VObj kvs1) (c_doc c)
    /\ map fst kvs1 = map fst kvs.
Proof.
  intros Hslot. unfold editorFanOutStep, getPropOpt. simpl. rewrite Hslot.
  eexists. split; [reflexivity|].
  apply storeAnswer_keys. intros call Hc.
  apply (in_map (fun call => e_locale (fst call))) in Hc.
  rewrite editorLocaleCalls_locales in Hc. apply in_map_iff in Hc.
  destruct Hc as (e & He & Hin). rewrite <- He. cbn [localeKey].
  apply in_map. exact Hin.
Qed.

Lemma editorFanOutChain_keys (a : Args) (f : Field) (paths : Path * SchemaPath)
  (hs : list EditorHook) :
  forall c kvs,
    lookup (slotKey f) (c_doc c) = Some (VObj kvs) ->
    exists kvs',
      c_doc (fold_left (editorFanOutStep a f paths) hs c)
      = assign (slotKey f) (VObj kvs') (c_doc c)
      /\ map fst kvs' = map fst kvs.
Proof.
  induction hs as [|h hs IH]; intros c kvs Hslot.
  - exists kvs. split; [|reflexivity]. simpl. symmetry. apply assign_lookup, Hslot.
  - cbn [fold_left].
    destruct (editorFanOutStep_keys a f paths c kvs h Hslot)
      as (kvs1 & Hstep & Hkeys1).
    destruct (IH (editorFanOutStep a f paths c h) kvs1) as (kvs' & Hfold & Hkeys').
    { rewrite Hstep. apply lookup_assign_same. }
    exists kvs'. rewrite Hfold, Hstep, assign_assign.
    split; [reflexivity|congruence].
Qed.

(** The calls of a fanned-out hook of the editor. *)
Lemma callEach_editor (a : Args) (paths : Path * SchemaPath) (i : nat)
  (h : EditorHook) (sd : JsValue) (es : Obj) :
  forall d fp pp lg,
    let calls := editorLocaleCalls a paths h sd es fp pp in
    callEach (fun l value =>
                callEditorHook i h (editorHookArgs a paths (Some l) sd value)) es
      (mkState d fp pp lg) =
    (mkState d (fp ++ flat_map (fun call => eh_fieldPromises (snd call)) calls)
       (pp ++ flat_map (fun call => map EditorPopulation (eh_populationPromises (snd call)))
                calls)
       (lg ++ map (fun call => EEditorHook i (fst call) (snd call)) calls),
     inr (map (fun call => (localeKey (e_locale (fst call)), eh_value (snd call)))
            calls)).
Proof.
  induction es as [|e es IH]; intros d fp pp lg.
  - cbn. unfold ret. now rewrite !app_nil_r.
  - cbn [callEach editorLocaleCalls]. cbv zeta. rewrite bind_run.
    unfold callEditorHook at 1.
    cbn [siblingDoc fieldPromises populationPromises log].
    rewrite bind_run, IH. cbv zeta. unfold ret.
    cbn [flat_map map fst snd e_locale editorHookArgs localeKey].
    rewrite <- !app_assoc. reflexivity.
Qed.

(** The write-backs of a fanned-out hook of the editor. *)
Lemma store_answers (k : string) (o : Obj)
  (calls : list (EditorHookArgs * EditorHookResult)) :
  forall i acc fp pp lg,
    forEachFrom i
      (map (fun call => (localeKey (e_locale (fst call)), eh_value (snd call))) calls)
      (fun (_ : nat) e =>
         if isUndefined (snd e) then ret tt else writeEntry k (fst e) (snd e))
      (mkState (VObj (assign k (VObj acc) o)) fp pp lg) =
    (mkState (VObj (assign k (VObj (fold_left storeAnswer calls acc)) o)) fp pp lg,
     inr tt).
Proof.
  induction calls as [|call calls IH]; intros i acc fp pp lg; simpl.
  - reflexivity.
  - rewrite bind_run. unfold storeAnswer at 2.
    destruct (isUndefined (eh_value (snd call))).
    + unfold ret at 1. apply IH.
    + unfold writeEntry.
      rewrite bind_run, readSlot_object, getPropOpt_assign_same.
      cbn [liftE setProp]. rewrite bind_run. unfold liftE at 1.
      rewrite writeSlot_object, assign_assign. apply IH.
Qed.

(** One link of the editor's chain on a locale map that is fanned out. *)
Lemma runEditorHook_fanOut (a : Args) (f : Field) (paths : Path * SchemaPath)
  (i : nat) (h : EditorHook) (c : Chain) (kvs : Obj) (lg : list Event) :
  localized f && (isAll (locale a) || negb (flattenLocales a)) = true ->
  lookup (slotKey f) (c_doc c) = Some (VObj kvs) ->
  runEditorHook a f paths i h (chainState c lg) =
  (chainState (editorFanOutStep a f paths c h)
     (lg ++ map (fun call => EEditorHook i (fst call) (snd call))
              (editorLocaleCalls a paths h (VObj (c_doc c)) kvs (c_fieldPromises c)
                 (c_populationPromises c))), inr tt).
Proof.
  intros Hstatic Hslot. destruct c as [o fp pp].
  cbn [c_doc c_fieldPromises c_populationPromises] in *.
  assert (Hget : getPropOpt (VObj o) (slotKey f) = VObj kvs).
  { unfold getPropOpt. simpl. now rewrite Hslot. }
  unfold editorFanOutStep, chainState.
  cbn [c_doc c_fieldPromises c_populationPromises]. rewrite Hget.
  unfold runEditorHook, shouldRunHookOnAllLocales. rewrite Hstatic.
  rewrite !bind_run, readSlot_object, Hget. unfold ret at 1. cbn [isObjectType typeof].
  rewrite bind_run, readSlot_object, Hget.
  rewrite bind_run. unfold liftE at 1. cbn [entries].
  rewrite bind_run. unfold getDoc at 1. cbn [siblingDoc].
  rewrite bind_run, callEach_editor. cbv zeta. unfold forEach.
  match goal with
  | |- context [mkState (VObj o) ?q1 ?q2 ?l] =>
      pose proof (store_answers (slotKey f) o
                    (editorLocaleCalls a paths h (VObj o) kvs fp pp) 0 kvs q1 q2 l)
        as Hstore
  end.
  rewrite (assign_lookup _ _ _ Hslot) in Hstore at 1.
  rewrite Hstore. reflexivity.
Qed.

(** The editor's chain on a locale map that is fanned out. *)
Lemma editorChain_fanOut (a : Args) (f : Field) (paths : Path * SchemaPath)
  (hs : list EditorHook) :
  localized f && (isAll (locale a) || negb (flattenLocales a)) = true ->
  forall i c kvs lg,
    lookup (slotKey f) (c_doc c) = Some (VObj kvs) ->
    forEachFrom i hs (runEditorHook a f paths) (chainState c lg) =
    (chainState (fold_left (editorFanOutStep a f paths) hs c)
       (lg ++ editorFanOutCalls a f paths i hs c), inr tt).
Proof.
  intros Hstatic. induction hs as [|h hs IH]; intros i c kvs lg Hslot.
  - simpl. now rewrite app_nil_r.
  - cbn [forEachFrom fold_left editorFanOutCalls]. rewrite bind_run.
    rewrite (runEditorHook_fanOut a f paths i h c kvs lg Hstatic Hslot).
    destruct (editorFanOutStep_keys a f paths c kvs h Hslot) as (kvs1 & Hstep & _).
    rewrite (IH (S i) _ kvs1) by (rewrite Hstep; apply lookup_assign_same).
    assert (Hget : getPropOpt (VObj (c_doc c)) (slotKey f) = VObj kvs).
    { unfold getPropOpt. simpl. now rewrite Hslot. }
    rewrite Hget, <- app_assoc. reflexivity.
Qed.

(** *** The recursion into rows, explicitly *)

Lemma traverseRow_run (t : TraverseArgs) (row : JsValue) (s : State) :
  traverseRow t row s =
  (afterCalls (siblingDoc s) [ETraverse t (orElse row (VObj []))] s,
   inr (if isRef row then r_siblingDoc (traverseFields t row) else row)).
Proof.
  unfold traverseRow, afterCalls. rewrite bind_run.
  unfold callTraverse at 1, ret, orElse.
  cbn [flat_map tasksOf promisesOf siblingDoc fieldPromises populationPromises log].
  rewrite !app_nil_r.
  destruct row as [| |[|]|n|str| |]; cbn [truthy isRef]; try reflexivity.
  - destruct (negb (Z.eqb n 0)); reflexivity.
  - destruct (negb (String.eqb str EmptyString)); reflexivity.
Qed.

Lemma mapRows_arrayRow_run (a : Args) (f : Field) (paths : Path * SchemaPath)
  (rows : list JsValue) :
  forall i s,
    mapRows (arrayRow a f paths) i rows s =
    (afterCalls (siblingDoc s) (rowCalls a (fields f) paths i rows) s,
     inr (rowsAfter a (fields f) paths i rows, None)).
Proof.
  induction rows as [|row rest IH]; intros i s.
  - cbn [mapRows rowCalls rowsAfter]. unfold ret. now rewrite afterCalls_nil.
  - cbn [mapRows rowCalls rowsAfter]. unfold arrayRow at 1.
    rewrite traverseRow_run, IH. cbn [siblingDoc afterCalls].
    rewrite afterCalls_app. reflexivity.
Qed.

Lemma mapLocales_arrayRow_run (a : Args) (f : Field) (paths : Path * SchemaPath)
  (kvs : Obj) :
  forall s,
    mapLocales (arrayRow a f paths) kvs s =
    (afterCalls (siblingDoc s) (localeCalls a (fields f) paths kvs) s,
     inr (localesAfter a (fields f) paths kvs, None)).
Proof.
  induction kvs as [|[l v] rest IH]; intros s.
  - cbn. unfold ret. now rewrite afterCalls_nil.
  - assert (Hskip : forall v0, (forall rows, v0 <> VArr rows) ->
      (r' <- mapLocales (arrayRow a f paths) rest ;;
       ret ((l, v0) :: fst r', snd r'))%M s =
      (afterCalls (siblingDoc s) (localeCalls a (fields f) paths ((l, v0) :: rest)) s,
       inr (localesAfter a (fields f) paths ((l, v0) :: rest), None))).
    { intros v0 Hv0. rewrite bind_run, IH.
      unfold localeCalls, localesAfter, ret. simpl.
      destruct v0; try reflexivity. destruct (Hv0 elems). reflexivity. }
    destruct v; try (apply Hskip; intros rows; discriminate).
    cbn [mapLocales]. rewrite bind_run, mapRows_arrayRow_run. cbn [snd fst].
    rewrite bind_run, IH. cbn [siblingDoc afterCalls fst snd]. unfold ret.
    rewrite afterCalls_app. reflexivity.
Qed.

(** The recursion of an array or blocks field on a sequence of rows. *)
Lemma traverseRows_sequence (f : Field) (sh : bool)
  (body : nat -> JsValue -> M JsValue) (o : Obj) (rows rows' : list JsValue)
  (calls : list Event) (e : option Err) (s1 : State) :
  siblingDoc s1 = VObj o ->
  getPropOpt (VObj o) (slotKey f) = VArr rows ->
  mapRows body 0 rows s1 = (afterCalls (siblingDoc s1) calls s1, inr (rows', e)) ->
  traverseRows f sh body s1 =
  (afterCalls (VObj (assign (slotKey f) (VArr rows') o)) calls s1,
   match e with None => inr tt | Some e => inl e end).
Proof.
  intros Hdoc Hslot Hrun. destruct s1 as [d fp pp lg]. simpl in Hdoc. subst d.
  unfold traverseRows. rewrite bind_run, readSlot_object, Hslot. cbv iota.
  rewrite bind_run, Hrun. unfold afterCalls.
  cbn [fst snd siblingDoc fieldPromises populationPromises log].
  rewrite bind_run, writeSlot_object. destruct e; reflexivity.
Qed.

(** The recursion of an array or blocks field on a mapping from locales to
    rows. *)
Lemma traverseRows_mapping (f : Field)
  (body : nat -> JsValue -> M JsValue) (o kvs kvs' : Obj)
  (calls : list Event) (e : option Err) (s1 : State) :
  siblingDoc s1 = VObj o ->
  getPropOpt (VObj o) (slotKey f) = VObj kvs ->
  mapLocales body kvs s1 = (afterCalls (siblingDoc s1) calls s1, inr (kvs', e)) ->
  traverseRows f false body s1 =
  (afterCalls (VObj (assign (slotKey f) (VObj kvs') o)) calls s1,
   match e with None => inr tt | Some e => inl e end).
Proof.
  intros Hdoc Hslot Hrun. destruct s1 as [d fp pp lg]. simpl in Hdoc. subst d.
  unfold traverseRows. rewrite bind_run, readSlot_object, Hslot. cbn [negb].
  cbv iota.
  rewrite bind_run, Hrun. unfold afterCalls.
  cbn [fst snd siblingDoc fieldPromises populationPromises log].
  rewrite bind_run, writeSlot_object. destruct e; reflexivity.
Qed.

Lemma traverseRows_reset (f : Field) (sh : bool)
  (body : nat -> JsValue -> M JsValue) (o : Obj) (s1 : State) :
  siblingDoc s1 = VObj o ->
  (forall rows, getPropOpt (VObj o) (slotKey f) <> VArr rows) ->
  (sh = true \/ forall kvs, getPropOpt (VObj o) (slotKey f) <> VObj kvs) ->
  traverseRows f sh body s1 =
  (withDoc (VObj (assign (slotKey f) (VArr []) o)) s1, inr tt).
Proof.
  intros Hdoc Harr Hobj. destruct s1 as [d fp pp lg]. simpl in Hdoc. subst d.
  unfold traverseRows. rewrite bind_run, readSlot_object.
  destruct (getPropOpt (VObj o) (slotKey f)) as [| | | | |rows|kvs] eqn:Hs;
    try reflexivity.
  - destruct (Harr rows). reflexivity.
  - destruct Hobj as [->|Hobj]; [reflexivity|].
    destruct (Hobj kvs). reflexivity.
Qed.

(** *** The rows of a blocks field *)

Lemma rows_split (f : Field) (rows : list JsValue) :
  rows = rowsBefore f rows ++ rowsFrom f rows.
Proof.
  induction rows as [|row rest IH]; [reflexivity|].
  cbn [rowsBefore rowsFrom]. destruct (rowThrows f row); [reflexivity|].
  cbn [app]. now rewrite <- IH.
Qed.

Lemma rowsBefore_nth (f : Field) (rows : list JsValue) (i : nat) (row : JsValue) :
  nth_error (rowsBefore f rows) i = Some row ->
  nth_error rows i = Some row /\ rowThrows f row = false.
Proof.
  revert i. induction rows as [|r rest IH]; intros i; cbn [rowsBefore].
  - destruct i; discriminate.
  - destruct (rowThrows f r) eqn:Hr; [destruct i; discriminate|].
    destruct i as [|i]; cbn [nth_error].
    + intros [= <-]. auto.
    + apply IH.
Qed.

Lemma rowsFrom_head (f : Field) (rows : list JsValue) (row : JsValue) :
  nth_error rows (List.length (rowsBefore f rows)) = Some row ->
  rowThrows f row = true /\ exists rest, rowsFrom f rows = row :: rest.
Proof.
  induction rows as [|r rest IH]; cbn [rowsBefore rowsFrom]; [discriminate|].
  destruct (rowThrows f r) eqn:Hr; cbn [List.length nth_error].
  - intros [= <-]. eauto.
  - exact IH.
Qed.

Lemma blockRowsAfter_length (a : Args) (f : Field) (paths : Path * SchemaPath)
  (rows : list JsValue) :
  forall i, List.length (blockRowsAfter a f paths i rows) = List.length rows.
Proof.
  induction rows as [|row rest IH]; intros i; simpl; auto.
Qed.

Lemma blockRowsLeft_length (a : Args) (f : Field) (paths : Path * SchemaPath)
  (rows : list JsValue) :
  List.length (blockRowsLeft a f paths rows) = List.length rows.
Proof.
  unfold blockRowsLeft. rewrite (rows_split f rows) at 3.
  now rewrite !length_app, blockRowsAfter_length.
Qed.

(** A row the loop got through. *)
Lemma blockRowsLeft_before (a : Args) (f : Field) (paths : Path * SchemaPath)
  (rows : list JsValue) (i : nat) (row : JsValue) :
  nth_error (rowsBefore f rows) i = Some row ->
  nth_error (blockRowsLeft a f paths rows) i = Some (blockRowAfter a f paths i row).
Proof.
  intros Hn. unfold blockRowsLeft.
  rewrite nth_error_app1
    by (rewrite blockRowsAfter_length; apply nth_error_Some; congruence).
  exact (blockRowsAfter_nth a f paths _ 0 i row Hn).
Qed.

(** A row the loop did not get to. *)
Lemma blockRowsLeft_from (a : Args) (f : Field) (paths : Path * SchemaPath)
  (rows : list JsValue) (i : nat) :
  List.length (rowsBefore f rows) <= i ->
  nth_error (blockRowsLeft a f paths rows) i = nth_error rows i.
Proof.
  intros Hi. unfold blockRowsLeft. rewrite (rows_split f rows) at 3.
  rewrite !nth_error_app2 by (rewrite ?blockRowsAfter_length; exact Hi).
  now rewrite blockRowsAfter_length.
Qed.

Lemma blockRowsLeft_unmatched (a : Args) (f : Field) (paths : Path * SchemaPath)
  (rows : list JsValue) (i : nat) (row : JsValue) :
  nth_error rows i = Some row -> matchingBlock f row = None ->
  nth_error (blockRowsLeft a f paths rows) i = Some row.
Proof.
  intros Hn Hm.
  destruct (Nat.lt_ge_cases i (List.length (rowsBefore f rows))) as [Hi|Hi].
  - assert (Hb : nth_error (rowsBefore f rows) i = Some row).
    { rewrite (rows_split f rows), nth_error_app1 in Hn by exact Hi. exact Hn. }
    rewrite (blockRowsLeft_before a f paths rows i row Hb).
    unfold blockRowAfter. now rewrite Hm.
  - rewrite blockRowsLeft_from by exact Hi. exact Hn.
Qed.

Lemma blockCalls_In (a : Args) (f : Field) (paths : Path * SchemaPath)
  (rows : list JsValue) (ev : Event) :
  forall i,
    In ev (blockCalls a f paths i rows) <->
    exists j row b, nth_error rows j = Some row /\ matchingBlock f row = Some b
                    /\ ev = blockCall a paths b (i + j) row.
Proof.
  induction rows as [|r rest IH]; intros i; cbn [blockCalls].
  - split; [intros []|]. intros ([|j] & row & b & Hn & _); discriminate.
  - assert (Hrest : In ev (blockCalls a f paths (S i) rest) <->
        exists j row b, nth_error (r :: rest) (S j) = Some row
                        /\ matchingBlock f row = Some b
                        /\ ev = blockCall a paths b (i + S j) row).
    { rewrite IH. split; intros (j & row & b & Hn & Hm & He); exists j, row, b;
        cbn [nth_error] in *; rewrite ?Nat.add_succ_r in *; auto. }
    destruct (matchingBlock f r) as [b0|] eqn:Hm0.
    + cbn [In]. rewrite Hrest. split.
      * intros [<-|(j & row & b & Hn & Hm & He)].
        -- exists 0, r, b0. rewrite Nat.add_0_r. auto.
        -- exists (S j), row, b. auto.
      * intros ([|j] & row & b & Hn & Hm & He).
        -- left. cbn [nth_error] in Hn. injection Hn as <-.
           rewrite Nat.add_0_r in He. congruence.
        -- right. exists j, row, b. auto.
    + rewrite Hrest. split.
      * intros (j & row & b & Hn & Hm & He). exists (S j), row, b. auto.
      * intros ([|j] & row & b & Hn & Hm & He).
        -- cbn [nth_error] in Hn. injection Hn as <-. congruence.
        -- exists j, row, b. auto.
Qed.

Lemma blockCall_path (a : Args) (paths : Path * SchemaPath) (b : Block)
  (i j : nat) (row : JsValue) (t : TraverseArgs) (sib : JsValue) :
  ETraverse t sib = blockCall a paths b i row ->
  t_path t = fst paths ++ [SegIndex j] -> i = j.
Proof.
  unfold blockCall. intros [= -> _] Hpath. cbn [t_path traverseArgs] in Hpath.
  apply app_inj_tail in Hpath. destruct Hpath as [_ [= ->]]. reflexivity.
Qed.

Lemma rowsOutcome_iff (f : Field) (rows : list JsValue) :
  rowsOutcome f rows = None <->
  blocks f = [] \/ Forall (fun row => isUndefined row || isNull row = false) rows.
Proof.
  unfold rowsOutcome. split.
  - intros Hout. destruct (blocks f) as [|b bs] eqn:Hb; [left; reflexivity|].
    right. induction rows as [|row rest IH]; [constructor|].
    cbn [rowsFrom] in Hout. unfold rowThrows in Hout. rewrite Hb in Hout.
    destruct (isUndefined row || isNull row) eqn:Hrow; [discriminate|].
    constructor; auto.
  - intros [Hb|Hrows].
    + assert (Hfrom : rowsFrom f rows = []).
      { induction rows as [|row rest IH]; [reflexivity|].
        cbn [rowsFrom]. unfold rowThrows. rewrite Hb. exact IH. }
      now rewrite Hfrom.
    + destruct (rowsBefore_defined f rows Hrows) as [_ ->]. reflexivity.
Qed.

Lemma rowThrows_nullish (f : Field) (row : JsValue) :
  rowThrows f row = true -> (row = VNull \/ row = VUndefined) /\ blocks f <> [].
Proof.
  unfold rowThrows. destruct (blocks f); [discriminate|].
  destruct row; try discriminate; auto; split; auto; discriminate.
Qed.

Lemma rowsKept_refl (f : Field) (v : JsValue) : rowsKept f v v.
Proof.
  destruct v; simpl; auto. exists elems. auto.
Qed.

Lemma localeRowsKept_all (f : Field) (kvs : Obj) :
  Forall2 (localeRowsKept f) kvs kvs.
Proof.
  induction kvs as [|kv kvs IH]; constructor; auto.
  split; [reflexivity|apply rowsKept_refl].
Qed.

Lemma blockLocalesLeft_kept (a : Args) (f : Field) (paths : Path * SchemaPath)
  (kvs : Obj) :
  Forall2 (localeRowsKept f) kvs (blockLocalesLeft a f paths kvs).
Proof.
  induction kvs as [|[l v] rest IH]; [constructor|].
  cbn [blockLocalesLeft snd fst].
  destruct v as [| | | | |rows|o];
    try (constructor; [split; [reflexivity|apply rowsKept_refl]|exact IH]).
  constructor.
  - split; [reflexivity|]. cbn [snd rowsKept].
    exists (blockRowsLeft a f paths rows). split; [reflexivity|].
    split; [apply blockRowsLeft_length|].
    intros i row Hn Hm. apply blockRowsLeft_unmatched; assumption.
  - destruct (rowsFrom f rows); [exact IH|apply localeRowsKept_all].
Qed.

(** *** How the steps before the recursion end on an object *)

Lemma executeHooks_rejects (a : Args) (f : Field) (paths : Path * SchemaPath)
  (o : Obj) fp pp lg (s' : State) (e : Err) :
  executeHooks a f paths (mkState (VObj o) fp pp lg) = (s', inl e) ->
  e = TypeError /\ triggerHooks a = true
  /\ (exists hs, hooks_afterRead f = Some hs)
  /\ localized f && (isAll (locale a) || negb (flattenLocales a)) = true.
Proof.
  intros Hrun.
  split; [exact (Throws_executeHooks a f paths _ e (f_equal snd Hrun))|].
  destruct (triggerHooks a) eqn:Htrig;
    [|unfold executeHooks in Hrun; rewrite Htrig in Hrun; discriminate].
  destruct (hooks_afterRead f) as [hs|] eqn:Hh;
    [|unfold executeHooks in Hrun; rewrite Htrig, Hh in Hrun; discriminate].
  split; [reflexivity|]. split; [eauto|].
  destruct (localized f && (isAll (locale a) || negb (flattenLocales a))) eqn:Hstatic;
    [reflexivity|].
  destruct (executeHooks_static a f paths o fp pp lg Hstatic) as (o' & lg' & Hok).
  rewrite Hok in Hrun. discriminate.
Qed.

Lemma dataPhases_outcome (a : Args) (f : Field) (paths : Path * SchemaPath)
  (o : Obj) fp pp lg :
  exists o1 pp1 evs r,
    dataPhases a f paths (mkState (VObj o) fp pp lg) =
    (mkState (VObj o1) fp pp1 (lg ++ evs), r)
    /\ (forall e, r = inl e ->
        pp1 = pp /\ e = TypeError /\ Forall isHookEvent evs /\ hooksRun a f = true
        /\ localized f && (isAll (locale a) || negb (flattenLocales a)) = true).
Proof.
  unfold dataPhases, hooksRun.
  destruct (fieldAffectsData f) eqn:Haff.
  - rewrite bind_run.
    destruct (executeHooks_shape a f paths o fp pp lg)
      as (o1 & evs1 & r1 & Hrun1 & HF1).
    rewrite Hrun1. destruct r1 as [e1|[]].
    + exists o1, pp, evs1, (inl e1). split; [reflexivity|].
      intros e [= <-].
      destruct (executeHooks_rejects a f paths o fp pp lg _ e1 Hrun1)
        as (He & Htrig & (hs & Hh) & Hstatic).
      rewrite Htrig, Hh. auto.
    + destruct (accessDefault_object a f o1 fp pp (lg ++ evs1))
        as (o2 & evs2 & _ & Hk).
      rewrite Hk.
      destruct (isReferenceType (type f)) eqn:Hr.
      * rewrite schedulePopulation_reference by exact Hr.
        cbn [siblingDoc fieldPromises populationPromises log].
        eexists o2, _, (evs1 ++ evs2 ++ [_]), (inr tt).
        rewrite <- !app_assoc. split; [reflexivity|discriminate].
      * rewrite schedulePopulation_other by exact Hr.
        exists o2, pp, (evs1 ++ evs2), (inr tt).
        rewrite <- !app_assoc. split; [reflexivity|discriminate].
  - exists o, pp, [], (inr tt). rewrite app_nil_r. split; [reflexivity|discriminate].
Qed.

(** On an object the steps before the recursion end in one of three ways:
    they complete; the editor check of a rich-text field rejects, before any
    call; or a hook that is fanned out per locale rejects with a
    [TypeError], after hook calls only. *)
Lemma fieldPhases_outcome (a : Args) (f : Field) (o : Obj) fp pp lg :
  exists o1 pp1 evs r,
    fieldPhases a f (mkState (VObj o) fp pp lg) =
    (mkState (VObj o1) fp pp1 (lg ++ evs), r)
    /\ (forall e, r = inl e ->
        pp1 = pp
        /\ ((configErrorOf f e /\ evs = [])
            \/ (e = TypeError /\ Forall isHookEvent evs /\ hooksRun a f = true
                /\ localized f && (isAll (locale a) || negb (flattenLocales a))
                   = true))).
Proof.
  rewrite fieldPhases_run, removeHiddenField_object.
  match goal with
  | |- context [hoistLocalizedValue a f (mkState (VObj ?x) _ _ _)] =>
      destruct (hoistLocalizedValue_succeeds a f x fp pp lg) as (o2 & sh & Hrun2)
  end.
  rewrite Hrun2.
  assert (Hcase : (type f = RichText /\ exists e0, editorError f = Some e0)
                  \/ (editorError f = None \/ type f <> RichText)).
  { destruct (editorError f); [|auto].
    destruct (type f); try (right; right; discriminate). left. eauto. }
  destruct Hcase as [[Ht (e0 & Hed)]|Hcase].
  - exists o2, pp, [], (inl e0). rewrite app_nil_r. split.
    + unfold sanitizeField, checkEditor, editorError in *. rewrite Ht.
      destruct (editor f); try discriminate; injection Hed as <-; reflexivity.
    + intros e [= <-]. split; [reflexivity|]. left.
      split; [|reflexivity]. split; assumption.
  - destruct (sanitizeField_fulfils f o2 fp pp lg Hcase) as (o3 & Hsan).
    rewrite Hsan.
    destruct (dataPhases_outcome a f
                (getFieldPaths f (parentPath a) (parentSchemaPath a) (fieldIndex a))
                o3 fp pp lg) as (o4 & pp4 & evs & r & Hrun & Hfail).
    rewrite Hrun. destruct r as [e|[]].
    + exists o4, pp4, evs, (inl e). split; [reflexivity|].
      intros e' [= <-]. destruct (Hfail e eq_refl) as (Hpp & He & Hrest).
      split; [exact Hpp|]. right. split; [exact He|exact Hrest].
    + exists o4, pp4, evs, (inr sh). split; [reflexivity|discriminate].
Qed.

(** [promise] on a field that affects data and is populated: either its
    hooks, access check and default resolution complete and one task is
    pushed after them, or a hook that is fanned out per locale ends the call
    with a [TypeError] and nothing is pushed. *)
Lemma promise_reference (a : Args) (f : Field) (o : Obj) fp pp lg :
  fieldAffectsData f = true -> isReferenceType (type f) = true ->
  let r := promise a f (mkState (VObj o) fp pp lg) in
  (exists o' evs,
      r = (mkState (VObj o') fp
             (pp ++ [RelationshipPopulation (populationTask a f (VObj o'))])
             (lg ++ evs ++ [EPopulate (populationTask a f (VObj o'))]), inr tt)
      /\ Forall isFieldCall evs)
  \/ (exists o' evs,
        r = (mkState (VObj o') fp pp (lg ++ evs), inl TypeError)
        /\ Forall isHookEvent evs
        /\ hooksRun a f = true
        /\ localized f && (isAll (locale a) || negb (flattenLocales a)) = true).
Proof.
  intros Haff Href r.
  assert (Hty : hasSanitizer (type f) = false /\ isTraversedType (type f) = false).
  { destruct (type f); try discriminate; auto. }
  destruct Hty as [Hsan Hleaf].
  unfold r. clear r.
  rewrite promise_run, fieldPhases_run, removeHiddenField_object.
  match goal with
  | |- context [hoistLocalizedValue a f (mkState (VObj ?x) _ _ _)] =>
      destruct (hoistLocalizedValue_succeeds a f x fp pp lg) as (o2 & sh & Hrun2)
  end.
  rewrite Hrun2.
  rewrite sanitizeField_none by exact Hsan.
  unfold dataPhases. rewrite Haff. rewrite bind_run.
  destruct (executeHooks_shape a f
              (getFieldPaths f (parentPath a) (parentSchemaPath a) (fieldIndex a))
              o2 fp pp lg) as (o3 & evs1 & r1 & Hrun1 & HF1).
  rewrite Hrun1. destruct r1 as [e1|[]].
  - right.
    destruct (executeHooks_rejects a f _ o2 fp pp lg _ e1 Hrun1)
      as (-> & Htrig & (hs & Hh) & Hstatic).
    exists o3, evs1. unfold hooksRun. rewrite Haff, Htrig, Hh. auto.
  - left.
    destruct (accessDefault_object a f o3 fp pp (lg ++ evs1))
      as (o4 & evs2 & HF2 & Hk).
    rewrite Hk.
    rewrite schedulePopulation_reference by exact Href.
    cbn [siblingDoc fieldPromises populationPromises log].
    rewrite traverseNested_leaf by exact Hleaf.
    exists o4, (evs1 ++ evs2). rewrite <- !app_assoc. split; [reflexivity|].
    apply Forall_app. split; [|exact HF2].
    eapply Forall_impl; [|exact HF1]. intros []; simpl; auto.
Qed.

(** *** The steps before sanitization on any sibling container *)

Lemma isNullish_dec (v : JsValue) : isNullish v \/ ~ isNullish v.
Proof.
  unfold isNullish.
  destruct v; try (right; intros [|]; discriminate); left; auto.
Qed.

Lemma readSlot_defined (k : string) (s : State) :
  ~ isNullish (siblingDoc s) ->
  readSlot k s = (s, inr (getPropOpt (siblingDoc s) k)).
Proof.
  destruct s as [d fp pp lg]. unfold isNullish, readSlot, getPropOpt.
  rewrite bind_run. cbn [getDoc siblingDoc liftE].
  intros Hd. destruct (getProp d k) as [e|v] eqn:E; [|reflexivity].
  destruct d; cbn in E; try discriminate;
    try (exfalso; apply Hd; auto; fail).
  destruct (String.eqb k "length"); discriminate.
Qed.

Lemma deleteSlot_defined (k : string) (s : State) :
  ~ isNullish (siblingDoc s) ->
  exists d, deleteSlot k s = (withDoc d s, inr tt) /\ ~ isNullish d.
Proof.
  destruct s as [d fp pp lg]. unfold isNullish, deleteSlot. cbn [siblingDoc].
  intros Hd.
  destruct d; try (exfalso; apply Hd; auto; fail);
    eexists; (split; [reflexivity|]); intros [|]; discriminate.
Qed.

Lemma removeHiddenField_defined (a : Args) (f : Field) (s : State) :
  ~ isNullish (siblingDoc s) ->
  exists d, removeHiddenField a f s = (withDoc d s, inr tt) /\ ~ isNullish d.
Proof.
  intros Hd. unfold removeHiddenField.
  assert (Hsame : exists d, (s, @inr Err unit tt) = (withDoc d s, inr tt)
                            /\ ~ isNullish d).
  { exists (siblingDoc s). destruct s; auto. }
  destruct (fieldAffectsData f && hidden f); [|exact Hsame].
  rewrite bind_run, readSlot_defined by exact Hd.
  destruct (negb _ && negb _); [|exact Hsame].
  apply deleteSlot_defined. exact Hd.
Qed.

Lemma hoistLocalizedValue_defined (a : Args) (f : Field) (s : State) :
  ~ isNullish (siblingDoc s) ->
  exists d sh, hoistLocalizedValue a f s = (withDoc d s, inr sh) /\ ~ isNullish d.
Proof.
  intros Hd. unfold hoistLocalizedValue, shouldHoistLocalizedValue.
  assert (Hsame : exists d sh, (s, @inr Err bool false) = (withDoc d s, inr sh)
                               /\ ~ isNullish d).
  { exists (siblingDoc s), false. destruct s; auto. }
  rewrite bind_run.
  destruct (flattenLocales a && fieldAffectsData f); [|exact Hsame].
  rewrite bind_run, readSlot_defined by exact Hd. unfold ret at 1.
  set (slot := getPropOpt (siblingDoc s) (slotKey f)).
  destruct (isObjectType slot && negb (isNull slot)) eqn:Hobj;
    [|cbn [andb]; exact Hsame].
  destruct (localized f), (negb (isAll (locale a))), (localization (req a));
    cbn [andb]; try exact Hsame.
  rewrite bind_run, readSlot_defined by exact Hd. fold slot.
  rewrite bind_run. unfold liftE at 1.
  rewrite (hoistedValue_spec a f slot Hobj). cbv zeta.
  destruct s as [d fp pp lg]. cbn [siblingDoc] in *.
  destruct d; try (exfalso; apply Hd; unfold isNullish; auto; fail);
    try discriminate Hobj;
    eexists _, true; (split; [reflexivity|]); intros [|]; discriminate.
Qed.

(** On a container that is [null] or undefined the first read of the slot
    throws: the one of hidden-field removal for a hidden field, the one of
    locale hoisting when flattening is requested. *)
Lemma earlySteps_nullish (a : Args) (f : Field) (s : State) :
  isNullish (siblingDoc s) ->
  (removeHiddenField a f ;; hoistLocalizedValue a f)%M s =
  if fieldAffectsData f && (hidden f || flattenLocales a)
  then (s, inl TypeError) else (s, inr false).
Proof.
  intros Hs. rewrite bind_run.
  unfold removeHiddenField, hoistLocalizedValue, shouldHoistLocalizedValue.
  destruct (fieldAffectsData f), (hidden f); cbn [andb orb];
    try (rewrite bind_run, readSlot_nullish by exact Hs; reflexivity).
  - unfold ret at 1. rewrite bind_run.
    destruct (flattenLocales a); cbn [andb]; [|reflexivity].
    rewrite bind_run, readSlot_nullish by exact Hs. reflexivity.
  - unfold ret at 1. rewrite bind_run, andb_false_r. reflexivity.
  - unfold ret at 1. rewrite bind_run, andb_false_r. reflexivity.
Qed.

(** The calls of [promise] by kind. *)
Lemma Tracks_promise_kinds (a : Args) (f : Field) :
  Tracks (fun e => (isFieldCall e \/ isPopulateEvent e)
                   \/ isTraverseEvent e \/ isEditorHookEvent e) (promise a f).
Proof.
  unfold promise. cbv zeta. apply Tracks_bind.
  - eapply Tracks_weaken; [|apply Tracks_fieldPhases]. auto.
  - intros sh. eapply Tracks_weaken; [|apply Tracks_traverseNested]. auto.
Qed.

(** *** The population task on any sibling container *)

Lemma FieldCalls_of {A} (m : M A) :
  Tracks isFieldCall m -> Throws (fun e => e = TypeError) m -> FieldCalls m.
Proof.
  intros Ht Hthrows s. destruct (Ht s) as (evs & Hl & Hp & Hf & HF).
  assert (HF' : Forall (fun e => isFieldCall e \/ isPopulateEvent e) evs)
    by (eapply Forall_impl; [|exact HF]; auto).
  destruct (field_calls_push_nothing evs HF') as [Hnone Htasks].
  exists evs. rewrite Hp, Hf, Hnone, Htasks, !app_nil_r.
  - repeat split; auto. intros e He. exact (Hthrows s e He).
  - eapply Forall_impl; [|exact HF]. intros []; simpl; auto.
Qed.

Lemma PushesTaskLast_after {A B} (a : Args) (f : Field) (m : M A) (k : A -> M B) :
  FieldCalls m -> (forall x, PushesTaskLast a f (k x)) ->
  PushesTaskLast a f (bind m k).
Proof.
  intros Hm Hk s. rewrite bind_run.
  destruct (Hm s) as (evs & HF & Hl & Hp & Hf & He).
  destruct (m s) as [s' [e|x]]; cbn [fst snd] in *.
  - exists evs. rewrite (He e eq_refl).
    split; [exact HF|]. split; [exact Hf|]. right. auto.
  - destruct (Hk x s') as (evs' & HF' & Hf' & Hcases).
    exists (evs ++ evs'). split; [apply Forall_app; auto|].
    split; [congruence|].
    destruct Hcases as [(Hok & Hq & Hlog)|(Hko & Hq & Hlog)]; [left|right];
      rewrite Hq, Hlog, Hl, Hp, <- !app_assoc; auto.
Qed.

Lemma PushesTaskLast_then {A B} (a : Args) (f : Field) (m : M A) (k : A -> M B)
  (y : B) :
  PushesTaskLast a f m -> (forall x s, k x s = (s, inr y)) ->
  PushesTaskLast a f (bind m k).
Proof.
  intros Hm Hk s. rewrite bind_run.
  destruct (Hm s) as (evs & HF & Hf & Hcases). exists evs.
  destruct (m s) as [s' [e|x]]; cbn [fst snd] in *.
  - split; [exact HF|]. split; [exact Hf|].
    destruct Hcases as [([x Hx] & _)|(Hko & Hq & Hlog)]; [discriminate|].
    right. inversion Hko. auto.
  - rewrite Hk. cbn [fst snd]. split; [exact HF|]. split; [exact Hf|].
    destruct Hcases as [(_ & Hq & Hlog)|(Hko & _)]; [|discriminate].
    left. eauto.
Qed.

Lemma PushesTaskLast_schedule (a : Args) (f : Field) :
  isReferenceType (type f) = true -> PushesTaskLast a f (schedulePopulation a f).
Proof.
  intros Href s. rewrite schedulePopulation_reference by exact Href.
  exists []. cbn [fst snd siblingDoc fieldPromises populationPromises log app].
  split; [constructor|]. split; [reflexivity|]. left. eauto.
Qed.

Lemma PushesTaskLast_promise (a : Args) (f : Field) :
  fieldAffectsData f = true -> isReferenceType (type f) = true ->
  PushesTaskLast a f (promise a f).
Proof.
  intros Haff Href.
  assert (Hty : hasSanitizer (type f) = false /\ isTraversedType (type f) = false).
  { destruct (type f); try discriminate; auto. }
  destruct Hty as [Hsan Hleaf].
  unfold promise. cbv zeta.
  apply PushesTaskLast_then with (y := tt);
    [|intros sh s; apply traverseNested_leaf; exact Hleaf].
  unfold fieldPhases. cbv zeta.
  apply PushesTaskLast_after.
  { apply FieldCalls_of;
      [apply Tracks_removeHiddenField|apply Throws_removeHiddenField]. }
  intros _. apply PushesTaskLast_after.
  { apply FieldCalls_of;
      [apply Tracks_hoistLocalizedValue|apply Throws_hoistLocalizedValue]. }
  intros sh. apply PushesTaskLast_after.
  { apply FieldCalls_of; [apply Tracks_sanitizeField|].
    intros s e. rewrite sanitizeField_none by exact Hsan. discriminate. }
  intros _. apply PushesTaskLast_then with (y := sh); [|reflexivity].
  unfold dataPhases. rewrite Haff.
  apply PushesTaskLast_after.
  { apply FieldCalls_of; [|apply Throws_executeHooks].
    eapply Tracks_weaken; [|apply Tracks_executeHooks].
    intros []; simpl; auto. }
  intros _. apply PushesTaskLast_after.
  { apply FieldCalls_of;
      [apply Tracks_executeAccessControl|apply Throws_executeAccessControl]. }
  intros allow. apply PushesTaskLast_after.
  { apply FieldCalls_of;
      [apply Tracks_setDefaultValue|apply Throws_setDefaultValue]. }
  intros _. apply PushesTaskLast_schedule. exact Href.
Qed.

(** ** The claims *)


(** C4.  For a field of type 'point' sanitization stores the coordinates
    when the stored value has a two-element coordinates array, and undefined
    for any other stored value; it never throws.  [{ coordinates: [1,2], type:
    'Point' }] becomes [[1,2]] and [{ coordinates: [1] }] becomes undefined.
    For a point field with nothing else configured this is all [promise]
    does. *)
Theorem point_sanitization (a : Args) (f : Field) (o : Obj) fp pp lg :
  type f = Point ->
  let s := mkState (VObj o) fp pp lg in
  let stored := getPropOpt (VObj o) (slotKey f) in
  let stores v :=
    sanitizeField f s = (mkState (VObj (assign (slotKey f) v o)) fp pp lg, inr tt) in
  (forall x y, getPropOpt stored "coordinates" = VArr [x; y] -> stores (VArr [x; y]))
  /\ ((forall x y, getPropOpt stored "coordinates" <> VArr [x; y]) ->
      stores VUndefined)
  /\ snd (sanitizeField f s) = inr tt
  /\ (stored = VObj [("coordinates", VArr [VNum 1; VNum 2]); ("type", VStr "Point")] ->
      stores (VArr [VNum 1; VNum 2]))
  /\ (stored = VObj [("coordinates", VArr [VNum 1])] -> stores VUndefined)
  /\ (hidden f = false -> localized f = false -> hooks_afterRead f = None ->
      access_read f = None -> defaultValue f = None ->
      promise a f s = sanitizeField f s).
Proof.
  intros Ht s stored stores.
  assert (Hs : sanitizeField f s =
               (mkState (VObj (assign (slotKey f) (pointCoordinates stored) o))
                  fp pp lg, inr tt)).
  { unfold sanitizeField. rewrite Ht. apply sanitizePoint_object. }
  unfold stores. rewrite Hs. repeat split.
  - intros x y Hc. unfold pointCoordinates. rewrite Hc. reflexivity.
  - intros Hc. unfold pointCoordinates.
    destruct (getPropOpt stored "coordinates")
      as [| | | | |[|x [|y [|z l]]]|] eqn:E; try reflexivity.
    destruct (Hc x y). reflexivity.
  - intros ->. reflexivity.
  - intros ->. reflexivity.
  - intros Hh Hl Hk Ha Hd.
    rewrite promise_run, fieldPhases_run. unfold s.
    rewrite removeHiddenField_object, hiddenRemoved_visible by exact Hh.
    rewrite hoistLocalizedValue_nonlocalized by exact Hl.
    fold s. rewrite Hs.
    rewrite dataPhases_plain by (auto; rewrite Ht; reflexivity).
    apply traverseNested_leaf. rewrite Ht. reflexivity.
Qed.


(** C5.  What [promise] does for a field of type 'array' on an object
    sibling container.  When the steps before the recursion complete and the
    slot then holds a sequence, there is one recursive call per element, in
    order, with the element's index appended to the path and the schema path
    unchanged, on the element itself (on a new empty object for a falsy one);
    the slot holds afterwards what the calls left of the elements, and the log
    and the two queues have grown by the calls and what they pushed.  When
    locales were not hoisted and the slot holds a mapping, each value that is
    a sequence is recursed into in the same way, one locale after the other,
    with the same schema path.  In every other case the slot is set to [[]]
    and nothing is recursed into.  The steps before the recursion do not
    always complete: when the field has hooks that are fanned out per locale,
    a hook call can end them with a [TypeError], and then [promise] rejects
    where they stopped, without recursing and without resetting the slot;
    this is what happens to a localized array that holds [null] and is read
    for all locales. *)
Theorem array_recursion (a : Args) (f : Field) (o : Obj) fp pp lg :
  type f = Array ->
  let s0 := mkState (VObj o) fp pp lg in
  let paths := getFieldPaths f (parentPath a) (parentSchemaPath a) (fieldIndex a) in
  let s1 := fst (fieldPhases a f s0) in
  let r := promise a f s0 in
  exists o1,
    siblingDoc s1 = VObj o1 /\
    let slot := getPropOpt (VObj o1) (slotKey f) in
    (forall sh, snd (fieldPhases a f s0) = inr sh ->
       (forall rows, slot = VArr rows ->
          let calls := rowCalls a (fields f) paths 0 rows in
          let rows' := rowsAfter a (fields f) paths 0 rows in
          r = (afterCalls (VObj (assign (slotKey f) (VArr rows') o1)) calls s1, inr tt)
          /\ List.length calls = List.length rows
          /\ List.length rows' = List.length rows
          /\ forall i row, nth_error rows i = Some row ->
               nth_error calls i =
               Some (ETraverse
                       (traverseArgs a (fields f) (fst paths ++ [SegIndex i])
                          (snd paths))
                       (orElse row (VObj [])))
               /\ nth_error rows' i = Some (rowAfter a (fields f) paths i row))
       /\ (forall kvs, slot = VObj kvs -> sh = false ->
            r = (afterCalls
                   (VObj (assign (slotKey f)
                            (VObj (localesAfter a (fields f) paths kvs)) o1))
                   (localeCalls a (fields f) paths kvs) s1, inr tt))
       /\ ((forall rows, slot <> VArr rows) ->
           (sh = true \/ forall kvs, slot <> VObj kvs) ->
           r = (withDoc (VObj (assign (slotKey f) (VArr []) o1)) s1, inr tt)))
    /\ (forall e, snd (fieldPhases a f s0) = inl e ->
        r = (s1, inl e) /\ e = TypeError
        /\ hooksRun a f = true
        /\ localized f && (isAll (locale a) || negb (flattenLocales a)) = true
        /\ fieldPromises s1 = fp /\ populationPromises s1 = pp
        /\ exists evs, log s1 = lg ++ evs /\ Forall isHookEvent evs)
    /\ (hooksRun a f = false
        \/ localized f && (isAll (locale a) || negb (flattenLocales a)) = false ->
        exists sh, snd (fieldPhases a f s0) = inr sh).
Proof.
  intros Ht s0 paths s1 r.
  destruct (fieldPhases_outcome a f o fp pp lg) as (o1 & pp1 & evs & res & Hrun & Hfail).
  fold s0 in Hrun.
  assert (Hs1 : s1 = mkState (VObj o1) fp pp1 (lg ++ evs))
    by (unfold s1; rewrite Hrun; reflexivity).
  assert (Hrejects : forall e, res = inl e ->
    e = TypeError /\ pp1 = pp /\ Forall isHookEvent evs /\ hooksRun a f = true
    /\ localized f && (isAll (locale a) || negb (flattenLocales a)) = true).
  { intros e He. destruct (Hfail e He) as (Hpp & [[[Hrich _] _]|Hhook]).
    - congruence.
    - destruct Hhook as (He' & Hrest). auto. }
  exists o1. split; [rewrite Hs1; reflexivity|]. cbv zeta.
  assert (Hr : forall sh, snd (fieldPhases a f s0) = inr sh ->
                 r = traverseRows f sh (arrayRow a f paths) s1).
  { intros sh Hsh. unfold r. rewrite promise_run.
    rewrite Hrun in *. cbn [snd] in Hsh. subst res.
    unfold traverseNested. rewrite Ht, Hs1. reflexivity. }
  assert (Hdoc : siblingDoc s1 = VObj o1) by (rewrite Hs1; reflexivity).
  split; [|split].
  - intros sh Hsh. rewrite (Hr sh Hsh). split; [|split].
    + intros rows Hslot.
      split; [|split; [apply rowCalls_length|split; [apply rowsAfter_length|]]].
      * apply (traverseRows_sequence f sh _ o1 rows _ _ None s1 Hdoc Hslot).
        apply mapRows_arrayRow_run.
      * intros i row Hn. split.
        -- rewrite (rowCalls_nth _ _ _ _ 0 i row Hn). reflexivity.
        -- apply (rowsAfter_nth a (fields f) paths rows 0 i row Hn).
    + intros kvs Hslot ->.
      apply (traverseRows_mapping f _ o1 kvs _ _ None s1 Hdoc Hslot).
      apply mapLocales_arrayRow_run.
    + intros Harr Hobj. apply traverseRows_reset; assumption.
  - intros e He. rewrite Hrun in He. cbn [snd] in He. subst res.
    destruct (Hrejects e eq_refl) as (-> & -> & HF & Hhooks & Hstatic).
    split.
    { unfold r. rewrite promise_run, Hrun, Hs1. reflexivity. }
    rewrite Hs1. cbn [fieldPromises populationPromises log]. eauto 10.
  - intros Hquiet. rewrite Hrun. cbn [snd].
    destruct res as [e|sh]; [|eauto].
    destruct (Hrejects e eq_refl) as (_ & _ & _ & Hhooks & Hstatic).
    destruct Hquiet; congruence.
Qed.

(** C10.  For a 'group' field, or a 'tab' field with a name, whose slot
    holds no object when [promise] recurses, the recursion is into a new empty
    object that is not stored: the sibling container, and with it the value in
    the slot, is afterwards what it was before the recursion, whatever the
    recursion did to the object it was given. *)
Theorem fresh_container_dropped (a : Args) (f : Field) (s0 s1 : State)
  (sh : bool) (o : Obj) :
  type f = Group \/ (type f = Tab /\ tabHasName f = true) ->
  fieldPhases a f s0 = (s1, inr sh) ->
  siblingDoc s1 = VObj o ->
  isObjectType (getPropOpt (VObj o) (slotKey f)) = false ->
  let paths := getFieldPaths f (parentPath a) (parentSchemaPath a) (fieldIndex a) in
  let t := traverseArgs a (fields f) (fst paths) (snd paths) in
  let nested := traverseFields t (VObj []) in
  promise a f s0 =
  (mkState (VObj o)
     (fieldPromises s1 ++ r_fieldPromises nested)
     (populationPromises s1 ++ r_populationPromises nested)
     (log s1 ++ [ETraverse t (VObj [])]),
   inr tt).
Proof.
  intros Ht Hphases Hdoc Hslot paths t nested.
  rewrite promise_run, Hphases. fold paths.
  destruct s1 as [d fp pp lg]. simpl in Hdoc. subst d.
  assert (Hrun : traverseSlot t (slotKey f) (mkState (VObj o) fp pp lg) =
                 (mkState (VObj o) (fp ++ r_fieldPromises nested)
                    (pp ++ r_populationPromises nested)
                    (lg ++ [ETraverse t (VObj [])]), inr tt)).
  { unfold traverseSlot. rewrite bind_run, readSlot_object, Hslot. reflexivity. }
  unfold traverseNested.
  destruct Ht as [->|[-> ->]]; exact Hrun.
Qed.


(** C6.  What the recursion of a field of type 'blocks' does to the rows in
    its slot.  The rows are gone through in order.  A row that selects no
    configured block is not recursed into and not removed: it is afterwards
    the value it was, at the same index.  A row that selects a configured
    block is recursed into with that block's fields and the row's index
    appended to the path, and is afterwards what the recursion left of it,
    provided the loop gets to it: as soon as there is a configured block,
    asking for the block of a row that is [null] or undefined throws, which
    ends the loop with a [TypeError]; that row and all rows after it, with a
    matching slug or not, are left as they are and not recursed into, and
    [promise] rejects.  When it does not reject, the loop got to every row.
    The sequence keeps its length, and the log and the two
    queues grow by the calls made and what they pushed.  When the slot holds
    sequences per locale and locales were not hoisted, the sequences are gone
    through one after the other in the same way, and the loop over them ends
    with the first sequence that has a row that throws. *)
Theorem unmatched_block_rows (a : Args) (f : Field) (s0 s1 : State) (sh : bool)
  (o : Obj) :
  type f = Blocks ->
  fieldPhases a f s0 = (s1, inr sh) ->
  siblingDoc s1 = VObj o ->
  let paths := getFieldPaths f (parentPath a) (parentSchemaPath a) (fieldIndex a) in
  let r := promise a f s0 in
  (forall rows, getPropOpt (VObj o) (slotKey f) = VArr rows ->
     let done := rowsBefore f rows in
     let calls := blockCalls a f paths 0 done in
     let rows' := blockRowsLeft a f paths rows in
     r = (afterCalls (VObj (assign (slotKey f) (VArr rows') o)) calls s1,
          match rowsOutcome f rows with None => inr tt | Some e => inl e end)
     /\ List.length rows' = List.length rows
     /\ (forall i row,
           nth_error rows i = Some row -> matchingBlock f row = None ->
           nth_error rows' i = Some row
           /\ forall t sib, In (ETraverse t sib) calls ->
                            t_path t <> fst paths ++ [SegIndex i])
     /\ (forall ev, In ev calls ->
           exists i row b, nth_error done i = Some row
                           /\ nth_error rows i = Some row
                           /\ matchingBlock f row = Some b
                           /\ ev = blockCall a paths b i row)
     /\ (forall i row b,
           nth_error done i = Some row -> matchingBlock f row = Some b ->
           In (blockCall a paths b i row) calls
           /\ nth_error rows' i =
              Some (r_siblingDoc
                      (traverseFields
                         (traverseArgs a (block_fields b) (fst paths ++ [SegIndex i])
                            (snd paths)) row)))
     /\ (forall i row,
           List.length done <= i -> nth_error rows i = Some row ->
           nth_error rows' i = Some row
           /\ forall t sib, In (ETraverse t sib) calls ->
                            t_path t <> fst paths ++ [SegIndex i])
     /\ (forall row, nth_error rows (List.length done) = Some row ->
           (row = VNull \/ row = VUndefined) /\ blocks f <> []
           /\ snd r = inl TypeError)
     /\ (snd r = inr tt <->
         blocks f = []
         \/ Forall (fun row => isUndefined row || isNull row = false) rows)
     /\ (snd r = inr tt -> done = rows))
  /\ (forall kvs, getPropOpt (VObj o) (slotKey f) = VObj kvs -> sh = false ->
      r = (afterCalls
             (VObj (assign (slotKey f) (VObj (blockLocalesLeft a f paths kvs)) o))
             (blockLocaleCalls a f paths kvs) s1,
           match localesOutcome f kvs with None => inr tt | Some e => inl e end)
      /\ Forall2 (localeRowsKept f) kvs (blockLocalesLeft a f paths kvs)).
Proof.
  intros Ht Hphases Hdoc paths r.
  assert (Hr : r = traverseRows f sh (blocksRow a f paths) s1).
  { unfold r. rewrite promise_run, Hphases. unfold traverseNested.
    rewrite Ht. reflexivity. }
  split.
  - intros rows Hslot done calls rows'.
    assert (Hrun : r = (afterCalls (VObj (assign (slotKey f) (VArr rows') o)) calls s1,
                        match rowsOutcome f rows with
                        | None => inr tt
                        | Some e => inl e
                        end)).
    { rewrite Hr.
      apply (traverseRows_sequence f sh _ o rows _ _ _ s1 Hdoc Hslot).
      apply mapRows_blocksRow. }
    assert (Hcalled : forall t sib i, In (ETraverse t sib) calls ->
              t_path t = fst paths ++ [SegIndex i] ->
              exists row b, nth_error done i = Some row
                            /\ matchingBlock f row = Some b).
    { intros t sib i Hin Hpath. apply blockCalls_In in Hin.
      destruct Hin as (j & row & b & Hn & Hm & Heq). cbn [Nat.add] in Heq.
      rewrite (blockCall_path a paths b j i row t sib Heq Hpath) in Hn. eauto. }
    split; [exact Hrun|]. split; [apply blockRowsLeft_length|].
    split; [|split; [|split; [|split; [|split; [|split]]]]].
    + intros i row Hn Hm.
      split; [apply blockRowsLeft_unmatched; assumption|].
      intros t sib Hin Hpath.
      destruct (Hcalled t sib i Hin Hpath) as (row' & b & Hn' & Hm').
      apply rowsBefore_nth in Hn'. destruct Hn' as [Hn' _]. congruence.
    + intros ev Hin. apply blockCalls_In in Hin.
      destruct Hin as (j & row & b & Hn & Hm & Heq). cbn [Nat.add] in Heq.
      exists j, row, b. split; [exact Hn|]. split; [|auto].
      apply (rowsBefore_nth f rows j row Hn).
    + intros i row b Hn Hm. split.
      * apply blockCalls_In. exists i, row, b. auto.
      * unfold rows'. rewrite (blockRowsLeft_before a f paths rows i row Hn).
        unfold blockRowAfter, rowAfter.
        rewrite Hm, (matchingBlock_object f row b Hm). reflexivity.
    + intros i row Hi Hn. split.
      * unfold rows'. rewrite blockRowsLeft_from by exact Hi. exact Hn.
      * intros t sib Hin Hpath.
        destruct (Hcalled t sib i Hin Hpath) as (row' & b & Hn' & _).
        assert (Hlt : i < List.length done)
          by (apply nth_error_Some; congruence).
        apply Nat.lt_nge in Hlt. contradiction.
    + intros row Hn. destruct (rowsFrom_head f rows row Hn) as (Hthrows & rest & Hfrom).
      destruct (rowThrows_nullish f row Hthrows) as [Hnull Hblocks].
      split; [exact Hnull|]. split; [exact Hblocks|].
      rewrite Hrun. unfold rowsOutcome. rewrite Hfrom. reflexivity.
    + rewrite <- rowsOutcome_iff, Hrun. cbn [snd].
      destruct (rowsOutcome f rows); split; congruence.
    + rewrite Hrun. cbn [snd]. intros Hok.
      destruct (rowsOutcome f rows) eqn:Hout; [discriminate|].
      apply rowsOutcome_none. exact Hout.
  - intros kvs Hslot ->. split; [|apply blockLocalesLeft_kept].
    rewrite Hr.
    apply (traverseRows_mapping f _ o kvs _ _ _ s1 Hdoc Hslot).
    apply mapLocales_blocksRow.
Qed.

(** C2 (amended).  With hook execution enabled the field's after-read hooks
    run strictly in declared order: the calls of one hook are all made before
    the first call of the next.  A result is written back only when it is
    defined: hooks that answer undefined leave the sibling container as it
    is.  On a field whose value is not fanned out per locale, each hook gets
    the container and the value as the hook before it left them and its
    defined result replaces the value; in particular, with [[h1, h2]] where
    [h1] answers 'a' and [h2] answers the upper case of the value it is
    given, the value is 'A' after the chain, provided the stored value is not
    fanned out (the field is not localized, or one locale is being flattened,
    or the stored value is not of type 'object').  On a localized field read
    for all locales or without flattening, whose slot holds a locale map, each
    hook is called once per locale and a defined result replaces that
    locale's entry: the slot holds a locale map after the chain. *)
Theorem hooks_in_declared_order (a : Args) (f : Field) (paths : Path * SchemaPath)
  (hs : list Hook) :
  triggerHooks a = true ->
  hooks_afterRead f = Some hs ->
  (forall s, exists evs,
      log (fst (executeHooks a f paths s)) = log s ++ evs /\
      inDeclaredOrder hs evs)
  /\ ((forall h x, In h hs -> h x = VUndefined) ->
      forall s, siblingDoc (fst (executeHooks a f paths s)) = siblingDoc s)
  /\ (localized f && (isAll (locale a) || negb (flattenLocales a)) = false ->
      forall o fp pp lg, exists lg',
        executeHooks a f paths (mkState (VObj o) fp pp lg) =
        (mkState (VObj (fold_left (hookStep a f paths) hs o)) fp pp lg', inr tt))
  /\ (forall h1 h2 o fp pp lg,
        hs = [h1; h2] ->
        (forall x, h1 x = VStr "a") ->
        (forall x s, h_value x = VStr s -> h2 x = VStr (toUpperCase s)) ->
        fansOut a f (getPropOpt (VObj o) (slotKey f)) = false ->
        getProp (siblingDoc (fst (executeHooks a f paths (mkState (VObj o) fp pp lg))))
          (slotKey f) = inr (VStr "A"))
  /\ (localized f && (isAll (locale a) || negb (flattenLocales a)) = true ->
      forall o kvs fp pp lg,
        lookup (slotKey f) o = Some (VObj kvs) ->
        exists lg',
          executeHooks a f paths (mkState (VObj o) fp pp lg) =
          (mkState (VObj (fold_left (fanOutStep a f paths) hs o)) fp pp lg', inr tt)).
Proof.
  intros Htrig Hhooks.
  assert (Hrun : executeHooks a f paths =
                 forEachFrom 0 hs (runHook (hookArgs a paths) EHook a f)).
  { unfold executeHooks. rewrite Htrig, Hhooks. reflexivity. }
  split; [|split; [|split; [|split]]].
  - intros s. rewrite Hrun.
    destruct (chain_inDeclaredOrder a f paths hs 0 s) as (evs & Hl & Hord).
    exists evs. split; [exact Hl|exact Hord].
  - intros Hsilent. apply KeepsDoc_executeHooks.
    intros hs' h x Hhs' Hin. apply Hsilent. congruence.
  - intros Hstatic o fp pp lg. rewrite Hrun. apply chain_fold. exact Hstatic.
  - intros h1 h2 o fp pp lg -> Hh1 Hh2 Hfan. rewrite Hrun.
    cbn [forEachFrom]. rewrite bind_run, runHook_single by exact Hfan.
    cbv zeta. rewrite Hh1. cbn [isUndefined].
    rewrite bind_run, runHook_single
      by (rewrite getPropOpt_assign_same; unfold fansOut; apply andb_false_r).
    cbv zeta. rewrite getPropOpt_assign_same.
    rewrite (Hh2 _ "a") by reflexivity.
    cbn. rewrite lookup_assign_same. reflexivity.
  - intros Hstatic o kvs fp pp lg Hslot. rewrite Hrun.
    eapply chain_fanOut; eauto.
Qed.

(** C3 (amended).  Whenever the field's read-access predicate is consulted
    and answers false, the access step deletes the field's key from the
    sibling container and no default value is resolved for the field, even if
    one is configured: the key is absent when the field's own steps are over.
    It is still absent when [promise] ends for a group and for every type the
    recursion does nothing for, while for a field of type 'array' or 'blocks'
    the recursion then stores [[]] in the slot.  The predicate is only
    consulted for a field that affects data and when access is not
    overridden; when access is overridden it is never consulted and access is
    granted. *)
Theorem access_denial (a : Args) (f : Field) (o : Obj) fp pp :
  let s := mkState (VObj o) fp pp [] in
  let r := fieldPhases a f s in
  let denied := exists x, In (EAccessRead x false) (log (fst r)) in
  (denied ->
     (exists o', siblingDoc (fst r) = VObj o' /\ hasOwn (slotKey f) o' = false)
     /\ (forall x v, ~ In (EDefault x v) (log (fst r)))
     /\ fieldAffectsData f = true /\ overrideAccess a = false)
  /\ (denied -> isTraversedType (type f) = false \/ type f = Group ->
      exists o', siblingDoc (fst (promise a f s)) = VObj o'
                 /\ hasOwn (slotKey f) o' = false)
  /\ (denied -> type f = Array \/ type f = Blocks ->
      getProp (siblingDoc (fst (promise a f s))) (slotKey f) = inr (VArr []))
  /\ (overrideAccess a = true ->
      (forall x b, ~ In (EAccessRead x b) (log (fst r)))
      /\ forall s', executeAccessControl a f s' = (s', inr true))
  /\ (forall read o1 fp1 pp1 lg1,
        triggerAccessControl a = true -> access_read f = Some read ->
        overrideAccess a = false -> read (accessArgs a (VObj o1)) = false ->
        executeAccessControl a f (mkState (VObj o1) fp1 pp1 lg1) =
        (mkState (VObj (remove (slotKey f) o1)) fp1 pp1
           (lg1 ++ [EAccessRead (accessArgs a (VObj o1)) false]), inr false)
        /\ forall s', setDefaultValue a f false s' = (s', inr tt)).
Proof.
  intros s r denied.
  assert (Hmain :
    (denied ->
       (exists o' fp' pp' lg' sh,
           r = (mkState (VObj o') fp' pp' lg', inr sh)
           /\ hasOwn (slotKey f) o' = false)
       /\ (forall x v, ~ In (EDefault x v) (log (fst r)))
       /\ fieldAffectsData f = true /\ overrideAccess a = false)
    /\ (overrideAccess a = true -> forall x b, ~ In (EAccessRead x b) (log (fst r)))).
  { unfold denied, r, s.
    destruct (fieldPhases_object a f o fp pp []) as (o1 & [[e Hrun]|[sh Hrun]]);
      rewrite Hrun.
    - simpl. split.
      + intros [x []].
      + intros _ x b [].
    - destruct (dataPhases_object a f
                  (getFieldPaths f (parentPath a) (parentSchemaPath a) (fieldIndex a))
                  o1 fp pp []) as (o2 & pp2 & evs & r2 & Hrun2 & Hden & Hov).
      rewrite Hrun2.
      destruct r2 as [e|[]]; simpl; (split; [|exact Hov]); intros Hex;
        destruct (Hden Hex) as (Hown & Hdef & Hno & Haff & Hok);
        [discriminate|].
      repeat split; auto. exists o2, fp, pp2, evs, sh. auto. }
  destruct Hmain as [Hden Hov].
  split; [|split; [|split; [|split]]].
  - intros Hd. destruct (Hden Hd) as ((o' & fp' & pp' & lg' & sh & Hr & Hown) & Hrest).
    split; [|exact Hrest]. exists o'. rewrite Hr. auto.
  - intros Hd Hty.
    destruct (Hden Hd) as ((o' & fp' & pp' & lg' & sh & Hr & Hown) & _).
    rewrite promise_run. fold s r. rewrite Hr.
    assert (Hslot : getPropOpt (VObj o') (slotKey f) = VUndefined).
    { unfold getPropOpt, hasOwn in *. simpl.
      destruct (lookup (slotKey f) o'); [discriminate|reflexivity]. }
    destruct Hty as [Hty|Hty].
    + rewrite traverseNested_leaf by exact Hty. exists o'. auto.
    + unfold traverseNested. rewrite Hty. unfold traverseSlot.
      rewrite bind_run, readSlot_object, Hslot. exists o'. auto.
  - intros Hd Hty.
    destruct (Hden Hd) as ((o' & fp' & pp' & lg' & sh & Hr & Hown) & _).
    rewrite promise_run. fold s r. rewrite Hr.
    assert (Hslot : getPropOpt (VObj o') (slotKey f) = VUndefined).
    { unfold getPropOpt, hasOwn in *. simpl.
      destruct (lookup (slotKey f) o'); [discriminate|reflexivity]. }
    assert (Hrows : forall body,
      traverseRows f sh body (mkState (VObj o') fp' pp' lg') =
      (mkState (VObj (assign (slotKey f) (VArr []) o')) fp' pp' lg', inr tt)).
    { intros body. unfold traverseRows.
      rewrite bind_run, readSlot_object, Hslot. reflexivity. }
    unfold traverseNested. destruct Hty as [Hty|Hty]; rewrite Hty, Hrows; simpl;
      rewrite lookup_assign_same; reflexivity.
  - intros Hover. split; [exact (Hov Hover)|].
    intros s'. unfold executeAccessControl. rewrite Hover.
    destruct (triggerAccessControl a); [|reflexivity].
    destruct (access_read f); reflexivity.
  - intros read o1 fp1 pp1 lg1 Htrig Hread Hover Hfalse. split; [|reflexivity].
    rewrite executeAccessControl_object, Htrig, Hread, Hover.
    cbv zeta. rewrite Hfalse. reflexivity.
Qed.


(** C7 (amended).  On a sibling container that is neither [null] nor
    undefined, [promise] throws a configuration error exactly when the field
    is of type 'richText' and has no editor adapter or an unresolved factory
    function, whatever the data.  The error is raised by the sanitization
    step: hidden-field removal and locale hoisting have run by then and may
    have changed the slot, but no hook, access predicate, default resolver,
    population task or recursion has.  On a container that is [null] or
    undefined these two steps read the slot of a data-affecting field that is
    hidden or read with locale flattening, and the read throws a [TypeError]
    before the editor is looked at; for every other field the configuration
    error is raised there as well.  A rich-text field with a resolved adapter
    never throws from the check, and sanitization leaves its content as it
    is. *)
Theorem editor_configuration_error (a : Args) (f : Field) (s : State) :
  let r := promise a f s in
  let readsEarly := fieldAffectsData f && (hidden f || flattenLocales a) in
  let unresolved :=
    type f = RichText /\ (editor f = EditorAbsent \/ editor f = EditorFactory) in
  (~ isNullish (siblingDoc s) ->
   ((exists e, snd r = inl e /\ isConfigError e = true) <-> unresolved))
  /\ ((exists e, snd r = inl e /\ isConfigError e = true) <->
      unresolved /\ ~ (isNullish (siblingDoc s) /\ readsEarly = true))
  /\ (isNullish (siblingDoc s) -> readsEarly = true -> r = (s, inl TypeError))
  /\ (forall e, type f = RichText -> editorError f = Some e ->
      ~ (isNullish (siblingDoc s) /\ readsEarly = true) ->
      snd r = inl e
      /\ fst r = fst (hoistLocalizedValue a f (fst (removeHiddenField a f s)))
      /\ log (fst r) = log s /\ populationPromises (fst r) = populationPromises s
      /\ fieldPromises (fst r) = fieldPromises s)
  /\ (forall hs s', type f = RichText -> editor f = EditorAdapter hs ->
      sanitizeField f s' = (s', inr tt) /\ checkEditor f s' = (s', inr tt)).
Proof.
  intros r readsEarly unresolved.
  assert (Hsan : forall e s', type f = RichText -> editorError f = Some e ->
                   sanitizeField f s' = (s', inl e)).
  { intros e s' Ht He. unfold sanitizeField. rewrite Ht.
    unfold checkEditor, editorError in *.
    destruct (editor f); try discriminate; injection He as <-; reflexivity. }
  assert (Hnull : isNullish (siblingDoc s) -> readsEarly = true ->
                  r = (s, inl TypeError)).
  { intros Hs Hearly. unfold r. rewrite promise_run, fieldPhases_run.
    pose proof (earlySteps_nullish a f s Hs) as Hsteps.
    fold readsEarly in Hsteps. rewrite Hearly, bind_run in Hsteps.
    destruct (removeHiddenField a f s) as [s2 [e2|[]]].
    - injection Hsteps as -> ->. reflexivity.
    - rewrite Hsteps. reflexivity. }
  assert (Hthrow : forall e, type f = RichText -> editorError f = Some e ->
      ~ (isNullish (siblingDoc s) /\ readsEarly = true) ->
      snd r = inl e
      /\ fst r = fst (hoistLocalizedValue a f (fst (removeHiddenField a f s)))
      /\ log (fst r) = log s /\ populationPromises (fst r) = populationPromises s
      /\ fieldPromises (fst r) = fieldPromises s).
  { intros e Ht He Hok. unfold r. rewrite promise_run, fieldPhases_run.
    destruct (isNullish_dec (siblingDoc s)) as [Hs|Hs].
    - pose proof (earlySteps_nullish a f s Hs) as Hsteps.
      fold readsEarly in Hsteps.
      destruct readsEarly; [destruct Hok; auto|].
      rewrite bind_run in Hsteps.
      destruct (removeHiddenField a f s) as [s2 [e2|[]]]; [discriminate|].
      cbn [fst]. rewrite Hsteps, (Hsan e s Ht He). auto.
    - destruct (removeHiddenField_defined a f s Hs) as (d1 & -> & Hd1).
      cbn [fst].
      destruct (hoistLocalizedValue_defined a f (withDoc d1 s) Hd1)
        as (d2 & sh & -> & _).
      rewrite (Hsan e _ Ht He). destruct s; auto. }
  assert (Hiff : (exists e, snd r = inl e /\ isConfigError e = true) <->
                 unresolved /\ ~ (isNullish (siblingDoc s) /\ readsEarly = true)).
  { split.
    - intros (e & He & Hc). split.
      + destruct (Throws_promise a f s e He) as [->|[Ht Hed]]; [discriminate|].
        split; [exact Ht|]. unfold editorError in Hed.
        destruct (editor f); auto; discriminate.
      + intros [Hs Hearly]. rewrite (Hnull Hs Hearly) in He.
        injection He as <-. discriminate.
    - intros [[Ht Hed] Hok].
      assert (He : exists e, editorError f = Some e /\ isConfigError e = true).
      { unfold editorError. destruct Hed as [-> | ->]; eauto. }
      destruct He as (e & He & Hc). exists e. split; [|exact Hc].
      apply (Hthrow e Ht He Hok). }
  split; [|split; [exact Hiff|split; [exact Hnull|split; [exact Hthrow|]]]].
  - intros Hs. rewrite Hiff. split; [intros [Hu _]; exact Hu|].
    intros Hu. split; [exact Hu|]. intros [Hs' _]. contradiction.
  - intros hs s' Ht Hed. unfold sanitizeField, checkEditor.
    rewrite Ht, Hed. auto.
Qed.

(** C8 (amended).  What [promise] pushes onto the population queue, on any
    sibling container.  For a field that affects data and is of type
    'relationship', 'upload' or 'join', [promise] ends in one of two ways.
    The field's hooks, access check and default resolution complete: then
    exactly one task is appended, after their calls; it holds the current
    depth, depth limit, draft flag, fallback locale, field, locale,
    access-override flag, request, show-hidden flag and the sibling container,
    and nothing follows it.  Or one of these steps throws: then [promise]
    rejects with that error, after calls of these steps only, and appends
    nothing.  On an object container the steps complete unless the field has
    hooks that are fanned out per locale, and only hook calls precede a
    failure.  For every other field [promise] pushes no task of its own: the
    queue grows by what the recursive calls and the hooks of a rich-text
    editor pushed, and by nothing else. *)
Theorem population_scheduling (a : Args) (f : Field) (s : State) :
  let r := promise a f s in
  let fannedOut :=
    hooksRun a f && (localized f && (isAll (locale a) || negb (flattenLocales a))) in
  (fieldAffectsData f = true -> isReferenceType (type f) = true ->
   exists evs,
     Forall isFieldCall evs
     /\ fieldPromises (fst r) = fieldPromises s
     /\ ((exists t,
            snd r = inr tt
            /\ populationPromises (fst r) =
               populationPromises s ++ [RelationshipPopulation t]
            /\ log (fst r) = log s ++ evs ++ [EPopulate t]
            /\ t = populationTask a f (siblingDoc (fst r))
            /\ p_currentDepth t = currentDepth a /\ p_depth t = depth a
            /\ p_draft t = draft a /\ p_fallbackLocale t = fallbackLocale a
            /\ p_field t = f /\ p_locale t = locale a
            /\ p_overrideAccess t = overrideAccess a /\ p_req t = req a
            /\ p_showHiddenFields t = showHiddenFields a
            /\ p_siblingDoc t = siblingDoc (fst r))
         \/ (snd r = inl TypeError
             /\ populationPromises (fst r) = populationPromises s
             /\ log (fst r) = log s ++ evs)))
  /\ (fieldAffectsData f = true -> isReferenceType (type f) = true ->
      forall o, siblingDoc s = VObj o ->
        (fannedOut = false -> snd r = inr tt)
        /\ (snd r <> inr tt ->
            fannedOut = true
            /\ exists evs, log (fst r) = log s ++ evs /\ Forall isHookEvent evs))
  /\ (fieldAffectsData f = false \/ isReferenceType (type f) = false ->
      exists evs,
        log (fst r) = log s ++ evs
        /\ (forall t, ~ In (EPopulate t) evs)
        /\ Forall (fun e => isFieldCall e \/ isTraverseEvent e \/ isEditorHookEvent e)
             evs
        /\ populationPromises (fst r) = populationPromises s ++ flat_map tasksOf evs).
Proof.
  intros r fannedOut. split; [|split].
  - intros Haff Hty.
    destruct (PushesTaskLast_promise a f Haff Hty s)
      as (evs & HF & Hf & Hcases).
    fold r in Hf, Hcases. exists evs. split; [exact HF|]. split; [exact Hf|].
    destruct Hcases as [([[] Hok] & Hq & Hlog)|Hko]; [left|right; exact Hko].
    exists (populationTask a f (siblingDoc (fst r))). repeat split; auto.
  - intros Haff Hty o Hdoc. destruct s as [d fp pp lg]. simpl in Hdoc. subst d.
    destruct (promise_reference a f o fp pp lg Haff Hty)
      as [(o' & evs & Hr & _)|(o' & evs & Hr & HF & Hhooks & Hstatic)];
      fold r in Hr; rewrite Hr; cbn [fst snd log].
    + split; [reflexivity|]. intros Hno. destruct (Hno eq_refl).
    + assert (Hfan : fannedOut = true)
        by (unfold fannedOut; rewrite Hhooks, Hstatic; reflexivity).
      split; [intros Hquiet; congruence|].
      intros _. split; [exact Hfan|]. exists evs. auto.
  - intros Hcond.
    destruct (Tracks_promise_unpopulated a f Hcond s) as (evs & Hl & Hp & _ & HF).
    destruct (Tracks_promise_kinds a f s) as (evs' & Hl' & _ & _ & HF').
    rewrite Hl in Hl'. apply app_inv_head in Hl'. subst evs'.
    exists evs. fold r in Hl, Hp. repeat split; auto.
    + intros t Hin. rewrite Forall_forall in HF. apply (HF _ Hin). exact I.
    + rewrite Forall_forall in *. intros e Hin.
      destruct (HF' _ Hin) as [[Hcall|Hpop]|Hrec]; auto.
      destruct (HF _ Hin Hpop).
Qed.

(** C9 (amended).  For a field that is not localized, locale hoisting and
    population scheduling never change the sibling container, and the
    recursion changes nothing for a type it does not traverse.  So when no
    hidden-field removal, sanitization, hook, access denial or default
    substitution applies to such a field, [promise] leaves the sibling
    container exactly as it was. *)
Theorem nonlocalized_frame (a : Args) (f : Field) (o : Obj) fp pp lg :
  localized f = false ->
  let s := mkState (VObj o) fp pp lg in
  hoistLocalizedValue a f s = (s, inr false)
  /\ (forall s', siblingDoc (fst (schedulePopulation a f s')) = siblingDoc s')
  /\ (isTraversedType (type f) = false ->
      forall paths sh s', traverseNested a f paths sh s' = (s', inr tt))
  /\ (hiddenRemoved a f o = false -> hasSanitizer (type f) = false ->
      hooksRun a f = false -> accessDenied a f (VObj o) = false ->
      defaultSubstituted f o = false -> isTraversedType (type f) = false ->
      snd (promise a f s) = inr tt /\ siblingDoc (fst (promise a f s)) = VObj o).
Proof.
  intros Hl s. split; [|split; [|split]].
  - apply hoistLocalizedValue_nonlocalized. exact Hl.
  - apply KeepsDoc_schedulePopulation.
  - intros Hleaf paths sh s'. apply traverseNested_leaf. exact Hleaf.
  - intros Hhid Hsan Hhooks Hacc Hdef Hleaf. unfold s.
    rewrite promise_run, fieldPhases_run, removeHiddenField_object, Hhid.
    rewrite hoistLocalizedValue_nonlocalized by exact Hl.
    rewrite sanitizeField_none by exact Hsan.
    destruct (dataPhases_quiet a f
                (getFieldPaths f (parentPath a) (parentSchemaPath a) (fieldIndex a))
                o fp pp lg Hhooks Hacc Hdef) as (pp' & lg' & Hrun).
    rewrite Hrun, traverseNested_leaf by exact Hleaf. auto.
Qed.

(** * Further properties of [promise] *)

(** X1.  Point sanitization is not idempotent: sanitizing a point field a
    second time always leaves undefined in the slot, whatever was stored,
    because the coordinates pair the first pass stores has no coordinates
    property of its own. *)
Theorem point_sanitized_twice (f : Field) (o : Obj) fp pp lg :
  type f = Point ->
  (sanitizeField f ;; sanitizeField f)%M (mkState (VObj o) fp pp lg) =
  (mkState (VObj (assign (slotKey f) VUndefined o)) fp pp lg, inr tt).
Proof.
  intros Ht. unfold sanitizeField. rewrite Ht.
  rewrite bind_run, !sanitizePoint_object, getPropOpt_assign_same, assign_assign.
  assert (Hagain : forall v, pointCoordinates (pointCoordinates v) = VUndefined).
  { intros v. unfold pointCoordinates at 2.
    destruct (getPropOpt v "coordinates") as [| | | | |[|x [|y [|z l]]]|];
      reflexivity. }
  rewrite Hagain. reflexivity.
Qed.

(** X2.  A field that does not affect data is never removed, hoisted,
    hooked, access-checked, defaulted or populated, on any sibling
    container: of the steps before the recursion only sanitization is left.
    If its type is neither sanitized nor recursed into, [promise] does
    nothing at all.  A row, a collapsible or an unnamed tab is transparent:
    [promise] hands the sibling container itself to one recursive call with
    the field's own path and schema path, and the container is afterwards
    what the recursion left. *)
Theorem layout_field_transparent (a : Args) (f : Field) (s : State) :
  fieldAffectsData f = false ->
  let paths := getFieldPaths f (parentPath a) (parentSchemaPath a) (fieldIndex a) in
  let t := traverseArgs a (fields f) (fst paths) (snd paths) in
  let nested := traverseFields t (siblingDoc s) in
  fieldPhases a f s = (sanitizeField f ;; ret false)%M s
  /\ (hasSanitizer (type f) = false -> isTraversedType (type f) = false ->
      promise a f s = (s, inr tt))
  /\ (type f = Row \/ type f = Collapsible \/ (type f = Tab /\ tabHasName f = false) ->
      promise a f s =
      (mkState (if isRef (siblingDoc s) then r_siblingDoc nested else siblingDoc s)
         (fieldPromises s ++ r_fieldPromises nested)
         (populationPromises s ++ r_populationPromises nested)
         (log s ++ [ETraverse t (siblingDoc s)]),
       inr tt)).
Proof.
  intros Haff paths t nested.
  assert (Hphases : hasSanitizer (type f) = false ->
                    fieldPhases a f s = (s, inr false)).
  { intros Hsan.
    rewrite fieldPhases_presentational, sanitizeField_none by assumption.
    reflexivity. }
  split; [|split].
  - rewrite fieldPhases_presentational, bind_run by exact Haff.
    destruct (sanitizeField f s) as [s' [e|[]]]; reflexivity.
  - intros Hsan Hleaf. rewrite promise_run, (Hphases Hsan).
    apply traverseNested_leaf. exact Hleaf.
  - intros Hty. rewrite promise_run, Hphases
      by (destruct Hty as [->|[->|[-> _]]]; reflexivity).
    fold paths. unfold traverseNested.
    destruct Hty as [->|[->|[-> ->]]]; destruct s; reflexivity.
Qed.

(** X3.  For a group, or a tab with a name, whose slot holds a value of type
    'object' when [promise] recurses, the recursion is into that value with
    the field's own path and schema path, and the slot holds afterwards what
    the recursion left of it.  [null] is of type 'object': a group whose
    stored value is [null] is handed to the recursion as [null], and the
    sibling container stays as it is. *)
Theorem container_recursion_stored (a : Args) (f : Field) (s0 s1 : State)
  (sh : bool) (o : Obj) :
  type f = Group \/ (type f = Tab /\ tabHasName f = true) ->
  fieldPhases a f s0 = (s1, inr sh) ->
  siblingDoc s1 = VObj o ->
  let slot := getPropOpt (VObj o) (slotKey f) in
  isObjectType slot = true ->
  let paths := getFieldPaths f (parentPath a) (parentSchemaPath a) (fieldIndex a) in
  let t := traverseArgs a (fields f) (fst paths) (snd paths) in
  let nested := traverseFields t slot in
  promise a f s0 =
  (mkState
     (VObj (assign (slotKey f) (if isRef slot then r_siblingDoc nested else slot) o))
     (fieldPromises s1 ++ r_fieldPromises nested)
     (populationPromises s1 ++ r_populationPromises nested)
     (log s1 ++ [ETraverse t slot]),
   inr tt)
  /\ (slot = VNull ->
      siblingDoc (fst (promise a f s0)) = VObj o
      /\ log (fst (promise a f s0)) = log s1 ++ [ETraverse t VNull]).
Proof.
  intros Ht Hphases Hdoc slot Hslot paths t nested.
  assert (Hrun : promise a f s0 =
    (mkState
       (VObj (assign (slotKey f) (if isRef slot then r_siblingDoc nested else slot) o))
       (fieldPromises s1 ++ r_fieldPromises nested)
       (populationPromises s1 ++ r_populationPromises nested)
       (log s1 ++ [ETraverse t slot]),
     inr tt)).
  { rewrite promise_run, Hphases. fold paths.
    destruct s1 as [d fp pp lg]. simpl in Hdoc. subst d.
    assert (Hslot' : traverseSlot t (slotKey f) (mkState (VObj o) fp pp lg) =
      (mkState
         (VObj (assign (slotKey f)
                  (if isRef slot then r_siblingDoc nested else slot) o))
         (fp ++ r_fieldPromises nested) (pp ++ r_populationPromises nested)
         (lg ++ [ETraverse t slot]), inr tt)).
    { unfold traverseSlot. rewrite bind_run, readSlot_object. fold slot.
      rewrite Hslot. reflexivity. }
    unfold traverseNested.
    destruct Ht as [->|[-> ->]]; exact Hslot'. }
  split; [exact Hrun|].
  intros Hnull. rewrite Hrun. cbn [fst siblingDoc log]. rewrite Hnull.
  split; [|reflexivity]. cbn [isRef]. f_equal. apply assign_lookup.
  unfold slot, getPropOpt in Hnull. cbn [getProp] in Hnull.
  destruct (lookup (slotKey f) o); congruence.
Qed.

(** X4.  Sanitizing a tabs field goes through its tabs in order and stores
    an empty object for every named tab whose slot is undefined or [null];
    it never throws on an object.  Afterwards the slot of every named tab is
    neither undefined nor [null]; a key that held any other value, and a key
    that is no named tab's, is as it was; a key that changed holds the empty
    object. *)
Theorem tabs_sanitization (f : Field) (o : Obj) fp pp lg :
  type f = Tabs ->
  let o' := fold_left fillTab (tabs f) o in
  sanitizeField f (mkState (VObj o) fp pp lg) = (mkState (VObj o') fp pp lg, inr tt)
  /\ (forall tab, In tab (tabs f) -> tabHasName tab = true ->
      isUndefined (getPropOpt (VObj o') (slotKey tab)) = false
      /\ isNull (getPropOpt (VObj o') (slotKey tab)) = false)
  /\ (forall k,
      isUndefined (getPropOpt (VObj o) k) || isNull (getPropOpt (VObj o) k) = false ->
      lookup k o' = lookup k o)
  /\ (forall k,
      (forall tab, In tab (tabs f) -> tabHasName tab = true -> slotKey tab <> k) ->
      lookup k o' = lookup k o)
  /\ (forall k, lookup k o' = lookup k o \/ lookup k o' = Some (VObj [])).
Proof.
  intros Ht o'. split; [|split; [|split; [|split]]].
  - apply sanitizeField_tabs. exact Ht.
  - intros tab Hin Hn.
    apply orb_false_iff. apply fillTabs_fill; assumption.
  - intros k Hk. apply fillTabs_keep. exact Hk.
  - intros k Hk. apply fillTabs_other. exact Hk.
  - intros k. apply fillTabs_either.
Qed.

(** X5.  For a tabs field that does not affect data, [promise] sanitizes
    and then makes one recursive call on the sibling container itself, with
    the field's own path and schema path and with the tabs as sub-schema,
    each retyped as a 'tab' field and otherwise as configured; the container
    is afterwards what the recursion left. *)
Theorem tabs_recursion (a : Args) (f : Field) (o : Obj) fp pp lg :
  type f = Tabs -> fieldAffectsData f = false ->
  let paths := getFieldPaths f (parentPath a) (parentSchemaPath a) (fieldIndex a) in
  let t := traverseArgs a (map asTab (tabs f)) (fst paths) (snd paths) in
  let filled := VObj (fold_left fillTab (tabs f) o) in
  let nested := traverseFields t filled in
  promise a f (mkState (VObj o) fp pp lg) =
  (mkState (r_siblingDoc nested) (fp ++ r_fieldPromises nested)
     (pp ++ r_populationPromises nested) (lg ++ [ETraverse t filled]), inr tt)
  /\ Forall (fun tab => type tab = Tab) (t_fields t)
  /\ map name (t_fields t) = map name (tabs f)
  /\ map fields (t_fields t) = map fields (tabs f)
  /\ map hooks_afterRead (t_fields t) = map hooks_afterRead (tabs f).
Proof.
  intros Ht Haff paths t filled nested.
  split; [|split; [|split; [|split]]].
  - rewrite promise_run, fieldPhases_presentational by exact Haff.
    rewrite sanitizeField_tabs by exact Ht. fold paths.
    unfold traverseNested. rewrite Ht. reflexivity.
  - cbn [t t_fields traverseArgs]. apply Forall_forall.
    intros tab Hin. apply in_map_iff in Hin. destruct Hin as (tab' & <- & _).
    reflexivity.
  - cbn [t t_fields traverseArgs]. rewrite map_map. reflexivity.
  - cbn [t t_fields traverseArgs]. rewrite map_map. reflexivity.
  - cbn [t t_fields traverseArgs]. rewrite map_map. reflexivity.
Qed.

(** X6.  A hidden field whose stored value is not to be shown is removed
    before anything else, so what follows sees an undefined slot: with a
    default configured, and no hook and no denial in the way, the field's
    key comes back holding the configured default, resolved for an undefined
    value, in place of the stored value; without a default the key stays
    absent. *)
Theorem hidden_field_default (a : Args) (f : Field) (o : Obj) fp pp lg :
  fieldAffectsData f = true -> hidden f = true -> showHiddenFields a = false ->
  isUndefined (getPropOpt (VObj o) (slotKey f)) = false ->
  hasSanitizer (type f) = false -> isTraversedType (type f) = false ->
  hooksRun a f = false ->
  accessDenied a f (VObj (remove (slotKey f) o)) = false ->
  let r := promise a f (mkState (VObj o) fp pp lg) in
  let args := mkDefaultArgs (defaultValue f) (locale a) (user (req a)) VUndefined in
  snd r = inr tt
  /\ (defaultConfigured f = true ->
      siblingDoc (fst r) =
      VObj (assign (slotKey f) (getDefaultValue args) (remove (slotKey f) o))
      /\ exists evs, log (fst r) = lg ++ evs
                     /\ In (EDefault args (getDefaultValue args)) evs)
  /\ (defaultConfigured f = false ->
      siblingDoc (fst r) = VObj (remove (slotKey f) o)
      /\ hasOwn (slotKey f) (remove (slotKey f) o) = false).
Proof.
  intros Haff Hhid Hshow Hdef Hsan Hleaf Hhooks Hacc r args.
  pose proof (hiddenField_removed a f o fp pp lg Haff Hhid Hshow Hdef) as Hfirst.
  rewrite bind_run in Hfirst.
  assert (Hrun : exists pp' lg',
    r = (mkState
           (VObj (if defaultConfigured f
                  then assign (slotKey f) (getDefaultValue args)
                         (remove (slotKey f) o)
                  else remove (slotKey f) o)) fp pp' (lg ++ lg'), inr tt)
    /\ (defaultConfigured f = true ->
        In (EDefault args (getDefaultValue args)) lg')).
  { unfold r. rewrite promise_run, fieldPhases_run.
    destruct (removeHiddenField a f (mkState (VObj o) fp pp lg))
      as [s1 [e|[]]]; [discriminate|].
    rewrite Hfirst, sanitizeField_none by exact Hsan.
    destruct (dataPhases_unhooked a f
                (getFieldPaths f (parentPath a) (parentSchemaPath a) (fieldIndex a))
                (remove (slotKey f) o) fp pp lg Hhooks Hacc)
      as (pp' & lg' & Hdata & Hin).
    rewrite getPropOpt_remove_same in Hdata, Hin. fold args in Hdata, Hin.
    unfold defaultSubstituted in Hdata, Hin.
    rewrite Haff, getPropOpt_remove_same in Hdata, Hin.
    cbn [andb isUndefined] in Hdata, Hin.
    rewrite Hdata, traverseNested_leaf by exact Hleaf.
    exists pp', lg'. split; [reflexivity|exact Hin]. }
  destruct Hrun as (pp' & lg' & Hrun & Hin). rewrite Hrun. cbn [fst snd siblingDoc log].
  split; [reflexivity|]. split.
  - intros Hc. rewrite Hc. split; [reflexivity|]. exists lg'. auto.
  - intros Hc. rewrite Hc. split; [reflexivity|apply hasOwn_remove].
Qed.

(** X7.  The stored content of a hidden group that is not to be shown never
    reaches the recursion: the key is removed, sanitization then stores an
    empty object under it, and, with no hook and no denial in the way, the
    recursion is into that empty object; the slot afterwards holds what the
    recursion built on it. *)
Theorem hidden_group_emptied (a : Args) (f : Field) (o : Obj) fp pp lg :
  type f = Group ->
  fieldAffectsData f = true -> hidden f = true -> showHiddenFields a = false ->
  isUndefined (getPropOpt (VObj o) (slotKey f)) = false ->
  let emptied := assign (slotKey f) (VObj []) (remove (slotKey f) o) in
  let paths := getFieldPaths f (parentPath a) (parentSchemaPath a) (fieldIndex a) in
  let t := traverseArgs a (fields f) (fst paths) (snd paths) in
  let nested := traverseFields t (VObj []) in
  let r := promise a f (mkState (VObj o) fp pp lg) in
  (removeHiddenField a f ;; hoistLocalizedValue a f ;; sanitizeField f)%M
    (mkState (VObj o) fp pp lg) = (mkState (VObj emptied) fp pp lg, inr tt)
  /\ (hooksRun a f = false -> accessDenied a f (VObj emptied) = false ->
      snd r = inr tt
      /\ siblingDoc (fst r) =
         VObj (assign (slotKey f) (r_siblingDoc nested) (remove (slotKey f) o))
      /\ exists evs, log (fst r) = lg ++ evs ++ [ETraverse t (VObj [])]).
Proof.
  intros Ht Haff Hhid Hshow Hdef emptied paths t nested r.
  pose proof (hiddenField_removed a f o fp pp lg Haff Hhid Hshow Hdef) as Hfirst.
  assert (Hsan : sanitizeField f (mkState (VObj (remove (slotKey f) o)) fp pp lg) =
                 (mkState (VObj emptied) fp pp lg, inr tt)).
  { unfold sanitizeField. rewrite Ht, bind_run, readSlot_object.
    rewrite getPropOpt_remove_same. reflexivity. }
  rewrite bind_run in Hfirst. split.
  - rewrite bind_run.
    destruct (removeHiddenField a f (mkState (VObj o) fp pp lg))
      as [s1 [e|[]]]; [discriminate|].
    rewrite bind_run, Hfirst. exact Hsan.
  - intros Hhooks Hacc. unfold r. rewrite promise_run, fieldPhases_run.
    destruct (removeHiddenField a f (mkState (VObj o) fp pp lg))
      as [s1 [e|[]]]; [discriminate|].
    rewrite Hfirst, Hsan.
    destruct (dataPhases_unhooked a f paths emptied fp pp lg Hhooks Hacc)
      as (pp' & lg' & Hdata & _).
    assert (Hslot : getPropOpt (VObj emptied) (slotKey f) = VObj [])
      by apply getPropOpt_assign_same.
    unfold defaultSubstituted in Hdata. rewrite Haff, Hslot in Hdata.
    cbn [isUndefined andb] in Hdata.
    fold paths. rewrite Hdata.
    assert (Htrav : traverseSlot t (slotKey f)
                      (mkState (VObj emptied) fp pp' (lg ++ lg')) =
      (mkState (VObj (assign (slotKey f) (r_siblingDoc nested) emptied))
         (fp ++ r_fieldPromises nested) (pp' ++ r_populationPromises nested)
         ((lg ++ lg') ++ [ETraverse t (VObj [])]), inr tt)).
    { unfold traverseSlot. rewrite bind_run, readSlot_object, Hslot.
      reflexivity. }
    unfold traverseNested. rewrite Ht. fold t. rewrite Htrav.
    cbn [fst snd siblingDoc log]. unfold emptied. rewrite assign_assign.
    split; [reflexivity|]. split; [reflexivity|].
    exists lg'. rewrite app_assoc. reflexivity.
Qed.

(** X8.  For a rich-text field with a resolved editor adapter, whose value
    is not fanned out per locale, [promise] ends with the adapter's
    after-read hooks, in declared order, on what the field's own steps left:
    each hook is given the sibling container, the value and the two queues
    as the hook before it left them, and is told the requested locale; a
    defined result replaces the value, and what the hook pushed is at the end
    of the queues.  The chain does not depend on the hook-execution flag,
    which is only passed on to the hooks; an adapter without hooks leaves
    everything as it is. *)
Theorem editor_hooks_chain (a : Args) (f : Field) (s0 s1 : State) (sh : bool)
  (o : Obj) (afterRead : option (list EditorHook)) :
  type f = RichText -> editor f = EditorAdapter afterRead ->
  localized f && (isAll (locale a) || negb (flattenLocales a)) = false ->
  fieldPhases a f s0 = (s1, inr sh) ->
  siblingDoc s1 = VObj o ->
  let paths := getFieldPaths f (parentPath a) (parentSchemaPath a) (fieldIndex a) in
  let hs := editorHooksOf afterRead in
  let c := mkChain o (fieldPromises s1) (populationPromises s1) in
  let calls := editorCalls a f paths 0 hs c in
  let r := promise a f s0 in
  snd r = inr tt
  /\ fst r = chainState (fold_left (editorHookStep a f paths) hs c) (log s1 ++ calls)
  /\ siblingDoc (fst r) = VObj (c_doc (fold_left (editorHookStep a f paths) hs c))
  /\ log (fst r) = log s1 ++ calls
  /\ fieldPromises (fst r) = fieldPromises s1 ++ flat_map promisesOf calls
  /\ populationPromises (fst r) = populationPromises s1 ++ flat_map tasksOf calls
  /\ List.length calls = List.length hs
  /\ (forall i x v, In (EEditorHook i x v) calls ->
      e_triggerHooks x = triggerHooks a
      /\ e_triggerAccessControl x = triggerAccessControl a
      /\ e_locale x = locale a
      /\ h_path (e_base x) = fst paths /\ h_schemaPath (e_base x) = snd paths)
  /\ (hs = [] -> fst r = s1).
Proof.
  intros Ht Hed Hstatic Hphases Hdoc paths hs c calls r.
  destruct s1 as [d fp pp lg]. simpl in Hdoc. subst d.
  assert (Hr : r = (chainState (fold_left (editorHookStep a f paths) hs c)
                      (lg ++ calls), inr tt)).
  { unfold r. rewrite promise_run, Hphases. fold paths.
    unfold traverseNested. rewrite Ht, bind_run.
    unfold checkEditor. rewrite Hed. unfold ret at 1.
    apply (executeEditorHooks_static a f paths afterRead c lg Hed Hstatic). }
  rewrite Hr. cbn [fst snd siblingDoc log fieldPromises populationPromises chainState].
  split; [reflexivity|]. split; [reflexivity|]. split; [reflexivity|].
  split; [reflexivity|].
  split; [apply editorChain_fieldPromises|].
  split; [apply editorChain_populationPromises|].
  clear Hr. unfold calls. clearbody hs. split; [|split].
  - generalize 0 c. induction hs as [|h hs' IH]; intros i c'; simpl; auto.
  - generalize 0 c. induction hs as [|h hs' IH]; intros i0 c' i x v Hin.
    + destruct Hin.
    + destruct Hin as [Heq|Hin]; [|exact (IH _ _ _ _ _ Hin)].
      injection Heq as _ <- _. repeat split.
  - intros ->. unfold c. simpl. rewrite app_nil_r. reflexivity.
Qed.

(** X9.  On an object sibling container [promise] fulfils for every field
    whose value cannot be fanned out per locale (the field is not localized,
    or one locale is being flattened), that is not a blocks field and that,
    if rich text, has a resolved editor: none of its steps throws. *)
Theorem promise_fulfils (a : Args) (f : Field) (s : State) :
  isObject (siblingDoc s) ->
  localized f && (isAll (locale a) || negb (flattenLocales a)) = false ->
  type f <> Blocks ->
  editorError f = None \/ type f <> RichText ->
  snd (promise a f s) = inr tt /\ settle (promise a f s) = Fulfilled.
Proof.
  intros [o Ho] Hstatic Hblocks Hed.
  destruct s as [d fp pp lg]. simpl in Ho. subst d.
  assert (Hok : snd (promise a f (mkState (VObj o) fp pp lg)) = inr tt).
  { rewrite promise_run.
    destruct (fieldPhases_fulfils a f o fp pp lg Hstatic Hed)
      as (o1 & pp1 & lg1 & sh & ->).
    unfold traverseNested.
    destruct (type f) eqn:Ht; try reflexivity;
      try apply traverseSlot_fulfils; try apply traverseRows_array_fulfils.
    - destruct Hed as [Hed|Hed]; [|congruence].
      unfold editorError in Hed.
      destruct (editor f) as [| |afterRead] eqn:He; try discriminate.
      rewrite bind_run. unfold checkEditor. rewrite He. unfold ret at 1.
      exact (f_equal snd
               (executeEditorHooks_static a f _ afterRead (mkChain o1 fp pp1) lg1
                  He Hstatic)).
    - congruence.
    - destruct (tabHasName f); [apply traverseSlot_fulfils|reflexivity]. }
  split; [exact Hok|]. unfold settle. rewrite Hok. reflexivity.
Qed.

(** X10.  On a sibling container that is [null] or [undefined] (what a
    group whose stored value is [null] hands to the recursion) [promise]
    rejects for every field that affects data, with a [TypeError] or, for a
    rich-text field without a resolved editor, with the configuration error.
    No hook, default resolver, population task or recursion is reached; at
    most the access predicate has been consulted. *)
Theorem nullish_container_rejected (a : Args) (f : Field) (s : State) :
  isNullish (siblingDoc s) -> fieldAffectsData f = true ->
  let r := promise a f s in
  (exists e, snd r = inl e /\ (e = TypeError \/ configErrorOf f e))
  /\ siblingDoc (fst r) = siblingDoc s
  /\ fieldPromises (fst r) = fieldPromises s
  /\ populationPromises (fst r) = populationPromises s
  /\ (log (fst r) = log s \/ exists x b, log (fst r) = log s ++ [EAccessRead x b]).
Proof.
  intros Hs Haff r.
  assert (Hrun : exists lg' e,
    r = (mkState (siblingDoc s) (fieldPromises s) (populationPromises s) lg', inl e)
    /\ (e = TypeError \/ configErrorOf f e)
    /\ (lg' = log s \/ exists x b, lg' = log s ++ [EAccessRead x b])).
  { unfold r. rewrite promise_run, fieldPhases_run.
    assert (Hfail : forall e : Err, e = TypeError \/ configErrorOf f e ->
      exists lg' e0,
        (s, @inl Err unit e) =
        (mkState (siblingDoc s) (fieldPromises s) (populationPromises s) lg', inl e0)
        /\ (e0 = TypeError \/ configErrorOf f e0)
        /\ (lg' = log s \/ exists x b, lg' = log s ++ [EAccessRead x b])).
    { intros e He. exists (log s), e. destruct s; auto. }
    destruct (removeHiddenField_nullish a f s Hs) as [-> | ->];
      [|apply Hfail; auto].
    destruct (hoistLocalizedValue_nullish a f s Hs) as [-> | ->];
      [|apply Hfail; auto].
    destruct (sanitizeField_nullish f s Hs) as [-> | (e & -> & He)];
      [|apply Hfail; exact He].
    destruct (dataPhases_nullish a f
                (getFieldPaths f (parentPath a) (parentSchemaPath a) (fieldIndex a))
                s Hs Haff) as (lg' & -> & Hlg).
    exists lg', TypeError. auto. }
  destruct Hrun as (lg' & e & -> & He & Hlg).
  cbn [fst snd siblingDoc fieldPromises populationPromises log].
  split; [eauto|]. auto.
Qed.

(** X11.  For every field but a row, a collapsible, a tabs field and an
    unnamed tab (which hand the sibling container itself to the recursion),
    [promise] changes nothing in an object sibling container but the field's
    own key: every other key holds afterwards what it held before, whether
    [promise] fulfils or rejects. *)
Theorem own_key_frame (a : Args) (f : Field) (s : State) (o : Obj) :
  siblingDoc s = VObj o ->
  type f <> Row -> type f <> Collapsible -> type f <> Tabs ->
  (type f = Tab -> tabHasName f = true) ->
  exists o',
    siblingDoc (fst (promise a f s)) = VObj o'
    /\ forall k, k <> slotKey f -> lookup k o' = lookup k o.
Proof.
  intros Hs Hrow Hcol Htabs Htab.
  assert (Hw : WritesOnly (slotKey f) (promise a f)).
  { unfold promise. cbv zeta. apply WritesOnly_bind.
    - apply WritesOnly_fieldPhases. exact Htabs.
    - intros sh. unfold traverseNested.
      destruct (type f) eqn:Ht; try congruence;
        try (apply WritesOnly_keeps, KeepsDoc_ret).
      + apply WritesOnly_bind; [|intros _; apply WritesOnly_executeEditorHooks].
        unfold checkEditor. writes_steps.
      + apply WritesOnly_traverseSlot.
      + apply WritesOnly_traverseRows. intros i row. apply KeepsDoc_traverseRow.
      + apply WritesOnly_traverseRows. intros i row. apply KeepsDoc_blocksRow.
      + rewrite Htab by reflexivity. apply WritesOnly_traverseSlot. }
  exact (Hw s o Hs).
Qed.

(** X12.  After the recursion of an array field the slot holds as many rows
    as before: a row that is an object or an array is what the recursion
    into it left, every other row ([null], a number, a string, ...) is as it
    was, a falsy one having been replaced by a new empty object for the
    recursion only.  When the slot holds rows per locale and locales were
    not hoisted, the same holds for each locale's rows, and entries that are
    no sequences are as they were. *)
Theorem array_rows_after (a : Args) (f : Field) (s0 s1 : State) (sh : bool)
  (o : Obj) :
  type f = Array ->
  fieldPhases a f s0 = (s1, inr sh) ->
  siblingDoc s1 = VObj o ->
  let paths := getFieldPaths f (parentPath a) (parentSchemaPath a) (fieldIndex a) in
  let slot := getPropOpt (VObj o) (slotKey f) in
  let r := promise a f s0 in
  (forall rows, slot = VArr rows ->
     let rows' := rowsAfter a (fields f) paths 0 rows in
     siblingDoc (fst r) = VObj (assign (slotKey f) (VArr rows') o)
     /\ List.length rows' = List.length rows
     /\ (forall i row, nth_error rows i = Some row ->
           nth_error rows' i = Some (rowAfter a (fields f) paths i row))
     /\ (forall i row, nth_error rows i = Some row -> isRef row = false ->
           nth_error rows' i = Some row))
  /\ (forall kvs, slot = VObj kvs -> sh = false ->
      siblingDoc (fst r) =
      VObj (assign (slotKey f) (VObj (localesAfter a (fields f) paths kvs)) o)
      /\ map fst (localesAfter a (fields f) paths kvs) = map fst kvs).
Proof.
  intros Ht Hphases Hdoc paths slot r.
  assert (Hr : r = traverseRows f sh (arrayRow a f paths) s1).
  { unfold r. rewrite promise_run, Hphases. unfold traverseNested.
    rewrite Ht. reflexivity. }
  destruct s1 as [d fp pp lg]. simpl in Hdoc. subst d.
  unfold traverseRows in Hr. rewrite bind_run, readSlot_object in Hr.
  fold slot in Hr. split.
  - intros rows Hs rows'. rewrite Hr, Hs. cbv iota. rewrite bind_run.
    destruct (mapRows_arrayRow_after a f paths rows 0 (mkState (VObj o) fp pp lg))
      as (fp' & pp' & Hrun).
    rewrite Hrun. split; [reflexivity|].
    split; [apply rowsAfter_length|]. split.
    + intros i row Hn. apply (rowsAfter_nth a (fields f) paths rows 0 i row Hn).
    + intros i row Hn Href. unfold rows'.
      rewrite (rowsAfter_nth a (fields f) paths rows 0 i row Hn).
      unfold rowAfter. rewrite Href. reflexivity.
  - intros kvs Hs ->. rewrite Hr, Hs. cbn [negb]. cbv iota. rewrite bind_run.
    destruct (mapLocales_arrayRow_after a f paths kvs (mkState (VObj o) fp pp lg))
      as (fp' & pp' & Hrun).
    rewrite Hrun. split; [reflexivity|].
    unfold localesAfter. rewrite map_map. apply map_ext.
    intros [l v]. destruct v; reflexivity.
Qed.

(** X13.  Whatever the sibling container and however [promise] ends, the
    calls it makes come in the order of its steps: first the field's hooks,
    then at most one call of the access predicate, then at most one call of
    the default resolver (always for an undefined value), then at most one
    population task, then the recursive calls and the editor's hooks.  A
    step that is switched off or not configured makes no call: no hook
    without [triggerHooks] or without hooks, no access call without
    [triggerAccessControl], with [overrideAccess] or without a predicate, no
    default without a configured default, no task for a field that is no
    relationship, upload or join, and none of the first four for a field
    that does not affect data. *)
Theorem calls_in_phase_order (a : Args) (f : Field) (s : State) :
  exists eH eA eD eP eT,
    log (fst (promise a f s)) = log s ++ eH ++ eA ++ eD ++ eP ++ eT
    /\ hookPhase a f eH /\ accessPhase a f eA /\ defaultPhase a f eD
    /\ populatePhase a f eP /\ recursionPhase f eT.
Proof.
  assert (Hlogs : Logs (fun evs => exists e1 e2, evs = e1 ++ e2
    /\ (exists eH eA eD eP,
          e1 = eH ++ eA ++ eD ++ eP /\ hookPhase a f eH /\ accessPhase a f eA
          /\ defaultPhase a f eD /\ populatePhase a f eP)
    /\ recursionPhase f e2) (promise a f)).
  { unfold promise. cbv zeta. apply Logs_bind.
    - apply Logs_fieldPhases.
    - intros sh. apply Logs_traverseNested.
    - apply recursionPhase_nil. }
  destruct (Hlogs s)
    as (evs & Hl & e1 & eT & -> & (eH & eA & eD & eP & -> & HH & HA & HD & HP) & HT).
  exists eH, eA, eD, eP, eT. rewrite Hl, <- !app_assoc. auto 10.
Qed.

(** X14.  Every recursive call [promise] makes passes on its own arguments
    unchanged (depths, draft flag, locales, flags, request, root document)
    and the field's schema path, which never gains an index.  The path is
    the field's path, followed by the row's index for the rows of an array
    or blocks field; the sub-schema is the field's own fields, the fields of
    one of its configured blocks for a blocks field, and its tabs retyped as
    'tab' fields for a tabs field. *)
Theorem recursion_inherits_arguments (a : Args) (f : Field) (s : State) :
  let paths := getFieldPaths f (parentPath a) (parentSchemaPath a) (fieldIndex a) in
  exists evs,
    log (fst (promise a f s)) = log s ++ evs
    /\ Forall (inheritsArguments a f paths) evs
    /\ forall t sib, In (ETraverse t sib) evs ->
         t_currentDepth t = currentDepth a /\ t_depth t = depth a
         /\ t_doc t = doc a /\ t_draft t = draft a /\ t_findMany t = findMany a
         /\ t_req t = req a /\ t_locale t = locale a
         /\ t_fallbackLocale t = fallbackLocale a
         /\ t_flattenLocales t = flattenLocales a
         /\ t_overrideAccess t = overrideAccess a
         /\ t_showHiddenFields t = showHiddenFields a
         /\ t_triggerAccessControl t = triggerAccessControl a
         /\ t_triggerHooks t = triggerHooks a
         /\ t_schemaPath t = snd paths
         /\ recursionTarget f paths (t_fields t) (t_path t).
Proof.
  intros paths.
  assert (Hcalls : Tracks (inheritsArguments a f paths) (promise a f)).
  { unfold promise. cbv zeta. fold paths. apply Tracks_bind.
    - eapply Tracks_weaken; [|apply Tracks_fieldPhases].
      intros [] [He|He]; simpl in *; auto; destruct He.
    - intros sh. unfold traverseNested.
      assert (Hown : type f <> Array -> type f <> Blocks -> type f <> Tabs ->
                forall sib, inheritsArguments a f paths
                  (ETraverse (traverseArgs a (fields f) (fst paths) (snd paths)) sib)).
      { intros H1 H2 H3 sib. exists (fields f), (fst paths).
        split; [reflexivity|]. unfold recursionTarget.
        destruct (type f); try congruence; auto. }
      destruct (type f) eqn:Ht; try apply Tracks_ret.
      + apply Tracks_bind; [apply Tracks_checkEditor|]. intros _.
        eapply Tracks_weaken; [|apply Tracks_executeEditorHooks].
        intros [] He; simpl in *; auto; destruct He.
      + apply Tracks_traverseSlot_calls. apply Hown; congruence.
      + apply Tracks_traverseRows. intros i row. unfold arrayRow.
        apply Tracks_traverseRow. intros sib.
        exists (fields f), (fst paths ++ [SegIndex i]). split; [reflexivity|].
        unfold recursionTarget. rewrite Ht. eauto.
      + apply Tracks_traverseRows. intros i row.
        apply Tracks_blocksRow_calls. intros b sib Hb.
        exists (block_fields b), (fst paths ++ [SegIndex i]). split; [reflexivity|].
        unfold recursionTarget. rewrite Ht. eauto.
      + apply Tracks_traverseSiblings_calls. apply Hown; congruence.
      + apply Tracks_traverseSiblings_calls. apply Hown; congruence.
      + destruct (tabHasName f);
          [apply Tracks_traverseSlot_calls|apply Tracks_traverseSiblings_calls];
          apply Hown; congruence.
      + apply Tracks_traverseSiblings_calls. intros sib.
        exists (map asTab (tabs f)), (fst paths). split; [reflexivity|].
        unfold recursionTarget. rewrite Ht. auto. }
  destruct (Hcalls s) as (evs & Hl & _ & _ & HP).
  exists evs. split; [exact Hl|]. split; [exact HP|].
  intros t sib Hin. rewrite Forall_forall in HP.
  destruct (HP _ Hin) as (fs & p & -> & Htarget). simpl. auto 20.
Qed.

(** X15.  Locale hoisting and the per-locale fan-out of hooks exclude each
    other: when hoisting has replaced the locale map of a field by one
    locale's value, none of the field's hooks is called per locale, each is
    called once on the value as the hook before it left it, even when the
    hoisted value is itself an object. *)
Theorem hoisted_value_hooked_once (a : Args) (f : Field) (s s1 : State) :
  hoistLocalizedValue a f s = (s1, inr true) ->
  (forall slot, fansOut a f slot = false)
  /\ (forall s', shouldRunHookOnAllLocales a f s' = (s', inr false))
  /\ (forall paths hs, triggerHooks a = true -> hooks_afterRead f = Some hs ->
      forall o fp pp lg, exists lg',
        executeHooks a f paths (mkState (VObj o) fp pp lg) =
        (mkState (VObj (fold_left (hookStep a f paths) hs o)) fp pp lg', inr tt)).
Proof.
  intros Hhoist.
  destruct (hoisted_static a f s s1 Hhoist) as [Hflat Hall].
  assert (Hstatic : localized f && (isAll (locale a) || negb (flattenLocales a))
                    = false).
  { rewrite Hflat, Hall. apply andb_false_r. }
  split; [|split].
  - intros slot. apply fansOut_static. exact Hstatic.
  - intros s'. unfold shouldRunHookOnAllLocales. rewrite Hstatic. reflexivity.
  - intros paths hs Htrig Hhooks o fp pp lg.
    unfold executeHooks. rewrite Htrig, Hhooks.
    apply (chain_fold a f paths hs Hstatic).
Qed.

(** X16.  When a localized field is read for all locales or without
    flattening and its slot holds a locale map, every hook of the chain is
    called exactly once per locale, in the order of the map's entries, and
    the chain neither adds nor removes nor reorders locales: the slot holds
    afterwards a map with the same locale keys in the same order, and the
    chain fulfils. *)
Theorem fan_out_keeps_locales (a : Args) (f : Field) (paths : Path * SchemaPath)
  (hs : list Hook) (o kvs : Obj) fp pp lg :
  triggerHooks a = true -> hooks_afterRead f = Some hs ->
  localized f && (isAll (locale a) || negb (flattenLocales a)) = true ->
  lookup (slotKey f) o = Some (VObj kvs) ->
  exists kvs',
    executeHooks a f paths (mkState (VObj o) fp pp lg) =
    (mkState (VObj (assign (slotKey f) (VObj kvs') o)) fp pp
       (lg ++ fanOutCalls a f paths 0 hs o), inr tt)
    /\ map fst kvs' = map fst kvs
    /\ List.length (fanOutCalls a f paths 0 hs o) = List.length hs * List.length kvs.
Proof.
  intros Htrig Hhooks Hstatic Hslot.
  destruct (fanOutChain_keys a f paths hs o kvs Hslot) as (kvs' & Hfold & Hkeys).
  destruct (chain_fanOut_calls a f paths hs Hstatic 0 o kvs fp pp lg Hslot)
    as [Hrun Hlen].
  exists kvs'. unfold executeHooks. rewrite Htrig, Hhooks.
  unfold forEach. rewrite Hrun, Hfold. auto.
Qed.

(** X17.  [promise] only ever appends to the two queues: what was queued
    before is still there, in the same order, whether it fulfils or rejects.
    For a field of a type that is not recursed into, the field-promise queue
    is left as it is; the population queue is left as it is too unless the
    field affects data and is a relationship, upload or join. *)
Theorem queues_only_grow (a : Args) (f : Field) (s : State) :
  let r := promise a f s in
  (exists pushed, populationPromises (fst r) = populationPromises s ++ pushed)
  /\ (exists pushed, fieldPromises (fst r) = fieldPromises s ++ pushed)
  /\ (isTraversedType (type f) = false ->
      fieldPromises (fst r) = fieldPromises s
      /\ (fieldAffectsData f = false \/ isReferenceType (type f) = false ->
          populationPromises (fst r) = populationPromises s)).
Proof.
  intros r. unfold r.
  destruct (Tracks_promise a f s) as (evs & Hl & Hp & Hf & _).
  split; [eauto|]. split; [eauto|].
  intros Hleaf.
  destruct (Tracks_fieldPhases a f s) as (evs1 & Hl1 & Hp1 & Hf1 & HP1).
  destruct (field_calls_push_nothing evs1 HP1) as [Hnone Htasks].
  rewrite (promise_leaf a f s Hleaf). split.
  - rewrite Hf1, Hnone. apply app_nil_r.
  - intros Hcond.
    destruct (Tracks_promise_unpopulated a f Hcond s) as (evs2 & Hl2 & _ & _ & HP2).
    rewrite (promise_leaf a f s Hleaf), Hl1 in Hl2.
    apply app_inv_head in Hl2. subst evs2.
    rewrite Hp1, (Htasks HP2). apply app_nil_r.
Qed.

(** X18.  The default fills a missing value and nothing else.  For a
    visible field of a type that is neither sanitized nor recursed into,
    with a default configured and no hook and no denial in the way: when the
    stored value is undefined, the slot holds the resolved default
    afterwards; when the stored value is a locale map that is hoisted and
    has no entry for the requested locale (and none is taken from the
    fallback locale), the slot holds the resolved default as well; any other
    stored value that is not undefined ([null], false, 0, the empty string)
    is kept. *)
Theorem default_fills_missing_value (a : Args) (f : Field) (o : Obj) fp pp lg :
  fieldAffectsData f = true -> hidden f = false ->
  hasSanitizer (type f) = false -> isTraversedType (type f) = false ->
  hooksRun a f = false -> (forall sd, accessDenied a f sd = false) ->
  defaultConfigured f = true ->
  let stored := getPropOpt (VObj o) (slotKey f) in
  let args := mkDefaultArgs (defaultValue f) (locale a) (user (req a)) VUndefined in
  let r := promise a f (mkState (VObj o) fp pp lg) in
  (isUndefined stored = true ->
   siblingDoc (fst r) = VObj (assign (slotKey f) (getDefaultValue args) o))
  /\ (hoistingApplies a f stored = true ->
      getPropOpt stored (localeKey (locale a)) = VUndefined ->
      fallbackSubstituted a f VUndefined
        (getPropOpt stored (localeKey (fallbackLocale a))) = false ->
      siblingDoc (fst r) = VObj (assign (slotKey f) (getDefaultValue args) o))
  /\ (isUndefined stored = false -> hoistingApplies a f stored = false ->
      siblingDoc (fst r) = VObj o)
  /\ snd r = inr tt.
Proof.
  intros Haff Hhid Hsan Hleaf Hhooks Hacc Hdef stored args r.
  assert (Hrun : forall o2 sh,
    hoistLocalizedValue a f (mkState (VObj o) fp pp lg) =
    (mkState (VObj o2) fp pp lg, inr sh) ->
    exists pp' lg',
      r = (mkState
             (VObj (if isUndefined (getPropOpt (VObj o2) (slotKey f))
                    then assign (slotKey f)
                           (getDefaultValue
                              (mkDefaultArgs (defaultValue f) (locale a) (user (req a))
                                 (getPropOpt (VObj o2) (slotKey f)))) o2
                    else o2)) fp pp' lg', inr tt)).
  { intros o2 sh Hhoist. unfold r.
    rewrite promise_run, fieldPhases_run.
    rewrite removeHiddenField_object, hiddenRemoved_visible by exact Hhid.
    rewrite Hhoist, sanitizeField_none by exact Hsan.
    destruct (dataPhases_unhooked a f
                (getFieldPaths f (parentPath a) (parentSchemaPath a) (fieldIndex a))
                o2 fp pp lg Hhooks (Hacc _)) as (pp' & lg' & Hdata & _).
    unfold defaultSubstituted in Hdata. rewrite Haff, Hdef, andb_true_r in Hdata.
    cbn [andb] in Hdata.
    rewrite Hdata, traverseNested_leaf by exact Hleaf. eauto. }
  pose proof (hoistLocalizedValue_object a f o fp pp lg) as Hhoist.
  cbv zeta in Hhoist. fold stored in Hhoist.
  split; [|split; [|split]].
  - intros Hundef.
    assert (Hno : hoistingApplies a f stored = false).
    { apply isUndefined_eq in Hundef. rewrite Hundef.
      apply hoistingApplies_undefined. }
    rewrite Hno in Hhoist. destruct (Hrun o false Hhoist) as (pp' & lg' & ->).
    cbn [fst siblingDoc]. fold stored. rewrite Hundef.
    apply isUndefined_eq in Hundef. rewrite Hundef. reflexivity.
  - intros Happ Hprimary Hfallback.
    rewrite Happ, Hprimary, Hfallback in Hhoist.
    destruct (Hrun _ true Hhoist) as (pp' & lg' & ->).
    cbn [fst siblingDoc]. rewrite getPropOpt_assign_same. cbn [isUndefined].
    rewrite assign_assign. reflexivity.
  - intros Hdefined Hno. rewrite Hno in Hhoist.
    destruct (Hrun o false Hhoist) as (pp' & lg' & ->).
    cbn [fst siblingDoc]. fold stored. rewrite Hdefined. reflexivity.
  - destruct (hoistingApplies a f stored);
      destruct (Hrun _ _ Hhoist) as (pp' & lg' & ->); reflexivity.
Qed.

(** X19.  The field's hooks run before read access control and whatever
    its verdict: for a field whose value is not fanned out, the whole chain
    is called first, the access predicate is then consulted once, on the
    sibling container as the hooks left it, and a denial deletes the key
    the hooks have just written. *)
Theorem access_after_hooks (a : Args) (f : Field) (paths : Path * SchemaPath)
  (hs : list Hook) (read : AccessRead) (o : Obj) fp pp lg :
  triggerHooks a = true -> hooks_afterRead f = Some hs ->
  localized f && (isAll (locale a) || negb (flattenLocales a)) = false ->
  triggerAccessControl a = true -> access_read f = Some read ->
  overrideAccess a = false ->
  let hooked := fold_left (hookStep a f paths) hs o in
  let verdict := read (accessArgs a (VObj hooked)) in
  (executeHooks a f paths ;; executeAccessControl a f)%M (mkState (VObj o) fp pp lg) =
  (mkState (VObj (if verdict then hooked else remove (slotKey f) hooked)) fp pp
     (lg ++ hookCalls a f paths 0 hs o
         ++ [EAccessRead (accessArgs a (VObj hooked)) verdict]),
   inr verdict)
  /\ List.length (hookCalls a f paths 0 hs o) = List.length hs
  /\ (verdict = false ->
      hasOwn (slotKey f) (remove (slotKey f) hooked) = false).
Proof.
  intros Htrig Hhooks Hstatic Hacc Hread Hover hooked verdict.
  split; [|split; [apply hookCalls_length|intros _; apply hasOwn_remove]].
  rewrite bind_run. unfold executeHooks. rewrite Htrig, Hhooks. unfold forEach.
  rewrite (chain_fold_calls a f paths hs Hstatic).
  rewrite executeAccessControl_object, Hacc, Hread, Hover.
  cbv zeta. fold hooked. fold verdict. rewrite <- app_assoc.
  destruct verdict; reflexivity.
Qed.

(** X20.  A denial does not end the processing of a rich-text field: after
    the access step has deleted the key, the editor's hooks still run, on an
    undefined value, and a defined result of theirs is stored under the key
    again. *)
Theorem editor_hooks_after_denial (a : Args) (f : Field) (o : Obj) fp pp lg
  (afterRead : option (list EditorHook)) (read : AccessRead) :
  type f = RichText -> editor f = EditorAdapter afterRead ->
  fieldAffectsData f = true -> hidden f = false -> localized f = false ->
  hooksRun a f = false ->
  triggerAccessControl a = true -> access_read f = Some read ->
  overrideAccess a = false -> read (accessArgs a (VObj o)) = false ->
  let paths := getFieldPaths f (parentPath a) (parentSchemaPath a) (fieldIndex a) in
  let hs := editorHooksOf afterRead in
  let denied := mkChain (remove (slotKey f) o) fp pp in
  let r := promise a f (mkState (VObj o) fp pp lg) in
  snd r = inr tt
  /\ siblingDoc (fst r) =
     VObj (c_doc (fold_left (editorHookStep a f paths) hs denied))
  /\ log (fst r) =
     lg ++ [EAccessRead (accessArgs a (VObj o)) false]
        ++ editorCalls a f paths 0 hs denied
  /\ (forall h, hs = [h] ->
      let v :=
        eh_value (h (editorHookArgs a paths (locale a) (VObj (remove (slotKey f) o))
                       VUndefined fp (List.length pp))) in
      isUndefined v = false ->
      getProp (siblingDoc (fst r)) (slotKey f) = inr v).
Proof.
  intros Ht Hed Haff Hhid Hloc Hhooks Hacc Hread Hover Hdeny paths hs denied r.
  assert (Hstatic : localized f && (isAll (locale a) || negb (flattenLocales a))
                    = false) by (rewrite Hloc; reflexivity).
  assert (Hr : r = (chainState (fold_left (editorHookStep a f paths) hs denied)
                      ((lg ++ [EAccessRead (accessArgs a (VObj o)) false])
                       ++ editorCalls a f paths 0 hs denied), inr tt)).
  { unfold r. rewrite promise_run, fieldPhases_run.
    rewrite removeHiddenField_object, hiddenRemoved_visible by exact Hhid.
    rewrite hoistLocalizedValue_nonlocalized by exact Hloc.
    assert (Hsan : sanitizeField f (mkState (VObj o) fp pp lg) =
                   (mkState (VObj o) fp pp lg, inr tt)).
    { unfold sanitizeField, checkEditor. rewrite Ht, Hed. reflexivity. }
    rewrite Hsan. fold paths.
    assert (Hdata : dataPhases a f paths (mkState (VObj o) fp pp lg) =
                    (chainState denied
                       (lg ++ [EAccessRead (accessArgs a (VObj o)) false]), inr tt)).
    { unfold dataPhases. rewrite Haff.
      unfold hooksRun in Hhooks. rewrite Haff in Hhooks. cbn [andb] in Hhooks.
      rewrite bind_run, executeHooks_none by exact Hhooks.
      rewrite bind_run, executeAccessControl_object, Hacc, Hread, Hover.
      cbv zeta. rewrite Hdeny.
      rewrite bind_run. unfold setDefaultValue, ret at 1.
      apply schedulePopulation_other. rewrite Ht. reflexivity. }
    rewrite Hdata. unfold traverseNested. rewrite Ht, bind_run.
    unfold checkEditor. rewrite Hed. unfold ret at 1.
    apply executeEditorHooks_static; assumption. }
  rewrite Hr. cbn [fst snd siblingDoc log chainState]. rewrite <- app_assoc.
  split; [reflexivity|]. split; [reflexivity|]. split; [reflexivity|].
  intros h Hone Hv. rewrite Hone. cbn [fold_left]. unfold editorHookStep.
  assert (Hslot : getPropOpt (VObj (remove (slotKey f) o)) (slotKey f) = VUndefined)
    by apply getPropOpt_remove_same.
  unfold editorCallArgs, denied.
  cbn [c_doc c_fieldPromises c_populationPromises]. rewrite Hslot, Hv.
  cbn [getProp]. rewrite lookup_assign_same. reflexivity.
Qed.

(** X21.  For a blocks field whose slot holds a sequence of rows none of
    which is [null] or undefined, the recursion fulfils and the slot holds
    as many rows afterwards: a row that selects a configured block is what
    the recursion into it, with that block's fields and the row's index
    appended to the path, left of it; every other row is as it was. *)
Theorem blocks_rows_after (a : Args) (f : Field) (s0 s1 : State) (sh : bool)
  (o : Obj) (rows : list JsValue) :
  type f = Blocks ->
  fieldPhases a f s0 = (s1, inr sh) ->
  siblingDoc s1 = VObj o ->
  getPropOpt (VObj o) (slotKey f) = VArr rows ->
  Forall (fun row => isUndefined row || isNull row = false) rows ->
  let paths := getFieldPaths f (parentPath a) (parentSchemaPath a) (fieldIndex a) in
  let rows' := blockRowsAfter a f paths 0 rows in
  let r := promise a f s0 in
  snd r = inr tt
  /\ siblingDoc (fst r) = VObj (assign (slotKey f) (VArr rows') o)
  /\ (forall i row b,
      nth_error rows i = Some row -> matchingBlock f row = Some b ->
      nth_error rows' i =
      Some (r_siblingDoc
              (traverseFields
                 (traverseArgs a (block_fields b) (fst paths ++ [SegIndex i])
                    (snd paths)) row)))
  /\ (forall i row,
      nth_error rows i = Some row -> matchingBlock f row = None ->
      nth_error rows' i = Some row).
Proof.
  intros Ht Hphases Hdoc Hslot Hrows paths rows' r.
  assert (Hr : r = traverseRows f sh (blocksRow a f paths) s1).
  { unfold r. rewrite promise_run, Hphases. unfold traverseNested.
    rewrite Ht. reflexivity. }
  destruct s1 as [d fp pp lg]. simpl in Hdoc. subst d.
  unfold traverseRows in Hr. rewrite bind_run, readSlot_object, Hslot in Hr.
  cbv iota in Hr. rewrite bind_run in Hr.
  destruct (mapRows_blocksRow_after a f paths rows Hrows 0
              (mkState (VObj o) fp pp lg)) as (fp' & pp' & lg' & Hrun).
  rewrite Hrun in Hr. rewrite Hr.
  split; [reflexivity|]. split; [reflexivity|]. split.
  - intros i row b Hn Hm. unfold rows'.
    rewrite (blockRowsAfter_nth a f paths rows 0 i row Hn).
    unfold blockRowAfter, rowAfter.
    rewrite Hm, (matchingBlock_object f row b Hm). reflexivity.
  - intros i row Hn Hm. unfold rows'.
    rewrite (blockRowsAfter_nth a f paths rows 0 i row Hn).
    unfold blockRowAfter. rewrite Hm. reflexivity.
Qed.


(** X23.  The editor's hooks are fanned out like the field's: for a
    localized rich-text field read for all locales or without flattening,
    whose slot holds a locale map when [promise] recurses, each hook of the
    adapter is called once per locale, in the order of the map's entries, on
    that locale's value, and is told that locale, not the requested one, as
    its locale; a defined result replaces that locale's entry, and what the
    calls pushed is at the end of the queues.  The slot holds afterwards a
    map with the same locale keys in the same order. *)
Theorem editor_hooks_fan_out (a : Args) (f : Field) (s0 s1 : State) (sh : bool)
  (o kvs : Obj) (afterRead : option (list EditorHook)) :
  type f = RichText -> editor f = EditorAdapter afterRead ->
  localized f && (isAll (locale a) || negb (flattenLocales a)) = true ->
  fieldPhases a f s0 = (s1, inr sh) ->
  siblingDoc s1 = VObj o ->
  lookup (slotKey f) o = Some (VObj kvs) ->
  let paths := getFieldPaths f (parentPath a) (parentSchemaPath a) (fieldIndex a) in
  let hs := editorHooksOf afterRead in
  let c := mkChain o (fieldPromises s1) (populationPromises s1) in
  let r := promise a f s0 in
  r = (chainState (fold_left (editorFanOutStep a f paths) hs c)
         (log s1 ++ editorFanOutCalls a f paths 0 hs c), inr tt)
  /\ (exists kvs',
        siblingDoc (fst r) = VObj (assign (slotKey f) (VObj kvs') o)
        /\ map fst kvs' = map fst kvs)
  /\ (forall h, hs = [h] ->
      let calls :=
        editorLocaleCalls a paths h (VObj o) kvs (fieldPromises s1)
          (populationPromises s1) in
      log (fst r) = log s1 ++ map (fun call => EEditorHook 0 (fst call) (snd call)) calls
      /\ map (fun call => e_locale (fst call)) calls = map (fun e => Some (fst e)) kvs
      /\ map (fun call => h_value (e_base (fst call))) calls = map snd kvs
      /\ siblingDoc (fst r) =
         VObj (assign (slotKey f) (VObj (fold_left storeAnswer calls kvs)) o)).
Proof.
  intros Ht Hed Hfan Hphases Hdoc Hslot paths hs c r.
  destruct s1 as [d fp pp lg]. simpl in Hdoc. subst d.
  assert (Hr : r = (chainState (fold_left (editorFanOutStep a f paths) hs c)
                      (lg ++ editorFanOutCalls a f paths 0 hs c), inr tt)).
  { unfold r. rewrite promise_run, Hphases. fold paths.
    unfold traverseNested. rewrite Ht, bind_run.
    unfold checkEditor. rewrite Hed. unfold ret at 1.
    unfold executeEditorHooks. rewrite Hed. unfold hs.
    destruct afterRead as [[|h hs']|]; cbn [editorHooksOf fold_left editorFanOutCalls];
      try (unfold ret, chainState, c; rewrite app_nil_r; reflexivity).
    apply (editorChain_fanOut a f paths (h :: hs') Hfan 0 c kvs lg Hslot). }
  assert (Hget : getPropOpt (VObj o) (slotKey f) = VObj kvs).
  { unfold getPropOpt. simpl. now rewrite Hslot. }
  split; [exact Hr|]. rewrite Hr. cbn [fst siblingDoc log chainState]. split.
  - destruct (editorFanOutChain_keys a f paths hs c kvs Hslot)
      as (kvs' & Hfold & Hkeys).
    exists kvs'. rewrite Hfold. auto.
  - intros h ->. cbv zeta. cbn [fold_left editorFanOutCalls].
    unfold editorFanOutStep.
    cbn [c c_doc c_fieldPromises c_populationPromises fieldPromises
         populationPromises].
    rewrite Hget, app_nil_r.
    split; [reflexivity|].
    split; [apply editorLocaleCalls_locales|].
    split; [apply editorLocaleCalls_values|reflexivity].
Qed.

(** X24.  The editor check of the recursion (lines 594-599) can never
    fail: whenever the steps before the recursion have completed for a
    rich-text field, sanitization has already made the same check, so the
    editor is a resolved adapter and the second check passes. *)
Theorem second_editor_check_passes (a : Args) (f : Field) (s0 s1 : State)
  (sh : bool) :
  type f = RichText ->
  fieldPhases a f s0 = (s1, inr sh) ->
  (exists afterRead, editor f = EditorAdapter afterRead)
  /\ editorError f = None
  /\ (forall s, checkEditor f s = (s, inr tt))
  /\ forall paths,
       traverseNested a f paths sh s1 = executeEditorHooks a f paths s1.
Proof.
  intros Ht Hphases.
  assert (Hed : exists afterRead, editor f = EditorAdapter afterRead).
  { rewrite fieldPhases_run in Hphases.
    destruct (removeHiddenField a f s0) as [s2 [e|[]]]; [discriminate|].
    destruct (hoistLocalizedValue a f s2) as [s3 [e|sh']]; [discriminate|].
    unfold sanitizeField, checkEditor in Hphases. rewrite Ht in Hphases.
    destruct (editor f) as [| |afterRead]; try discriminate. eauto. }
  destruct Hed as (afterRead & Hed).
  split; [eauto|]. unfold editorError, checkEditor. rewrite Hed.
  split; [reflexivity|]. split; [reflexivity|].
  intros paths. unfold traverseNested. rewrite Ht, bind_run.
  unfold checkEditor. rewrite Hed. reflexivity.
Qed.

(** X25.  A group whose slot is undefined is created: sanitization stores
    an empty object under the key, and, with no hook and no denial in the
    way, the recursion is into that stored object, so that what the nested
    fields build on it (defaults, hook results) is in the slot afterwards.
    This is the opposite of a group whose slot holds a value that is no
    object, for which the recursion's result is dropped. *)
Theorem missing_group_created (a : Args) (f : Field) (o : Obj) fp pp lg :
  type f = Group ->
  isUndefined (getPropOpt (VObj o) (slotKey f)) = true ->
  let created := assign (slotKey f) (VObj []) o in
  let paths := getFieldPaths f (parentPath a) (parentSchemaPath a) (fieldIndex a) in
  let t := traverseArgs a (fields f) (fst paths) (snd paths) in
  let nested := traverseFields t (VObj []) in
  let r := promise a f (mkState (VObj o) fp pp lg) in
  sanitizeField f (mkState (VObj o) fp pp lg) = (mkState (VObj created) fp pp lg, inr tt)
  /\ (hooksRun a f = false -> accessDenied a f (VObj created) = false ->
      snd r = inr tt
      /\ siblingDoc (fst r) = VObj (assign (slotKey f) (r_siblingDoc nested) o)
      /\ exists evs, log (fst r) = lg ++ evs ++ [ETraverse t (VObj [])]).
Proof.
  intros Ht Hundef created paths t nested r.
  assert (Hsan : sanitizeField f (mkState (VObj o) fp pp lg) =
                 (mkState (VObj created) fp pp lg, inr tt)).
  { unfold sanitizeField. rewrite Ht, bind_run, readSlot_object, Hundef.
    reflexivity. }
  split; [exact Hsan|].
  intros Hhooks Hacc. unfold r. rewrite promise_run, fieldPhases_run.
  assert (Hvis : hiddenRemoved a f o = false).
  { unfold hiddenRemoved. rewrite Hundef.
    destruct (fieldAffectsData f), (hidden f); reflexivity. }
  rewrite removeHiddenField_object, Hvis, hoistLocalizedValue_object.
  cbv zeta. rewrite (isUndefined_eq _ Hundef), hoistingApplies_undefined, Hsan.
  destruct (dataPhases_unhooked a f paths created fp pp lg Hhooks Hacc)
    as (pp' & lg' & Hdata & _).
  assert (Hslot : getPropOpt (VObj created) (slotKey f) = VObj [])
    by apply getPropOpt_assign_same.
  unfold defaultSubstituted in Hdata. rewrite Hslot in Hdata.
  cbn [isUndefined] in Hdata. rewrite andb_false_r in Hdata. cbn [andb] in Hdata.
  fold paths. rewrite Hdata.
  assert (Htrav : traverseSlot t (slotKey f)
                    (mkState (VObj created) fp pp' (lg ++ lg')) =
    (mkState (VObj (assign (slotKey f) (r_siblingDoc nested) created))
       (fp ++ r_fieldPromises nested) (pp' ++ r_populationPromises nested)
       ((lg ++ lg') ++ [ETraverse t (VObj [])]), inr tt)).
  { unfold traverseSlot. rewrite bind_run, readSlot_object, Hslot.
    reflexivity. }
  unfold traverseNested. rewrite Ht. fold t. rewrite Htrav.
  cbn [fst snd siblingDoc log]. unfold created. rewrite assign_assign.
  split; [reflexivity|]. split; [reflexivity|].
  exists lg'. rewrite app_assoc. reflexivity.
Qed.

(** X26.  For a blocks field, when the slot holds at the time of the
    recursion neither a sequence nor, with locales not hoisted, a mapping,
    the recursion stores an empty sequence in the slot and recurses into
    nothing: a blocks field that is missing, [null] or a primitive reads as
    [[]]. *)
Theorem blocks_slot_reset (a : Args) (f : Field) (s0 s1 : State) (sh : bool)
  (o : Obj) :
  type f = Blocks ->
  fieldPhases a f s0 = (s1, inr sh) ->
  siblingDoc s1 = VObj o ->
  let slot := getPropOpt (VObj o) (slotKey f) in
  (forall rows, slot <> VArr rows) ->
  (sh = true \/ forall kvs, slot <> VObj kvs) ->
  promise a f s0 = (withDoc (VObj (assign (slotKey f) (VArr []) o)) s1, inr tt)
  /\ getProp (siblingDoc (fst (promise a f s0))) (slotKey f) = inr (VArr [])
  /\ log (fst (promise a f s0)) = log s1.
Proof.
  intros Ht Hphases Hdoc slot Harr Hobj.
  assert (Hrun : promise a f s0 =
                 (withDoc (VObj (assign (slotKey f) (VArr []) o)) s1, inr tt)).
  { rewrite promise_run, Hphases. unfold traverseNested. rewrite Ht.
    destruct s1 as [d fp pp lg]. simpl in Hdoc. subst d.
    unfold traverseRows. rewrite bind_run, readSlot_object. fold slot.
    destruct slot as [| | | | |rows|kvs] eqn:Hs; try reflexivity.
    - destruct (Harr rows). reflexivity.
    - destruct Hobj as [->|Hobj]; [reflexivity|].
      destruct (Hobj kvs). reflexivity. }
  split; [exact Hrun|]. rewrite Hrun. cbn [fst withDoc siblingDoc log getProp].
  rewrite lookup_assign_same. auto.
Qed.

End Steps.

(** ** The claims on sample inputs *)


(** For a field that is not text-like an empty string is kept, a null entry
    is replaced by the fallback entry. *)
Example hoisting_of_a_number_field :
  let f := mkField Number (Some "n") true false None None None EditorAbsent [] [] [] in
  @promise (reference 0) fallbackArgs f
    (sampleState [("n", VObj [("en", VStr ""); ("de", VNum 7)])]) =
  (sampleState [("n", VStr "")], inr tt)
  /\ @promise (reference 0) fallbackArgs f
       (sampleState [("n", VObj [("en", VNull); ("de", VNum 7)])]) =
     (sampleState [("n", VNum 7)], inr tt).
Proof. split; reflexivity. Qed.

(** C2, as stated, fails on a localized field read for all locales: the
    chain [[h1, h2]] is applied to every locale's entry and the value is a
    locale map afterwards, not 'A'. *)
Lemma hooks_fan_out_counterexample :
  let r := @promise (reference 0) allLocalesArgs (titleField true)
             (sampleState [("title", VObj [("en", VStr "x"); ("de", VStr "y")])]) in
  @fieldAffectsData (reference 0) (titleField true) = true
  /\ triggerHooks allLocalesArgs = true
  /\ hooks_afterRead (titleField true) = Some [hookA; hookUpper]
  /\ snd r = inr tt
  /\ getProp (siblingDoc (fst r)) "title" =
     inr (VObj [("en", VStr "A"); ("de", VStr "A")])
  /\ getProp (siblingDoc (fst r)) "title" <> inr (VStr "A").
Proof. repeat split; try reflexivity. discriminate. Qed.

Lemma hooks_in_declared_order_witness :
  triggerHooks sampleArgs = true
  /\ hooks_afterRead (titleField false) = Some [hookA; hookUpper]
  /\ getProp
       (siblingDoc
          (fst (executeHooks sampleArgs (titleField false)
                  ([SegName "title"], ["title"])
                  (sampleState [("title", VStr "x")]))))
       "title" = inr (VStr "A").
Proof.
  split; [reflexivity|]. split; [reflexivity|].
  apply (proj1 (proj2 (proj2 (proj2
           (@hooks_in_declared_order (reference 0) sampleArgs (titleField false)
              ([SegName "title"], ["title"]) [hookA; hookUpper]
              eq_refl eq_refl))))
         hookA hookUpper [("title", VStr "x")] [] [] []).
  - reflexivity.
  - reflexivity.
  - intros x s Hv. unfold hookUpper. rewrite Hv. reflexivity.
  - reflexivity.
Defined.

(** C3, as stated, fails for an 'array' field: the access step deletes the
    key, and the recursion then stores [[]] under it again. *)
Lemma access_denial_array_counterexample :
  let s := sampleState [("guarded", VArr [VObj [("caption", VStr "c")]])] in
  let r := @promise (reference 1) sampleArgs (guardedField Array) s in
  @fieldAffectsData (reference 1) (guardedField Array) = true
  /\ access_read (guardedField Array) = Some denyAll
  /\ overrideAccess sampleArgs = false
  /\ (exists x, In (EAccessRead x false) (log (fst r)))
  /\ siblingDoc (fst r) = VObj [("guarded", VArr [])]
  /\ hasOwn "guarded" [("guarded", VArr [])] = true.
Proof.
  repeat split; try reflexivity.
  eexists. left. reflexivity.
Qed.

Lemma access_denial_witness :
  let s := sampleState [("guarded", VStr "secret")] in
  let r := @fieldPhases (reference 0) sampleArgs (guardedField Text) s in
  (exists x, In (EAccessRead x false) (log (fst r)))
  /\ (exists o', siblingDoc (fst r) = VObj o' /\ hasOwn "guarded" o' = false)
  /\ (forall x v, ~ In (EDefault x v) (log (fst r))).
Proof.
  intros s r.
  assert (Hdenied : exists x, In (EAccessRead x false) (log (fst r))).
  { eexists. left. reflexivity. }
  split; [exact Hdenied|].
  destruct (proj1 (@access_denial (reference 0) sampleArgs (guardedField Text)
                     [("guarded", VStr "secret")] [] []) Hdenied)
    as (Hkey & Hdefault & _).
  split; [exact Hkey|exact Hdefault].
Defined.

Lemma point_sanitization_witness :
  let o := [("location",
             VObj [("coordinates", VArr [VNum 1; VNum 2]); ("type", VStr "Point")])] in
  type locationField = Point
  /\ @promise (reference 0) sampleArgs locationField (sampleState o) =
     (sampleState [("location", VArr [VNum 1; VNum 2])], inr tt).
Proof.
  intros o. split; [reflexivity|].
  destruct (@point_sanitization (reference 0) sampleArgs locationField o [] [] []
              eq_refl) as (_ & _ & _ & Hexample & _ & Hpromise).
  unfold sampleState. rewrite Hpromise by reflexivity.
  apply Hexample. reflexivity.
Defined.

(** A localized array with a hook that holds [null] and is read for all
    locales: [promise] rejects and the slot is not reset.  An array that
    holds an object and [null]: both rows are recursed into, the second on a
    new object that is dropped. *)
Lemma array_recursion_witness :
  let s := sampleState [("rows", VNull)] in
  let o := [("rows", VArr [VObj []; VNull])] in
  type localizedRowsField = Array
  /\ @hooksRun (reference 1) allLocalesArgs localizedRowsField = true
  /\ @promise (reference 1) allLocalesArgs localizedRowsField s = (s, inl TypeError)
  /\ getProp (siblingDoc (fst (@promise (reference 1) allLocalesArgs
                                 localizedRowsField s))) "rows" = inr VNull
  /\ type rowsField = Array
  /\ @promise (reference 1) sampleArgs rowsField (sampleState o) =
     (mkState (VObj [("rows", VArr [VObj [("caption", VStr "none")]; VNull])])
        [Fulfilled; Fulfilled] []
        (rowCalls sampleArgs [captionField] ([SegName "rows"], ["rows"])
           0 [VObj []; VNull]),
      inr tt).
Proof.
  intros s o. split; [reflexivity|]. split; [reflexivity|].
  assert (Hrejects : @promise (reference 1) allLocalesArgs localizedRowsField s
                     = (s, inl TypeError)).
  { destruct (@array_recursion (reference 1) allLocalesArgs localizedRowsField
                [("rows", VNull)] [] [] [] eq_refl) as (o1 & _ & _ & Hfail & _).
    destruct (Hfail TypeError eq_refl) as (Hr & _). exact Hr. }
  split; [exact Hrejects|]. split; [rewrite Hrejects; reflexivity|].
  split; [reflexivity|].
  destruct (@array_recursion (reference 1) sampleArgs rowsField o [] [] [] eq_refl)
    as (o1 & Hdoc & Hok & _).
  injection Hdoc as <-.
  destruct (Hok false eq_refl) as (Hrows & _).
  destruct (Hrows [VObj []; VNull] eq_refl) as (Hr & _).
  exact Hr.
Defined.

(** A blocks field with a [null] row between two rows of a configured
    block: the first row is recursed into, the loop ends at the [null] row and
    [promise] rejects; the third row is not recursed into, and the row that
    selects no block is kept. *)
Lemma unmatched_block_rows_witness :
  let o := [("layout", VArr [heroRow; strayRow; VNull; heroRow])] in
  let s1 := fst (@fieldPhases (reference 1) sampleArgs layoutField (sampleState o)) in
  let r := @promise (reference 1) sampleArgs layoutField (sampleState o) in
  type layoutField = Blocks
  /\ @fieldPhases (reference 1) sampleArgs layoutField (sampleState o) = (s1, inr false)
  /\ siblingDoc s1 = VObj o
  /\ matchingBlock layoutField heroRow = Some (mkBlock "hero" [captionField])
  /\ matchingBlock layoutField strayRow = None
  /\ r = (mkState
            (VObj [("layout",
                    VArr [VObj [("blockType", VStr "hero"); ("caption", VStr "none")];
                          strayRow; VNull; heroRow])])
            [Fulfilled] []
            [blockCall sampleArgs ([SegName "layout"], ["layout"])
               (mkBlock "hero" [captionField]) 0 heroRow],
          inl TypeError).
Proof.
  intros o s1 r. repeat (split; [reflexivity|]).
  destruct (proj1 (@unmatched_block_rows (reference 1) sampleArgs layoutField
                     (sampleState o) s1 false o eq_refl eq_refl eq_refl)
              [heroRow; strayRow; VNull; heroRow] eq_refl)
    as (Hr & _).
  exact Hr.
Defined.

(** C7, as stated, fails for a hidden rich-text field: the slot has been
    inspected and deleted by the time the configuration error is raised; and
    on a sibling container that is [null] the inspection itself throws, so
    that the field, although it has no editor, ends with a [TypeError] and not
    with a configuration error. *)
Lemma editor_error_after_hidden_removal_counterexample :
  let s := sampleState [("content", VStr "x")] in
  let r := @promise (reference 0) sampleArgs contentField s in
  let r' := @promise (reference 0) sampleArgs contentField (mkState VNull [] [] []) in
  type contentField = RichText
  /\ editor contentField = EditorAbsent
  /\ snd r = inl MissingEditorProp
  /\ siblingDoc s = VObj [("content", VStr "x")]
  /\ siblingDoc (fst r) = VObj []
  /\ siblingDoc (fst r) <> siblingDoc s
  /\ snd r' = inl TypeError
  /\ isConfigError TypeError = false.
Proof. repeat split; try reflexivity. discriminate. Qed.

(** A hidden rich-text field without an editor: the configuration error on
    an object, a [TypeError] on [null]. *)
Lemma editor_configuration_error_witness :
  let r := @promise (reference 0) sampleArgs contentField
             (sampleState [("content", VStr "x")]) in
  let nowhere := mkState VNull [] [] [] in
  (type contentField = RichText
   /\ (editor contentField = EditorAbsent \/ editor contentField = EditorFactory))
  /\ (exists e, snd r = inl e /\ isConfigError e = true)
  /\ @promise (reference 0) sampleArgs contentField nowhere = (nowhere, inl TypeError).
Proof.
  intros r nowhere.
  assert (Hcfg : type contentField = RichText
                 /\ (editor contentField = EditorAbsent
                     \/ editor contentField = EditorFactory)).
  { split; [reflexivity|left; reflexivity]. }
  split; [exact Hcfg|]. split.
  - apply (proj1 (@editor_configuration_error (reference 0) sampleArgs contentField
                    (sampleState [("content", VStr "x")]))).
    + intros [Hn|Hn]; discriminate Hn.
    + exact Hcfg.
  - apply (proj1 (proj2 (proj2 (@editor_configuration_error (reference 0) sampleArgs
                                  contentField nowhere)))).
    + left. reflexivity.
    + reflexivity.
Defined.

(** A relationship on an object: one task, holding the field and the
    container.  A localized relationship with a hook that holds [null] and is
    read for all locales: [promise] rejects before any hook is called, and no
    task is queued. *)
Lemma population_scheduling_witness :
  let r := @promise (reference 0) sampleArgs authorField
             (sampleState [("author", VNum 12)]) in
  let s := sampleState [("author", VNull)] in
  let r' := @promise (reference 0) allLocalesArgs localizedAuthorField s in
  @fieldAffectsData (reference 0) authorField = true
  /\ isReferenceType (type authorField) = true
  /\ (exists t, populationPromises (fst r) = [RelationshipPopulation t]
                /\ p_field t = authorField
                /\ p_siblingDoc t = VObj [("author", VNum 12)])
  /\ @fieldAffectsData (reference 0) localizedAuthorField = true
  /\ isReferenceType (type localizedAuthorField) = true
  /\ r' = (s, inl TypeError)
  /\ populationPromises (fst r') = []
  /\ log (fst r') = [].
Proof.
  intros r s r'. split; [reflexivity|]. split; [reflexivity|]. split.
  - destruct (proj1 (@population_scheduling (reference 0) sampleArgs authorField
                       (sampleState [("author", VNum 12)]))
                eq_refl eq_refl)
      as (evs & _ & _
          & [(t & _ & Hq & _ & _ & _ & _ & _ & _ & Hf & _ & _ & _ & _ & Hsd)
            |(Hko & _)]).
    + exists t. split; [exact Hq|]. split; [exact Hf|exact Hsd].
    + discriminate Hko.
  - split; [reflexivity|]. split; [reflexivity|]. split; [reflexivity|].
    destruct (proj1 (@population_scheduling (reference 0) allLocalesArgs
                       localizedAuthorField s)
                eq_refl eq_refl)
      as (evs & _ & _ & [(t & Hok & _)|(_ & Hq & _)]).
    + discriminate Hok.
    + split; [exact Hq|reflexivity].
Defined.

(** C9, as stated, fails for a hidden field and for an array field: the
    value of the first is removed and the value of the second is replaced by
    [[]], although neither field is localized or has a sanitizer, hook,
    access predicate or default. *)
Lemma nonlocalized_frame_counterexample :
  let s := sampleState [("secret", VStr "x")] in
  let r := @promise (reference 0) sampleArgs secretField s in
  let s' := sampleState [("list", VNum 5)] in
  let r' := @promise (reference 0) sampleArgs (plainField Array "list") s' in
  (localized secretField = false
   /\ hasSanitizer (type secretField) = false
   /\ hooks_afterRead secretField = None
   /\ access_read secretField = None
   /\ defaultValue secretField = None
   /\ getProp (siblingDoc s) "secret" = inr (VStr "x")
   /\ r = (sampleState [], inr tt)
   /\ getProp (siblingDoc (fst r)) "secret" = inr VUndefined)
  /\ (localized (plainField Array "list") = false
      /\ hasSanitizer Array = false
      /\ getProp (siblingDoc s') "list" = inr (VNum 5)
      /\ r' = (sampleState [("list", VArr [])], inr tt)).
Proof. repeat split; reflexivity. Qed.

Lemma nonlocalized_frame_witness :
  let f := plainField Text "title" in
  let o := [("title", VStr "x")] in
  localized f = false
  /\ @hiddenRemoved (reference 0) sampleArgs f o = false
  /\ siblingDoc (fst (@promise (reference 0) sampleArgs f (sampleState o))) = VObj o.
Proof.
  intros f o. split; [reflexivity|]. split; [reflexivity|].
  destruct (@nonlocalized_frame (reference 0) sampleArgs f o [] [] [] eq_refl)
    as (_ & _ & _ & Hframe).
  apply Hframe; reflexivity.
Defined.

Lemma fresh_container_dropped_witness :
  let o := [("meta", VStr "oops")] in
  let s1 := fst (@fieldPhases (reference 1) sampleArgs metaField (sampleState o)) in
  (type metaField = Group
   \/ (type metaField = Tab /\ @tabHasName (reference 1) metaField = true))
  /\ @fieldPhases (reference 1) sampleArgs metaField (sampleState o) = (s1, inr false)
  /\ siblingDoc s1 = VObj o
  /\ isObjectType (getPropOpt (VObj o) "meta") = false
  /\ siblingDoc (fst (@promise (reference 1) sampleArgs metaField (sampleState o)))
     = VObj o
  /\ r_siblingDoc
       (@traverseFields (reference 1)
          (traverseArgs sampleArgs [captionField] [SegName "meta"] ["meta"])
          (VObj []))
     = VObj [("caption", VStr "none")].
Proof.
  intros o s1.
  assert (Hty : type metaField = Group
                \/ (type metaField = Tab /\ @tabHasName (reference 1) metaField = true))
    by (left; reflexivity).
  split; [exact Hty|]. split; [reflexivity|]. split; [reflexivity|].
  split; [reflexivity|]. split; [|reflexivity].
  rewrite (@fresh_container_dropped (reference 1) sampleArgs metaField
             (sampleState o) s1 false o Hty eq_refl eq_refl eq_refl).
  reflexivity.
Defined.

(** ** The further properties on sample inputs *)

Lemma point_sanitized_twice_witness :
  let o := [("location",
             VObj [("type", VStr "Point"); ("coordinates", VArr [VNum 1; VNum 2])])] in
  type locationField = Point
  /\ @sanitizeField (reference 0) locationField (sampleState o) =
     (sampleState [("location", VArr [VNum 1; VNum 2])], inr tt)
  /\ (@sanitizeField (reference 0) locationField ;;
      @sanitizeField (reference 0) locationField)%M (sampleState o) =
     (sampleState [("location", VUndefined)], inr tt).
Proof.
  intros o. split; [reflexivity|]. split; [reflexivity|].
  exact (@point_sanitized_twice (reference 0) locationField o [] [] [] eq_refl).
Defined.

Lemma layout_field_transparent_witness :
  let s := sampleState [("title", VStr "x")] in
  @fieldAffectsData (reference 1) spacerField = false
  /\ @promise (reference 1) sampleArgs noteField s = (s, inr tt)
  /\ siblingDoc (fst (@promise (reference 1) sampleArgs spacerField s)) =
     VObj [("title", VStr "x"); ("caption", VStr "none")].
Proof.
  intros s. split; [reflexivity|].
  destruct (@layout_field_transparent (reference 1) sampleArgs noteField s eq_refl)
    as (_ & Hnothing & _).
  split; [exact (Hnothing eq_refl eq_refl)|].
  destruct (@layout_field_transparent (reference 1) sampleArgs spacerField s eq_refl)
    as (_ & _ & Hrow).
  rewrite (Hrow (or_introl eq_refl)). reflexivity.
Defined.

Lemma container_recursion_stored_witness :
  let o := [("meta", VObj [("caption", VStr "c")]); ("n", VNum 1)] in
  let s1 := fst (@fieldPhases (reference 1) sampleArgs metaField (sampleState o)) in
  (type metaField = Group
   \/ (type metaField = Tab /\ @tabHasName (reference 1) metaField = true))
  /\ @fieldPhases (reference 1) sampleArgs metaField (sampleState o) = (s1, inr false)
  /\ siblingDoc s1 = VObj o
  /\ isObjectType (getPropOpt (VObj o) "meta") = true
  /\ siblingDoc (fst (@promise (reference 1) sampleArgs metaField
                        (sampleState [("meta", VObj []); ("n", VNum 1)])))
     = VObj [("meta", VObj [("caption", VStr "none")]); ("n", VNum 1)]
  /\ fst (@promise (reference 1) sampleArgs metaField (sampleState o)) =
     mkState (VObj o) [Fulfilled] []
       [ETraverse (traverseArgs sampleArgs [captionField] [SegName "meta"] ["meta"])
          (VObj [("caption", VStr "c")])].
Proof.
  intros o s1.
  assert (Hty : type metaField = Group
                \/ (type metaField = Tab /\ @tabHasName (reference 1) metaField = true))
    by (left; reflexivity).
  split; [exact Hty|]. split; [reflexivity|]. split; [reflexivity|].
  split; [reflexivity|]. split; [reflexivity|].
  rewrite (proj1 (@container_recursion_stored (reference 1) sampleArgs metaField
                    (sampleState o) s1 false o Hty eq_refl eq_refl eq_refl)).
  reflexivity.
Defined.

Lemma tabs_sanitization_witness :
  let o := [("seo", VNull); ("n", VNum 1)] in
  type tabsField = Tabs
  /\ @sanitizeField (reference 0) tabsField (sampleState o) =
     (sampleState [("seo", VObj []); ("n", VNum 1)], inr tt)
  /\ lookup "n" (fold_left (@fillTab (reference 0)) (tabs tabsField) o) = Some (VNum 1).
Proof.
  intros o. split; [reflexivity|].
  destruct (@tabs_sanitization (reference 0) tabsField o [] [] [] eq_refl)
    as (Hrun & _ & Hkept & _).
  split; [exact Hrun|]. apply (Hkept "n"). reflexivity.
Defined.

Lemma tabs_recursion_witness :
  let o := [("n", VNum 1)] in
  type tabsField = Tabs
  /\ @fieldAffectsData (reference 2) tabsField = false
  /\ siblingDoc (fst (@promise (reference 2) sampleArgs tabsField (sampleState o))) =
     VObj [("n", VNum 1); ("seo", VObj [("caption", VStr "none")]);
           ("caption", VStr "none")].
Proof.
  intros o. split; [reflexivity|]. split; [reflexivity|]. unfold sampleState.
  rewrite (proj1 (@tabs_recursion (reference 2) sampleArgs tabsField o [] [] []
                    eq_refl eq_refl)).
  reflexivity.
Defined.

Lemma hidden_field_default_witness :
  let o := [("pin", VStr "1234")] in
  let r := @promise (reference 0) sampleArgs pinField (sampleState o) in
  @fieldAffectsData (reference 0) pinField = true
  /\ hidden pinField = true /\ showHiddenFields sampleArgs = false
  /\ @hooksRun (reference 0) sampleArgs pinField = false
  /\ defaultConfigured pinField = true
  /\ siblingDoc (fst r) = VObj [("pin", VStr "n/a")].
Proof.
  intros o r. repeat (split; [reflexivity|]).
  destruct (@hidden_field_default (reference 0) sampleArgs pinField o [] [] []
              eq_refl eq_refl eq_refl eq_refl eq_refl eq_refl eq_refl eq_refl)
    as (_ & Hdefault & _).
  exact (proj1 (Hdefault eq_refl)).
Defined.

Lemma hidden_group_emptied_witness :
  let o := [("vault", VObj [("caption", VStr "secret")])] in
  let r := @promise (reference 1) sampleArgs vaultField (sampleState o) in
  type vaultField = Group
  /\ @fieldAffectsData (reference 1) vaultField = true
  /\ hidden vaultField = true /\ showHiddenFields sampleArgs = false
  /\ siblingDoc (fst r) = VObj [("vault", VObj [("caption", VStr "none")])].
Proof.
  intros o r. repeat (split; [reflexivity|]).
  destruct (@hidden_group_emptied (reference 1) sampleArgs vaultField o [] [] []
              eq_refl eq_refl eq_refl eq_refl eq_refl) as (_ & Hrun).
  destruct (Hrun eq_refl eq_refl) as (_ & Hdoc & _).
  exact Hdoc.
Defined.

Lemma editor_hooks_chain_witness :
  let o := [("body", VStr "abc")] in
  let s1 := fst (@fieldPhases (reference 0) quietArgs bodyField (sampleState o)) in
  let r := @promise (reference 0) quietArgs bodyField (sampleState o) in
  type bodyField = RichText
  /\ editor bodyField = EditorAdapter (Some [editorUpper])
  /\ triggerHooks quietArgs = false
  /\ @fieldPhases (reference 0) quietArgs bodyField (sampleState o) = (s1, inr false)
  /\ siblingDoc s1 = VObj o
  /\ siblingDoc (fst r) = VObj [("body", VStr "ABC")].
Proof.
  intros o s1 r. repeat (split; [reflexivity|]).
  destruct (@editor_hooks_chain (reference 0) quietArgs bodyField (sampleState o) s1
              false o (Some [editorUpper]) eq_refl eq_refl eq_refl eq_refl eq_refl)
    as (_ & _ & Hdoc & _).
  exact Hdoc.
Defined.

Lemma promise_fulfils_witness :
  let s := sampleState [("rows", VArr [VObj []; VNull])] in
  isObject (siblingDoc s)
  /\ type rowsField <> Blocks
  /\ snd (@promise (reference 1) sampleArgs rowsField s) = inr tt.
Proof.
  intros s.
  assert (Hobj : isObject (siblingDoc s)) by (eexists; reflexivity).
  assert (Hty : type rowsField <> Blocks) by discriminate.
  split; [exact Hobj|]. split; [exact Hty|].
  apply (@promise_fulfils (reference 1) sampleArgs rowsField s Hobj eq_refl Hty).
  right. discriminate.
Defined.

Lemma nullish_container_rejected_witness :
  let s := mkState VNull [] [] [] in
  let r := @promise (reference 0) sampleArgs captionField s in
  isNullish (siblingDoc s)
  /\ @fieldAffectsData (reference 0) captionField = true
  /\ (exists e, snd r = inl e
                /\ (e = TypeError \/ @configErrorOf captionField e))
  /\ siblingDoc (fst r) = VNull.
Proof.
  intros s r.
  assert (Hs : isNullish (siblingDoc s)) by (left; reflexivity).
  split; [exact Hs|]. split; [reflexivity|].
  destruct (@nullish_container_rejected (reference 0) sampleArgs captionField s
              Hs eq_refl) as (Herr & Hdoc & _).
  split; [exact Herr|exact Hdoc].
Defined.

Lemma own_key_frame_witness :
  let o := [("meta", VObj []); ("n", VNum 1)] in
  siblingDoc (sampleState o) = VObj o
  /\ exists o',
       siblingDoc (fst (@promise (reference 1) sampleArgs metaField (sampleState o)))
       = VObj o'
       /\ lookup "n" o' = Some (VNum 1).
Proof.
  intros o. split; [reflexivity|].
  destruct (@own_key_frame (reference 1) sampleArgs metaField (sampleState o) o
              eq_refl)
    as (o' & Hdoc & Hframe); try discriminate.
  exists o'. split; [exact Hdoc|].
  rewrite (Hframe "n"); [reflexivity|discriminate].
Defined.

Lemma array_rows_after_witness :
  let o := [("rows", VArr [VObj []; VNull; VNum 3])] in
  let s1 := fst (@fieldPhases (reference 1) sampleArgs rowsField (sampleState o)) in
  type rowsField = Array
  /\ @fieldPhases (reference 1) sampleArgs rowsField (sampleState o) = (s1, inr false)
  /\ siblingDoc s1 = VObj o
  /\ siblingDoc (fst (@promise (reference 1) sampleArgs rowsField (sampleState o))) =
     VObj [("rows", VArr [VObj [("caption", VStr "none")]; VNull; VNum 3])].
Proof.
  intros o s1. repeat (split; [reflexivity|]).
  destruct (@array_rows_after (reference 1) sampleArgs rowsField (sampleState o) s1
              false o eq_refl eq_refl eq_refl) as (Hrows & _).
  destruct (Hrows [VObj []; VNull; VNum 3] eq_refl) as (Hdoc & _).
  exact Hdoc.
Defined.

Lemma hoisted_value_hooked_once_witness :
  let o := [("title", VObj [("en", VStr "x"); ("de", VStr "y")])] in
  @hoistLocalizedValue (reference 0) sampleArgs (titleField true) (sampleState o) =
  (sampleState [("title", VStr "x")], inr true)
  /\ fansOut sampleArgs (titleField true) (VObj [("en", VStr "x")]) = false
  /\ exists lg',
       executeHooks sampleArgs (titleField true) ([SegName "title"], ["title"])
         (sampleState [("title", VStr "x")]) =
       (mkState (VObj [("title", VStr "A")]) [] [] lg', inr tt).
Proof.
  intros o.
  assert (Hhoist : @hoistLocalizedValue (reference 0) sampleArgs (titleField true)
                     (sampleState o) =
                   (sampleState [("title", VStr "x")], inr true)) by reflexivity.
  split; [exact Hhoist|].
  destruct (@hoisted_value_hooked_once (reference 0) sampleArgs (titleField true)
              (sampleState o) (sampleState [("title", VStr "x")]) Hhoist)
    as (Hfan & _ & Hchain).
  split; [apply Hfan|].
  exact (Hchain ([SegName "title"], ["title"]) [hookA; hookUpper] eq_refl eq_refl
           [("title", VStr "x")] [] [] []).
Defined.

Lemma fan_out_keeps_locales_witness :
  let kvs := [("en", VStr "x"); ("de", VStr "y")] in
  let o := [("title", VObj kvs)] in
  triggerHooks allLocalesArgs = true
  /\ hooks_afterRead (titleField true) = Some [hookA; hookUpper]
  /\ lookup (slotKey (titleField true)) o = Some (VObj kvs)
  /\ exists kvs',
       siblingDoc
         (fst (executeHooks allLocalesArgs (titleField true)
                 ([SegName "title"], ["title"]) (sampleState o))) =
       VObj [("title", VObj kvs')]
       /\ map fst kvs' = ["en"; "de"]
       /\ List.length
            (fanOutCalls allLocalesArgs (titleField true)
               ([SegName "title"], ["title"]) 0 [hookA; hookUpper] o) = 4.
Proof.
  intros kvs o. repeat (split; [reflexivity|]).
  destruct (@fan_out_keeps_locales allLocalesArgs (titleField true)
              ([SegName "title"], ["title"]) [hookA; hookUpper] o kvs [] [] []
              eq_refl eq_refl eq_refl eq_refl) as (kvs' & Hrun & Hkeys & Hlen).
  exists kvs'. unfold sampleState. rewrite Hrun.
  split; [reflexivity|]. split; [exact Hkeys|exact Hlen].
Defined.

Lemma default_fills_missing_value_witness :
  let o := [("slogan", VObj [("de", VStr "Hallo")])] in
  let r := @promise (reference 0) sampleArgs sloganField (sampleState o) in
  @fieldAffectsData (reference 0) sloganField = true
  /\ hidden sloganField = false
  /\ @hooksRun (reference 0) sampleArgs sloganField = false
  /\ defaultConfigured sloganField = true
  /\ @hoistingApplies (reference 0) sampleArgs sloganField
       (getPropOpt (VObj o) "slogan") = true
  /\ siblingDoc (fst r) = VObj [("slogan", VStr "none")].
Proof.
  intros o r. repeat (split; [reflexivity|]).
  destruct (@default_fills_missing_value (reference 0) sampleArgs sloganField o
              [] [] [] eq_refl eq_refl eq_refl eq_refl eq_refl
              (fun _ => eq_refl) eq_refl) as (_ & Hmissing & _).
  exact (Hmissing eq_refl eq_refl eq_refl).
Defined.

Lemma access_after_hooks_witness :
  let o := [("title", VStr "x")] in
  let paths := ([SegName "title"], ["title"]) in
  let r := (executeHooks sampleArgs sealedTitleField paths ;;
            executeAccessControl sampleArgs sealedTitleField)%M (sampleState o) in
  triggerHooks sampleArgs = true
  /\ hooks_afterRead sealedTitleField = Some [hookA; hookUpper]
  /\ triggerAccessControl sampleArgs = true
  /\ access_read sealedTitleField = Some denyAll
  /\ overrideAccess sampleArgs = false
  /\ siblingDoc (fst r) = VObj []
  /\ log (fst r) =
     hookCalls sampleArgs sealedTitleField paths 0 [hookA; hookUpper] o
     ++ [EAccessRead (accessArgs sampleArgs (VObj [("title", VStr "A")])) false].
Proof.
  intros o paths r. repeat (split; [reflexivity|]).
  destruct (@access_after_hooks sampleArgs sealedTitleField paths
              [hookA; hookUpper] denyAll o [] [] []
              eq_refl eq_refl eq_refl eq_refl eq_refl eq_refl) as (Hrun & _).
  unfold r, sampleState. rewrite Hrun. split; reflexivity.
Defined.

Lemma editor_hooks_after_denial_witness :
  let o := [("body", VStr "abc")] in
  let r := @promise (reference 0) sampleArgs sealedBodyField (sampleState o) in
  type sealedBodyField = RichText
  /\ access_read sealedBodyField = Some denyAll
  /\ overrideAccess sampleArgs = false
  /\ (exists x, In (EAccessRead x false) (log (fst r)))
  /\ siblingDoc (fst r) = VObj [("body", VStr "empty")].
Proof.
  intros o r. repeat (split; [reflexivity|]).
  destruct (@editor_hooks_after_denial (reference 0) sampleArgs sealedBodyField o
              [] [] [] (Some [editorUpper]) denyAll
              eq_refl eq_refl eq_refl eq_refl eq_refl eq_refl eq_refl eq_refl
              eq_refl eq_refl) as (_ & Hdoc & Hlog & _).
  split; [|exact Hdoc].
  unfold r, sampleState. rewrite Hlog. eexists. left. reflexivity.
Defined.

Lemma blocks_rows_after_witness :
  let o := [("layout", VArr [heroRow; strayRow])] in
  let s1 := fst (@fieldPhases (reference 1) sampleArgs layoutField (sampleState o)) in
  type layoutField = Blocks
  /\ @fieldPhases (reference 1) sampleArgs layoutField (sampleState o) = (s1, inr false)
  /\ siblingDoc s1 = VObj o
  /\ siblingDoc (fst (@promise (reference 1) sampleArgs layoutField (sampleState o))) =
     VObj [("layout",
            VArr [VObj [("blockType", VStr "hero"); ("caption", VStr "none")];
                  strayRow])].
Proof.
  intros o s1. repeat (split; [reflexivity|]).
  destruct (@blocks_rows_after (reference 1) sampleArgs layoutField (sampleState o) s1
              false o [heroRow; strayRow] eq_refl eq_refl eq_refl eq_refl)
    as (_ & Hdoc & _).
  - repeat constructor.
  - exact Hdoc.
Defined.


Lemma editor_hooks_fan_out_witness :
  let kvs := [("en", VStr "a"); ("de", VStr "b")] in
  let o := [("story", VObj kvs)] in
  let s1 :=
    fst (@fieldPhases (reference 0) allLocalesArgs taggedStoryField (sampleState o)) in
  let r := @promise (reference 0) allLocalesArgs taggedStoryField (sampleState o) in
  type taggedStoryField = RichText
  /\ @fieldPhases (reference 0) allLocalesArgs taggedStoryField (sampleState o)
     = (s1, inr false)
  /\ siblingDoc s1 = VObj o
  /\ siblingDoc (fst r)
     = VObj [("story", VObj [("en", VStr "en:a"); ("de", VStr "de:b")])]
  /\ populationPromises (fst r)
     = [EditorPopulation Fulfilled; EditorPopulation Fulfilled].
Proof.
  intros kvs o s1 r. repeat (split; [reflexivity|]).
  destruct (@editor_hooks_fan_out (reference 0) allLocalesArgs taggedStoryField
              (sampleState o) s1 false o kvs (Some [editorTag])
              eq_refl eq_refl eq_refl eq_refl eq_refl eq_refl)
    as (Hr & _).
  unfold r. rewrite Hr. split; reflexivity.
Defined.

Lemma second_editor_check_passes_witness :
  let s0 := sampleState [("body", VStr "abc")] in
  let s1 := fst (@fieldPhases (reference 0) sampleArgs bodyField s0) in
  type bodyField = RichText
  /\ @fieldPhases (reference 0) sampleArgs bodyField s0 = (s1, inr false)
  /\ editorError bodyField = None
  /\ checkEditor bodyField s1 = (s1, inr tt).
Proof.
  intros s0 s1. split; [reflexivity|]. split; [reflexivity|].
  destruct (@second_editor_check_passes (reference 0) sampleArgs bodyField s0 s1
              false eq_refl eq_refl) as (_ & Hnone & Hcheck & _).
  split; [exact Hnone|apply Hcheck].
Defined.

Lemma missing_group_created_witness :
  let o := [("n", VNum 1)] in
  let r := @promise (reference 1) sampleArgs metaField (sampleState o) in
  type metaField = Group
  /\ isUndefined (getPropOpt (VObj o) (slotKey metaField)) = true
  /\ siblingDoc (fst r) = VObj [("n", VNum 1); ("meta", VObj [("caption", VStr "none")])].
Proof.
  intros o r. split; [reflexivity|]. split; [reflexivity|].
  destruct (@missing_group_created (reference 1) sampleArgs metaField o [] [] []
              eq_refl eq_refl) as (_ & Hrun).
  destruct (Hrun eq_refl eq_refl) as (_ & Hdoc & _).
  exact Hdoc.
Defined.

Lemma blocks_slot_reset_witness :
  let o := [("n", VNum 1)] in
  let s1 := fst (@fieldPhases (reference 1) sampleArgs layoutField (sampleState o)) in
  type layoutField = Blocks
  /\ @fieldPhases (reference 1) sampleArgs layoutField (sampleState o) = (s1, inr false)
  /\ siblingDoc s1 = VObj o
  /\ siblingDoc (fst (@promise (reference 1) sampleArgs layoutField (sampleState o))) =
     VObj [("n", VNum 1); ("layout", VArr [])].
Proof.
  intros o s1. split; [reflexivity|]. split; [reflexivity|]. split; [reflexivity|].
  destruct (@blocks_slot_reset (reference 1) sampleArgs layoutField (sampleState o)
              s1 false o eq_refl eq_refl eq_refl) as (Hrun & _).
  - intros rows. discriminate.
  - right. intros kvs. discriminate.
  - rewrite Hrun. reflexivity.
Defined.

(** On a relationship field with a default and no stored value the default
    resolver is called before the population task is pushed, and the task
    holds the sibling container with the default in it. *)
Example default_before_population :
  let f := mkField Relationship (Some "owner") false false None None
             (Some (DefaultLiteral (VNum 1))) EditorAbsent [] [] [] in
  let r := @promise (reference 0) sampleArgs f (sampleState []) in
  exists x t, log (fst r) = [EDefault x (VNum 1); EPopulate t]
              /\ p_siblingDoc t = VObj [("owner", VNum 1)].
Proof. intros f r. eexists _, _. split; reflexivity. Qed.
